(** * PEG.js compiler core: passes, emitter and emitted parser runtime

    A shallow embedding of [src/passes.js] and [src/emitter.js].

    - JavaScript strings are sequences of UTF-16 code units: [list N].
    - The AST is an inductive type; the passes are functions on it.
    - The emitter produces parser source text from templates.  The text of
      the per-operator snippets is represented by a small statement
      language whose constructors are the lines of the templates, and the
      emitted parser is run by an interpreter of that language.
    - The helper functions of the emitted parser ([quote], [matchFailed],
      [buildErrorMessage], [computeErrorPosition]) are Rocq functions. *)

From Stdlib Require Import ZArith NArith List String Ascii Lia Zpow_facts.
From Stdlib Require Import Sorting.Sorted Permutation.
From stdpp Require Import base tactics option list numbers gmap strings pretty.

Set Warnings "-register-all,-clear-no-such-hyp".

Local Open Scope N_scope.
Local Open Scope list_scope.

(* ===================================================================== *)
(** * Part I. Definitions                                                 *)
(* ===================================================================== *)

(** ** JavaScript strings *)

Abbreviation jsstring := (list N) (only parsing).

(** A string literal of the source, as code units. *)
Definition js (s : string) : jsstring :=
  map N_of_ascii (list_ascii_of_string s).

(** Code units are 16 bits wide. *)
Definition wf_string (s : jsstring) : Prop := Forall (fun c => c < 65536) s.

Definition ch_bslash : N := 92.
Definition ch_dquote : N := 34.
Definition ch_cr : N := 13.
Definition ch_lf : N := 10.
Definition ch_tab : N := 9.
Definition ch_ff : N := 12.
Definition ch_ls : N := 8232.   (* U+2028 *)
Definition ch_ps : N := 8233.   (* U+2029 *)

Definition nl : jsstring := [ch_lf].

(** [Array.prototype.join]. *)
Fixpoint join (sep : jsstring) (l : list jsstring) : jsstring :=
  match l with
  | [] => []
  | [x] => x
  | x :: rest => x ++ sep ++ join sep rest
  end.

(** [String.prototype.split] on a one-character separator. *)
Fixpoint split_on (sep : N) (s : jsstring) : list jsstring :=
  match s with
  | [] => [[]]
  | c :: rest =>
      if c =? sep then [] :: split_on sep rest
      else match split_on sep rest with
           | [] => [[c]]
           | l :: ls => (c :: l) :: ls
           end
  end.

(** [s.replace(/c/g, by)] for a pattern that matches the single character
    [c], and [s.replace(/[class]/g, f)] for a one-character class. *)
Definition replace_char (c : N) (by_ : jsstring) (s : jsstring) : jsstring :=
  flat_map (fun x => if x =? c then by_ else [x]) s.

Definition replace_class (p : N -> bool) (f : N -> jsstring) (s : jsstring)
  : jsstring :=
  flat_map (fun x => if p x then f x else [x]) s.

(** Number to string, for non-negative integers ([String(n)], ['' + n]). *)
Definition string_of_nat (n : nat) : jsstring := js (pretty n).

(** ** The helpers the emitter writes into every parser
    ([padLeft], [escape], [quote]; emitter.js 160-207, in sync with
    utils.js) *)

(** [n.toString(16).toUpperCase()]: one hexadecimal digit. *)
Definition hex_digit_upper (d : N) : N :=
  if d <? 10 then 48 + d else 55 + d.

Fixpoint toString16_go (fuel : nat) (n : N) (acc : jsstring) : jsstring :=
  match fuel with
  | O => acc
  | S fuel' =>
      let acc' := hex_digit_upper (n mod 16) :: acc in
      if n / 16 =? 0 then acc' else toString16_go fuel' (n / 16) acc'
  end.

(** [charCode.toString(16).toUpperCase()].  A number has no more hexadecimal
    digits than binary ones, so the fuel is never exhausted. *)
Definition toString16_upper (n : N) : jsstring :=
  toString16_go (S (N.size_nat n)) n [].

(** [padLeft(input, padding, length)]: the loop runs
    [length - input.length] times, not at all when that is negative. *)
Definition padLeft (input : jsstring) (padding : jsstring) (length : nat)
  : jsstring :=
  let padLength := (length - List.length input)%nat in
  Nat.iter padLength (fun result => padding ++ result) input.

(** [escape(ch)]. *)
Definition escape (charCode : N) : jsstring :=
  let '(escapeChar, length) :=
    if charCode <=? 255 then (120, 2%nat) (* 'x' *)
    else (117, 4%nat) (* 'u' *) in
  [ch_bslash; escapeChar] ++ padLeft (toString16_upper charCode) [48] length.

(** The class [[^\x20-\x7F]]. *)
Definition non_ascii (c : N) : bool := negb ((32 <=? c) && (c <=? 127)).

(** [quote(s)]: the chain of [replace] calls, in the order of the source. *)
Definition quote (s : jsstring) : jsstring :=
  [ch_dquote]
  ++ replace_class non_ascii escape
       (replace_char ch_ff [ch_bslash; 102]         (* form feed       -> \f *)
       (replace_char ch_tab [ch_bslash; 116]        (* tab             -> \t *)
       (replace_char ch_lf [ch_bslash; 110]         (* line feed       -> \n *)
       (replace_char ch_cr [ch_bslash; 114]         (* carriage return -> \r *)
       (replace_char ch_dquote [ch_bslash; ch_dquote]
       (replace_char ch_bslash [ch_bslash; ch_bslash] s))))))
  ++ [ch_dquote].

(** *** Reading a string literal back (ECMA-262 5th ed., 7.8.4)

    This is the host language's reading of a double-quoted literal; it is
    the yardstick of the round-trip property of [quote], not code of the
    repository. *)

Definition hex_value (c : N) : option N :=
  if (48 <=? c) && (c <=? 57) then Some (c - 48)
  else if (65 <=? c) && (c <=? 70) then Some (c - 55)
  else if (97 <=? c) && (c <=? 102) then Some (c - 87)
  else None.

Definition hex2 (a b : N) : option N :=
  match hex_value a, hex_value b with
  | Some x, Some y => Some (16 * x + y)
  | _, _ => None
  end.

Definition hex4 (a b c d : N) : option N :=
  match hex2 a b, hex2 c d with
  | Some x, Some y => Some (256 * x + y)
  | _, _ => None
  end.

Definition is_line_terminator (c : N) : bool :=
  (c =? ch_lf) || (c =? ch_cr) || (c =? ch_ls) || (c =? ch_ps).

Definition is_decimal_digit (c : N) : bool := (48 <=? c) && (c <=? 57).

(** SingleEscapeCharacter and NonEscapeCharacter. *)
Definition char_escape_value (c : N) : N :=
  if c =? 98 then 8            (* \b *)
  else if c =? 116 then 9      (* \t *)
  else if c =? 110 then 10     (* \n *)
  else if c =? 118 then 11     (* \v *)
  else if c =? 102 then 12     (* \f *)
  else if c =? 114 then 13     (* \r *)
  else c.                      (* the character itself otherwise *)

(** The characters between the quotes, up to and including the closing
    quote, which must end the text. *)
Fixpoint read_double_string_characters (s : jsstring) : option jsstring :=
  match s with
  | [] => None
  | c :: rest =>
      if c =? ch_dquote then
        match rest with [] => Some [] | _ :: _ => None end
      else if is_line_terminator c then None
      else if c =? ch_bslash then
        match rest with
        | [] => None
        | e :: rest1 =>
            if e =? 120 then                       (* \xHH *)
              match rest1 with
              | a :: b :: rest2 =>
                  match hex2 a b, read_double_string_characters rest2 with
                  | Some v, Some r => Some (v :: r)
                  | _, _ => None
                  end
              | _ => None
              end
            else if e =? 117 then                  (* \uHHHH *)
              match rest1 with
              | a :: b :: c' :: d :: rest2 =>
                  match hex4 a b c' d, read_double_string_characters rest2 with
                  | Some v, Some r => Some (v :: r)
                  | _, _ => None
                  end
              | _ => None
              end
            else if e =? 48 then                   (* \0, not before a digit *)
              match rest1 with
              | d :: _ =>
                  if is_decimal_digit d then None
                  else option_map (cons 0) (read_double_string_characters rest1)
              | [] => None
              end
            else if is_decimal_digit e then None
            else if is_line_terminator e then      (* line continuation *)
              match rest1 with
              | f :: rest2 =>
                  if (e =? ch_cr) && (f =? ch_lf)
                  then read_double_string_characters rest2
                  else read_double_string_characters rest1
              | [] => None
              end
            else option_map (cons (char_escape_value e))
                   (read_double_string_characters rest1)
        end
      else option_map (cons c) (read_double_string_characters rest)
  end.

Definition read_string_literal (lit : jsstring) : option jsstring :=
  match lit with
  | c :: rest => if c =? ch_dquote then read_double_string_characters rest
                 else None
  | [] => None
  end.

(** *** Closed forms used to state the properties of [quote] *)

(** What [quote] does to one character, in closed form. *)
Definition quote_char (c : N) : jsstring :=
  if c =? ch_bslash then [ch_bslash; ch_bslash]
  else if c =? ch_dquote then [ch_bslash; ch_dquote]
  else if c =? ch_cr then [ch_bslash; 114]
  else if c =? ch_lf then [ch_bslash; 110]
  else if c =? ch_tab then [ch_bslash; 116]
  else if c =? ch_ff then [ch_bslash; 102]
  else if (32 <=? c) && (c <=? 127) then [c]
  else if c <=? 255 then
    [ch_bslash; 120; hex_digit_upper (c / 16); hex_digit_upper (c mod 16)]
  else
    [ch_bslash; 117; hex_digit_upper (c / 4096);
     hex_digit_upper (c / 256 mod 16); hex_digit_upper (c / 16 mod 16);
     hex_digit_upper (c mod 16)].

(** The text between the quotes. *)
Definition quote_body (s : jsstring) : jsstring :=
  replace_class non_ascii escape
    (replace_char ch_ff [ch_bslash; 102]
    (replace_char ch_tab [ch_bslash; 116]
    (replace_char ch_lf [ch_bslash; 110]
    (replace_char ch_cr [ch_bslash; 114]
    (replace_char ch_dquote [ch_bslash; ch_dquote]
    (replace_char ch_bslash [ch_bslash; ch_bslash] s)))))).

(** A hexadecimal escape: [\xHH] up to 0xFF, [\uHHHH] above, in upper
    case. *)
Definition hex_escape (c : N) : jsstring :=
  if c <=? 255 then
    [ch_bslash; 120; hex_digit_upper (c / 16); hex_digit_upper (c mod 16)]
  else
    [ch_bslash; 117; hex_digit_upper (c / 4096);
     hex_digit_upper (c / 256 mod 16); hex_digit_upper (c / 16 mod 16);
     hex_digit_upper (c mod 16)].

(** The characters the claim speaks of: 0x00-0x1F and 0x80 upward. *)
Definition control_or_high (c : N) : bool := (c <=? 31) || (128 <=? c).

(** The characters [quote] writes with a two-character escape. *)
Definition two_char_escaped (c : N) : bool :=
  (c =? ch_bslash) || (c =? ch_dquote) || (c =? ch_cr) || (c =? ch_lf)
  || (c =? ch_tab) || (c =? ch_ff).

(** The second half of the round-trip property as the specification words
    it: every character of [s] in 0x00-0x1F or from 0x80 upward is written
    as its hexadecimal escape. *)
Definition hex_escapes_only (s : jsstring) : Prop :=
  exists render : N -> jsstring,
    quote s = [ch_dquote] ++ flat_map render s ++ [ch_dquote] /\
    forall c, In c s -> control_or_high c = true -> render c = hex_escape c.

(** ** Values and state of an emitted parser *)

(** The values a result variable can hold: [null], strings, arrays, and
    what user actions return. *)
Inductive value : Type :=
  | VNull
  | VUndefined
  | VStr (s : jsstring)
  | VNum (z : Z)
  | VArr (items : list value).

Definition is_null (v : value) : bool :=
  match v with VNull => true | _ => false end.

(** The variables declared at the top of [parse] (emitter.js 121-125).
    [evaluated] is not a variable of the parser: it lists, latest first, the
    rule bodies that were run, as (rule name, entry position). *)
Record pstate : Type := mkPstate {
  pos : nat;
  reportFailures : Z;
  rightmostFailuresPos : nat;
  rightmostFailuresExpected : list jsstring;
  cache : gmap jsstring (nat * value);
  evaluated : list (jsstring * nat)
}.

Definition initial_pstate : pstate :=
  {| pos := 0; reportFailures := 0; rightmostFailuresPos := 0;
     rightmostFailuresExpected := []; cache := ∅; evaluated := [] |}.

Definition set_pos (p : nat) (st : pstate) : pstate :=
  {| pos := p; reportFailures := reportFailures st;
     rightmostFailuresPos := rightmostFailuresPos st;
     rightmostFailuresExpected := rightmostFailuresExpected st;
     cache := cache st; evaluated := evaluated st |}.

Definition set_reportFailures (n : Z) (st : pstate) : pstate :=
  {| pos := pos st; reportFailures := n;
     rightmostFailuresPos := rightmostFailuresPos st;
     rightmostFailuresExpected := rightmostFailuresExpected st;
     cache := cache st; evaluated := evaluated st |}.

Definition set_failures (p : nat) (l : list jsstring) (st : pstate) : pstate :=
  {| pos := pos st; reportFailures := reportFailures st;
     rightmostFailuresPos := p; rightmostFailuresExpected := l;
     cache := cache st; evaluated := evaluated st |}.

Definition set_cache (c : gmap jsstring (nat * value)) (st : pstate) : pstate :=
  {| pos := pos st; reportFailures := reportFailures st;
     rightmostFailuresPos := rightmostFailuresPos st;
     rightmostFailuresExpected := rightmostFailuresExpected st;
     cache := c; evaluated := evaluated st |}.

Definition log_evaluation (e : jsstring * nat) (st : pstate) : pstate :=
  {| pos := pos st; reportFailures := reportFailures st;
     rightmostFailuresPos := rightmostFailuresPos st;
     rightmostFailuresExpected := rightmostFailuresExpected st;
     cache := cache st; evaluated := e :: evaluated st |}.

(** ** Failure tracking and error reporting (emitter.js 209-285) *)

(** [matchFailed(failure)]. *)
Definition matchFailed (failure : jsstring) (st : pstate) : pstate :=
  if (pos st <? rightmostFailuresPos st)%nat then st
  else
    let st1 :=
      if (rightmostFailuresPos st <? pos st)%nat
      then set_failures (pos st) [] st
      else st in
    set_failures (rightmostFailuresPos st1)
      (rightmostFailuresExpected st1 ++ [failure]) st1.

(** The order of [Array.prototype.sort] without a comparison function:
    strings compared code unit by code unit. *)
Fixpoint jsstring_leb (a b : jsstring) : bool :=
  match a, b with
  | [], _ => true
  | _ :: _, [] => false
  | x :: a', y :: b' =>
      if x <? y then true else if y <? x then false else jsstring_leb a' b'
  end.

Fixpoint insert_sorted (x : jsstring) (l : list jsstring) : list jsstring :=
  match l with
  | [] => [x]
  | y :: l' => if jsstring_leb x y then x :: l else y :: insert_sorted x l'
  end.

(** [failuresExpected.sort()]. *)
Definition sort_strings (l : list jsstring) : list jsstring :=
  fold_right insert_sorted [] l.

(** The loop of [buildExpected] that fills [failuresExpectedUnique];
    [lastFailure] starts as [null]. *)
Fixpoint unique_loop (lastFailure : option jsstring) (l : list jsstring)
  : list jsstring :=
  match l with
  | [] => []
  | x :: l' =>
      if bool_decide (Some x = lastFailure) then unique_loop lastFailure l'
      else x :: unique_loop (Some x) l'
  end.

(** [failuresExpectedUnique.slice(0, length - 1)]. *)
Definition all_but_last (l : list jsstring) : list jsstring :=
  take (List.length l - 1) l.

(** The [switch] of [buildExpected]. *)
Definition render_expected (u : list jsstring) : jsstring :=
  match u with
  | [] => js "end of input"
  | [x] => x
  | _ => join (js ", ") (all_but_last u) ++ js " or " ++ List.last u []
  end.

Definition buildExpected (failuresExpected : list jsstring) : jsstring :=
  render_expected (unique_loop None (sort_strings failuresExpected)).

(** [input.charAt(i)]: the empty string past the end. *)
Definition charAt (input : jsstring) (i : nat) : jsstring :=
  match input !! i with Some c => [c] | None => [] end.

Definition buildErrorMessage (input : jsstring) (st : pstate) : jsstring :=
  let expected := buildExpected (rightmostFailuresExpected st) in
  let actualPos := Nat.max (pos st) (rightmostFailuresPos st) in
  let actual :=
    if (actualPos <? List.length input)%nat
    then quote (charAt input actualPos)
    else js "end of input" in
  js "Expected " ++ expected ++ js " but " ++ actual ++ js " found.".

(** The three local variables of [computeErrorPosition]. *)
Record errpos : Type := mkErrpos { line : nat; column : nat; seenCR : bool }.

(** One turn of the loop of [computeErrorPosition]; [ch] is
    [input.charAt(i)], [None] standing for the empty string. *)
Definition errpos_step (s : errpos) (ch : option N) : errpos :=
  match ch with
  | Some c =>
      if c =? ch_lf then
        {| line := if seenCR s then line s else S (line s);
           column := 1; seenCR := false |}
      else if (c =? ch_cr) || (c =? ch_ls) || (c =? ch_ps) then
        {| line := S (line s); column := 1; seenCR := true |}
      else {| line := line s; column := S (column s); seenCR := false |}
  | None => {| line := line s; column := S (column s); seenCR := false |}
  end.

Definition computeErrorPosition (input : jsstring) (rightmostFailuresPos : nat)
  : nat * nat :=
  let final :=
    fold_left (fun s i => errpos_step s (input !! i))
      (seq 0 rightmostFailuresPos)
      {| line := 1; column := 1; seenCR := false |} in
  (line final, column final).

(** The position as the specification words it: a line feed starts a new
    line unless the character just before it is a carriage return. *)
Definition claimed_step (prev : option N) (lc : nat * nat) (ch : option N)
  : nat * nat :=
  match ch with
  | Some c =>
      if c =? ch_lf then
        (if bool_decide (prev = Some ch_cr) then fst lc else S (fst lc), 1%nat)
      else if (c =? ch_cr) || (c =? ch_ls) || (c =? ch_ps) then (S (fst lc), 1%nat)
      else (fst lc, S (snd lc))
  | None => (fst lc, S (snd lc))
  end.

Fixpoint claimed_position_from (input : jsstring) (n : nat) (i : nat)
  (prev : option N) (lc : nat * nat) : nat * nat :=
  match n with
  | O => lc
  | S n' =>
      claimed_position_from input n' (S i) (input !! i)
        (claimed_step prev lc (input !! i))
  end.

Definition claimed_error_position (input : jsstring) (rightmostFailuresPos : nat)
  : nat * nat :=
  claimed_position_from input rightmostFailuresPos 0 None (1%nat, 1%nat).

(** ** The grammar AST (spec 3.1; the node types of both source files) *)

(** An element of [class.parts]: one character, or a two-element array. *)
Inductive class_part : Type :=
  | part_char (c : N)
  | part_range (lo hi : N).

Inductive expr : Type :=
  | choice (alternatives : list expr)
  | sequence (elements : list expr)
  | labeled (label : jsstring) (expression : expr)
  | simple_and (expression : expr)
  | simple_not (expression : expr)
  | semantic_and (code : jsstring)
  | semantic_not (code : jsstring)
  | optional (expression : expr)
  | zero_or_more (expression : expr)
  | one_or_more (expression : expr)
  | action (expression : expr) (code : jsstring)
  | rule_ref (name : jsstring)
  | literal (value : jsstring)
  | any
  | class (parts : list class_part) (inverted : bool) (rawText : jsstring).

Record rule : Type := mkRule {
  name : jsstring;
  displayName : option jsstring;      (* [None] is [null] *)
  expression : expr
}.

(** [rules] is an object used as a map from rule names to rules; the list
    keeps its keys in the order [for ... in] visits them.  Keys are
    unique, as the properties of an object are. *)
Record grammar : Type := mkGrammar {
  initializer : option jsstring;      (* [None] is [null] *)
  startRule : jsstring;
  rules : list (jsstring * rule)
}.

(** [rules[key]]. *)
Fixpoint lookup_rule (key : jsstring) (rs : list (jsstring * rule))
  : option rule :=
  match rs with
  | [] => None
  | (k, r) :: rs' => if bool_decide (k = key) then Some r else lookup_rule key rs'
  end.

(** [delete rules[key]]. *)
Definition delete_rule (key : jsstring) (rs : list (jsstring * rule))
  : list (jsstring * rule) :=
  List.filter (fun kr => negb (bool_decide (fst kr = key))) rs.

Definition keys (rs : list (jsstring * rule)) : list jsstring := map fst rs.

(** A well-formed grammar object: distinct keys, each rule stored under its
    own name. *)
Definition wf_grammar (ast : grammar) : Prop :=
  NoDup (keys (rules ast))
  /\ forall k r, In (k, r) (rules ast) -> name r = k.

(** ** Pass [proxyRules] (passes.js 12-79) *)

Definition isProxyRule (node : rule) : bool :=
  match expression node with rule_ref _ => true | _ => false end.

(** [node.expression.name] of a proxy rule. *)
Definition proxy_target (node : rule) : option jsstring :=
  match expression node with rule_ref n => Some n | _ => None end.

(** The visitor [replace]: [replaceInExpression], [replaceInSubnodes], [nop]
    and the handler of [rule_ref]. *)
Fixpoint replace (from to : jsstring) (node : expr) : expr :=
  match node with
  | choice alternatives => choice (map (replace from to) alternatives)
  | sequence elements => sequence (map (replace from to) elements)
  | labeled l e => labeled l (replace from to e)
  | simple_and e => simple_and (replace from to e)
  | simple_not e => simple_not (replace from to e)
  | semantic_and c => semantic_and c
  | semantic_not c => semantic_not c
  | optional e => optional (replace from to e)
  | zero_or_more e => zero_or_more (replace from to e)
  | one_or_more e => one_or_more (replace from to e)
  | action e c => action (replace from to e) c
  | rule_ref n => if bool_decide (n = from) then rule_ref to else rule_ref n
  | literal v => literal v
  | any => any
  | class p i t => class p i t
  end.

Definition replace_in_rule (from to : jsstring) (r : rule) : rule :=
  {| name := name r; displayName := displayName r;
     expression := replace from to (expression r) |}.

(** [replaceRuleRefs(ast, from, to)]: the [grammar] handler visits every
    rule. *)
Definition replaceRuleRefs (ast : grammar) (from to : jsstring) : grammar :=
  {| initializer := initializer ast;
     startRule := startRule ast;
     rules := map (fun kr => (fst kr, replace_in_rule from to (snd kr)))
                  (rules ast) |}.

(** The body of the loop of [proxyRules], for the key [key]. *)
Definition proxyRules_step (ast : grammar) (key : jsstring) : grammar :=
  match lookup_rule key (rules ast) with
  | Some r =>
      match proxy_target r with
      | Some target =>
          let ast1 := replaceRuleRefs ast (name r) target in
          let start1 :=
            if bool_decide (key = startRule ast1) then
              match lookup_rule key (rules ast1) with
              | Some r1 =>
                  match proxy_target r1 with
                  | Some t1 => t1
                  | None => startRule ast1
                  end
              | None => startRule ast1
              end
            else startRule ast1 in
          {| initializer := initializer ast1;
             startRule := start1;
             rules := delete_rule key (rules ast1) |}
      | None => ast
      end
  | None => ast
  end.

(** [for (var name in ast.rules)]: the keys present when the loop starts,
    in order; the loop deletes no key but the one it is at. *)
Definition proxyRules (ast : grammar) : grammar :=
  fold_left proxyRules_step (keys (rules ast)) ast.

(** Renaming of rule references by a function on names. *)
Fixpoint rename (f : jsstring -> jsstring) (node : expr) : expr :=
  match node with
  | choice alternatives => choice (map (rename f) alternatives)
  | sequence elements => sequence (map (rename f) elements)
  | labeled l e => labeled l (rename f e)
  | simple_and e => simple_and (rename f e)
  | simple_not e => simple_not (rename f e)
  | semantic_and c => semantic_and c
  | semantic_not c => semantic_not c
  | optional e => optional (rename f e)
  | zero_or_more e => zero_or_more (rename f e)
  | one_or_more e => one_or_more (rename f e)
  | action e c => action (rename f e) c
  | rule_ref n => rule_ref (f n)
  | literal v => literal v
  | any => any
  | class p i t => class p i t
  end.

Definition rename_rule (f : jsstring -> jsstring) (r : rule) : rule :=
  {| name := name r; displayName := displayName r;
     expression := rename f (expression r) |}.

(** The target of the proxy rule called [n], or [n] itself when no proxy
    rule has that name. *)
Definition resolve_proxy (rs : list (jsstring * rule)) (n : jsstring)
  : jsstring :=
  match lookup_rule n rs with
  | Some r => match proxy_target r with Some t => t | None => n end
  | None => n
  end.

(** The rules that are not proxies, their references renamed. *)
Definition keep_renamed (f : jsstring -> jsstring)
  (removed : jsstring -> bool) (rs : list (jsstring * rule))
  : list (jsstring * rule) :=
  map (fun kr => (fst kr, rename_rule f (snd kr)))
      (List.filter (fun kr => negb (removed (fst kr) && isProxyRule (snd kr))) rs).

(** The outcome the specification describes: proxies are gone, and what
    named a proxy names its target. *)
Definition proxyRules_claim (ast : grammar) : Prop :=
  rules (proxyRules ast)
  = keep_renamed (resolve_proxy (rules ast)) (fun _ => true) (rules ast)
  /\ startRule (proxyRules ast) = resolve_proxy (rules ast) (startRule ast).

(** No proxy rule delegates to another proxy rule. *)
Definition chain_free (ast : grammar) : Prop :=
  forall k r t r',
    In (k, r) (rules ast) -> proxy_target r = Some t ->
    lookup_rule t (rules ast) = Some r' -> isProxyRule r' = false.

(** ** Pass [stackDepths] (passes.js 87-155) *)

(** The numbers the pass computes with: integers and [-Infinity], which is
    what [Math.max] returns for no arguments. *)
Inductive jsnumber : Type :=
  | NegInfinity
  | Int (z : Z).

Definition js_add (a b : jsnumber) : jsnumber :=
  match a, b with
  | Int x, Int y => Int (x + y)
  | _, _ => NegInfinity
  end.

Definition js_max (a b : jsnumber) : jsnumber :=
  match a, b with
  | Int x, Int y => Int (Z.max x y)
  | NegInfinity, y => y
  | x, NegInfinity => x
  end.

(** [Math.max.apply(null, l)]. *)
Definition Math_max (l : list jsnumber) : jsnumber :=
  fold_right js_max NegInfinity l.

(** The property [resultStackDepth] the visitor [compute] gives a node. *)
Fixpoint resultStackDepth (node : expr) : jsnumber :=
  match node with
  | choice alternatives => Math_max (map resultStackDepth alternatives)
  | sequence elements =>
      js_add (Int 1)
        (Math_max
           ((fix go (i : Z) (l : list expr) : list jsnumber :=
               match l with
               | [] => []
               | e :: l' => js_add (Int i) (resultStackDepth e) :: go (i + 1)%Z l'
               end) 0%Z elements))
  | labeled _ e => js_add (resultStackDepth e) (Int 0)
  | simple_and e => js_add (resultStackDepth e) (Int 0)
  | simple_not e => js_add (resultStackDepth e) (Int 0)
  | semantic_and _ => Int 0
  | semantic_not _ => Int 0
  | optional e => js_add (resultStackDepth e) (Int 0)
  | zero_or_more e => js_add (resultStackDepth e) (Int 1)
  | one_or_more e => js_add (resultStackDepth e) (Int 1)
  | action e _ => js_add (resultStackDepth e) (Int 0)
  | rule_ref _ => Int 0
  | literal _ => Int 0
  | any => Int 0
  | class _ _ _ => Int 0
  end.

(** The property [posStackDepth]. *)
Fixpoint posStackDepth (node : expr) : jsnumber :=
  match node with
  | choice alternatives => Math_max (map posStackDepth alternatives)
  | sequence elements => js_add (Int 1) (Math_max (map posStackDepth elements))
  | labeled _ e => js_add (posStackDepth e) (Int 0)
  | simple_and e => js_add (posStackDepth e) (Int 1)
  | simple_not e => js_add (posStackDepth e) (Int 1)
  | semantic_and _ => Int 0
  | semantic_not _ => Int 0
  | optional e => js_add (posStackDepth e) (Int 0)
  | zero_or_more e => js_add (posStackDepth e) (Int 0)
  | one_or_more e => js_add (posStackDepth e) (Int 0)
  | action e _ => js_add (posStackDepth e) (Int 1)
  | rule_ref _ => Int 0
  | literal _ => Int 0
  | any => Int 0
  | class _ _ _ => Int 0
  end.

(** The two properties of a [rule] node: [computeFromExpression(1, 1)]. *)
Definition rule_resultStackDepth (r : rule) : jsnumber :=
  js_add (resultStackDepth (expression r)) (Int 1).

Definition rule_posStackDepth (r : rule) : jsnumber :=
  js_add (posStackDepth (expression r)) (Int 1).

(** [map(function(e, i) { return i + e.resultStackDepth; })]. *)
Fixpoint indexed_result_depths (i : Z) (l : list expr) : list jsnumber :=
  match l with
  | [] => []
  | e :: l' => js_add (Int i) (resultStackDepth e) :: indexed_result_depths (i + 1)%Z l'
  end.

(** No [choice] and no [sequence] without a child. *)
Fixpoint nonempty_lists (node : expr) : bool :=
  match node with
  | choice alternatives =>
      negb (bool_decide (alternatives = [])) && forallb nonempty_lists alternatives
  | sequence elements =>
      negb (bool_decide (elements = [])) && forallb nonempty_lists elements
  | labeled _ e | simple_and e | simple_not e | optional e | zero_or_more e
  | one_or_more e | action e _ => nonempty_lists e
  | _ => true
  end.

Definition is_depth (d : jsnumber) : Prop :=
  exists z, d = Int z /\ (0 <= z)%Z.

(** *** Bookkeeping for the loop of [proxyRules] *)

(** The substitution on names after one more proxy, [key] with target
    [target], has been removed. *)
Definition redirect (f : jsstring -> jsstring) (key target : jsstring)
  : jsstring -> jsstring :=
  fun n => if bool_decide (f n = key) then target else f n.

Definition visited (done : list jsstring) (k : jsstring) : bool :=
  bool_decide (k ∈ done).

(** The grammar after the keys [done] were visited, [f] being the renaming
    made so far. *)
Definition proxyRules_state (ast0 : grammar) (done : list jsstring)
  (f : jsstring -> jsstring) (ast : grammar) : Prop :=
  rules ast = keep_renamed f (visited done) (rules ast0)
  /\ startRule ast = f (startRule ast0)
  /\ initializer ast = initializer ast0.

(** A rule without display name, stored under its name. *)
Definition rule_entry (n : string) (e : expr) : jsstring * rule :=
  (js n, {| name := js n; displayName := None; expression := e |}).

(** The grammar [s = a .; a = b; b = c; c = "x"], a chain of two proxies. *)
Definition chain_grammar : grammar :=
  {| initializer := None;
     startRule := js "s";
     rules := [ rule_entry "s" (sequence [rule_ref (js "a"); any]);
                rule_entry "a" (rule_ref (js "b"));
                rule_entry "b" (rule_ref (js "c"));
                rule_entry "c" (literal (js "x")) ] |}.

(** The grammar [s = a .; a = c; c = "x"], with one proxy. *)
Definition proxy_grammar : grammar :=
  {| initializer := None;
     startRule := js "a";
     rules := [ rule_entry "s" (sequence [rule_ref (js "a"); any]);
                rule_entry "a" (rule_ref (js "c"));
                rule_entry "c" (literal (js "x")) ] |}.

(** ** The text of the emitted parser

    The emitter builds text from templates (emitter.js 358-811).  A
    statement below is one line, or one construct, of those templates;
    [block] is the joining of the parts of a template by newlines.  A string
    written through the [string] filter denotes the string itself
    (the round trip of [quote]), so statements hold the strings denoted. *)

Record context : Type := mkContext { resultIndex : nat; posIndex : nat }.

(** An actual parameter of an action: [resultN] or [resultN[k]]. *)
Inductive actual_param : Type :=
  | actual_whole (i : nat)
  | actual_item (i k : nat).

Inductive cond : Type :=
  | result_is_null (i : nat)                    (* resultN === null *)
  | result_not_null (i : nat)                   (* resultN !== null *)
  | input_substr_is (length : nat) (value : jsstring)
                                    (* input.substr(pos, length) === value *)
  | input_longer_than_pos                       (* input.length > pos *)
  | input_matches_class (parts : list class_part) (inverted : bool)
                              (* input.substr(pos).match(regexp) !== null *)
  | reportFailures_is_zero                      (* reportFailures === 0 *)
  | reportFailures_is_zero_and_null (i : nat).
                              (* reportFailures === 0 && resultN === null *)

Inductive stmt : Type :=
  | s_skip                                      (* the empty text *)
  | s_seq (a b : stmt)                          (* a, newline, b *)
  | s_if (c : cond) (then_ else_ : stmt)
  | s_while (c : cond) (body : stmt)
  | s_set_null (i : nat)                        (* resultN = null; *)
  | s_set_string (i : nat) (s : jsstring)       (* resultN = <string>; *)
  | s_set_array (i : nat) (items : list nat)    (* resultN = [resultA, ...]; *)
  | s_set_charAt (i : nat)                      (* resultN = input.charAt(pos); *)
  | s_set_call (i : nat) (rule_name : jsstring) (* resultN = parse_<name>(); *)
  | s_set_predicate (i : nat) (code : jsstring) (negated : bool)
                 (* resultN = (function() {code})() ? '' : null;  or swapped *)
  | s_set_optional (i : nat)      (* resultN = resultN !== null ? resultN : ''; *)
  | s_set_action (i : nat) (formalParams : list jsstring) (code : jsstring)
      (actualParams : list actual_param)
                  (* resultN = (function(formals) {code})(actuals); *)
  | s_push (i j : nat)                          (* resultN.push(resultM); *)
  | s_save_pos (k : nat)                        (* posK = pos; *)
  | s_restore_pos (k : nat)                     (* pos = posK; *)
  | s_advance (n : nat)                         (* pos += n;  pos++; *)
  | s_reportFailures_inc                        (* reportFailures++; *)
  | s_reportFailures_dec                        (* reportFailures--; *)
  | s_matchFailed (failure : jsstring).         (* matchFailed(<string>); *)

(** [formatCode(part, ..., part)]. *)
Definition block (parts : list stmt) : stmt := fold_right s_seq s_skip parts.

(** The formal and actual parameters of an action (emitter.js 675-697). *)
Fixpoint sequence_params (i : nat) (resultIndex : nat) (elements : list expr)
  : list jsstring * list actual_param :=
  match elements with
  | [] => ([], [])
  | e :: rest =>
      let '(formals, actuals) := sequence_params (S i) resultIndex rest in
      match e with
      | labeled l _ => (l :: formals, actual_item resultIndex i :: actuals)
      | _ => (formals, actuals)
      end
  end.

Definition action_params (e : expr) (resultIndex : nat)
  : list jsstring * list actual_param :=
  match e with
  | sequence elements => sequence_params 0 resultIndex elements
  | labeled l _ => ([l], [actual_whole resultIndex])
  | _ => ([], [])
  end.

(** The code that reports a failure, shared by [literal], [any] and
    [class]. *)
Definition report_failure (failure : jsstring) : stmt :=
  s_if reportFailures_is_zero (s_matchFailed failure) s_skip.

(** The visitor [emit] on expression nodes.  [None] is the [undefined] that
    [choice] returns for no alternatives, and the error every template
    throws when a variable it is given is [undefined]. *)
Fixpoint emit (node : expr) (ctx : context) : option stmt :=
  let ri := resultIndex ctx in
  let pi := posIndex ctx in
  match node with
  | choice alternatives =>
      (fix alternatives_code (l : list expr) : option stmt :=
         match l with
         | [] => None
         | e :: l' =>
             match l' with
             | [] =>
                 match emit e ctx with
                 | Some current => Some (block [current; s_skip])
                 | None => None
                 end
             | _ :: _ =>
                 match alternatives_code l', emit e ctx with
                 | Some code, Some current =>
                     Some (block [current;
                                  s_if (result_is_null ri) code s_skip])
                 | _, _ => None
                 end
             end
         end) alternatives
  | sequence elements =>
      match
        (fix elements_code (i : nat) (l : list expr) : option stmt :=
           match l with
           | [] =>
               Some (s_set_array ri (seq ri (List.length elements)))
           | e :: l' =>
               match elements_code (S i) l',
                     emit e {| resultIndex := ri + i; posIndex := pi + 1 |}
               with
               | Some code, Some elementCode =>
                   Some (block [elementCode;
                                s_if (result_not_null (ri + i))
                                  code
                                  (block [s_set_null ri; s_restore_pos pi])])
               | _, _ => None
               end
           end) 0%nat elements
      with
      | Some code => Some (block [s_save_pos pi; code])
      | None => None
      end
  | labeled _ e => emit e ctx
  | simple_and e =>
      match emit e {| resultIndex := ri; posIndex := pi + 1 |} with
      | Some expressionCode =>
          Some (block [s_save_pos pi;
                       s_reportFailures_inc;
                       expressionCode;
                       s_reportFailures_dec;
                       s_if (result_not_null ri)
                         (block [s_set_string ri []; s_restore_pos pi])
                         (s_set_null ri)])
      | None => None
      end
  | simple_not e =>
      match emit e {| resultIndex := ri; posIndex := pi + 1 |} with
      | Some expressionCode =>
          Some (block [s_save_pos pi;
                       s_reportFailures_inc;
                       expressionCode;
                       s_reportFailures_dec;
                       s_if (result_is_null ri)
                         (s_set_string ri [])
                         (block [s_set_null ri; s_restore_pos pi])])
      | None => None
      end
  | semantic_and code => Some (s_set_predicate ri code false)
  | semantic_not code => Some (s_set_predicate ri code true)
  | optional e =>
      match emit e ctx with
      | Some expressionCode => Some (block [expressionCode; s_set_optional ri])
      | None => None
      end
  | zero_or_more e =>
      match emit e {| resultIndex := ri + 1; posIndex := pi |} with
      | Some expressionCode =>
          Some (block [s_set_array ri [];
                       expressionCode;
                       s_while (result_not_null (ri + 1))
                         (block [s_push ri (ri + 1); expressionCode])])
      | None => None
      end
  | one_or_more e =>
      match emit e {| resultIndex := ri + 1; posIndex := pi |} with
      | Some expressionCode =>
          Some (block [expressionCode;
                       s_if (result_not_null (ri + 1))
                         (block [s_set_array ri [];
                                 s_while (result_not_null (ri + 1))
                                   (block [s_push ri (ri + 1); expressionCode])])
                         (s_set_null ri)])
      | None => None
      end
  | action e code =>
      let '(formalParams, actualParams) := action_params e ri in
      match emit e {| resultIndex := ri; posIndex := pi + 1 |} with
      | Some expressionCode =>
          Some (block [s_save_pos pi;
                       expressionCode;
                       s_if (result_not_null ri)
                         (s_set_action ri formalParams code actualParams)
                         s_skip;
                       s_if (result_is_null ri) (s_restore_pos pi) s_skip])
      | None => None
      end
  | rule_ref n => Some (s_set_call ri n)
  | literal v =>
      if (List.length v =? 0)%nat then Some (s_set_string ri v)
      else
        Some (s_if (input_substr_is (List.length v) v)
                (block [s_set_string ri v; s_advance (List.length v)])
                (block [s_set_null ri; report_failure (quote v)]))
  | any =>
      Some (s_if input_longer_than_pos
              (block [s_set_charAt ri; s_advance 1])
              (block [s_set_null ri; report_failure (js "any character")]))
  | class parts inverted rawText =>
      Some (s_if (input_matches_class parts inverted)
              (block [s_set_charAt ri; s_advance 1])
              (block [s_set_null ri; report_failure rawText]))
  end.

(** [range(n)] for [n] a depth computed by [stackDepths]: no element when
    [n] is not positive. *)
Definition range (n : jsnumber) : list nat :=
  match n with
  | Int z => seq 0 (Z.to_nat z)
  | NegInfinity => []
  end.

(** The function [parse_<name>] the [rule] handler writes (emitter.js
    358-427): its name, the variables it declares and the four pieces of
    code between the cache look-up and the cache store. *)
Record function_def : Type := mkFunction {
  fn_name : jsstring;
  fn_resultVars : list nat;
  fn_posVars : list nat;
  fn_setReportFailuresCode : stmt;
  fn_code : stmt;
  fn_restoreReportFailuresCode : stmt;
  fn_reportFailureCode : stmt
}.

Definition emit_rule (node : rule) : option function_def :=
  let ctx := {| resultIndex := 0; posIndex := 0 |} in
  match emit (expression node) ctx with
  | Some code =>
      Some {| fn_name := name node;
              fn_resultVars := range (rule_resultStackDepth node);
              fn_posVars := range (rule_posStackDepth node);
              fn_setReportFailuresCode :=
                match displayName node with
                | Some _ => block [s_reportFailures_inc]
                | None => s_skip
                end;
              fn_code := code;
              fn_restoreReportFailuresCode :=
                match displayName node with
                | Some _ => block [s_reportFailures_dec]
                | None => s_skip
                end;
              fn_reportFailureCode :=
                match displayName node with
                | Some d =>
                    block [s_if (reportFailures_is_zero_and_null
                                   (resultIndex ctx))
                             (s_matchFailed d) s_skip]
                | None => s_skip
                end |}
  | None => None
  end.

(** ** Running the emitted parser *)

(** The local variables [resultN] and [posK] of one call of a rule
    function; a variable not in the map is [undefined]. *)
Record frame : Type := mkFrame {
  results : gmap nat value;
  positions : gmap nat nat
}.

Definition empty_frame : frame := {| results := ∅; positions := ∅ |}.

Definition get_result (fr : frame) (i : nat) : value :=
  default VUndefined (results fr !! i).

Definition set_result (i : nat) (v : value) (fr : frame) : frame :=
  {| results := <[i := v]> (results fr); positions := positions fr |}.

Definition set_position (k : nat) (p : nat) (fr : frame) : frame :=
  {| results := results fr; positions := <[k := p]> (positions fr) |}.

(** The code of actions and predicates is opaque text of the grammar; it is
    run by these two functions.  A predicate sees the input and the
    position; an action sees its parameters.  They are functions of these
    arguments: code that keeps a state of its own in the variables of the
    initializer, and so can answer differently when asked again, is not
    covered, and the statements on the cache say so. *)
Record user_code : Type := mkUserCode {
  run_predicate : jsstring -> jsstring -> nat -> bool;
  run_action : jsstring -> list jsstring -> list value -> value
}.

(** Modelled from the spec: the regular expression of a [class] is built
    with [quoteForRegexpClass] of utils.js, which is not among the sources;
    spec 4.6 gives its meaning: one character matched against the set the
    parts denote, optionally negated. *)
Definition part_matches (c : N) (p : class_part) : bool :=
  match p with
  | part_char x => c =? x
  | part_range lo hi => (lo <=? c) && (c <=? hi)
  end.

Definition class_matches (parts : list class_part) (inverted : bool) (c : N)
  : bool :=
  xorb inverted (existsb (part_matches c) parts).

(** ["<name>@" + pos]. *)
Definition cache_key (rule_name : jsstring) (p : nat) : jsstring :=
  rule_name ++ js "@" ++ string_of_nat p.

Inductive outcome : Type :=
  | Done (fr : frame) (st : pstate)
  | OutOfFuel
  | Fault.      (* a run-time error of the host language *)

Inductive call_outcome : Type :=
  | Returned (v : value) (st : pstate)
  | CallOutOfFuel
  | CallFault.

Definition find_function (prog : list function_def) (n : jsstring)
  : option function_def :=
  List.find (fun fn => bool_decide (fn_name fn = n)) prog.

(** What [parse_<name>] runs between the cache look-up and the cache
    store: the four pieces of code, in the order of the template. *)
Definition function_body (fn : function_def) : stmt :=
  block [fn_setReportFailuresCode fn;
         fn_code fn;
         fn_restoreReportFailuresCode fn;
         fn_reportFailureCode fn].

Section Run.
Variable prog : list function_def.   (* the rule functions *)
Variable user : user_code.
Variable input : jsstring.
(** With [memo = false] the cache is neither read nor written: the
    functions then compute what the rules mean, and that is the yardstick
    for the cache. *)
Variable memo : bool.

Definition eval_cond (c : cond) (fr : frame) (st : pstate) : bool :=
  match c with
  | result_is_null i => is_null (get_result fr i)
  | result_not_null i => negb (is_null (get_result fr i))
  | input_substr_is n v => bool_decide (take n (drop (pos st) input) = v)
  | input_longer_than_pos => (pos st <? List.length input)%nat
  | input_matches_class parts inverted =>
      match input !! pos st with
      | Some c => class_matches parts inverted c
      | None => false
      end
  | reportFailures_is_zero => (reportFailures st =? 0)%Z
  | reportFailures_is_zero_and_null i =>
      (reportFailures st =? 0)%Z && is_null (get_result fr i)
  end.

Definition eval_actual (fr : frame) (a : actual_param) : value :=
  match a with
  | actual_whole i => get_result fr i
  | actual_item i k =>
      match get_result fr i with
      | VArr items => default VUndefined (items !! k)
      | _ => VUndefined
      end
  end.

(** The body of [parse_<name>] (emitter.js 394-415), [run] running the
    code written into it. *)
Definition call_function (run : stmt -> frame -> pstate -> outcome)
  (n : jsstring) (st : pstate) : call_outcome :=
  match find_function prog n with
  | None => CallFault
  | Some fn =>
      let cacheKey := cache_key (fn_name fn) (pos st) in
      match (if memo then cache st !! cacheKey else None) with
      | Some (nextPos, result) => Returned result (set_pos nextPos st)
      | None =>
          match
            run (function_body fn) empty_frame
                (log_evaluation (fn_name fn, pos st) st)
          with
          | Done fr st' =>
              let result := get_result fr 0 in
              Returned result
                (if memo
                 then set_cache (<[cacheKey := (pos st', result)]> (cache st')) st'
                 else st')
          | OutOfFuel => CallOutOfFuel
          | Fault => CallFault
          end
      end
  end.

Fixpoint exec (fuel : nat) (s : stmt) (fr : frame) (st : pstate) : outcome :=
  match fuel with
  | O => OutOfFuel
  | S fuel' =>
      match s with
      | s_skip => Done fr st
      | s_seq a b =>
          match exec fuel' a fr st with
          | Done fr1 st1 => exec fuel' b fr1 st1
          | o => o
          end
      | s_if c a b =>
          if eval_cond c fr st then exec fuel' a fr st else exec fuel' b fr st
      | s_while c body =>
          if eval_cond c fr st then
            match exec fuel' body fr st with
            | Done fr1 st1 => exec fuel' (s_while c body) fr1 st1
            | o => o
            end
          else Done fr st
      | s_set_null i => Done (set_result i VNull fr) st
      | s_set_string i v => Done (set_result i (VStr v) fr) st
      | s_set_array i items =>
          Done (set_result i (VArr (map (get_result fr) items)) fr) st
      | s_set_charAt i =>
          Done (set_result i (VStr (charAt input (pos st))) fr) st
      | s_set_call i n =>
          match call_function (exec fuel') n st with
          | Returned v st1 => Done (set_result i v fr) st1
          | CallOutOfFuel => OutOfFuel
          | CallFault => Fault
          end
      | s_set_predicate i code negated =>
          let holds := run_predicate user code input (pos st) in
          Done (set_result i
                  (if xorb holds negated then VStr [] else VNull) fr) st
      | s_set_optional i =>
          Done (set_result i
                  (if is_null (get_result fr i) then VStr []
                   else get_result fr i) fr) st
      | s_set_action i formals code actuals =>
          Done (set_result i
                  (run_action user code formals (map (eval_actual fr) actuals))
                  fr) st
      | s_push i j =>
          match get_result fr i with
          | VArr items =>
              Done (set_result i (VArr (items ++ [get_result fr j])) fr) st
          | _ => Fault
          end
      | s_save_pos k => Done (set_position k (pos st) fr) st
      | s_restore_pos k =>
          match positions fr !! k with
          | Some p => Done fr (set_pos p st)
          | None => Fault
          end
      | s_advance n => Done fr (set_pos (pos st + n) st)
      | s_reportFailures_inc =>
          Done fr (set_reportFailures (reportFailures st + 1) st)
      | s_reportFailures_dec =>
          Done fr (set_reportFailures (reportFailures st - 1) st)
      | s_matchFailed failure => Done fr (matchFailed failure st)
      end
  end.

(** [parse_<name>()] with fuel. *)
Definition call (fuel : nat) (n : jsstring) (st : pstate) : call_outcome :=
  call_function (exec fuel) n st.
End Run.

(** ** Plain objects of the host

    The variable mapping of [formatCode] and the table [parseFunctions] of
    the emitted [parse] are plain objects, read by [object[name]]: a name
    that is no own property is looked up in what plain objects inherit
    from [Object.prototype]. *)

(** What calling a value as a method of the table, without arguments,
    does. *)
Inductive method_outcome : Type :=
  | method_returns (null : bool)  (* it returns; [true] when it returns [null] *)
  | method_raises.       (* a TypeError (not a function), or the function throws *)

(** An inherited value: a string, or another value with its text
    [String(value)] and what calling it does. *)
Inductive inherited_value : Type :=
  | inherited_string (s : jsstring)
  | inherited_object (text : jsstring) (called : method_outcome).

Definition text_of (v : inherited_value) : jsstring :=
  match v with
  | inherited_string s => s
  | inherited_object text _ => text
  end.

Definition call_of (v : inherited_value) : method_outcome :=
  match v with
  | inherited_string _ => method_raises
  | inherited_object _ called => called
  end.

(** [host name] is the value of [({})[name]], [None] when it is
    [undefined]. *)
Definition host_object : Type := jsstring -> option inherited_value.

(** The properties of [Object.prototype] in ECMAScript 5 (15.2.4), all of
    them functions: [source name] is the text of the function, which the
    standard leaves to the implementation; called on the table without
    arguments none of them throws or returns [null]. *)
Definition object_prototype_names : list jsstring :=
  [ js "constructor"; js "toString"; js "toLocaleString"; js "valueOf";
    js "hasOwnProperty"; js "isPrototypeOf"; js "propertyIsEnumerable" ].

Definition object_prototype (source : jsstring -> jsstring) : host_object :=
  fun name =>
    if bool_decide (name ∈ object_prototype_names)
    then Some (inherited_object (source name) (method_returns false))
    else None.

(** ** The [grammar] handler of [emit] and the [parse] function it writes
    (emitter.js 88-352) *)

(** The compile-time options; an absent [startRules] is the empty list. *)
Record options : Type := mkOptions {
  startRules : list jsstring;
  selfParsing : bool
}.

(** The names that get an entry in [parseFunctionTableItems]
    (emitter.js 93-99); sorting the entries changes the text only. *)
Definition exposed_rules (ast : grammar) (opts : options) : list jsstring :=
  List.filter
    (fun k => (List.length (startRules opts) =? 0)%nat
              || bool_decide (k ∈ startRules opts))
    (keys (rules ast)).

(** The two texts the handler chooses between for the check of the
    [startRule] argument and for the call of the start rule (emitter.js
    129-156 and 289-291). *)
Inductive start_code : Type :=
  | single_start (startRule : jsstring)
      (* if (startRule !== undefined && startRule !== <startRule>) throw ...
         var result = parse_<startRule>(); *)
  | table_start (table : list jsstring) (startRule : jsstring).
      (* var parseFunctions = { <name>: parse_<name>, ... };
         if (startRule !== undefined) {
           if (parseFunctions[startRule] === undefined) throw ...
         } else { startRule = <startRule>; }
         var result = parseFunctions[startRule](); *)

Record parser_text : Type := mkParserText {
  pt_functions : list function_def;
  pt_start : start_code;
  pt_initializerCode : jsstring
}.

Inductive emit_result : Type :=
  | Emitted (p : parser_text)
  | NoStartRuleFound (message : jsstring)
  | TemplateError.

(** [emit(node.rules[name])] for every rule, in order. *)
Fixpoint emit_rules (rs : list (jsstring * rule)) : option (list function_def) :=
  match rs with
  | [] => Some []
  | (_, r) :: rs' =>
      match emit_rule r, emit_rules rs' with
      | Some fn, Some fns => Some (fn :: fns)
      | _, _ => None
      end
  end.

Definition emit_grammar (node : grammar) (opts : options) : emit_result :=
  let initializerCode := default [] (initializer node) in
  let parseFunctionTableItems := exposed_rules node opts in
  if (List.length parseFunctionTableItems =? 0)%nat then
    NoStartRuleFound
      (js "No start rule found: " ++ [ch_dquote]
       ++ join (js ", ") (startRules opts) ++ [ch_dquote] ++ js ".")
  else
    match emit_rules (rules node) with
    | None => TemplateError
    | Some parseFunctionDefinitions =>
        Emitted
          {| pt_functions := parseFunctionDefinitions;
             pt_start :=
               if (List.length parseFunctionTableItems =? 1)%nat
               then single_start (startRule node)
               else table_start parseFunctionTableItems (startRule node);
             pt_initializerCode := initializerCode |}
    end.

(** What the start-rule code of the emitted [parse] does with its
    [startRule] argument ([None] is [undefined]). *)
Inductive start_choice : Type :=
  | invoke (rule_name : jsstring)        (* parse_<name>() is called *)
  | invoke_inherited (name : jsstring) (called : method_outcome)
      (* parseFunctions[startRule] is an inherited value, and is called *)
  | invalid_rule_name (message : jsstring)   (* throw new Error(...) *)
  | not_a_function.    (* parseFunctions[startRule] is undefined and called *)

Definition invalid_rule_name_message (startRule : jsstring) : jsstring :=
  js "Invalid rule name: " ++ quote startRule ++ js ".".

(** [parseFunctions[name]()]: the own properties of the table are the
    exposed rules. *)
Definition call_table_entry (host : host_object) (table : list jsstring)
  (name : jsstring) (undefined : start_choice) : start_choice :=
  if bool_decide (name ∈ table) then invoke name
  else
    match host name with
    | Some v => invoke_inherited name (call_of v)
    | None => undefined
    end.

Definition choose_start (host : host_object) (code : start_code)
  (startRule : option jsstring) : start_choice :=
  match code with
  | single_start s =>
      match startRule with
      | Some a =>
          if bool_decide (a = s) then invoke s
          else invalid_rule_name (invalid_rule_name_message a)
      | None => invoke s
      end
  | table_start table s =>
      match startRule with
      | Some a =>
          call_table_entry host table a
            (invalid_rule_name (invalid_rule_name_message a))
      | None => call_table_entry host table s not_a_function
      end
  end.

Inductive parse_outcome : Type :=
  | Parsed (result : value)
  | ReturnsInherited (name : jsstring)
      (* what the inherited value [name], called on the table, returned *)
  | ThrowsSyntaxError (message : jsstring) (line column : nat)
  | ThrowsError (message : jsstring)
  | ParseFault
  | ParseOutOfFuel.

(** The emitted [parse(input, startRule)]. *)
Definition parse (host : host_object) (p : parser_text) (user : user_code)
  (fuel : nat) (input : jsstring) (startRule : option jsstring)
  : parse_outcome :=
  match choose_start host (pt_start p) startRule with
  | invalid_rule_name message => ThrowsError message
  | not_a_function => ParseFault
  | invoke_inherited a method_raises => ParseFault
  | invoke_inherited a (method_returns null) =>
      (* no rule function has run: [pos] is 0 and no failure is recorded *)
      if null || negb (pos initial_pstate =? List.length input)%nat then
        let errorPosition :=
          computeErrorPosition input (rightmostFailuresPos initial_pstate) in
        ThrowsSyntaxError (buildErrorMessage input initial_pstate)
          (fst errorPosition) (snd errorPosition)
      else ReturnsInherited a
  | invoke n =>
      match call (pt_functions p) user input true fuel n initial_pstate with
      | Returned result st =>
          if is_null result || negb (pos st =? List.length input)%nat then
            let errorPosition :=
              computeErrorPosition input (rightmostFailuresPos st) in
            ThrowsSyntaxError (buildErrorMessage input st)
              (fst errorPosition) (snd errorPosition)
          else Parsed result
      | CallOutOfFuel => ParseOutOfFuel
      | CallFault => ParseFault
      end
  end.

(** *** Example grammars *)

Definition no_user_code : user_code :=
  {| run_predicate := fun _ _ _ => true;
     run_action := fun _ _ actuals => VArr actuals |}.

Definition default_options : options :=
  {| startRules := []; selfParsing := false |}.

(** [start = "a"*]. *)
Definition star_grammar : grammar :=
  {| initializer := None; startRule := js "start";
     rules := [ rule_entry "start" (zero_or_more (literal (js "a"))) ] |}.

(** [a = "x"; b = "y"], start rule [a]. *)
Definition two_rules_grammar : grammar :=
  {| initializer := None; startRule := js "a";
     rules := [ rule_entry "a" (literal (js "x"));
                rule_entry "b" (literal (js "y")) ] |}.

(** [start = a / b; a = "foo"; b = "bar"]. *)
Definition foo_bar_grammar : grammar :=
  {| initializer := None; startRule := js "start";
     rules := [ rule_entry "start" (choice [rule_ref (js "a"); rule_ref (js "b")]);
                rule_entry "a" (literal (js "foo"));
                rule_entry "b" (literal (js "bar")) ] |}.

(** [start = a "x" / a "y"; a = "a"]: the second alternative asks for
    [a] at a position where the first has asked for it already. *)
Definition backtracking_grammar : grammar :=
  {| initializer := None; startRule := js "start";
     rules := [ rule_entry "start"
                  (choice [sequence [rule_ref (js "a"); literal (js "x")];
                           sequence [rule_ref (js "a"); literal (js "y")]]);
                rule_entry "a" (literal (js "a")) ] |}.

(** [a = "x"? a]: where ["x"] is not there, the rule asks for itself at
    the position it was asked for. *)
Definition left_recursive_grammar : grammar :=
  {| initializer := None; startRule := js "a";
     rules := [ rule_entry "a"
                  (sequence [optional (literal (js "x")); rule_ref (js "a")]) ] |}.

Definition parse_with (host : host_object) (ast : grammar) (opts : options)
  (fuel : nat) (input : jsstring) (startRule : option jsstring)
  : option parse_outcome :=
  match emit_grammar ast opts with
  | Emitted p => Some (parse host p no_user_code fuel input startRule)
  | _ => None
  end.

(** Only rule [b] is exposed. *)
Definition only_b : options := {| startRules := [js "b"]; selfParsing := false |}.

(** ** The slot contract (emitter.js 429-457) *)

(** The two loops of the [choice] and [sequence] handlers, by name. *)
Fixpoint alternatives_code (ctx : context) (l : list expr) : option stmt :=
  match l with
  | [] => None
  | e :: l' =>
      match l' with
      | [] =>
          match emit e ctx with
          | Some current => Some (block [current; s_skip])
          | None => None
          end
      | _ :: _ =>
          match alternatives_code ctx l', emit e ctx with
          | Some code, Some current =>
              Some (block [current;
                           s_if (result_is_null (resultIndex ctx)) code s_skip])
          | _, _ => None
          end
      end
  end.

Fixpoint elements_code (total : nat) (ctx : context) (i : nat) (l : list expr)
  : option stmt :=
  match l with
  | [] => Some (s_set_array (resultIndex ctx) (seq (resultIndex ctx) total))
  | e :: l' =>
      match elements_code total ctx (S i) l',
            emit e {| resultIndex := resultIndex ctx + i;
                      posIndex := posIndex ctx + 1 |}
      with
      | Some code, Some elementCode =>
          Some (block [elementCode;
                       s_if (result_not_null (resultIndex ctx + i))
                         code
                         (block [s_set_null (resultIndex ctx);
                                 s_restore_pos (posIndex ctx)])])
      | _, _ => None
      end
  end.

(** Every [resultN] in the text has [N >= ri] and every [posK] has
    [K >= pi]. *)
Definition cond_slots_from (ri : nat) (c : cond) : bool :=
  match c with
  | result_is_null i | result_not_null i | reportFailures_is_zero_and_null i =>
      (ri <=? i)%nat
  | _ => true
  end.

Definition actual_slots_from (ri : nat) (a : actual_param) : bool :=
  match a with
  | actual_whole i | actual_item i _ => (ri <=? i)%nat
  end.

Fixpoint slots_from (ri pi : nat) (s : stmt) : bool :=
  match s with
  | s_skip => true
  | s_seq a b => slots_from ri pi a && slots_from ri pi b
  | s_if c a b => cond_slots_from ri c && slots_from ri pi a && slots_from ri pi b
  | s_while c body => cond_slots_from ri c && slots_from ri pi body
  | s_set_null i | s_set_string i _ | s_set_charAt i | s_set_call i _
  | s_set_predicate i _ _ | s_set_optional i => (ri <=? i)%nat
  | s_set_array i items => (ri <=? i)%nat && forallb (Nat.leb ri) items
  | s_set_action i _ _ actuals =>
      (ri <=? i)%nat && forallb (actual_slots_from ri) actuals
  | s_push i j => (ri <=? i)%nat && (ri <=? j)%nat
  | s_save_pos k | s_restore_pos k => (pi <=? k)%nat
  | s_advance _ | s_reportFailures_inc | s_reportFailures_dec
  | s_matchFailed _ => true
  end.

(** What a snippet emitted at [ctx] has done when it is through: a match
    or a non-match, and nothing below its slots touched. *)
Definition matched (ctx : context) (st : pstate) (fr' : frame) (st' : pstate)
  : Prop :=
  get_result fr' (resultIndex ctx) <> VNull /\ (pos st <= pos st')%nat.

Definition not_matched (ctx : context) (st : pstate) (fr' : frame) (st' : pstate)
  : Prop :=
  get_result fr' (resultIndex ctx) = VNull /\ pos st' = pos st.

Definition slots_below_kept (ri pi : nat) (fr fr' : frame) : Prop :=
  (forall i, (i < ri)%nat -> results fr' !! i = results fr !! i)
  /\ (forall k, (k < pi)%nat -> positions fr' !! k = positions fr !! k).

(** A cache entry is the outcome of a rule function that kept the
    contract. *)
Definition entry_ok (p : nat) (entry : nat * value) : Prop :=
  (snd entry <> VNull /\ (p <= fst entry)%nat)
  \/ (snd entry = VNull /\ fst entry = p).

Definition cache_ok (c : gmap jsstring (nat * value)) : Prop :=
  forall n p entry, c !! cache_key n p = Some entry -> entry_ok p entry.

(** The rule functions are those the emitter writes. *)
Definition emitted_functions (prog : list function_def) : Prop :=
  forall fn, In fn prog -> exists r, emit_rule r = Some fn.

(** The slot contract for every snippet run with less fuel than [N]. *)
Definition contract_upto (prog : list function_def) (user : user_code)
  (input : jsstring) (N : nat) : Prop :=
  forall m e ctx s fr st fr' st',
    (m < N)%nat ->
    emit e ctx = Some s ->
    cache_ok (cache st) ->
    exec prog user input true m s fr st = Done fr' st' ->
    (matched ctx st fr' st' \/ not_matched ctx st fr' st')
    /\ cache_ok (cache st').

(** Code that only keeps the books of failure reporting. *)
Fixpoint bookkeeping (s : stmt) : bool :=
  match s with
  | s_skip | s_reportFailures_inc | s_reportFailures_dec | s_matchFailed _ => true
  | s_seq a b => bookkeeping a && bookkeeping b
  | s_if _ a b => bookkeeping a && bookkeeping b
  | _ => false
  end.

(** The slot contract of the emitted snippets, with temporaries [posK]
    allowed from [posIndex + k0] on: the source comment and the
    specification say [k0 = 1]. *)
Definition slot_contract (k0 : nat) (prog : list function_def)
  (user : user_code) (input : jsstring) : Prop :=
  forall e ctx s,
    emit e ctx = Some s ->
    slots_from (resultIndex ctx) (posIndex ctx + k0) s = true
    /\ forall fuel fr st fr' st',
         cache_ok (cache st) ->
         exec prog user input true fuel s fr st = Done fr' st' ->
         (matched ctx st fr' st' \/ not_matched ctx st fr' st')
         /\ slots_below_kept (resultIndex ctx) (posIndex ctx) fr fr'
         /\ cache_ok (cache st').

(** The rule functions of a grammar; none when the emitter throws. *)
Definition functions_of (ast : grammar) : list function_def :=
  default [] (emit_rules (rules ast)).

(** The claim that [optional] and [zero_or_more] snippets always end with
    a result that is not [null]. *)
Definition always_ends_not_null (user : user_code) : Prop :=
  forall e0 e ctx s input fr st,
    e = optional e0 \/ e = zero_or_more e0 ->
    emit e ctx = Some s ->
    exists fuel fr' st',
      exec [] user input true fuel s fr st = Done fr' st'
      /\ get_result fr' (resultIndex ctx) <> VNull.

(** The text emitted for [e], the empty text when there is none. *)
Definition code_of (e : expr) (ctx : context) : stmt :=
  default s_skip (emit e ctx).

Definition ctx0 : context := {| resultIndex := 0; posIndex := 0 |}.

(** ** The template formatter [formatCode] (emitter.js 36-82) *)

(** What is thrown: [new Error(message)], or the TypeError of the host
    for [value.replace] on a value that is no string. *)
Inductive thrown : Type :=
  | Error (message : jsstring)
  | TypeError.

Inductive format_result : Type :=
  | Formatted (text : jsstring)
  | Throws (e : thrown).

(** [[a-z_]] under the flag [i], and [\w]. *)
Definition is_letter (c : N) : bool :=
  ((65 <=? c) && (c <=? 90)) || ((97 <=? c) && (c <=? 122)).

Definition is_identifier_start (c : N) : bool := is_letter c || (c =? 95).

Definition is_word_char (c : N) : bool :=
  is_letter c || ((48 <=? c) && (c <=? 57)) || (c =? 95).

(** The longest run of [\w] at the head of a string, and what follows. *)
Fixpoint span_word (s : jsstring) : jsstring * jsstring :=
  match s with
  | c :: rest =>
      if is_word_char c then
        let '(w, r) := span_word rest in (c :: w, r)
      else ([], s)
  | [] => ([], [])
  end.

(** An identifier, [[a-z_]] then a run of [\w], at the head of a string. *)
Definition match_identifier (s : jsstring) : option (jsstring * jsstring) :=
  match s with
  | c :: _ => if is_identifier_start c then Some (span_word s) else None
  | [] => None
  end.

(** A match of the regular expression of [interpolateVariablesInParts] at
    the head of a string: a dollar sign, an opening brace, an identifier,
    optionally a bar and a second identifier, and a closing brace.  The
    result is the name, the filter if that group took part, and the length
    of the match. *)
Definition match_token (s : jsstring)
  : option (jsstring * option jsstring * nat) :=
  match s with
  | c1 :: c2 :: rest =>
      if (c1 =? 36) && (c2 =? 123) then         (* dollar sign, brace *)
        match match_identifier rest with
        | Some (name, c3 :: r2) =>
            if c3 =? 125 then                    (* closing brace *)
              Some (name, None, (3 + List.length name)%nat)
            else if c3 =? 124 then               (* bar *)
              match match_identifier r2 with
              | Some (filter, c4 :: _) =>
                  if c4 =? 125 then
                    Some (name, Some filter,
                          (4 + List.length name + List.length filter)%nat)
                  else None
              | _ => None
              end
            else None
        | _ => None
        end
      else None
  | _ => None
  end.

(** [vars[name]]: the own properties of the mapping are [vars], with
    strings as values; another name is looked up in what the mapping
    inherits. *)
Definition lookup_variable (host : host_object)
  (vars : gmap jsstring jsstring) (name : jsstring) : option inherited_value :=
  match vars !! name with
  | Some value => Some (inherited_string value)
  | None => host name
  end.

(** The function given to [replace]. *)
Definition substitute (host : host_object) (vars : gmap jsstring jsstring)
  (name : jsstring) (filter : option jsstring) : format_result :=
  match lookup_variable host vars name with
  | None =>
      Throws (Error (js "Undefined variable: " ++ [ch_dquote] ++ name
                     ++ [ch_dquote] ++ js "."))
  | Some value =>
      match filter with
      | Some f =>
          if bool_decide (f = []) then Formatted (text_of value)
          else if bool_decide (f = js "string") then
            match value with
            | inherited_string s => Formatted (quote s)
            | inherited_object _ _ => Throws TypeError
            end
          else Throws (Error (js "Unrecognized filter: " ++ [ch_dquote] ++ f
                              ++ [ch_dquote] ++ js "."))
      | None => Formatted (text_of value)
      end
  end.

Definition prepend (text : jsstring) (r : format_result) : format_result :=
  match r with
  | Formatted t => Formatted (text ++ t)
  | Throws m => Throws m
  end.

(** [part.replace(regexp, f)] with the flags [g] and [i]: matches are looked for from left to right
    and do not overlap; [skip] counts the characters of the current match
    still to pass over. *)
Fixpoint interpolate_from (host : host_object)
  (vars : gmap jsstring jsstring) (skip : nat) (s : jsstring)
  : format_result :=
  match s with
  | [] => Formatted []
  | c :: rest =>
      match skip with
      | S k => interpolate_from host vars k rest
      | O =>
          match match_token s with
          | Some (name, filter, len) =>
              match substitute host vars name filter with
              | Formatted text =>
                  prepend text (interpolate_from host vars (len - 1) rest)
              | Throws m => Throws m
              end
          | None => prepend [c] (interpolate_from host vars 0 rest)
          end
      end
  end.

Definition interpolate (host : host_object) (vars : gmap jsstring jsstring)
  (part : jsstring) : format_result :=
  interpolate_from host vars 0 part.

(** [interpolateVariablesInParts]: [map] stops at the first throw. *)
Fixpoint interpolateVariablesInParts (host : host_object)
  (vars : gmap jsstring jsstring) (parts : list jsstring)
  : thrown + list jsstring :=
  match parts with
  | [] => inr []
  | p :: ps =>
      match interpolate host vars p with
      | Throws m => inl m
      | Formatted t =>
          match interpolateVariablesInParts host vars ps with
          | inl m => inl m
          | inr ts => inr (t :: ts)
          end
      end
  end.

(** The match of [^[ \t]*] at the head of the part. *)
Fixpoint leading_whitespace (s : jsstring) : jsstring :=
  match s with
  | c :: rest =>
      if (c =? 32) || (c =? ch_tab) then c :: leading_whitespace rest else []
  | [] => []
  end.

Definition indent_part (part : jsstring) : jsstring :=
  if bool_decide (ch_lf ∈ part) then
    let firstLineWhitespacePrefix := leading_whitespace part in
    match split_on ch_lf part with
    | first :: others =>
        join nl (first :: map (app firstLineWhitespacePrefix) others)
    | [] => part
    end
  else part.

Definition indentMultilineParts (parts : list jsstring) : list jsstring :=
  map indent_part parts.

(** [formatCode(part, ..., part, vars)]; [vars = None] when the last
    argument is not an object. *)
Definition formatCode (host : host_object) (parts : list jsstring)
  (vars : option (gmap jsstring jsstring)) : format_result :=
  match interpolateVariablesInParts host (default ∅ vars) parts with
  | inl m => Throws m
  | inr ts => Formatted (join nl (indentMultilineParts ts))
  end.

(** The text of a token. *)
Definition token (name : jsstring) (filter : option jsstring) : jsstring :=
  js "${" ++ name
  ++ match filter with Some f => js "|" ++ f | None => [] end
  ++ js "}".

Definition is_identifier (s : jsstring) : Prop :=
  match s with
  | c :: rest => is_identifier_start c = true
                 /\ Forall (fun x => is_word_char x = true) rest
  | [] => False
  end.

Definition throws (r : format_result) : Prop :=
  match r with Throws _ => True | Formatted _ => False end.

(** ** Memoization (emitter.js 394-415) *)

Definition is_report_cond (c : cond) : bool :=
  match c with
  | reportFailures_is_zero | reportFailures_is_zero_and_null _ => true
  | _ => false
  end.

(** In the emitted text a test of [reportFailures] guards a call of
    [matchFailed] and nothing else. *)
Fixpoint well_guarded (s : stmt) : bool :=
  match s with
  | s_seq a b => well_guarded a && well_guarded b
  | s_if c a b =>
      if is_report_cond c then
        match a, b with
        | s_matchFailed _, s_skip => true
        | _, _ => false
        end
      else well_guarded a && well_guarded b
  | s_while c body => negb (is_report_cond c) && well_guarded body
  | _ => true
  end.

Definition functions_guarded (prog : list function_def) : Prop :=
  forall fn, In fn prog -> well_guarded (function_body fn) = true.

(** The state in which a rule function is entered at position [p] when
    nothing else matters. *)
Definition at_pos (p : nat) : pstate := set_pos p initial_pstate.

(** What a rule means at a position: the result and the end position of
    its function run without the cache. *)
Definition rule_outcome (prog : list function_def) (user : user_code)
  (input : jsstring) (n : jsstring) (p : nat) (entry : nat * value) : Prop :=
  exists m st',
    call prog user input false m n (at_pos p) = Returned (snd entry) st'
    /\ pos st' = fst entry.

(** Every entry of the cache is what its rule means at its position. *)
Definition cache_coherent (prog : list function_def) (user : user_code)
  (input : jsstring) (c : gmap jsstring (nat * value)) : Prop :=
  forall n p entry,
    c !! cache_key n p = Some entry -> rule_outcome prog user input n p entry.

(** The body of rule [n], run without the cache from position [p],
    terminates with fuel [m]. *)
Definition body_terminates (prog : list function_def) (user : user_code)
  (input : jsstring) (m : nat) (np : jsstring * nat) : Prop :=
  exists fn frb stb,
    find_function prog (fst np) = Some fn
    /\ exec prog user input false m (function_body fn) empty_frame
         (at_pos (snd np)) = Done frb stb.

(** What a run with the cache has done, seen from its two ends: the run
    without the cache gives the same variables and position; the cache has
    grown by the rule bodies evaluated, each once, none of which was in the
    cache before; and each of those bodies terminates without the cache with
    less fuel than the statement itself. *)
Record memo_run (prog : list function_def) (user : user_code)
  (input : jsstring) (s : stmt) (fr : frame) (st : pstate)
  (fr' : frame) (st' : pstate) : Prop := mkMemoRun {
  mr_same :
    forall st0, pos st0 = pos st ->
      exists M st0',
        exec prog user input false M s fr st0 = Done fr' st0'
        /\ pos st0' = pos st';
  mr_coherent : cache_coherent prog user input (cache st');
  mr_kept :
    forall k x, cache st !! k = Some x -> cache st' !! k = Some x;
  mr_new :
    exists new,
      evaluated st' = new ++ evaluated st
      /\ NoDup new
      /\ (forall np, In np new ->
            cache st !! cache_key (fst np) (snd np) = None
            /\ is_Some (cache st' !! cache_key (fst np) (snd np)))
      /\ (forall k, cache st !! k = None -> is_Some (cache st' !! k) ->
            exists np, In np new /\ k = cache_key (fst np) (snd np))
      /\ (forall M st0 fr0' st0',
            pos st0 = pos st ->
            exec prog user input false M s fr st0 = Done fr0' st0' ->
            forall np, In np new ->
              exists M', (M' < M)%nat
                /\ body_terminates prog user input M' np)
}.

(** ** The order of [sort] on strings *)

Definition jsstring_le (a b : jsstring) : Prop := jsstring_leb a b = true.
Definition jsstring_lt (a b : jsstring) : Prop := jsstring_le a b /\ a <> b.

(** ** Induction on expressions *)

Section expr_induction.
Variable P : expr -> Prop.
Hypothesis Hchoice : forall l, Forall P l -> P (choice l).
Hypothesis Hsequence : forall l, Forall P l -> P (sequence l).
Hypothesis Hlabeled : forall l e, P e -> P (labeled l e).
Hypothesis Hsimple_and : forall e, P e -> P (simple_and e).
Hypothesis Hsimple_not : forall e, P e -> P (simple_not e).
Hypothesis Hsemantic_and : forall c, P (semantic_and c).
Hypothesis Hsemantic_not : forall c, P (semantic_not c).
Hypothesis Hoptional : forall e, P e -> P (optional e).
Hypothesis Hzero_or_more : forall e, P e -> P (zero_or_more e).
Hypothesis Hone_or_more : forall e, P e -> P (one_or_more e).
Hypothesis Haction : forall e c, P e -> P (action e c).
Hypothesis Hrule_ref : forall n, P (rule_ref n).
Hypothesis Hliteral : forall v, P (literal v).
Hypothesis Hany : P any.
Hypothesis Hclass : forall p i t, P (class p i t).

Fixpoint expr_nested_ind (e : expr) : P e :=
  let fix all (l : list expr) : Forall P l :=
    match l with
    | [] => @List.Forall_nil _ P
    | x :: l0 => @List.Forall_cons _ P x l0 (expr_nested_ind x) (all l0)
    end in
  match e with
  | choice l => Hchoice l (all l)
  | sequence l => Hsequence l (all l)
  | labeled l e' => Hlabeled l e' (expr_nested_ind e')
  | simple_and e' => Hsimple_and e' (expr_nested_ind e')
  | simple_not e' => Hsimple_not e' (expr_nested_ind e')
  | semantic_and c => Hsemantic_and c
  | semantic_not c => Hsemantic_not c
  | optional e' => Hoptional e' (expr_nested_ind e')
  | zero_or_more e' => Hzero_or_more e' (expr_nested_ind e')
  | one_or_more e' => Hone_or_more e' (expr_nested_ind e')
  | action e' c => Haction e' c (expr_nested_ind e')
  | rule_ref n => Hrule_ref n
  | literal v => Hliteral v
  | any => Hany
  | class p i t => Hclass p i t
  end.
End expr_induction.


(* ===================================================================== *)
(** * Part I, continued. Notions for further properties                   *)
(* ===================================================================== *)

(** ** References and empty choices in a tree *)

(** The names of the [rule_ref] nodes of an expression, left to right. *)
Fixpoint refs (node : expr) : list jsstring :=
  match node with
  | choice alternatives => flat_map refs alternatives
  | sequence elements => flat_map refs elements
  | labeled _ e | simple_and e | simple_not e | optional e | zero_or_more e
  | one_or_more e | action e _ => refs e
  | rule_ref n => [n]
  | _ => []
  end.

(** Every reference, and the start rule, names a rule of the grammar. *)
Definition closed_grammar (ast : grammar) : Prop :=
  In (startRule ast) (keys (rules ast))
  /\ forall k r n, In (k, r) (rules ast) -> In n (refs (expression r)) ->
       In n (keys (rules ast)).

(** A [choice] without alternatives somewhere in the tree. *)
Fixpoint has_empty_choice (node : expr) : bool :=
  match node with
  | choice alternatives =>
      bool_decide (alternatives = []) || existsb has_empty_choice alternatives
  | sequence elements => existsb has_empty_choice elements
  | labeled _ e | simple_and e | simple_not e | optional e | zero_or_more e
  | one_or_more e | action e _ => has_empty_choice e
  | _ => false
  end.

(** ** Names of the variables of the emitted parser (emitter.js 84-85) *)

Definition resultVar (index : nat) : jsstring := js "result" ++ string_of_nat index.
Definition posVar (index : nat) : jsstring := js "pos" ++ string_of_nat index.

(** The other variables and parameters the templates of [parse] and of a
    rule function name (emitter.js 120-125, 141, 290-291, 395-396). *)
Definition parser_variables : list jsstring :=
  [ js "input"; js "startRule"; js "pos"; js "reportFailures";
    js "rightmostFailuresPos"; js "rightmostFailuresExpected"; js "cache";
    js "parseFunctions"; js "result"; js "cacheKey"; js "cachedResult";
    js "errorPosition" ].

(** Every [resultN] in the text has [N < rn] and every [posK] has
    [K < pn]. *)
Definition cond_slots_below (rn : nat) (c : cond) : bool :=
  match c with
  | result_is_null i | result_not_null i | reportFailures_is_zero_and_null i =>
      (i <? rn)%nat
  | _ => true
  end.

Definition actual_slots_below (rn : nat) (a : actual_param) : bool :=
  match a with
  | actual_whole i | actual_item i _ => (i <? rn)%nat
  end.

Fixpoint slots_below (rn pn : nat) (s : stmt) : bool :=
  match s with
  | s_skip => true
  | s_seq a b => slots_below rn pn a && slots_below rn pn b
  | s_if c a b =>
      cond_slots_below rn c && slots_below rn pn a && slots_below rn pn b
  | s_while c body => cond_slots_below rn c && slots_below rn pn body
  | s_set_null i | s_set_string i _ | s_set_charAt i | s_set_call i _
  | s_set_predicate i _ _ | s_set_optional i => (i <? rn)%nat
  | s_set_array i items => (i <? rn)%nat && forallb (fun j => j <? rn)%nat items
  | s_set_action i _ _ actuals =>
      (i <? rn)%nat && forallb (actual_slots_below rn) actuals
  | s_push i j => (i <? rn)%nat && (j <? rn)%nat
  | s_save_pos k | s_restore_pos k => (k <? pn)%nat
  | s_advance _ | s_reportFailures_inc | s_reportFailures_dec
  | s_matchFailed _ => true
  end.

(** What the induction on the tree says of one node. *)
Definition depths_cover (e : expr) : Prop :=
  forall ctx s d q,
    nonempty_lists e = true -> emit e ctx = Some s ->
    resultStackDepth e = Int d -> posStackDepth e = Int q ->
    slots_below (resultIndex ctx + Z.to_nat d + 1) (posIndex ctx + Z.to_nat q) s
    = true.

(** ["parse_" + node.name] (emitter.js 723, 394). *)
Definition ruleMethod (rule_name : jsstring) : jsstring := js "parse_" ++ rule_name.

(** The functions the template of [parse] declares beside the rule
    functions (emitter.js 163-256). *)
Definition parser_functions : list jsstring :=
  [ js "padLeft"; js "escape"; js "quote"; js "matchFailed";
    js "buildErrorMessage"; js "buildExpected"; js "computeErrorPosition" ].

(** ** Failure tracking over a run *)

(** From [st] to [st'] the rightmost failure position has moved right, with
    some failure recorded there, or it has stayed and the expected list has
    only grown at its end. *)
Definition failures_extend (st st' : pstate) : Prop :=
  ((rightmostFailuresPos st < rightmostFailuresPos st')%nat
   /\ rightmostFailuresExpected st' <> [])
  \/ (rightmostFailuresPos st' = rightmostFailuresPos st
      /\ exists more,
           rightmostFailuresExpected st'
           = rightmostFailuresExpected st ++ more).

(** A character that ends a line for [computeErrorPosition]. *)
Definition ends_line (ch : option N) : bool :=
  match ch with
  | Some c => (c =? ch_lf) || (c =? ch_cr) || (c =? ch_ls) || (c =? ch_ps)
  | None => false
  end.

(** ** The counter [reportFailures] *)

(** Where the counter stands after the text [s], counted from the value it
    had when the enclosing text began, if it stands at [n] before [s].
    [None]: some path takes it below that value, two paths leave it at
    different values, a loop body moves it, or [matchFailed] is called
    outside a test of the counter. *)
Fixpoint report_level (s : stmt) (n : nat) : option nat :=
  match s with
  | s_seq a b =>
      match report_level a n with
      | Some k => report_level b k
      | None => None
      end
  | s_if c a b =>
      if is_report_cond c then
        match a, b with
        | s_matchFailed _, s_skip => Some n
        | _, _ => None
        end
      else
        match report_level a n, report_level b n with
        | Some x, Some y => if (x =? y)%nat then Some x else None
        | _, _ => None
        end
  | s_while c body =>
      if is_report_cond c then None
      else match report_level body n with
           | Some k => if (k =? n)%nat then Some n else None
           | None => None
           end
  | s_reportFailures_inc => Some (S n)
  | s_reportFailures_dec => match n with S k => Some k | O => None end
  | s_matchFailed _ => None
  | _ => Some n
  end.

(** Every rule function leaves the counter where it found it. *)
Definition functions_balanced (prog : list function_def) : Prop :=
  forall fn n, In fn prog -> report_level (function_body fn) n = Some n.

(** Nothing was recorded between [st] and [st']. *)
Definition same_failures (st st' : pstate) : Prop :=
  rightmostFailuresPos st' = rightmostFailuresPos st
  /\ rightmostFailuresExpected st' = rightmostFailuresExpected st.

(** The rule [letter "a letter" = "b"], and the grammar
    [start = !"a" letter] around it. *)
Definition letter_rule : rule :=
  {| name := js "letter"; displayName := Some (js "a letter");
     expression := literal (js "b") |}.

Definition named_grammar : grammar :=
  {| initializer := None; startRule := js "start";
     rules := [ rule_entry "start"
                  (sequence [simple_not (literal (js "a"));
                             rule_ref (js "letter")]);
                (js "letter", letter_rule) ] |}.

(** The function emitted for a rule, an empty one when the emitter
    throws. *)
Definition function_of (r : rule) : function_def :=
  default (mkFunction [] [] [] s_skip s_skip s_skip s_skip) (emit_rule r).

(** ** Reading the input *)

(** The string [v] stands in [input] at position [p]. *)
Definition occurs_at (input : jsstring) (p : nat) (v : jsstring) : Prop :=
  exists pre post, input = pre ++ v ++ post /\ List.length pre = p.

(** Two frames hold the same values and positions. *)
Definition same_frame (fr fr' : frame) : Prop :=
  (forall i, get_result fr' i = get_result fr i)
  /\ positions fr' = positions fr.

(** ** Positions and the length of the input *)

(** The text [a] stores a result and then moves [pos] by as many
    characters as the test [c] has found in the input. *)
Definition guarded_step (c : cond) (a : stmt) : bool :=
  match a with
  | s_seq store (s_seq (s_advance k) s_skip) =>
      match c, store with
      | input_substr_is n v, s_set_string _ _ =>
          (k =? n)%nat && (List.length v =? n)%nat
      | input_longer_than_pos, s_set_charAt _ => (k =? 1)%nat
      | input_matches_class _ _, s_set_charAt _ => (k =? 1)%nat
      | _, _ => false
      end
  | _ => false
  end.

(** Every [pos += n] of the text stands right under such a test. *)
Fixpoint advances_guarded (s : stmt) : bool :=
  match s with
  | s_advance _ => false
  | s_seq a b => advances_guarded a && advances_guarded b
  | s_while _ body => advances_guarded body
  | s_if c a b => (guarded_step c a || advances_guarded a) && advances_guarded b
  | _ => true
  end.

Definition functions_advance_guarded (prog : list function_def) : Prop :=
  forall fn, In fn prog -> advances_guarded (function_body fn) = true.

(** No position the parser holds lies past [L]: [pos], the rightmost
    failure position, the saved positions of the frame and the end
    positions in the cache. *)
Definition in_bounds (L : nat) (fr : frame) (st : pstate) : Prop :=
  (pos st <= L)%nat /\ (rightmostFailuresPos st <= L)%nat
  /\ (forall k p, positions fr !! k = Some p -> (p <= L)%nat)
  /\ (forall key entry, cache st !! key = Some entry -> (fst entry <= L)%nat).

(** ** The values of matches *)

Definition not_null (v : value) : Prop := v <> VNull.

(** What the value [v] of a match of [e], entered at position [p], looks
    like. *)
Fixpoint match_value_shape (input : jsstring) (p : nat) (e : expr) (v : value)
  : Prop :=
  match e with
  | choice alternatives =>
      (fix some_alternative (l : list expr) : Prop :=
         match l with
         | [] => False
         | a :: l' => match_value_shape input p a v \/ some_alternative l'
         end) alternatives
  | sequence elements =>
      exists items, v = VArr items
        /\ List.length items = List.length elements /\ Forall not_null items
  | labeled _ e' => match_value_shape input p e' v
  | simple_and _ | simple_not _ | semantic_and _ | semantic_not _ => v = VStr []
  | optional e' => v = VStr [] \/ match_value_shape input p e' v
  | zero_or_more _ => exists items, v = VArr items /\ Forall not_null items
  | one_or_more _ =>
      exists items, v = VArr items /\ items <> [] /\ Forall not_null items
  | action _ _ | rule_ref _ => True
  | literal s => v = VStr s
  | any | class _ _ _ => exists c, input !! p = Some c /\ v = VStr [c]
  end.

(** The same, for a list of alternatives. *)
Fixpoint some_alternative_shape (input : jsstring) (p : nat) (l : list expr)
  (v : value) : Prop :=
  match l with
  | [] => False
  | a :: l' => match_value_shape input p a v \/ some_alternative_shape input p l' v
  end.

(** ** The arguments of an action (emitter.js 675-697) *)

(** The labeled elements of a sequence, each with its index, counted from
    [i]. *)
Fixpoint labels_from (i : nat) (elements : list expr) : list (nat * jsstring) :=
  match elements with
  | [] => []
  | labeled l _ :: rest => (i, l) :: labels_from (S i) rest
  | _ :: rest => labels_from (S i) rest
  end.

(** The names and the values an action is called with, [v] being the value
    of its expression [e]. *)
Definition action_call (e : expr) (v : value) : list jsstring * list value :=
  match e with
  | sequence elements =>
      (map snd (labels_from 0 elements),
       map (fun il => match v with
                      | VArr items => default VUndefined (items !! fst il)
                      | _ => VUndefined
                      end) (labels_from 0 elements))
  | labeled l _ => ([l], [v])
  | _ => ([], [])
  end.

(** ** Run-time errors of the emitted code *)

(** Every rule the expression refers to has its function in [prog]. *)
Definition refs_defined (prog : list function_def) (e : expr) : Prop :=
  forall n, In n (refs e) -> find_function prog n <> None.

(** Functions the emitter wrote for rules that refer to rules with a
    function only. *)
Definition closed_functions (prog : list function_def) : Prop :=
  forall fn, In fn prog ->
    exists r, emit_rule r = Some fn /\ refs_defined prog (expression r).

(** A text without [resultN.push], without [pos = posK] and without a call
    of a rule function. *)
Fixpoint plain_text (s : stmt) : bool :=
  match s with
  | s_seq a b | s_if _ a b => plain_text a && plain_text b
  | s_while _ body => plain_text body
  | s_push _ _ | s_restore_pos _ | s_set_call _ _ => false
  | _ => true
  end.

(** With fuel [k], no emitted text and no rule function ends in a run-time
    error. *)
Definition no_fault_at (prog : list function_def) (user : user_code)
  (input : jsstring) (memo : bool) (k : nat) : Prop :=
  (forall e ctx s fr st,
     refs_defined prog e -> emit e ctx = Some s ->
     exec prog user input memo k s fr st <> Fault)
  /\ (forall n st,
        find_function prog n <> None ->
        call prog user input memo k n st <> CallFault).

(** ** Two runs of the same text *)

(** Two outcomes of the same kind, with the same parser state and with
    frames related by [R] when both are results. *)
Definition rel_outcome (R : frame -> frame -> Prop) (o1 o2 : outcome) : Prop :=
  match o1, o2 with
  | Done f1 s1, Done f2 s2 => s1 = s2 /\ R f1 f2
  | OutOfFuel, OutOfFuel | Fault, Fault => True
  | _, _ => False
  end.

(** Both frames hold the same value in [resultN]. *)
Definition same_result (i : nat) (f1 f2 : frame) : Prop :=
  get_result f1 i = get_result f2 i.

(** Both frames hold the position [p] in [posK]. *)
Definition same_saved (k p : nat) (f1 f2 : frame) : Prop :=
  positions f1 !! k = Some p /\ positions f2 !! k = Some p.

(** The text of the node does the same from any two frames. *)
Definition frame_free (prog : list function_def) (user : user_code)
  (input : jsstring) (memo : bool) (e : expr) : Prop :=
  forall ctx s, emit e ctx = Some s ->
  forall m f1 f2 st,
    rel_outcome (same_result (resultIndex ctx))
      (exec prog user input memo m s f1 st)
      (exec prog user input memo m s f2 st).

(** ** At most one evaluation, as the specification words it *)

(** The claim that the start rule function of every grammar, called by
    [parse], evaluates the bodies it needs once each, stores their
    outcomes and returns. *)
Definition evaluates_each_pair_once (user : user_code) : Prop :=
  forall ast input,
    wf_grammar ast -> closed_grammar ast -> emit_rules (rules ast) <> None ->
    exists fuel result st',
      call (functions_of ast) user input true fuel (startRule ast)
        initial_pstate = Returned result st'
      /\ NoDup (evaluated st')
      /\ cache st' !! cache_key (startRule ast) 0 = Some (pos st', result).

(** The cache holds no match of the empty string for the rule [n]. *)
Definition cached_matches_consume (n : jsstring) (st : pstate) : Prop :=
  forall p entry,
    cache st !! cache_key n p = Some entry ->
    snd entry <> VNull -> (p < fst entry)%nat.
(* ===================================================================== *)
(** * Part II. Properties                                                 *)
(* ===================================================================== *)

(** ** [quote] *)

Lemma size_nat_lower (n : N) (k : nat) :
  2 ^ N.of_nat k <= n -> (k < N.size_nat n)%nat.
Proof.
  intros Hn. destruct n as [|p].
  - pose proof (N.pow_nonzero 2 (N.of_nat k)). lia.
  - simpl. apply Nat.nle_gt. intros Hle.
    apply Zpower2_Psize in Hle.
    assert (H2 : Z.of_N (2 ^ N.of_nat k) = (2 ^ Z.of_nat k)%Z).
    { rewrite N2Z.inj_pow. by rewrite nat_N_Z. }
    lia.
Qed.

Lemma hex_digit_upper_0 : hex_digit_upper 0 = 48.
Proof. reflexivity. Qed.

Lemma div16_small n : n < 16 -> n / 16 = 0.
Proof. intros. by apply N.div_small. Qed.

(** [toString(16)] of a code unit has one to four digits. *)
Lemma toString16_upper_1 n :
  n < 16 -> toString16_upper n = [hex_digit_upper n].
Proof.
  intros Hn. unfold toString16_upper. cbn [toString16_go].
  rewrite div16_small, N.mod_small by lia. reflexivity.
Qed.

Lemma toString16_upper_2 n :
  16 <= n < 256 ->
  toString16_upper n = [hex_digit_upper (n / 16); hex_digit_upper (n mod 16)].
Proof.
  intros Hn. unfold toString16_upper.
  pose proof (size_nat_lower n 4 ltac:(simpl; lia)) as Hs.
  destruct (N.size_nat n) as [|f]; [lia|].
  cbn [toString16_go].
  assert (H1 : 1 <= n / 16) by (apply N.div_le_lower_bound; lia).
  assert (H2 : n / 16 < 16) by (apply N.Div0.div_lt_upper_bound; lia).
  destruct (N.eqb_spec (n / 16) 0); [lia|].
  rewrite (div16_small (n / 16)), (N.mod_small (n / 16)) by lia. reflexivity.
Qed.

Lemma toString16_upper_3 n :
  256 <= n < 4096 ->
  toString16_upper n =
  [hex_digit_upper (n / 256); hex_digit_upper (n / 16 mod 16);
   hex_digit_upper (n mod 16)].
Proof.
  intros Hn. unfold toString16_upper.
  pose proof (size_nat_lower n 8 ltac:(simpl; lia)) as Hs.
  destruct (N.size_nat n) as [|[|f]]; [lia..|].
  cbn [toString16_go].
  assert (H1 : 16 <= n / 16) by (apply N.div_le_lower_bound; lia).
  assert (H2 : n / 16 < 256) by (apply N.Div0.div_lt_upper_bound; lia).
  assert (H3 : 1 <= n / 16 / 16) by (apply N.div_le_lower_bound; lia).
  assert (H4 : n / 16 / 16 < 16) by (apply N.Div0.div_lt_upper_bound; lia).
  destruct (N.eqb_spec (n / 16) 0); [lia|].
  destruct (N.eqb_spec (n / 16 / 16) 0); [lia|].
  rewrite (div16_small (n / 16 / 16)), (N.mod_small (n / 16 / 16)) by lia.
  rewrite N.Div0.div_div. reflexivity.
Qed.

Lemma toString16_upper_4 n :
  4096 <= n < 65536 ->
  toString16_upper n =
  [hex_digit_upper (n / 4096); hex_digit_upper (n / 256 mod 16);
   hex_digit_upper (n / 16 mod 16); hex_digit_upper (n mod 16)].
Proof.
  intros Hn. unfold toString16_upper.
  pose proof (size_nat_lower n 12 ltac:(simpl; lia)) as Hs.
  destruct (N.size_nat n) as [|[|[|f]]]; [lia..|].
  cbn [toString16_go].
  assert (H1 : 256 <= n / 16) by (apply N.div_le_lower_bound; lia).
  assert (H2 : n / 16 < 4096) by (apply N.Div0.div_lt_upper_bound; lia).
  assert (H3 : 16 <= n / 16 / 16) by (apply N.div_le_lower_bound; lia).
  assert (H4 : n / 16 / 16 < 256) by (apply N.Div0.div_lt_upper_bound; lia).
  assert (H5 : 1 <= n / 16 / 16 / 16) by (apply N.div_le_lower_bound; lia).
  assert (H6 : n / 16 / 16 / 16 < 16) by (apply N.Div0.div_lt_upper_bound; lia).
  destruct (N.eqb_spec (n / 16) 0); [lia|].
  destruct (N.eqb_spec (n / 16 / 16) 0); [lia|].
  destruct (N.eqb_spec (n / 16 / 16 / 16) 0); [lia|].
  rewrite (div16_small (n / 16 / 16 / 16)), (N.mod_small (n / 16 / 16 / 16)) by lia.
  rewrite !N.Div0.div_div. reflexivity.
Qed.

(** [escape] writes [\xHH] or [\uHHHH]. *)
Lemma escape_hex c : c < 65536 -> escape c = hex_escape c.
Proof.
  intros Hc. unfold escape, hex_escape.
  destruct (N.leb_spec c 255) as [Hle|Hgt].
  - destruct (N.lt_ge_cases c 16) as [Hs|Hs].
    + rewrite toString16_upper_1, div16_small, N.mod_small by lia. reflexivity.
    + rewrite toString16_upper_2 by lia. reflexivity.
  - destruct (N.lt_ge_cases c 4096) as [Hs|Hs].
    + rewrite toString16_upper_3 by lia.
      assert (c / 256 < 16) by (apply N.Div0.div_lt_upper_bound; lia).
      rewrite (N.div_small c 4096), (N.mod_small (c / 256)) by lia.
      reflexivity.
    + rewrite toString16_upper_4 by lia. reflexivity.
Qed.

Lemma quote_body_singleton c : c < 65536 -> quote_body [c] = quote_char c.
Proof.
  intros Hc. unfold quote_body, replace_class, replace_char, quote_char.
  repeat (cbn [flat_map app];
          match goal with
          | |- context [c =? ?k] =>
              destruct (N.eqb_spec c k) as [->|?]; [reflexivity|]
          end).
  cbn [flat_map app]. unfold non_ascii.
  destruct ((32 <=? c) && (c <=? 127)); cbn [negb]; [reflexivity|].
  rewrite app_nil_r, escape_hex by exact Hc. reflexivity.
Qed.

Lemma quote_unfold s : quote s = [ch_dquote] ++ quote_body s ++ [ch_dquote].
Proof. reflexivity. Qed.

Lemma quote_body_app s t : quote_body (s ++ t) = quote_body s ++ quote_body t.
Proof.
  unfold quote_body, replace_class, replace_char.
  by rewrite !flat_map_app.
Qed.

Lemma quote_body_flat_map s :
  wf_string s -> quote_body s = flat_map quote_char s.
Proof.
  induction 1 as [|c s Hc _ IH]; [reflexivity|].
  change (c :: s) with ([c] ++ s).
  rewrite quote_body_app, IH, quote_body_singleton by exact Hc. reflexivity.
Qed.

Lemma hex_value_digit d : d < 16 -> hex_value (hex_digit_upper d) = Some d.
Proof.
  intros Hd. unfold hex_digit_upper, hex_value.
  destruct (N.ltb_spec d 10).
  - destruct (N.leb_spec 48 (48 + d)); [|lia].
    destruct (N.leb_spec (48 + d) 57); [|lia]. simpl. f_equal. lia.
  - destruct (N.leb_spec 48 (55 + d)); [|lia].
    destruct (N.leb_spec (55 + d) 57); [lia|]. simpl.
    destruct (N.leb_spec 65 (55 + d)); [|lia].
    destruct (N.leb_spec (55 + d) 70); [|lia]. simpl. f_equal. lia.
Qed.

Lemma hex2_digits a b :
  a < 16 -> b < 16 ->
  hex2 (hex_digit_upper a) (hex_digit_upper b) = Some (16 * a + b).
Proof. intros. unfold hex2. by rewrite !hex_value_digit. Qed.

Lemma hex2_of_byte c :
  c < 256 -> hex2 (hex_digit_upper (c / 16)) (hex_digit_upper (c mod 16)) = Some c.
Proof.
  intros Hc. rewrite hex2_digits.
  - f_equal. symmetry. apply N.div_mod. lia.
  - apply N.Div0.div_lt_upper_bound; lia.
  - apply N.mod_lt. lia.
Qed.

Lemma hex4_of_unit c :
  c < 65536 ->
  hex4 (hex_digit_upper (c / 4096)) (hex_digit_upper (c / 256 mod 16))
       (hex_digit_upper (c / 16 mod 16)) (hex_digit_upper (c mod 16)) = Some c.
Proof.
  intros Hc. unfold hex4.
  assert (H1 : c / 4096 = c / 256 / 16) by (rewrite N.Div0.div_div; reflexivity).
  assert (H2 : c / 16 mod 16 = (c mod 256) / 16).
  { change 256 with (16 * 16). rewrite N.Div0.mod_mul_r.
    rewrite N.mul_comm, N.div_add by lia.
    rewrite (N.div_small (c mod 16)) by (apply N.mod_lt; lia). lia. }
  assert (H3 : c mod 16 = (c mod 256) mod 16).
  { change 256 with (16 * 16). rewrite N.Div0.mod_mul_r.
    rewrite N.mul_comm, N.Div0.mod_add. by rewrite N.Div0.mod_mod. }
  rewrite H1, H2, H3.
  rewrite !hex2_of_byte.
  - f_equal. symmetry. apply N.div_mod. lia.
  - apply N.mod_lt. lia.
  - apply N.Div0.div_lt_upper_bound; lia.
Qed.

(** Reading one quoted character back. *)
Lemma read_quote_char c rest :
  c < 65536 ->
  read_double_string_characters (quote_char c ++ rest)
  = option_map (cons c) (read_double_string_characters rest).
Proof.
  intros Hc. unfold quote_char.
  repeat match goal with
         | |- context [c =? ?k] =>
             destruct (N.eqb_spec c k) as [->|?]; [reflexivity|]
         end.
  unfold ch_bslash, ch_dquote, ch_cr, ch_lf, ch_tab, ch_ff in *.
  destruct ((32 <=? c) && (c <=? 127)) eqn:Hp.
  - apply andb_true_iff in Hp as [?%N.leb_le ?%N.leb_le].
    cbn [app read_double_string_characters].
    unfold ch_dquote, ch_bslash, is_line_terminator, ch_lf, ch_cr, ch_ls, ch_ps.
    repeat match goal with
           | |- context [c =? ?b] =>
               destruct (N.eqb_spec c b); [lia|]
           end.
    reflexivity.
  - destruct (N.leb_spec c 255) as [Hle|Hgt].
    + cbn [app read_double_string_characters].
      change (92 =? ch_dquote) with false. change (is_line_terminator 92) with false.
      change (92 =? ch_bslash) with true. change (120 =? 120) with true.
      cbv iota. rewrite hex2_of_byte by lia.
      by destruct (read_double_string_characters rest).
    + cbn [app read_double_string_characters].
      change (92 =? ch_dquote) with false. change (is_line_terminator 92) with false.
      change (92 =? ch_bslash) with true. change (117 =? 120) with false.
      change (117 =? 117) with true.
      cbv iota. rewrite hex4_of_unit by lia.
      by destruct (read_double_string_characters rest).
Qed.

Lemma read_flat_map_quote_char s rest :
  wf_string s ->
  read_double_string_characters (flat_map quote_char s ++ rest)
  = option_map (app s) (read_double_string_characters rest).
Proof.
  induction 1 as [|c s Hc _ IH]; simpl.
  - by destruct (read_double_string_characters rest).
  - rewrite <- app_assoc, read_quote_char, IH by exact Hc.
    by destruct (read_double_string_characters rest).
Qed.

Lemma quote_char_printable c x :
  c < 65536 -> In x (quote_char c) -> 32 <= x <= 127.
Proof.
  intros Hc.
  assert (Hd : forall d, d < 16 -> 32 <= hex_digit_upper d <= 127).
  { intros d Hdlt. unfold hex_digit_upper.
    destruct (N.ltb_spec d 10); lia. }
  assert (Hm : forall a, a mod 16 < 16) by (intros; apply N.mod_lt; lia).
  unfold quote_char.
  repeat match goal with
         | |- context [c =? ?k] =>
             destruct (N.eqb_spec c k) as [->|?];
             [simpl; intros [<-|[<-|[]]]; unfold ch_bslash, ch_dquote; lia|]
         end.
  destruct ((32 <=? c) && (c <=? 127)) eqn:Hp.
  - apply andb_true_iff in Hp as [?%N.leb_le ?%N.leb_le]. intros [<-|[]]. lia.
  - destruct (N.leb_spec c 255) as [Hle|Hgt].
    + assert (c / 16 < 16) by (apply N.Div0.div_lt_upper_bound; lia).
      simpl. intros [<-|[<-|[<-|[<-|[]]]]]; unfold ch_bslash; auto; lia.
    + assert (c / 4096 < 16) by (apply N.Div0.div_lt_upper_bound; lia).
      simpl. intros [<-|[<-|[<-|[<-|[<-|[<-|[]]]]]]]; unfold ch_bslash; auto; lia.
Qed.

Lemma quote_char_hex c :
  control_or_high c = true -> two_char_escaped c = false ->
  quote_char c = hex_escape c.
Proof.
  unfold control_or_high, two_char_escaped, quote_char, hex_escape.
  intros Hc Ht.
  repeat match goal with
         | |- context [c =? ?k] =>
             destruct (N.eqb_spec c k) as [->|?]; [discriminate Ht|]
         end.
  assert ((32 <=? c) && (c <=? 127) = false) as ->; [|reflexivity].
  apply orb_true_iff in Hc as [?%N.leb_le|?%N.leb_le].
  - apply andb_false_iff. left. apply N.leb_gt. lia.
  - apply andb_false_iff. right. apply N.leb_gt. lia.
Qed.

(** C8, as worded, fails: a line feed is written [\n], not [\x0A]. *)
Lemma quote_line_feed_not_hex :
  ~ (forall s, wf_string s ->
       read_string_literal (quote s) = Some s /\ hex_escapes_only s).
Proof.
  intros H. destruct (H [ch_lf]) as [_ (render & Hq & Hr)].
  { repeat constructor. }
  cbn [flat_map] in Hq.
  rewrite (Hr ch_lf) in Hq; [|by left|reflexivity].
  vm_compute in Hq. discriminate Hq.
Qed.

(** C8 (amended): [quote] round-trips every string of code units; its output
    holds printable ASCII only; each character is written by [quote_char]:
    backslash, double quote, CR, LF, TAB and FF as two-character escapes,
    every other character of 0x00-0x1F or from 0x80 upward as [\xHH] (up to
    0xFF) or [\uHHHH], in upper-case hexadecimal. *)
Theorem quote_roundtrip (s : jsstring) :
  wf_string s ->
  read_string_literal (quote s) = Some s
  /\ (forall x, In x (quote s) -> 32 <= x <= 127)
  /\ quote s = [ch_dquote] ++ flat_map quote_char s ++ [ch_dquote]
  /\ (forall c, In c s -> control_or_high c = true ->
      two_char_escaped c = false -> quote_char c = hex_escape c)
  /\ quote_char ch_cr = [ch_bslash; 114]
  /\ quote_char ch_lf = [ch_bslash; 110]
  /\ quote_char ch_tab = [ch_bslash; 116]
  /\ quote_char ch_ff = [ch_bslash; 102].
Proof.
  intros Hwf.
  assert (Hq : quote s = [ch_dquote] ++ flat_map quote_char s ++ [ch_dquote]).
  { rewrite quote_unfold. by rewrite quote_body_flat_map. }
  split; [|split; [|split; [exact Hq|split; [|by repeat split]]]].
  - rewrite Hq. cbn [app read_string_literal].
    change (ch_dquote =? ch_dquote) with true. cbv iota.
    rewrite read_flat_map_quote_char by exact Hwf.
    cbn. by rewrite app_nil_r.
  - rewrite Hq. intros x Hx. cbn [app] in Hx. destruct Hx as [<-|Hx].
    { unfold ch_dquote. lia. }
    apply in_app_or in Hx as [Hx|[<-|[]]]; [|unfold ch_dquote; lia].
    apply in_flat_map in Hx as (c & Hc & Hx).
    apply (quote_char_printable c); [|exact Hx].
    unfold wf_string in Hwf. rewrite List.Forall_forall in Hwf. by apply Hwf.
  - intros c _. apply quote_char_hex.
Qed.

Lemma quote_roundtrip_witness :
  read_string_literal (quote [97; ch_lf; 233; ch_ls; 55357])
  = Some [97; ch_lf; 233; ch_ls; 55357].
Proof.
  apply (quote_roundtrip [97; ch_lf; 233; ch_ls; 55357]).
  repeat constructor.
Defined.

(** ** [computeErrorPosition] *)

Lemma computeErrorPosition_loop_agrees input n : forall i s prev lc,
  (forall j c, (i <= j < i + n)%nat -> input !! j = Some c ->
               c <> ch_ls /\ c <> ch_ps) ->
  (seenCR s = true <-> prev = Some ch_cr) ->
  (line s, column s) = lc ->
  (let final := fold_left (fun s i => errpos_step s (input !! i)) (seq i n) s in
   (line final, column final))
  = claimed_position_from input n i prev lc.
Proof.
  induction n as [|n IH]; intros i s prev lc Hsep Hcr Hlc; [exact Hlc|].
  cbn [seq fold_left claimed_position_from]. apply IH.
  - intros j c Hj. apply Hsep. lia.
  - destruct (input !! i) as [c|] eqn:Hi; cbn [errpos_step]; [|done].
    destruct (N.eqb_spec c ch_lf) as [->|Hlf]; [done|].
    destruct (Hsep i c ltac:(lia) Hi) as [Hls Hps].
    apply N.eqb_neq in Hls, Hps. rewrite Hls, Hps, !orb_false_r.
    destruct (N.eqb_spec c ch_cr) as [->|Hncr]; [done|]. cbn.
    split; [done|]. intros [=]. done.
  - subst lc. destruct (input !! i) as [c|]; cbn [errpos_step claimed_step];
      [|reflexivity].
    destruct (c =? ch_lf).
    + cbn. f_equal. destruct (seenCR s) eqn:Hs.
      * rewrite bool_decide_eq_true_2; [done|]. by apply Hcr.
      * rewrite bool_decide_eq_false_2; [done|]. intros Hp.
        apply Hcr in Hp. congruence.
    + by destruct ((c =? ch_cr) || (c =? ch_ls) || (c =? ch_ps)).
Qed.

(** Where the text before the error holds neither U+2028 nor U+2029, the
    emitted function computes the position the specification describes. *)
Lemma computeErrorPosition_agrees input n :
  (forall j c, (j < n)%nat -> input !! j = Some c -> c <> ch_ls /\ c <> ch_ps) ->
  computeErrorPosition input n = claimed_error_position input n.
Proof.
  intros H. unfold computeErrorPosition, claimed_error_position.
  apply computeErrorPosition_loop_agrees; [|done|done].
  intros j c Hj. apply H. lia.
Qed.

(** C6: a line feed that follows U+2028 does not start a new line, because
    U+2028 and U+2029 set [seenCR] too; the specification counts a line for
    it, since the character before it is not a carriage return. *)
Theorem computeErrorPosition_separator_line_feed :
  computeErrorPosition [ch_ls; ch_lf] 2 = (2%nat, 1%nat)
  /\ claimed_error_position [ch_ls; ch_lf] 2 = (3%nat, 1%nat).
Proof. split; reflexivity. Qed.

(** ** [matchFailed] and [buildExpected] *)

Lemma matchFailed_left failure st :
  (pos st < rightmostFailuresPos st)%nat -> matchFailed failure st = st.
Proof.
  intros H. unfold matchFailed.
  by destruct (Nat.ltb_spec (pos st) (rightmostFailuresPos st)); [|lia].
Qed.

Lemma matchFailed_right failure st :
  (rightmostFailuresPos st < pos st)%nat ->
  matchFailed failure st = set_failures (pos st) [failure] st.
Proof.
  intros H. unfold matchFailed.
  destruct (Nat.ltb_spec (pos st) (rightmostFailuresPos st)); [lia|].
  by destruct (Nat.ltb_spec (rightmostFailuresPos st) (pos st)); [|lia].
Qed.

Lemma matchFailed_same failure st :
  pos st = rightmostFailuresPos st ->
  matchFailed failure st
  = set_failures (rightmostFailuresPos st)
      (rightmostFailuresExpected st ++ [failure]) st.
Proof.
  intros H. unfold matchFailed.
  destruct (Nat.ltb_spec (pos st) (rightmostFailuresPos st)); [lia|].
  by destruct (Nat.ltb_spec (rightmostFailuresPos st) (pos st)); [lia|].
Qed.

(** The order of the sort is a total order. *)
Lemma jsstring_leb_refl a : jsstring_leb a a = true.
Proof.
  induction a as [|x a IH]; [done|]. cbn. by rewrite N.ltb_irrefl.
Qed.

Lemma jsstring_leb_total a b : jsstring_leb a b = true \/ jsstring_leb b a = true.
Proof.
  revert b. induction a as [|x a IH]; intros [|y b]; cbn; auto.
  destruct (N.ltb_spec x y), (N.ltb_spec y x); auto; lia.
Qed.

Lemma jsstring_leb_antisym a b :
  jsstring_leb a b = true -> jsstring_leb b a = true -> a = b.
Proof.
  revert b. induction a as [|x a IH]; intros [|y b]; cbn; try done.
  destruct (N.ltb_spec x y), (N.ltb_spec y x); try done; try lia.
  intros. f_equal; [lia|auto].
Qed.

Lemma jsstring_leb_trans a b c :
  jsstring_leb a b = true -> jsstring_leb b c = true -> jsstring_leb a c = true.
Proof.
  revert b c. induction a as [|x a IH]; intros [|y b] [|z c]; cbn; try done.
  destruct (N.ltb_spec x y), (N.ltb_spec y x), (N.ltb_spec y z),
    (N.ltb_spec z y), (N.ltb_spec x z), (N.ltb_spec z x);
    try done; try lia.
  apply IH.
Qed.


Lemma insert_sorted_perm x l : Permutation (x :: l) (insert_sorted x l).
Proof.
  induction l as [|y l IH]; cbn; [done|].
  destruct (jsstring_leb x y); [done|].
  rewrite <- IH. apply perm_swap.
Qed.

Lemma insert_sorted_sorted x l :
  StronglySorted jsstring_le l -> StronglySorted jsstring_le (insert_sorted x l).
Proof.
  induction 1 as [|y l Hl IH Hy]; cbn.
  - repeat constructor.
  - destruct (jsstring_leb x y) eqn:Hxy.
    + constructor; [by constructor|].
      constructor; [exact Hxy|].
      eapply List.Forall_impl; [|exact Hy].
      intros z Hz. by eapply jsstring_leb_trans.
    + constructor; [exact IH|].
      rewrite <- (insert_sorted_perm x l). constructor; [|exact Hy].
      destruct (jsstring_leb_total x y); [congruence|done].
Qed.

Lemma sort_strings_perm l : Permutation l (sort_strings l).
Proof.
  induction l as [|x l IH]; cbn; [done|].
  rewrite <- insert_sorted_perm. by constructor.
Qed.

Lemma sort_strings_sorted l : StronglySorted jsstring_le (sort_strings l).
Proof.
  induction l as [|x l IH]; cbn; [constructor|].
  by apply insert_sorted_sorted.
Qed.

Lemma unique_loop_subset last l x : In x (unique_loop last l) -> In x l.
Proof.
  revert last. induction l as [|y l IH]; intros last; cbn; [done|].
  case_bool_decide; cbn; intros H'; [right; eauto|].
  destruct H' as [->|H']; [by left|right; eauto].
Qed.

Lemma unique_loop_complete l x :
  forall last, In x l -> last <> Some x -> In x (unique_loop last l).
Proof.
  induction l as [|y l IH]; intros last; cbn; [done|].
  intros [->|Hin] Hlast.
  - rewrite bool_decide_eq_false_2 by congruence. by left.
  - case_bool_decide.
    + by apply IH.
    + destruct (decide (y = x)) as [->|Hne]; [by left|].
      right. apply IH; [done|congruence].
Qed.

Lemma unique_loop_after x l :
  StronglySorted jsstring_le (x :: l) ->
  StronglySorted jsstring_lt (unique_loop (Some x) l)
  /\ Forall (jsstring_lt x) (unique_loop (Some x) l).
Proof.
  revert x. induction l as [|y l IH]; intros x Hs; cbn.
  - split; constructor.
  - inversion Hs as [|? ? Hs' Hx]; subst.
    inversion Hx as [|? ? Hxy Hxl]; subst.
    inversion Hs' as [|? ? Hl Hy]; subst.
    case_bool_decide as Heq.
    + injection Heq as ->. apply IH. by constructor.
    + destruct (IH y Hs') as [IH1 IH2].
      assert (Hlt : jsstring_lt x y) by (split; [done|congruence]).
      split.
      * by constructor.
      * constructor; [done|].
        eapply List.Forall_impl; [|exact IH2].
        intros z [Hyz Hne]. split; [by eapply jsstring_leb_trans|].
        intros ->. destruct Hlt as [Hzy Hne'].
        apply Hne'. by apply jsstring_leb_antisym.
Qed.

Lemma unique_loop_sorted l :
  StronglySorted jsstring_le l -> StronglySorted jsstring_lt (unique_loop None l).
Proof.
  destruct l as [|x l]; cbn; [constructor|]. intros Hs.
  destruct (unique_loop_after x l Hs). by constructor.
Qed.

(** [buildExpected] renders the distinct expected alternatives in ascending
    order. *)
Lemma buildExpected_sorted_unique l :
  exists u, buildExpected l = render_expected u
    /\ StronglySorted jsstring_lt u
    /\ (forall x, In x u <-> In x l).
Proof.
  exists (unique_loop None (sort_strings l)). split; [done|]. split.
  - apply unique_loop_sorted, sort_strings_sorted.
  - intros x. split.
    + intros H%unique_loop_subset.
      eapply Permutation_in; [symmetry; apply sort_strings_perm|done].
    + intros H. apply unique_loop_complete; [|done].
      eapply Permutation_in; [apply sort_strings_perm|done].
Qed.

Lemma render_expected_many u x y :
  render_expected (u ++ [x; y])
  = join (js ", ") (u ++ [x]) ++ js " or " ++ y.
Proof.
  assert (Hl : List.last (u ++ [x; y]) [] = y).
  { change [x; y] with ([x] ++ [y]). by rewrite app_assoc, List.last_last. }
  assert (Ht : all_but_last (u ++ [x; y]) = u ++ [x]).
  { unfold all_but_last. rewrite length_app. cbn.
    replace (List.length u + 2 - 1)%nat with (List.length (u ++ [x]))
      by (rewrite length_app; cbn; lia).
    change [x; y] with ([x] ++ [y]). rewrite app_assoc.
    by rewrite take_app_length. }
  unfold render_expected.
  destruct (u ++ [x; y]) as [|a [|b w]] eqn:E.
  - by destruct u.
  - apply (f_equal List.length) in E. rewrite length_app in E. cbn in E. lia.
  - by rewrite Ht, Hl.
Qed.

(** ** [stackDepths] *)

Lemma resultStackDepth_sequence elements :
  resultStackDepth (sequence elements)
  = js_add (Int 1) (Math_max (indexed_result_depths 0 elements)).
Proof. reflexivity. Qed.

Lemma js_add_0_r d : js_add d (Int 0) = d.
Proof. destruct d as [|z]; cbn; [done|]. f_equal. lia. Qed.

Lemma is_depth_add d z : is_depth d -> (0 <= z)%Z -> is_depth (js_add d (Int z)).
Proof. intros (x & -> & Hx) Hz. exists (x + z)%Z. split; [done|lia]. Qed.

Lemma is_depth_add_l d z : is_depth d -> (0 <= z)%Z -> is_depth (js_add (Int z) d).
Proof. intros (x & -> & Hx) Hz. exists (z + x)%Z. split; [done|lia]. Qed.

Lemma is_depth_Math_max l :
  l <> [] -> Forall is_depth l -> is_depth (Math_max l).
Proof.
  induction l as [|d l IH]; [done|]. intros _ Hall.
  inversion Hall as [|? ? (x & -> & Hx) Hl]; subst.
  change (is_depth (js_max (Int x) (Math_max l))).
  destruct l as [|d' l'].
  - cbn. by exists x.
  - destruct (IH ltac:(done) Hl) as (y & -> & Hy). cbn.
    exists (Z.max x y). split; [done|lia].
Qed.

Lemma indexed_result_depths_is_depth l : forall i,
  (0 <= i)%Z -> Forall (fun e => is_depth (resultStackDepth e)) l ->
  Forall is_depth (indexed_result_depths i l).
Proof.
  induction l as [|e l IH]; intros i Hi Hall; cbn; [constructor|].
  inversion Hall; subst. constructor.
  - by apply is_depth_add_l.
  - apply IH; [lia|done].
Qed.

(** On a tree in which every [choice] and every [sequence] has a child,
    the pass computes non-negative integers. *)
Lemma stackDepths_nonnegative node :
  nonempty_lists node = true ->
  is_depth (resultStackDepth node) /\ is_depth (posStackDepth node).
Proof.
  induction node as [l IH|l IH| | | | | | | | | | | | |] using expr_nested_ind;
    cbn [nonempty_lists resultStackDepth posStackDepth]; intros Hne;
    try (destruct (IHnode Hne) as [IHr IHp]);
    try (split; (apply is_depth_add; [done|lia]));
    try (split; by exists 0%Z).
  - apply andb_true_iff in Hne as [Hnil Hall].
    apply negb_true_iff, bool_decide_eq_false in Hnil.
    rewrite forallb_forall in Hall. rewrite List.Forall_forall in IH.
    split; (apply is_depth_Math_max; [by destruct l|]);
      apply List.Forall_forall; intros d (e & <- & He)%in_map_iff;
      by apply IH; [|apply Hall].
  - apply andb_true_iff in Hne as [Hnil Hall].
    apply negb_true_iff, bool_decide_eq_false in Hnil.
    rewrite forallb_forall in Hall. rewrite List.Forall_forall in IH.
    split.
    + change (is_depth (js_add (Int 1) (Math_max (indexed_result_depths 0 l)))).
      apply is_depth_add_l; [|lia]. apply is_depth_Math_max; [by destruct l|].
      apply indexed_result_depths_is_depth; [lia|].
      apply List.Forall_forall. intros e He. by apply IH; [|apply Hall].
    + apply is_depth_add_l; [|lia]. apply is_depth_Math_max; [by destruct l|].
      apply List.Forall_forall; intros d (e & <- & He)%in_map_iff.
      by apply IH; [|apply Hall].
Qed.

(** C4: for a [sequence] without elements, which the grammar [start = { ... }]
    yields as the body of its action, [Math.max] is applied to no argument
    and the pass stores [-Infinity], not a non-negative integer, in the
    node, in the action around it and in the rule. *)
Theorem stackDepths_empty_sequence :
  let r := {| name := js "start"; displayName := None;
              expression := action (sequence []) (js "return 1") |} in
  resultStackDepth (sequence []) = NegInfinity
  /\ posStackDepth (sequence []) = NegInfinity
  /\ resultStackDepth (expression r) = NegInfinity
  /\ posStackDepth (expression r) = NegInfinity
  /\ rule_resultStackDepth r = NegInfinity
  /\ rule_posStackDepth r = NegInfinity
  /\ ~ is_depth (resultStackDepth (sequence [])).
Proof.
  repeat split; try reflexivity.
  intros (z & Hz & _). discriminate Hz.
Qed.

(** ** [proxyRules] *)

Lemma replace_rename from to f e :
  replace from to (rename f e) = rename (redirect f from to) e.
Proof.
  induction e as [l IH|l IH| | | | | | | | | | | | |] using expr_nested_ind;
    cbn [rename replace]; try congruence.
  - f_equal. rewrite map_map. apply map_ext_in.
    rewrite List.Forall_forall in IH. exact IH.
  - f_equal. rewrite map_map. apply map_ext_in.
    rewrite List.Forall_forall in IH. exact IH.
  - unfold redirect. by case_bool_decide.
Qed.

Lemma rename_ext f g e : (forall n, f n = g n) -> rename f e = rename g e.
Proof.
  intros Hfg.
  induction e as [l IH|l IH| | | | | | | | | | | | |] using expr_nested_ind;
    cbn [rename]; try congruence.
  - f_equal. apply map_ext_in. rewrite List.Forall_forall in IH. exact IH.
  - f_equal. apply map_ext_in. rewrite List.Forall_forall in IH. exact IH.
Qed.

Lemma rename_id e : rename (fun n => n) e = e.
Proof.
  induction e as [l IH|l IH| | | | | | | | | | | | |] using expr_nested_ind;
    cbn [rename]; try congruence.
  - f_equal. rewrite <- (map_id l) at 2. apply map_ext_in.
    rewrite List.Forall_forall in IH. exact IH.
  - f_equal. rewrite <- (map_id l) at 2. apply map_ext_in.
    rewrite List.Forall_forall in IH. exact IH.
Qed.

Lemma rename_rule_id r : rename_rule (fun n => n) r = r.
Proof. destruct r. unfold rename_rule. cbn. by rewrite rename_id. Qed.

Lemma rename_rule_ext f g r :
  (forall n, f n = g n) -> rename_rule f r = rename_rule g r.
Proof. intros. unfold rename_rule. by rewrite (rename_ext f g). Qed.

Lemma replace_in_rule_rename from to f r :
  replace_in_rule from to (rename_rule f r) = rename_rule (redirect f from to) r.
Proof. unfold replace_in_rule, rename_rule. cbn. by rewrite replace_rename. Qed.

Lemma isProxyRule_rename f r : isProxyRule (rename_rule f r) = isProxyRule r.
Proof. unfold isProxyRule. cbn. by destruct (expression r). Qed.

Lemma proxy_target_rename f r :
  proxy_target (rename_rule f r) = option_map f (proxy_target r).
Proof. unfold proxy_target. cbn. by destruct (expression r). Qed.

Lemma isProxyRule_target r :
  isProxyRule r = true <-> exists t, proxy_target r = Some t.
Proof.
  unfold isProxyRule, proxy_target.
  destruct (expression r); split; try done; try (intros [? [=]]); eauto.
Qed.

Lemma isProxyRule_no_target r :
  isProxyRule r = false <-> proxy_target r = None.
Proof.
  unfold isProxyRule, proxy_target. by destruct (expression r).
Qed.

Lemma lookup_rule_In k rs r : lookup_rule k rs = Some r -> In (k, r) rs.
Proof.
  induction rs as [|[k' r'] rs IH]; cbn; [done|].
  case_bool_decide as Hk; [intros [= ->]; subst; by left|right; auto].
Qed.

Lemma In_lookup_rule k r rs :
  NoDup (keys rs) -> In (k, r) rs -> lookup_rule k rs = Some r.
Proof.
  induction rs as [|[k' r'] rs IH]; cbn; [done|].
  intros Hnd. apply NoDup_cons in Hnd as [Hnotin Hnd].
  intros [[= -> ->]|Hin].
  - by rewrite bool_decide_eq_true_2.
  - rewrite bool_decide_eq_false_2; [auto|].
    intros ->. apply Hnotin. apply list_elem_of_In.
    apply (in_map fst) in Hin. exact Hin.
Qed.

Lemma lookup_rule_None k rs : ~ In k (keys rs) -> lookup_rule k rs = None.
Proof.
  induction rs as [|[k' r'] rs IH]; cbn; [done|]. intros Hn.
  rewrite bool_decide_eq_false_2 by tauto. apply IH. tauto.
Qed.

Lemma lookup_keep_renamed f removed rs k r :
  NoDup (keys rs) -> In (k, r) rs -> removed k = false ->
  lookup_rule k (keep_renamed f removed rs) = Some (rename_rule f r).
Proof.
  unfold keep_renamed.
  induction rs as [|[k' r'] rs IH]; cbn [List.filter map fst snd keys]; [done|].
  intros Hnd. apply NoDup_cons in Hnd as [Hnotin Hnd].
  intros [[= -> ->]|Hin] Hrem.
  - rewrite Hrem. cbn. by rewrite bool_decide_eq_true_2.
  - assert (k' <> k).
    { intros ->. apply Hnotin. apply list_elem_of_In.
      apply (in_map fst) in Hin. exact Hin. }
    destruct (negb (removed k' && isProxyRule r')); cbn; [|auto].
    rewrite bool_decide_eq_false_2 by done. auto.
Qed.

Lemma keep_renamed_map (g : rule -> rule) f removed rs :
  map (fun kr => (fst kr, g (snd kr))) (keep_renamed f removed rs)
  = map (fun kr => (fst kr, g (rename_rule f (snd kr))))
      (List.filter (fun kr => negb (removed (fst kr) && isProxyRule (snd kr))) rs).
Proof. unfold keep_renamed. by rewrite map_map. Qed.

Lemma filter_ext_in' {A} (p q : A -> bool) l :
  (forall x, In x l -> p x = q x) -> List.filter p l = List.filter q l.
Proof.
  induction l as [|x l IH]; cbn; [done|]. intros H.
  rewrite (H x) by (by left). rewrite IH; [done|]. intros. apply H. by right.
Qed.

(** Visiting a key whose rule is no proxy changes nothing. *)
Lemma keep_renamed_visit_plain f done rs k r :
  NoDup (keys rs) -> In (k, r) rs -> isProxyRule r = false ->
  keep_renamed f (visited (k :: done)) rs = keep_renamed f (visited done) rs.
Proof.
  intros Hnd Hin Hr. unfold keep_renamed. f_equal.
  apply filter_ext_in'. intros [k' r'] Hin'. cbn [fst snd].
  destruct (decide (k' = k)) as [->|Hne].
  - assert (r' = r) as ->.
    { apply (In_lookup_rule _ _ _ Hnd) in Hin, Hin'. congruence. }
    by rewrite Hr, !andb_false_r.
  - f_equal. f_equal. unfold visited. apply bool_decide_ext. rewrite elem_of_cons. naive_solver.
Qed.

(** Deleting the key of a proxy that was just visited. *)
Lemma delete_keep_renamed f done rs k r :
  NoDup (keys rs) -> In (k, r) rs -> isProxyRule r = true ->
  visited done k = false ->
  delete_rule k (keep_renamed f (visited done) rs)
  = keep_renamed f (visited (k :: done)) rs.
Proof.
  intros Hnd Hin Hr Hk. unfold keep_renamed, delete_rule.
  induction rs as [|[k' r'] rs IH]; cbn [List.filter map fst snd]; [done|].
  cbn [keys map fst] in Hnd. apply NoDup_cons in Hnd as [Hnotin Hnd].
  destruct (decide (k' = k)) as [->|Hne].
  - assert (r' = r) as ->.
    { destruct Hin as [[= ->]|Hin]; [done|].
      exfalso. apply Hnotin, list_elem_of_In.
      apply (in_map fst) in Hin. exact Hin. }
    rewrite Hk, Hr. cbn [andb negb map List.filter fst].
    rewrite bool_decide_eq_true_2 by done. cbn [negb].
    assert (Hv : visited (k :: done) k = true).
    { unfold visited. apply bool_decide_eq_true. by left. }
    rewrite Hv. cbn [andb negb].
    (* the other pairs have other keys *)
    clear IH Hin.
    induction rs as [|[k2 r2] rs IH2]; cbn [List.filter map fst snd]; [done|].
    cbn [keys map fst] in Hnd, Hnotin.
    apply NoDup_cons in Hnd as [Hn2 Hnd].
    assert (k2 <> k).
    { intros ->. apply Hnotin. by left. }
    assert (Hv2 : visited (k :: done) k2 = visited done k2).
    { unfold visited. apply bool_decide_ext. rewrite elem_of_cons. naive_solver. }
    rewrite Hv2.
    assert (Hrest : ¬ k ∈ map fst rs).
    { intros Hk'. apply Hnotin. by right. }
    destruct (negb (visited done k2 && isProxyRule r2));
      cbn [map List.filter fst];
      [rewrite bool_decide_eq_false_2 by done; cbn [negb]; f_equal|];
      by apply IH2.
  - assert (Hv2 : visited (k :: done) k' = visited done k').
    { unfold visited. apply bool_decide_ext. rewrite elem_of_cons. naive_solver. }
    rewrite Hv2.
    assert (Hin' : In (k, r) rs).
    { destruct Hin as [[= -> ->]|Hin]; [done|exact Hin]. }
    destruct (negb (visited done k' && isProxyRule r'));
      cbn [map List.filter fst];
      [rewrite bool_decide_eq_false_2 by done; cbn [negb]; f_equal|];
      by apply IH.
Qed.

(** One turn of the loop keeps the shape of the grammar: the rules are
    those of the input that are not proxies already visited, renamed. *)
Lemma proxyRules_step_state ast0 done f ast k r :
  wf_grammar ast0 ->
  proxyRules_state ast0 done f ast ->
  In (k, r) (rules ast0) -> visited done k = false ->
  proxyRules_state ast0 (k :: done)
    (match proxy_target r with
     | Some t => redirect f k (f t)
     | None => f
     end)
    (proxyRules_step ast k).
Proof.
  intros [Hnd Hname] (Hrules & Hstart & Hinit) Hin Hk.
  unfold proxyRules_step.
  rewrite Hrules, (lookup_keep_renamed f _ _ k r Hnd Hin Hk).
  rewrite proxy_target_rename.
  destruct (proxy_target r) as [t|] eqn:Ht; cbn [option_map].
  - assert (Hproxy : isProxyRule r = true) by (apply isProxyRule_target; eauto).
    assert (Hrules1 :
      rules (replaceRuleRefs ast (name (rename_rule f r)) (f t))
      = keep_renamed (redirect f k (f t)) (visited done) (rules ast0)).
    { cbn [replaceRuleRefs rules rename_rule name]. rewrite (Hname k r Hin).
      rewrite Hrules, keep_renamed_map. unfold keep_renamed.
      apply map_ext. intros [k' r']. cbn [fst snd].
      by rewrite replace_in_rule_rename. }
    split; [|split]; cbn [rules startRule initializer].
    + rewrite Hrules1. by apply (delete_keep_renamed _ done (rules ast0) k r).
    + rewrite Hrules1.
      rewrite (lookup_keep_renamed _ _ _ k r Hnd Hin Hk).
      rewrite proxy_target_rename, Ht. cbn [option_map replaceRuleRefs startRule].
      rewrite Hstart.
      assert (redirect f k (f t) t = f t) as ->
        by (unfold redirect; by case_bool_decide).
      unfold redirect. repeat case_bool_decide; congruence.
    + exact Hinit.
  - assert (Hplain : isProxyRule r = false) by (by apply isProxyRule_no_target).
    split; [|split]; [|exact Hstart|exact Hinit].
    rewrite Hrules. symmetry. by apply (keep_renamed_visit_plain f done _ k r).
Qed.

Lemma keep_renamed_initial rs :
  rs = keep_renamed (fun n => n) (visited []) rs.
Proof.
  unfold keep_renamed.
  rewrite (filter_ext_in' _ (fun _ => true)).
  - assert (Hf : forall l : list (jsstring * rule), List.filter (fun _ => true) l = l).
    { induction l as [|x l IH]; cbn; congruence. }
    rewrite Hf. rewrite <- (map_id rs) at 1. apply map_ext.
    intros [k r]. cbn. by rewrite rename_rule_id.
  - intros [k r] _. reflexivity.
Qed.

(** The loop over a run of keys; [I] is any property of the keys visited
    and the renaming made that each turn keeps. *)
Lemma proxyRules_loop_state ast0 (I : list jsstring -> (jsstring -> jsstring) -> Prop) :
  wf_grammar ast0 ->
  (forall done f k r,
     I done f -> In (k, r) (rules ast0) -> visited done k = false ->
     I (k :: done)
       (match proxy_target r with
        | Some t => redirect f k (f t)
        | None => f
        end)) ->
  forall ks done f ast,
  proxyRules_state ast0 done f ast -> I done f ->
  NoDup ks -> (forall k, In k ks -> In k (keys (rules ast0))) ->
  (forall k, In k ks -> visited done k = false) ->
  exists f',
    proxyRules_state ast0 (rev ks ++ done) f' (fold_left proxyRules_step ks ast)
    /\ I (rev ks ++ done) f'.
Proof.
  intros Hwf HI.
  induction ks as [|k ks IH]; intros done f ast Hst Hinv Hnd Hkeys Hfresh.
  - exists f. by split.
  - apply NoDup_cons in Hnd as [Hnotin Hnd].
    pose proof (Hkeys k ltac:(by left)) as Hk0.
    apply in_map_iff in Hk0 as ([k' r] & Hk' & Hin).
    cbn in Hk'. subst k'.
    pose proof (Hfresh k ltac:(by left)) as Hk.
    pose proof (proxyRules_step_state ast0 done f ast k r Hwf Hst Hin Hk) as Hstep.
    pose proof (HI done f k r Hinv Hin Hk) as Hinv'.
    cbn [fold_left rev].
    destruct (IH (k :: done) _ _ Hstep Hinv' Hnd) as (f' & Hf' & HI').
    + intros k2 Hk2. apply Hkeys. by right.
    + intros k2 Hk2. unfold visited. apply bool_decide_eq_false.
      rewrite elem_of_cons. intros [->|Hd].
      * apply Hnotin. by apply list_elem_of_In.
      * pose proof (Hfresh k2 ltac:(by right)) as Hv.
        unfold visited in Hv. by apply bool_decide_eq_false in Hv.
    + exists f'. by rewrite <- app_assoc.
Qed.

Lemma keep_renamed_all_visited f done rs :
  (forall k, In k (keys rs) -> visited done k = true) ->
  keep_renamed f (visited done) rs = keep_renamed f (fun _ => true) rs.
Proof.
  intros H. unfold keep_renamed. f_equal. apply filter_ext_in'.
  intros [k r] Hin. cbn [fst snd]. rewrite H; [done|].
  apply (in_map fst) in Hin. exact Hin.
Qed.

Lemma proxyRules_run ast (I : list jsstring -> (jsstring -> jsstring) -> Prop) :
  wf_grammar ast ->
  (forall done f k r,
     I done f -> In (k, r) (rules ast) -> visited done k = false ->
     I (k :: done)
       (match proxy_target r with
        | Some t => redirect f k (f t)
        | None => f
        end)) ->
  I [] (fun n => n) ->
  exists f,
    rules (proxyRules ast) = keep_renamed f (fun _ => true) (rules ast)
    /\ startRule (proxyRules ast) = f (startRule ast)
    /\ I (rev (keys (rules ast))) f.
Proof.
  intros Hwf HI H0.
  destruct (proxyRules_loop_state ast I Hwf HI (keys (rules ast)) []
              (fun n => n) ast) as (f & (Hr & Hs & _) & Hf).
  - split; [apply keep_renamed_initial|done].
  - exact H0.
  - by destruct Hwf.
  - auto.
  - intros k _. unfold visited. apply bool_decide_eq_false.
    intros H%elem_of_nil. exact H.
  - exists f. rewrite app_nil_r in Hf. split; [|by split].
    unfold proxyRules. rewrite Hr. apply keep_renamed_all_visited.
    intros k Hk. unfold visited. apply bool_decide_eq_true.
    rewrite app_nil_r. apply list_elem_of_In. by apply -> in_rev.
Qed.

(** The shape of the result, for every well-formed grammar. *)
Lemma proxyRules_shape ast :
  wf_grammar ast ->
  exists f,
    rules (proxyRules ast) = keep_renamed f (fun _ => true) (rules ast)
    /\ startRule (proxyRules ast) = f (startRule ast).
Proof.
  intros Hwf.
  destruct (proxyRules_run ast (fun _ _ => True) Hwf) as (f & Hr & Hs & _);
    [done..|].
  by exists f.
Qed.

Lemma resolve_proxy_plain rs n :
  (forall r, lookup_rule n rs = Some r -> isProxyRule r = false) ->
  resolve_proxy rs n = n.
Proof.
  intros H. unfold resolve_proxy.
  destruct (lookup_rule n rs) as [r|]; [|done].
  specialize (H r eq_refl). apply isProxyRule_no_target in H. by rewrite H.
Qed.

(** Without chains, the renaming made by the loop sends each proxy visited
    to its target and leaves every other name alone. *)
Lemma redirect_resolve ast done f k r :
  wf_grammar ast -> chain_free ast ->
  (forall n, f n = if visited done n then resolve_proxy (rules ast) n else n) ->
  In (k, r) (rules ast) -> visited done k = false ->
  forall n,
    (match proxy_target r with
     | Some t => redirect f k (f t)
     | None => f
     end) n
    = if visited (k :: done) n then resolve_proxy (rules ast) n else n.
Proof.
  intros [Hnd Hname] Hchain Hf Hin Hk n.
  pose proof (In_lookup_rule k r _ Hnd Hin) as Hlook.
  assert (Hvis : visited (k :: done) n
                 = bool_decide (n = k) || visited done n).
  { unfold visited. apply eq_true_iff_eq.
    rewrite orb_true_iff, !bool_decide_eq_true, elem_of_cons. tauto. }
  rewrite Hvis.
  destruct (proxy_target r) as [t|] eqn:Ht.
  - (* the target of a proxy is renamed by nothing *)
    assert (Htt : resolve_proxy (rules ast) t = t).
    { apply resolve_proxy_plain. intros r' Hr'. by eapply Hchain. }
    assert (Hft : f t = t).
    { rewrite Hf. by destruct (visited done t). }
    rewrite Hft. unfold redirect. rewrite Hf.
    destruct (decide (n = k)) as [->|Hne].
    + rewrite Hk. rewrite ?bool_decide_eq_true_2 by done. cbn.
      unfold resolve_proxy. by rewrite Hlook, Ht.
    + rewrite (bool_decide_eq_false_2 (n = k)) by done. cbn.
      destruct (visited done n) eqn:Hn.
      * rewrite bool_decide_eq_false_2; [done|].
        unfold resolve_proxy.
        destruct (lookup_rule n (rules ast)) as [rn|] eqn:Hln; [|done].
        destruct (proxy_target rn) as [tn|] eqn:Htn; [|done].
        intros ->.
        pose proof (Hchain n rn k r (lookup_rule_In _ _ _ Hln) Htn Hlook) as Hc.
        apply isProxyRule_no_target in Hc. congruence.
      * by rewrite bool_decide_eq_false_2.
  - rewrite Hf.
    destruct (decide (n = k)) as [->|Hne].
    + rewrite Hk. rewrite ?bool_decide_eq_true_2 by done. cbn.
      unfold resolve_proxy. by rewrite Hlook, Ht.
    + by rewrite (bool_decide_eq_false_2 (n = k)).
Qed.

(** C3, as worded, fails on a chain of proxies: with [a = b] visited before
    [b = c], what named [a] ends up naming [c], not [b]. *)
Lemma proxyRules_chain_counterexample :
  ~ (forall ast, wf_grammar ast -> proxyRules_claim ast).
Proof.
  intros H. destruct (H chain_grammar) as [Hr _].
  - split.
    + apply (bool_decide_unpack _). vm_compute. exact I.
    + intros k r Hin. cbn in Hin.
      repeat (destruct Hin as [[= <- <-]|Hin]; [reflexivity|]). destruct Hin.
  - vm_compute in Hr. discriminate Hr.
Qed.

(** C3 (amended): after the pass no rule is a proxy and the rules left are
    the rules that were not proxies, in their order; and where no proxy
    delegates to another proxy, each reference that named a removed proxy,
    and the start rule if it did, names the target of that proxy. *)
Theorem proxyRules_correct (ast : grammar) :
  wf_grammar ast ->
  keys (rules (proxyRules ast))
  = keys (List.filter (fun kr => negb (isProxyRule (snd kr))) (rules ast))
  /\ (forall k r, In (k, r) (rules (proxyRules ast)) -> isProxyRule r = false)
  /\ (forall k r, In (k, r) (rules ast) -> isProxyRule r = true ->
       ~ In k (keys (rules (proxyRules ast))))
  /\ (chain_free ast -> proxyRules_claim ast).
Proof.
  intros Hwf.
  destruct (proxyRules_shape ast Hwf) as (f & Hr & Hs).
  assert (Hkeys : keys (rules (proxyRules ast))
    = keys (List.filter (fun kr => negb (isProxyRule (snd kr))) (rules ast))).
  { rewrite Hr. unfold keep_renamed, keys. rewrite map_map. cbn [fst].
    done. }
  split; [exact Hkeys|split; [|split]].
  - intros k r. rewrite Hr. unfold keep_renamed.
    intros ([k' r'] & [= <- <-] & Hin)%in_map_iff.
    apply filter_In in Hin as [_ Hp]. cbn in Hp.
    rewrite isProxyRule_rename. by apply negb_true_iff in Hp.
  - intros k r Hin Hp. rewrite Hkeys. unfold keys.
    intros ([k' r'] & Hk' & Hin')%in_map_iff. cbn in Hk'. subst k'.
    apply filter_In in Hin' as [Hin' Hp']. cbn in Hp'.
    destruct Hwf as [Hnd _].
    apply (In_lookup_rule _ _ _ Hnd) in Hin, Hin'.
    assert (r' = r) by congruence. subst. by rewrite Hp in Hp'.
  - intros Hchain.
    destruct (proxyRules_run ast
      (fun done f => forall n,
         f n = if visited done n then resolve_proxy (rules ast) n else n) Hwf)
      as (g & Hgr & Hgs & Hg).
    + intros done0 f0 k r Hf0 Hin Hk. by apply redirect_resolve.
    + intros n. unfold visited. by rewrite bool_decide_eq_false_2 by (by intros ?%elem_of_nil).
    + assert (Hres : forall n, g n = resolve_proxy (rules ast) n).
      { intros n. rewrite Hg. destruct (visited _ n) eqn:Hv; [done|].
        symmetry. apply resolve_proxy_plain. intros r Hl.
        apply lookup_rule_In in Hl. apply (in_map fst) in Hl. cbn in Hl.
        unfold visited in Hv. apply bool_decide_eq_false in Hv.
        exfalso. apply Hv. apply list_elem_of_In. by apply -> in_rev. }
      split.
      * rewrite Hgr. unfold keep_renamed. apply map_ext.
        intros [k r]. cbn. by rewrite (rename_rule_ext g _ r Hres).
      * by rewrite Hgs.
Qed.

Lemma proxy_grammar_wf : wf_grammar proxy_grammar.
Proof.
  split.
  - apply (bool_decide_unpack _). vm_compute. exact I.
  - intros k r Hin. cbn in Hin.
    repeat (destruct Hin as [[= <- <-]|Hin]; [reflexivity|]). destruct Hin.
Defined.

Lemma proxy_grammar_chain_free : chain_free proxy_grammar.
Proof.
  intros k r t r' Hin Ht Hl. cbn in Hin.
  repeat (destruct Hin as [[= <- <-]|Hin];
          [cbn in Ht; try discriminate Ht; injection Ht as <-;
           vm_compute in Hl; injection Hl as <-; reflexivity|]).
  destruct Hin.
Defined.

Lemma proxyRules_correct_witness :
  rules (proxyRules proxy_grammar)
  = [ rule_entry "s" (sequence [rule_ref (js "c"); any]);
      rule_entry "c" (literal (js "x")) ]
  /\ startRule (proxyRules proxy_grammar) = js "c".
Proof.
  destruct (proxyRules_correct proxy_grammar proxy_grammar_wf)
    as (_ & _ & _ & Hclaim).
  destruct (Hclaim proxy_grammar_chain_free) as [Hr Hs].
  split; [rewrite Hr | rewrite Hs]; reflexivity.
Defined.

(** ** Start-rule selection *)

(** When one rule is exposed, the emitted check and the emitted call both
    use [grammar.startRule]. *)
Lemma emit_grammar_single ast opts p :
  emit_grammar ast opts = Emitted p ->
  List.length (exposed_rules ast opts) = 1%nat ->
  pt_start p = single_start (startRule ast).
Proof.
  unfold emit_grammar. intros H Hlen. rewrite Hlen in H. cbn in H.
  destruct (emit_rules (rules ast)); [|discriminate H].
  injection H as <-. reflexivity.
Qed.

Lemma choose_start_single host s a :
  choose_start host (single_start s) None = invoke s
  /\ choose_start host (single_start s) (Some s) = invoke s
  /\ (a <> s ->
      choose_start host (single_start s) (Some a)
      = invalid_rule_name (invalid_rule_name_message a)).
Proof.
  repeat split; cbn.
  - by rewrite bool_decide_eq_true_2.
  - intros. by rewrite bool_decide_eq_false_2.
Qed.

(** With several rules exposed, an absent argument stands for
    [grammar.startRule]; a name that is neither in the table nor inherited
    by it is an error, and an inherited name is called. *)
Lemma choose_start_table host table s a :
  (In s table -> choose_start host (table_start table s) None = invoke s)
  /\ (In a table ->
      choose_start host (table_start table s) (Some a) = invoke a)
  /\ (~ In a table -> host a = None ->
      choose_start host (table_start table s) (Some a)
      = invalid_rule_name (invalid_rule_name_message a))
  /\ (forall v, ~ In a table -> host a = Some v ->
      choose_start host (table_start table s) (Some a)
      = invoke_inherited a (call_of v)).
Proof.
  unfold choose_start, call_table_entry. repeat split.
  - intros H. rewrite bool_decide_eq_true_2; [done|]. by apply list_elem_of_In.
  - intros H. rewrite bool_decide_eq_true_2; [done|]. by apply list_elem_of_In.
  - intros H ->. rewrite bool_decide_eq_false_2; [done|].
    by rewrite list_elem_of_In.
  - intros v H ->. rewrite bool_decide_eq_false_2; [done|].
    by rewrite list_elem_of_In.
Qed.

(** C9: with rules [a] and [b], start rule [a] and [startRules = [b]], the
    one rule exposed is [b]; yet the emitted [parse] rejects the argument
    [b], and with no argument or with [a] it runs [parse_a]. *)
Theorem single_exposed_rule_is_not_checked (host : host_object) :
  exposed_rules two_rules_grammar only_b = [js "b"]
  /\ exists p,
       emit_grammar two_rules_grammar only_b = Emitted p
       /\ pt_start p = single_start (js "a")
       /\ choose_start host (pt_start p) (Some (js "b"))
          = invalid_rule_name (invalid_rule_name_message (js "b"))
       /\ choose_start host (pt_start p) None = invoke (js "a")
       /\ choose_start host (pt_start p) (Some (js "a")) = invoke (js "a")
       /\ parse host p no_user_code 10 (js "y") (Some (js "b"))
          = ThrowsError (js "Invalid rule name: " ++ quote (js "b") ++ js ".")
       /\ parse host p no_user_code 10 (js "x") None = Parsed (VStr (js "x")).
Proof.
  split; [reflexivity|].
  eexists. split; [reflexivity|].
  repeat split; vm_compute; reflexivity.
Qed.

(** ** The [parse] function and syntax errors *)

Lemma parse_syntax_error host p user fuel input startRule message l c :
  parse host p user fuel input startRule = ThrowsSyntaxError message l c
  <-> (exists n result st,
         choose_start host (pt_start p) startRule = invoke n
         /\ call (pt_functions p) user input true fuel n initial_pstate
            = Returned result st
         /\ (result = VNull \/ pos st <> List.length input)
         /\ message = buildErrorMessage input st
         /\ (l, c) = computeErrorPosition input (rightmostFailuresPos st))
      \/ (exists a null,
            choose_start host (pt_start p) startRule
            = invoke_inherited a (method_returns null)
            /\ (null = true \/ input <> [])
            /\ message = buildErrorMessage input initial_pstate
            /\ (l, c) = computeErrorPosition input 0).
Proof.
  unfold parse. split.
  - destruct (choose_start host (pt_start p) startRule) as [n|a [null|]| |];
      try discriminate.
    + destruct (call _ _ _ _ _ _ _) as [result st| |] eqn:Hcall;
        try discriminate.
      destruct (computeErrorPosition _ _) as [l' c'] eqn:Hpos.
      destruct (is_null result) eqn:Hnull; cbn [orb fst snd].
      * intros [= <- <- <-]. left. exists n, result, st.
        split; [done|]. split; [done|]. split; [|done].
        left. by destruct result.
      * destruct (Nat.eqb_spec (pos st) (List.length input)); cbn [negb];
          [discriminate|].
        intros [= <- <- <-]. left. exists n, result, st.
        split; [done|]. split; [done|]. split; [by right|done].
    + cbn [pos rightmostFailuresPos initial_pstate].
      destruct (computeErrorPosition input 0) as [l' c'] eqn:Hpos.
      destruct null; cbn [orb fst snd].
      * intros [= <- <- <-]. right. exists a, true. by repeat split; try left.
      * destruct input as [|ch input']; cbn [List.length Nat.eqb negb];
          [discriminate|].
        intros [= <- <- <-]. right. exists a, false.
        split; [done|]. split; [by right|done].
  - intros [(n & result & st & -> & -> & Hfail & -> & Hlc)
           |(a & null & -> & Hfail & -> & Hlc)].
    + assert (is_null result || negb (pos st =? List.length input)%nat = true)
        as ->.
      { destruct Hfail as [->|Hne]; [done|].
        apply orb_true_iff. right. apply negb_true_iff. by apply Nat.eqb_neq. }
      destruct (computeErrorPosition _ _). by injection Hlc as -> ->.
    + cbn [pos rightmostFailuresPos initial_pstate].
      assert (null || negb (0 =? List.length input)%nat = true) as ->.
      { destruct Hfail as [->|Hne]; [done|].
        apply orb_true_iff. right. by destruct input. }
      destruct (computeErrorPosition _ _). by injection Hlc as -> ->.
Qed.

(** What [matchFailed] does to the record of failures, field by field. *)
Lemma matchFailed_fields failure st :
  pos (matchFailed failure st) = pos st
  /\ reportFailures (matchFailed failure st) = reportFailures st
  /\ cache (matchFailed failure st) = cache st
  /\ evaluated (matchFailed failure st) = evaluated st
  /\ ((pos st < rightmostFailuresPos st)%nat ->
      rightmostFailuresPos (matchFailed failure st) = rightmostFailuresPos st
      /\ rightmostFailuresExpected (matchFailed failure st)
         = rightmostFailuresExpected st)
  /\ ((rightmostFailuresPos st < pos st)%nat ->
      rightmostFailuresPos (matchFailed failure st) = pos st
      /\ rightmostFailuresExpected (matchFailed failure st) = [failure])
  /\ (pos st = rightmostFailuresPos st ->
      rightmostFailuresPos (matchFailed failure st) = rightmostFailuresPos st
      /\ rightmostFailuresExpected (matchFailed failure st)
         = rightmostFailuresExpected st ++ [failure]).
Proof.
  unfold matchFailed.
  destruct (Nat.ltb_spec (pos st) (rightmostFailuresPos st)) as [Hlt|Hge].
  - repeat split; try done; lia.
  - destruct (Nat.ltb_spec (rightmostFailuresPos st) (pos st)) as [Hgt|Hle];
      cbn; repeat split; try done; lia.
Qed.

(** C5: [matchFailed] never throws: it is a function on the state of the
    parser that touches the record of failures only, leaves it as it is
    when [pos] is before [rightmostFailuresPos], starts it anew at [pos]
    with the one alternative when [pos] is after it, and appends the
    alternative otherwise.  [parse] throws a [SyntaxError] exactly when the
    function it called for the start rule returned [null] or [pos] is not
    the length of the input afterwards (the function is the rule function
    of the start rule, or, for a name looked up in the table that the table
    only inherits, the inherited value); the message names the distinct
    expected alternatives in ascending order, rendered as [end of input],
    as the alternative itself, or joined by commas with [ or ] before the
    last. *)
Theorem syntax_error_reporting :
  (forall failure st,
     pos (matchFailed failure st) = pos st
     /\ reportFailures (matchFailed failure st) = reportFailures st
     /\ cache (matchFailed failure st) = cache st
     /\ evaluated (matchFailed failure st) = evaluated st
     /\ ((pos st < rightmostFailuresPos st)%nat ->
         rightmostFailuresPos (matchFailed failure st) = rightmostFailuresPos st
         /\ rightmostFailuresExpected (matchFailed failure st)
            = rightmostFailuresExpected st)
     /\ ((rightmostFailuresPos st < pos st)%nat ->
         rightmostFailuresPos (matchFailed failure st) = pos st
         /\ rightmostFailuresExpected (matchFailed failure st) = [failure])
     /\ (pos st = rightmostFailuresPos st ->
         rightmostFailuresPos (matchFailed failure st) = rightmostFailuresPos st
         /\ rightmostFailuresExpected (matchFailed failure st)
            = rightmostFailuresExpected st ++ [failure]))
  /\ (forall host p user fuel input startRule message l c,
        parse host p user fuel input startRule = ThrowsSyntaxError message l c
        <-> (exists n result st,
               choose_start host (pt_start p) startRule = invoke n
               /\ call (pt_functions p) user input true fuel n initial_pstate
                  = Returned result st
               /\ (result = VNull \/ pos st <> List.length input)
               /\ message = buildErrorMessage input st
               /\ (l, c) = computeErrorPosition input (rightmostFailuresPos st))
            \/ (exists a null,
                  choose_start host (pt_start p) startRule
                  = invoke_inherited a (method_returns null)
                  /\ (null = true \/ input <> [])
                  /\ message = buildErrorMessage input initial_pstate
                  /\ (l, c) = computeErrorPosition input 0))
  /\ (forall host table s a,
        (In a table ->
         choose_start host (table_start table s) (Some a) = invoke a)
        /\ (forall v, ~ In a table -> host a = Some v ->
            choose_start host (table_start table s) (Some a)
            = invoke_inherited a (call_of v))
        /\ (~ In a table -> host a = None ->
            choose_start host (table_start table s) (Some a)
            = invalid_rule_name (invalid_rule_name_message a)))
  /\ (forall input st, exists u actual,
        buildErrorMessage input st
        = js "Expected " ++ render_expected u ++ js " but " ++ actual
          ++ js " found."
        /\ u = unique_loop None (sort_strings (rightmostFailuresExpected st))
        /\ Permutation (rightmostFailuresExpected st)
             (sort_strings (rightmostFailuresExpected st))
        /\ StronglySorted jsstring_le (sort_strings (rightmostFailuresExpected st))
        /\ StronglySorted jsstring_lt u
        /\ (forall x, In x u <-> In x (rightmostFailuresExpected st)))
  /\ render_expected [] = js "end of input"
  /\ (forall x, render_expected [x] = x)
  /\ (forall u x y,
        render_expected (u ++ [x; y])
        = join (js ", ") (u ++ [x]) ++ js " or " ++ y).
Proof.
  split; [|split; [|split; [|split; [|split; [|split]]]]].
  - intros failure st. apply matchFailed_fields.
  - intros. apply parse_syntax_error.
  - intros host table s a.
    destruct (choose_start_table host table s a) as (_ & H1 & H2 & H3).
    split; [exact H1|]. split; [exact H3|exact H2].
  - intros input st.
    destruct (buildExpected_sorted_unique (rightmostFailuresExpected st))
      as (u & Hu & Hs & Hin).
    eexists _, _. split; [reflexivity|].
    split; [reflexivity|]. split; [apply sort_strings_perm|].
    split; [apply sort_strings_sorted|]. split.
    + apply unique_loop_sorted, sort_strings_sorted.
    + intros x. split.
      * intros H%unique_loop_subset.
        eapply Permutation_in; [symmetry; apply sort_strings_perm|done].
      * intros H. apply unique_loop_complete; [|done].
        eapply Permutation_in; [apply sort_strings_perm|done].
  - reflexivity.
  - reflexivity.
  - apply render_expected_many.
Qed.

(** ** The emitter *)

Lemma emit_choice alternatives ctx :
  emit (choice alternatives) ctx = alternatives_code ctx alternatives.
Proof.
  induction alternatives as [|e l IH]; [reflexivity|].
  cbn [alternatives_code]. rewrite <- IH. by destruct l.
Qed.

Lemma emit_sequence_loop total ctx l : forall i,
  (fix elements_code (i : nat) (l : list expr) : option stmt :=
     match l with
     | [] => Some (s_set_array (resultIndex ctx) (seq (resultIndex ctx) total))
     | e :: l' =>
         match elements_code (S i) l',
               emit e {| resultIndex := resultIndex ctx + i;
                         posIndex := posIndex ctx + 1 |}
         with
         | Some code, Some elementCode =>
             Some (block [elementCode;
                          s_if (result_not_null (resultIndex ctx + i))
                            code
                            (block [s_set_null (resultIndex ctx);
                                    s_restore_pos (posIndex ctx)])])
         | _, _ => None
         end
     end) i l
  = elements_code total ctx i l.
Proof.
  induction l as [|e l IH]; intros i; [reflexivity|].
  cbn [elements_code]. by rewrite <- IH.
Qed.

Lemma emit_sequence elements ctx :
  emit (sequence elements) ctx
  = match elements_code (List.length elements) ctx 0 elements with
    | Some code => Some (block [s_save_pos (posIndex ctx); code])
    | None => None
    end.
Proof. rewrite <- emit_sequence_loop. reflexivity. Qed.

(** *** Running statements: inversion *)

Section Run_facts.
Variable prog : list function_def.
Variable user : user_code.
Variable input : jsstring.
Variable memo : bool.

Abbreviation run := (exec prog user input memo).

Lemma exec_seq_inv n a b fr st fr' st' :
  run n (s_seq a b) fr st = Done fr' st' ->
  exists m fr1 st1,
    (m < n)%nat /\ run m a fr st = Done fr1 st1
    /\ run m b fr1 st1 = Done fr' st'.
Proof.
  destruct n as [|m]; [discriminate|]. cbn [exec].
  destruct (run m a fr st) as [fr1 st1| |] eqn:Ha; try discriminate.
  intros Hb. exists m, fr1, st1. split; [lia|done].
Qed.

Lemma exec_skip_inv n fr st fr' st' :
  run n s_skip fr st = Done fr' st' -> fr' = fr /\ st' = st.
Proof. destruct n; [discriminate|]. cbn. by intros [= -> ->]. Qed.

Lemma exec_if_inv n c a b fr st fr' st' :
  run n (s_if c a b) fr st = Done fr' st' ->
  exists m, (m < n)%nat
    /\ run m (if eval_cond input c fr st then a else b) fr st = Done fr' st'.
Proof.
  destruct n as [|m]; [discriminate|]. cbn [exec]. intros H. exists m.
  split; [lia|]. by destruct (eval_cond input c fr st).
Qed.

Lemma exec_while_inv n c body fr st fr' st' :
  run n (s_while c body) fr st = Done fr' st' ->
  exists m, (m < n)%nat
    /\ if eval_cond input c fr st then
         exists fr1 st1, run m body fr st = Done fr1 st1
           /\ run m (s_while c body) fr1 st1 = Done fr' st'
       else fr' = fr /\ st' = st.
Proof.
  destruct n as [|m]; [discriminate|]. cbn [exec]. intros H. exists m.
  split; [lia|]. destruct (eval_cond input c fr st).
  - destruct (run m body fr st) as [fr1 st1| |] eqn:Hb; try discriminate.
    by exists fr1, st1.
  - by injection H as -> ->.
Qed.

Lemma exec_call_inv n i rule_name fr st fr' st' :
  run n (s_set_call i rule_name) fr st = Done fr' st' ->
  exists m v, (m < n)%nat
    /\ call prog user input memo m rule_name st = Returned v st'
    /\ fr' = set_result i v fr.
Proof.
  destruct n as [|m]; [discriminate|]. cbn [exec]. unfold call.
  destruct (call_function _ _ _ _ _) as [v st1| |] eqn:Hc; try discriminate.
  intros [= <- <-]. exists m, v. split; [lia|done].
Qed.

(** A statement that is one line runs in one step. *)
Lemma exec_line_inv n s fr st fr' st' :
  match s with
  | s_seq _ _ | s_if _ _ _ | s_while _ _ | s_set_call _ _ => False
  | _ => True
  end ->
  run n s fr st = Done fr' st' -> run 1 s fr st = Done fr' st'.
Proof.
  destruct n as [|m]; [discriminate|].
  destruct s; cbn [exec]; intros Hs H; try exact H; destruct Hs.
Qed.

(** More fuel changes nothing. *)
Lemma exec_fuel_mono : forall n s fr st fr' st',
  run n s fr st = Done fr' st' ->
  forall m, (n <= m)%nat -> run m s fr st = Done fr' st'.
Proof.
  induction n as [|n IH]; [discriminate|].
  intros s fr st fr' st' H [|m] Hle; [lia|].
  assert (Hnm : (n <= m)%nat) by lia.
  destruct s; cbn [exec] in H |- *; try exact H.
  - destruct (run n s1 fr st) as [fr1 st1| |] eqn:Ha; try discriminate.
    rewrite (IH _ _ _ _ _ Ha m Hnm). by apply IH.
  - destruct (eval_cond input c fr st); by apply IH.
  - destruct (eval_cond input c fr st); [|exact H].
    destruct (run n s fr st) as [fr1 st1| |] eqn:Ha; try discriminate.
    rewrite (IH _ _ _ _ _ Ha m Hnm). by apply IH.
  - unfold call_function in *.
    destruct (find_function prog rule_name) as [fn|]; [|exact H].
    destruct (if memo then cache st !! cache_key (fn_name fn) (pos st) else None)
      as [[nextPos result]|]; [exact H|].
    destruct (run n _ empty_frame _) as [fr1 st1| |] eqn:Ha; try discriminate.
    by rewrite (IH _ _ _ _ _ Ha m Hnm).
Qed.
End Run_facts.

(** *** The variables a snippet uses *)

Lemma cond_slots_from_mono ri ri' c :
  (ri <= ri')%nat -> cond_slots_from ri' c = true -> cond_slots_from ri c = true.
Proof.
  intros Hle. destruct c; cbn; try done;
    intros H%Nat.leb_le; apply Nat.leb_le; lia.
Qed.

Lemma slots_from_mono ri pi ri' pi' s :
  (ri <= ri')%nat -> (pi <= pi')%nat ->
  slots_from ri' pi' s = true -> slots_from ri pi s = true.
Proof.
  intros Hr Hp.
  assert (Hleb : forall a b c, (a <= b)%nat -> (b <=? c)%nat = true -> (a <=? c)%nat = true).
  { intros a b c Hab H%Nat.leb_le. apply Nat.leb_le. lia. }
  induction s; cbn [slots_from]; try done;
    rewrite ?andb_true_iff;
    try (intros H; by eapply Hleb).
  - intros [? ?]. auto.
  - intros [[? ?] ?]. repeat split; eauto using cond_slots_from_mono.
  - intros [? ?]. split; eauto using cond_slots_from_mono.
  - intros [H1 H2]. split; [by eapply Hleb|].
    rewrite forallb_forall in H2 |- *. intros x Hx. eapply Hleb; eauto.
  - intros [H1 H2]. split; [by eapply Hleb|].
    rewrite forallb_forall in H2 |- *. intros [x|x k] Hx;
      specialize (H2 _ Hx); cbn in *; eapply Hleb; eauto.
  - intros [? ?]. split; by eapply Hleb.
Qed.

Lemma alternatives_code_slots ctx l code :
  Forall (fun e => forall ctx s, emit e ctx = Some s ->
            slots_from (resultIndex ctx) (posIndex ctx) s = true) l ->
  alternatives_code ctx l = Some code ->
  slots_from (resultIndex ctx) (posIndex ctx) code = true.
Proof.
  revert code. induction l as [|e l IH]; intros code Hall; [discriminate|].
  inversion Hall as [|? ? He Hl]; subst. cbn [alternatives_code].
  destruct l as [|e' l'].
  - destruct (emit e ctx) as [current|] eqn:Hc; [|discriminate].
    intros [= <-]. cbn. by rewrite (He _ _ Hc).
  - destruct (alternatives_code ctx (e' :: l')) as [rest|] eqn:Hrest;
      [|discriminate].
    destruct (emit e ctx) as [current|] eqn:Hc; [|discriminate].
    intros [= <-]. cbn. rewrite (He _ _ Hc), (IH _ Hl eq_refl).
    by rewrite Nat.leb_refl.
Qed.

Lemma elements_code_slots total ctx l : forall i code,
  Forall (fun e => forall ctx s, emit e ctx = Some s ->
            slots_from (resultIndex ctx) (posIndex ctx) s = true) l ->
  elements_code total ctx i l = Some code ->
  slots_from (resultIndex ctx) (posIndex ctx) code = true.
Proof.
  induction l as [|e l IH]; intros i code Hall; cbn [elements_code].
  - intros [= <-]. cbn. rewrite Nat.leb_refl. cbn.
    apply forallb_forall. intros x Hx%in_seq. apply Nat.leb_le. lia.
  - inversion Hall as [|? ? He Hl]; subst.
    destruct (elements_code total ctx (S i) l) as [rest|] eqn:Hrest;
      [|discriminate].
    destruct (emit e _) as [c|] eqn:Hc; [|discriminate].
    intros [= <-]. cbn.
    apply He in Hc. cbn in Hc.
    assert (Hc' : slots_from (resultIndex ctx) (posIndex ctx) c = true)
      by (eapply slots_from_mono; [| |exact Hc]; cbn; lia).
    rewrite Hc'.
    rewrite (IH _ _ Hl Hrest), !Nat.leb_refl.
    replace (resultIndex ctx <=? resultIndex ctx + i)%nat with true
      by (symmetry; apply Nat.leb_le; lia).
    reflexivity.
Qed.

Lemma sequence_params_slots ri elements : forall i,
  forallb (actual_slots_from ri) (snd (sequence_params i ri elements)) = true.
Proof.
  induction elements as [|e l IH]; intros i; [reflexivity|].
  cbn [sequence_params]. specialize (IH (S i)).
  destruct (sequence_params (S i) ri l) as [formals actuals].
  destruct e; cbn in *; try done. by rewrite Nat.leb_refl.
Qed.

Lemma action_params_slots e ri :
  forallb (actual_slots_from ri) (snd (action_params e ri)) = true.
Proof.
  destruct e; try reflexivity.
  - apply sequence_params_slots.
  - cbn. by rewrite Nat.leb_refl.
Qed.

(** The text emitted at a context names no [resultN] below [resultIndex]
    and no [posK] below [posIndex]. *)
Lemma emit_slots e : forall ctx s,
  emit e ctx = Some s ->
  slots_from (resultIndex ctx) (posIndex ctx) s = true.
Proof.
  induction e as [l IH|l IH|lbl e IH|e IH|e IH|c|c|e IH|e IH|e IH|e c IH|n|v| |p i t]
    using expr_nested_ind; intros ctx s.
  - rewrite emit_choice. by apply alternatives_code_slots.
  - rewrite emit_sequence.
    destruct (elements_code _ ctx 0 l) as [code|] eqn:Hcode; [|discriminate].
    intros [= <-]. cbn. rewrite Nat.leb_refl.
    by rewrite (elements_code_slots _ _ _ _ _ IH Hcode).
  - cbn [emit]. apply IH.
  - cbn [emit]. destruct (emit e _) as [c|] eqn:Hc; [|discriminate].
    intros [= <-]. apply IH in Hc. cbn in Hc |- *.
    assert (Hc' : slots_from (resultIndex ctx) (posIndex ctx) c = true)
      by (eapply slots_from_mono; [| |exact Hc]; cbn; lia).
    rewrite Hc'.
    by rewrite !Nat.leb_refl.
  - cbn [emit]. destruct (emit e _) as [c|] eqn:Hc; [|discriminate].
    intros [= <-]. apply IH in Hc. cbn in Hc |- *.
    assert (Hc' : slots_from (resultIndex ctx) (posIndex ctx) c = true)
      by (eapply slots_from_mono; [| |exact Hc]; cbn; lia).
    rewrite Hc'.
    by rewrite !Nat.leb_refl.
  - intros [= <-]. cbn. apply Nat.leb_refl.
  - intros [= <-]. cbn. apply Nat.leb_refl.
  - cbn [emit]. destruct (emit e ctx) as [c|] eqn:Hc; [|discriminate].
    intros [= <-]. apply IH in Hc. cbn. by rewrite Hc, Nat.leb_refl.
  - cbn [emit]. destruct (emit e _) as [c|] eqn:Hc; [|discriminate].
    intros [= <-]. apply IH in Hc. cbn in Hc |- *.
    assert (Hc' : slots_from (resultIndex ctx) (posIndex ctx) c = true)
      by (eapply slots_from_mono; [| |exact Hc]; cbn; lia).
    rewrite Hc'.
    rewrite !Nat.leb_refl.
    replace (resultIndex ctx <=? resultIndex ctx + 1)%nat with true
      by (symmetry; apply Nat.leb_le; lia).
    reflexivity.
  - cbn [emit]. destruct (emit e _) as [c|] eqn:Hc; [|discriminate].
    intros [= <-]. apply IH in Hc. cbn in Hc |- *.
    assert (Hc' : slots_from (resultIndex ctx) (posIndex ctx) c = true)
      by (eapply slots_from_mono; [| |exact Hc]; cbn; lia).
    rewrite Hc'.
    rewrite !Nat.leb_refl.
    replace (resultIndex ctx <=? resultIndex ctx + 1)%nat with true
      by (symmetry; apply Nat.leb_le; lia).
    reflexivity.
  - cbn [emit].
    pose proof (action_params_slots e (resultIndex ctx)) as Hparams.
    destruct (action_params e (resultIndex ctx)) as [formals actuals].
    destruct (emit e _) as [code|] eqn:Hc; [|discriminate].
    intros [= <-]. apply IH in Hc. cbn in Hc, Hparams |- *.
    assert (Hc' : slots_from (resultIndex ctx) (posIndex ctx) code = true)
      by (eapply slots_from_mono; [| |exact Hc]; cbn; lia).
    rewrite Hc'.
    by rewrite Hparams, !Nat.leb_refl.
  - intros [= <-]. cbn. apply Nat.leb_refl.
  - cbn [emit]. destruct (List.length v =? 0)%nat; intros [= <-]; cbn;
      by rewrite ?Nat.leb_refl.
  - intros [= <-]. cbn. by rewrite Nat.leb_refl.
  - intros [= <-]. cbn. by rewrite Nat.leb_refl.
Qed.

(** Running a text changes no variable it does not name. *)
Lemma exec_slots_below_kept prog user input memo ri pi : forall n s fr st fr' st',
  slots_from ri pi s = true ->
  exec prog user input memo n s fr st = Done fr' st' ->
  slots_below_kept ri pi fr fr'.
Proof.
  assert (Hset : forall i v fr, (ri <=? i)%nat = true ->
            slots_below_kept ri pi fr (set_result i v fr)).
  { intros i v fr Hi%Nat.leb_le. split; [|done].
    intros j Hj. cbn. apply lookup_insert_ne. lia. }
  assert (Hrefl : forall fr, slots_below_kept ri pi fr fr) by (by split).
  assert (Htrans : forall a b c, slots_below_kept ri pi a b ->
            slots_below_kept ri pi b c -> slots_below_kept ri pi a c).
  { intros a b c [H1 H2] [H3 H4]. split; intros j Hj.
    - by rewrite H3, H1. - by rewrite H4, H2. }
  induction n as [|n IH]; [discriminate|].
  intros s fr st fr' st' Hs H.
  destruct s; cbn [exec slots_from] in H, Hs;
    rewrite ?andb_true_iff in Hs;
    try (injection H as <- <-; first [apply Hrefl | by apply Hset | apply Hset; tauto]).
  - destruct Hs as [Ha Hb].
    destruct (exec _ _ _ _ n s1 fr st) as [fr1 st1| |] eqn:H1; try discriminate.
    eapply Htrans; eauto.
  - destruct Hs as [[Hc Ha] Hb].
    destruct (eval_cond input c fr st); eauto.
  - destruct Hs as [Hc Hb].
    destruct (eval_cond input c fr st).
    + destruct (exec _ _ _ _ n s fr st) as [fr1 st1| |] eqn:H1; try discriminate.
      apply (Htrans fr fr1 fr'); [eauto|].
      apply (IH (s_while c s) fr1 st1 fr' st'); [|exact H]. cbn.
      by rewrite Hc, Hb.
    + injection H as <- <-. apply Hrefl.
  - destruct (call_function _ _ _ _ _) as [v st1| |]; try discriminate.
    injection H as <- <-. by apply Hset.
  - destruct (get_result fr i); try discriminate.
    injection H as <- <-. apply Hset. tauto.
  - injection H as <- <-. split; [done|].
    intros j Hj. cbn. apply lookup_insert_ne. apply Nat.leb_le in Hs. lia.
  - destruct (positions fr !! k); try discriminate.
    injection H as <- <-. apply Hrefl.
Qed.

(** *** Cache keys *)

Lemma js_inj s t : js s = js t -> s = t.
Proof.
  unfold js. intros H.
  rewrite <- (string_of_list_ascii_of_string s), <- (string_of_list_ascii_of_string t).
  f_equal. revert H. generalize (list_ascii_of_string s) (list_ascii_of_string t).
  induction l as [|a l IH]; intros [|b l']; cbn; try done.
  intros [= Hab Hl]. f_equal; [|auto].
  rewrite <- (ascii_N_embedding a), <- (ascii_N_embedding b). by rewrite Hab.
Qed.

Lemma pretty_N_char_digit x : 48 <= N_of_ascii (pretty_N_char x) <= 57.
Proof. unfold pretty_N_char. repeat case_match; cbn; lia. Qed.

Lemma pretty_N_go_digits x : forall s,
  Forall (fun c => 48 <= c <= 57) (js s) ->
  Forall (fun c => 48 <= c <= 57) (js (pretty_N_go x s)).
Proof.
  induction (N.lt_wf_0 x) as [x _ IH]. intros s Hs.
  destruct (decide (x = 0)) as [->|Hx].
  - by rewrite pretty_N_go_0.
  - rewrite pretty_N_go_step by lia. apply IH.
    + apply N.div_lt; lia.
    + unfold js in *. cbn. constructor; [apply pretty_N_char_digit|exact Hs].
Qed.

Lemma string_of_nat_digits p :
  Forall (fun c => 48 <= c <= 57) (string_of_nat p).
Proof.
  unfold string_of_nat, pretty, pretty_nat, pretty, pretty_N.
  case_decide.
  - unfold js. cbn. constructor; [lia|constructor].
  - apply pretty_N_go_digits. constructor.
Qed.

Lemma string_of_nat_inj p q : string_of_nat p = string_of_nat q -> p = q.
Proof. unfold string_of_nat. intros H%js_inj. by apply (inj pretty) in H. Qed.

Lemma app_at_inj (a b d1 d2 : jsstring) :
  ~ In 64 d1 -> ~ In 64 d2 ->
  a ++ [64] ++ d1 = b ++ [64] ++ d2 -> a = b /\ d1 = d2.
Proof.
  intros H1 H2. revert b.
  induction a as [|x a IH]; intros [|y b]; cbn.
  - by intros [= ->].
  - intros [= <- ->]. exfalso. apply H1. apply in_or_app. right. by left.
  - intros [= -> <-]. exfalso. apply H2. apply in_or_app. right. by left.
  - intros [= -> H]. destruct (IH b H) as [-> ->]. done.
Qed.

Lemma cache_key_inj n1 p1 n2 p2 :
  cache_key n1 p1 = cache_key n2 p2 -> n1 = n2 /\ p1 = p2.
Proof.
  unfold cache_key. change (js "@") with [64].
  assert (Hd : forall p, ~ In 64 (string_of_nat p)).
  { intros p Hin. pose proof (string_of_nat_digits p) as H.
    rewrite List.Forall_forall in H. specialize (H _ Hin). lia. }
  intros H. apply app_at_inj in H as [-> H]; [|apply Hd..].
  split; [done|]. by apply string_of_nat_inj.
Qed.

(** *** The state under the steps that do not touch [pos] or the cache *)

Lemma matchFailed_pos failure st : pos (matchFailed failure st) = pos st.
Proof.
  unfold matchFailed.
  destruct (pos st <? rightmostFailuresPos st)%nat; [done|].
  by destruct (rightmostFailuresPos st <? pos st)%nat.
Qed.

Lemma matchFailed_cache failure st : cache (matchFailed failure st) = cache st.
Proof.
  unfold matchFailed.
  destruct (pos st <? rightmostFailuresPos st)%nat; [done|].
  by destruct (rightmostFailuresPos st <? pos st)%nat.
Qed.

Lemma matchFailed_evaluated failure st :
  evaluated (matchFailed failure st) = evaluated st.
Proof.
  unfold matchFailed.
  destruct (pos st <? rightmostFailuresPos st)%nat; [done|].
  by destruct (rightmostFailuresPos st <? pos st)%nat.
Qed.

Lemma get_result_set_same i v fr : get_result (set_result i v fr) i = v.
Proof. unfold get_result, set_result. cbn. by rewrite lookup_insert_eq. Qed.

Lemma get_result_set_other i j v fr :
  i <> j -> get_result (set_result i v fr) j = get_result fr j.
Proof.
  intros. unfold get_result, set_result. cbn. by rewrite lookup_insert_ne.
Qed.

Lemma get_result_kept ri pi fr fr' i :
  slots_below_kept ri pi fr fr' -> (i < ri)%nat ->
  get_result fr' i = get_result fr i.
Proof. intros [H _] Hi. unfold get_result. by rewrite H. Qed.

Lemma cache_ok_insert c n p entry :
  cache_ok c -> entry_ok p entry -> cache_ok (<[cache_key n p := entry]> c).
Proof.
  intros Hc He n' p' entry'.
  destruct (decide (cache_key n p = cache_key n' p')) as [Heq|Hne].
  - rewrite Heq, lookup_insert_eq. intros [= <-].
    apply cache_key_inj in Heq as [_ <-]. exact He.
  - rewrite lookup_insert_ne by done. apply Hc.
Qed.

(** *** The slot contract *)

Tactic Notation "inv_seq" hyp(H) "as" ident(m) ident(fr1) ident(st1) ident(Ha) :=
  let Hm := fresh "Hlt" in
  apply exec_seq_inv in H as (m & fr1 & st1 & Hm & Ha & H).

Tactic Notation "inv_if" hyp(H) "as" ident(m) :=
  let Hm := fresh "Hlt" in
  apply exec_if_inv in H as (m & Hm & H).

Ltac inv_line H :=
  apply exec_line_inv in H; [|exact I]; cbn [exec] in H.

Ltac inv_skip H :=
  apply exec_skip_inv in H as [-> ->].

Section Contract.
Variable prog : list function_def.
Variable user : user_code.
Variable input : jsstring.
Hypothesis Hprog : emitted_functions prog.

Abbreviation run1 := (exec prog user input true).

(** A child snippet leaves the variables below its context alone. *)
Lemma child_kept e ctx s n fr st fr' st' :
  emit e ctx = Some s -> run1 n s fr st = Done fr' st' ->
  slots_below_kept (resultIndex ctx) (posIndex ctx) fr fr'.
Proof.
  intros He Hrun. eapply exec_slots_below_kept; [|exact Hrun].
  by apply (emit_slots e).
Qed.

Lemma report_failure_inv n failure fr st fr' st' :
  run1 n (report_failure failure) fr st = Done fr' st' ->
  fr' = fr /\ pos st' = pos st /\ cache st' = cache st.
Proof.
  unfold report_failure. intros H. inv_if H as m.
  destruct (eval_cond input reportFailures_is_zero fr st).
  - inv_line H. injection H as <- <-.
    by rewrite matchFailed_pos, matchFailed_cache.
  - by inv_skip H.
Qed.

(** The leaves that test the input: [any], [class], and the shape of
    [literal]. *)
Lemma leaf_test_contract n ctx c v failure fr st fr' st' k :
  run1 n
    (s_if c (block [v; s_advance k])
            (block [s_set_null (resultIndex ctx); report_failure failure]))
    fr st = Done fr' st' ->
  (exists x, v = s_set_string (resultIndex ctx) x)
  \/ v = s_set_charAt (resultIndex ctx) ->
  (matched ctx st fr' st' \/ not_matched ctx st fr' st')
  /\ cache st' = cache st.
Proof.
  intros H Hv. inv_if H as m. destruct (eval_cond input c fr st).
  - inv_seq H as m1 fr1 st1 H1.
    assert (get_result fr1 (resultIndex ctx) <> VNull /\ st1 = st) as [Hr ->].
    { destruct Hv as [[x ->]| ->]; inv_line H1; injection H1 as <- <-;
        by rewrite get_result_set_same. }
    inv_seq H as m2 fr2 st2 H2. inv_line H2. injection H2 as <- <-. inv_skip H.
    split; [left|done]. split; cbn; [done|lia].
  - inv_seq H as m1 fr1 st1 H1. inv_line H1. injection H1 as <- <-.
    inv_seq H as m2 fr2 st2 H2.
    apply report_failure_inv in H2 as (-> & Hp & Hc). inv_skip H.
    split; [right|done]. split; [|done].
    by rewrite get_result_set_same.
Qed.

Lemma bookkeeping_inv s : forall n fr st fr' st',
  bookkeeping s = true ->
  run1 n s fr st = Done fr' st' ->
  fr' = fr /\ pos st' = pos st /\ cache st' = cache st.
Proof.
  induction s; cbn [bookkeeping]; try discriminate; intros n fr st fr' st' Hb H.
  - by inv_skip H.
  - apply andb_true_iff in Hb as [Ha Hb]. inv_seq H as m fr1 st1 H1.
    destruct (IHs1 _ _ _ _ _ Ha H1) as (-> & Hp1 & Hc1).
    destruct (IHs2 _ _ _ _ _ Hb H) as (-> & Hp2 & Hc2).
    split; [done|]. split; congruence.
  - apply andb_true_iff in Hb as [Ha Hb]. inv_if H as m.
    destruct (eval_cond input c fr st); eauto.
  - inv_line H. by injection H as <- <-.
  - inv_line H. by injection H as <- <-.
  - inv_line H. injection H as <- <-.
    by rewrite matchFailed_pos, matchFailed_cache.
Qed.

Variable N : nat.
Hypothesis HN : contract_upto prog user input N.

Lemma child_contract m e ctx s fr st fr' st' :
  run1 m s fr st = Done fr' st' ->
  emit e ctx = Some s -> (m < N)%nat -> cache_ok (cache st) ->
  (matched ctx st fr' st' \/ not_matched ctx st fr' st')
  /\ cache_ok (cache st')
  /\ slots_below_kept (resultIndex ctx) (posIndex ctx) fr fr'.
Proof.
  intros Hrun He Hm Hc.
  destruct (HN m e ctx s fr st fr' st' Hm He Hc Hrun) as [H1 H2].
  split; [done|]. split; [done|]. by eapply child_kept.
Qed.

Lemma optional_contract n e ctx c fr st fr' st' :
  (n <= N)%nat -> emit e ctx = Some c -> cache_ok (cache st) ->
  run1 n (block [c; s_set_optional (resultIndex ctx)]) fr st = Done fr' st' ->
  matched ctx st fr' st' /\ cache_ok (cache st').
Proof.
  intros Hn He Hc H. inv_seq H as m1 fr1 st1 H1.
  inv_seq H as m2 fr2 st2 H2. inv_skip H.
  destruct (child_contract m1 e ctx c _ _ _ _ H1 He ltac:(lia) Hc)
    as ([[Hr Hp]|[Hr Hp]] & Hc' & _);
    inv_line H2; injection H2 as <- <-; (split; [|done]); split;
    rewrite ?get_result_set_same; try lia.
  - by destruct (get_result fr1 (resultIndex ctx)).
  - by rewrite Hr.
Qed.

(** The loop of [zero_or_more] and [one_or_more]. *)
Lemma star_loop_contract e ctx c :
  emit e {| resultIndex := resultIndex ctx + 1; posIndex := posIndex ctx |}
  = Some c ->
  forall n fr st fr' st',
    (n <= N)%nat -> cache_ok (cache st) ->
    (exists items, get_result fr (resultIndex ctx) = VArr items) ->
    run1 n
      (s_while (result_not_null (resultIndex ctx + 1))
         (block [s_push (resultIndex ctx) (resultIndex ctx + 1); c]))
      fr st = Done fr' st' ->
    (exists items, get_result fr' (resultIndex ctx) = VArr items)
    /\ (pos st <= pos st')%nat /\ cache_ok (cache st').
Proof.
  intros He. induction n as [n IH] using lt_wf_ind.
  intros fr st fr' st' Hn Hc [items Hitems] H.
  apply exec_while_inv in H as (m & Hm & H).
  destruct (eval_cond input _ fr st).
  - destruct H as (fr3 & st3 & Hbody & Hloop).
    inv_seq Hbody as m1 fr1 st1 H1. inv_line H1. rewrite Hitems in H1.
    injection H1 as <- <-. inv_seq Hbody as m2 fr2 st2 H2. inv_skip Hbody.
    destruct (child_contract m2 e _ c _ _ _ _ H2 He ltac:(lia) Hc)
      as (Hres & Hc' & Hkept).
    assert (Harr : exists items', get_result fr2 (resultIndex ctx) = VArr items').
    { eexists. rewrite (get_result_kept _ _ _ _ _ Hkept) by (cbn; lia).
      apply get_result_set_same. }
    destruct (IH m Hm fr2 st2 fr' st' ltac:(lia) Hc' Harr Hloop)
      as (Hfinal & Hp & Hc'').
    split; [done|]. split; [|done].
    destruct Hres as [[_ Hp']|[_ Hp']]; cbn in Hp'; lia.
  - destruct H as [-> ->]. split; [by exists items|]. split; [lia|done].
Qed.

Lemma zero_or_more_contract n e ctx c fr st fr' st' :
  (n <= N)%nat ->
  emit e {| resultIndex := resultIndex ctx + 1; posIndex := posIndex ctx |}
  = Some c ->
  cache_ok (cache st) ->
  run1 n
    (block [s_set_array (resultIndex ctx) [];
            c;
            s_while (result_not_null (resultIndex ctx + 1))
              (block [s_push (resultIndex ctx) (resultIndex ctx + 1); c])])
    fr st = Done fr' st' ->
  (exists items, get_result fr' (resultIndex ctx) = VArr items)
  /\ (pos st <= pos st')%nat /\ cache_ok (cache st').
Proof.
  intros Hn He Hc H. inv_seq H as m1 fr1 st1 H1. inv_line H1.
  injection H1 as <- <-.
  inv_seq H as m2 fr2 st2 H2. inv_seq H as m3 fr3 st3 H3. inv_skip H.
  destruct (child_contract m2 e _ c _ _ _ _ H2 He ltac:(lia) Hc)
    as (Hres & Hc' & Hkept).
  assert (Harr : exists items, get_result fr2 (resultIndex ctx) = VArr items).
  { eexists. rewrite (get_result_kept _ _ _ _ _ Hkept) by (cbn; lia).
    apply get_result_set_same. }
  destruct (star_loop_contract e ctx c He m3 fr2 st2 _ _ ltac:(lia) Hc'
              Harr H3) as (Hfinal & Hp & Hc'').
  split; [done|]. split; [|done].
  destruct Hres as [[_ Hp']|[_ Hp']]; cbn in Hp'; lia.
Qed.

Lemma one_or_more_contract n e ctx c fr st fr' st' :
  (n <= N)%nat ->
  emit e {| resultIndex := resultIndex ctx + 1; posIndex := posIndex ctx |}
  = Some c ->
  cache_ok (cache st) ->
  run1 n
    (block [c;
            s_if (result_not_null (resultIndex ctx + 1))
              (block [s_set_array (resultIndex ctx) [];
                      s_while (result_not_null (resultIndex ctx + 1))
                        (block [s_push (resultIndex ctx) (resultIndex ctx + 1);
                                c])])
              (s_set_null (resultIndex ctx))])
    fr st = Done fr' st' ->
  (matched ctx st fr' st' \/ not_matched ctx st fr' st')
  /\ cache_ok (cache st').
Proof.
  intros Hn He Hc H. inv_seq H as m1 fr1 st1 H1.
  inv_seq H as m2 fr2 st2 H2. inv_skip H. inv_if H2 as m3.
  destruct (child_contract m1 e _ c _ _ _ _ H1 He ltac:(lia) Hc)
    as (Hres & Hc' & Hkept).
  cbn [eval_cond] in H2.
  destruct Hres as [[Hr Hp]|[Hr Hp]]; cbn in Hr, Hp.
  - assert (is_null (get_result fr1 (resultIndex ctx + 1)) = false) as Hnn
      by (by destruct (get_result fr1 (resultIndex ctx + 1))).
    rewrite Hnn in H2. cbn [negb] in H2.
    inv_seq H2 as m4 fr4 st4 H4. inv_line H4. injection H4 as <- <-.
    inv_seq H2 as m5 fr5 st5 H5. inv_skip H2.
    destruct (star_loop_contract e ctx c He m5 _ st1 _ _ ltac:(lia) Hc'
                ltac:(eexists; apply get_result_set_same) H5)
      as ([items Hitems] & Hp' & Hc'').
    split; [left|done]. split; [by rewrite Hitems|lia].
  - rewrite Hr in H2. cbn in H2. inv_line H2.
    injection H2 as <- <-.
    split; [right|done]. split; [by rewrite get_result_set_same|done].
Qed.

Lemma positions_kept ri pi fr fr' k :
  slots_below_kept ri pi fr fr' -> (k < pi)%nat ->
  positions fr' !! k = positions fr !! k.
Proof. intros [_ H] Hk. by apply H. Qed.

Lemma simple_and_contract n e ctx c fr st fr' st' :
  (n <= N)%nat ->
  emit e {| resultIndex := resultIndex ctx; posIndex := posIndex ctx + 1 |}
  = Some c ->
  cache_ok (cache st) ->
  run1 n
    (block [s_save_pos (posIndex ctx);
            s_reportFailures_inc;
            c;
            s_reportFailures_dec;
            s_if (result_not_null (resultIndex ctx))
              (block [s_set_string (resultIndex ctx) [];
                      s_restore_pos (posIndex ctx)])
              (s_set_null (resultIndex ctx))])
    fr st = Done fr' st' ->
  (matched ctx st fr' st' \/ not_matched ctx st fr' st')
  /\ cache_ok (cache st').
Proof.
  intros Hn He Hc H.
  inv_seq H as m1 fr1 st1 H1. inv_line H1. injection H1 as <- <-.
  inv_seq H as m2 fr2 st2 H2. inv_line H2. injection H2 as <- <-.
  inv_seq H as m3 fr3 st3 H3.
  inv_seq H as m4 fr4 st4 H4. inv_line H4. injection H4 as <- <-.
  inv_seq H as m5 fr5 st5 H5. inv_skip H. inv_if H5 as m6.
  destruct (child_contract m3 e _ c _ _ _ _ H3 He ltac:(lia) Hc)
    as (Hres & Hc' & Hkept).
  pose proof (positions_kept _ _ _ _ (posIndex ctx) Hkept ltac:(cbn; lia)) as Hsaved.
  cbn in Hsaved. rewrite lookup_insert_eq in Hsaved.
  cbn [eval_cond] in H5.
  destruct Hres as [[Hr Hp]|[Hr Hp]]; cbn in Hr, Hp.
  - assert (is_null (get_result fr3 (resultIndex ctx)) = false) as Hnn
      by (by destruct (get_result fr3 (resultIndex ctx))).
    rewrite Hnn in H5. cbn [negb] in H5.
    inv_seq H5 as m7 fr7 st7 H7. inv_line H7. injection H7 as <- <-.
    inv_seq H5 as m8 fr8 st8 H8. inv_skip H5. inv_line H8.
    cbn in H8. rewrite Hsaved in H8. injection H8 as <- <-.
    split; [left|done]. split; [by rewrite get_result_set_same|cbn; lia].
  - rewrite Hr in H5. cbn in H5. inv_line H5. injection H5 as <- <-.
    split; [right|done]. split; [by rewrite get_result_set_same|done].
Qed.

Lemma simple_not_contract n e ctx c fr st fr' st' :
  (n <= N)%nat ->
  emit e {| resultIndex := resultIndex ctx; posIndex := posIndex ctx + 1 |}
  = Some c ->
  cache_ok (cache st) ->
  run1 n
    (block [s_save_pos (posIndex ctx);
            s_reportFailures_inc;
            c;
            s_reportFailures_dec;
            s_if (result_is_null (resultIndex ctx))
              (s_set_string (resultIndex ctx) [])
              (block [s_set_null (resultIndex ctx);
                      s_restore_pos (posIndex ctx)])])
    fr st = Done fr' st' ->
  (matched ctx st fr' st' \/ not_matched ctx st fr' st')
  /\ cache_ok (cache st').
Proof.
  intros Hn He Hc H.
  inv_seq H as m1 fr1 st1 H1. inv_line H1. injection H1 as <- <-.
  inv_seq H as m2 fr2 st2 H2. inv_line H2. injection H2 as <- <-.
  inv_seq H as m3 fr3 st3 H3.
  inv_seq H as m4 fr4 st4 H4. inv_line H4. injection H4 as <- <-.
  inv_seq H as m5 fr5 st5 H5. inv_skip H. inv_if H5 as m6.
  destruct (child_contract m3 e _ c _ _ _ _ H3 He ltac:(lia) Hc)
    as (Hres & Hc' & Hkept).
  pose proof (positions_kept _ _ _ _ (posIndex ctx) Hkept ltac:(cbn; lia)) as Hsaved.
  cbn in Hsaved. rewrite lookup_insert_eq in Hsaved.
  cbn [eval_cond] in H5.
  destruct Hres as [[Hr Hp]|[Hr Hp]]; cbn in Hr, Hp.
  - assert (is_null (get_result fr3 (resultIndex ctx)) = false) as Hnn
      by (by destruct (get_result fr3 (resultIndex ctx))).
    rewrite Hnn in H5.
    inv_seq H5 as m7 fr7 st7 H7. inv_line H7. injection H7 as <- <-.
    inv_seq H5 as m8 fr8 st8 H8. inv_skip H5. inv_line H8.
    cbn in H8. rewrite Hsaved in H8. injection H8 as <- <-.
    split; [right|done]. split; [by rewrite get_result_set_same|done].
  - rewrite Hr in H5. cbn in H5. inv_line H5. injection H5 as <- <-.
    split; [left|done]. split; [by rewrite get_result_set_same|cbn; lia].
Qed.

Lemma action_contract n e ctx c formals code actuals fr st fr' st' :
  (n <= N)%nat ->
  emit e {| resultIndex := resultIndex ctx; posIndex := posIndex ctx + 1 |}
  = Some c ->
  cache_ok (cache st) ->
  run1 n
    (block [s_save_pos (posIndex ctx);
            c;
            s_if (result_not_null (resultIndex ctx))
              (s_set_action (resultIndex ctx) formals code actuals)
              s_skip;
            s_if (result_is_null (resultIndex ctx))
              (s_restore_pos (posIndex ctx)) s_skip])
    fr st = Done fr' st' ->
  (matched ctx st fr' st' \/ not_matched ctx st fr' st')
  /\ cache_ok (cache st').
Proof.
  intros Hn He Hc H.
  inv_seq H as m1 fr1 st1 H1. inv_line H1. injection H1 as <- <-.
  inv_seq H as m2 fr2 st2 H2.
  inv_seq H as m3 fr3 st3 H3.
  inv_seq H as m4 fr4 st4 H4. inv_skip H.
  inv_if H3 as m5. inv_if H4 as m6.
  destruct (child_contract m2 e _ c _ _ _ _ H2 He ltac:(lia) Hc)
    as (Hres & Hc' & Hkept).
  pose proof (positions_kept _ _ _ _ (posIndex ctx) Hkept ltac:(cbn; lia)) as Hsaved.
  cbn in Hsaved. rewrite lookup_insert_eq in Hsaved.
  cbn [eval_cond] in H3, H4.
  assert (Hfr3 : positions fr3 = positions fr2 /\ st3 = st2
                 /\ (get_result fr2 (resultIndex ctx) = VNull ->
                     get_result fr3 (resultIndex ctx) = VNull)).
  { destruct (is_null (get_result fr2 (resultIndex ctx))) eqn:Hn2;
      cbn [negb] in H3.
    - by inv_skip H3.
    - inv_line H3. injection H3 as <- <-. split; [done|]. split; [done|].
      intros Hnull. by rewrite Hnull in Hn2. }
  destruct Hfr3 as (Hpos3 & -> & Hnull3).
  destruct (is_null (get_result fr3 (resultIndex ctx))) eqn:Hn3.
  - inv_line H4. cbn in H4. rewrite Hpos3, Hsaved in H4.
    injection H4 as <- <-.
    split; [right|done]. split; [|done]. by destruct (get_result fr3 _).
  - inv_skip H4. split; [|done].
    destruct Hres as [[Hr Hp]|[Hr Hp]]; cbn in Hr, Hp.
    + left. split; [|lia]. intros Heq. by rewrite Heq in Hn3.
    + rewrite (Hnull3 Hr) in Hn3. discriminate Hn3.
Qed.

Lemma elements_contract total ctx p0 : forall l i code n fr st fr' st',
  (n <= N)%nat ->
  elements_code total ctx i l = Some code ->
  cache_ok (cache st) ->
  positions fr !! posIndex ctx = Some p0 -> (p0 <= pos st)%nat ->
  run1 n code fr st = Done fr' st' ->
  ((get_result fr' (resultIndex ctx) <> VNull /\ (pos st <= pos st')%nat)
   \/ (get_result fr' (resultIndex ctx) = VNull /\ pos st' = p0))
  /\ cache_ok (cache st').
Proof.
  induction l as [|e l IH]; intros i code n fr st fr' st' Hn Hcode Hc Hsaved Hp0 H;
    cbn [elements_code] in Hcode.
  - injection Hcode as <-. inv_line H. injection H as <- <-.
    split; [left|done]. split; [by rewrite get_result_set_same|lia].
  - destruct (elements_code total ctx (S i) l) as [rest|] eqn:Hrest;
      [|discriminate].
    destruct (emit e _) as [c|] eqn:He; [|discriminate].
    injection Hcode as <-.
    inv_seq H as m1 fr1 st1 H1. inv_seq H as m2 fr2 st2 H2. inv_skip H.
    inv_if H2 as m3.
    destruct (child_contract m1 e _ c _ _ _ _ H1 He ltac:(lia) Hc)
      as (Hres & Hc' & Hkept).
    pose proof (positions_kept _ _ _ _ (posIndex ctx) Hkept ltac:(cbn; lia))
      as Hsaved'.
    rewrite Hsaved in Hsaved'. cbn [eval_cond] in H2.
    destruct Hres as [[Hr Hp]|[Hr Hp]]; cbn in Hr, Hp.
    + assert (is_null (get_result fr1 (resultIndex ctx + i)) = false) as Hnn
        by (by destruct (get_result fr1 (resultIndex ctx + i))).
      rewrite Hnn in H2. cbn [negb] in H2.
      destruct (IH (S i) rest m3 fr1 st1 _ _ ltac:(lia) Hrest Hc' Hsaved'
                  ltac:(lia) H2) as ([[Hr' Hp']|[Hr' Hp']] & Hc'').
      * split; [left|done]. split; [done|lia].
      * split; [right|done]. done.
    + rewrite Hr in H2. cbn in H2.
      inv_seq H2 as m4 fr4 st4 H4. inv_line H4. injection H4 as <- <-.
      inv_seq H2 as m5 fr5 st5 H5. inv_skip H2. inv_line H5.
      cbn in H5. rewrite Hsaved' in H5. injection H5 as <- <-.
      split; [right|done]. split; [by rewrite get_result_set_same|done].
Qed.

Lemma sequence_contract n elements ctx code fr st fr' st' :
  (n <= N)%nat ->
  elements_code (List.length elements) ctx 0 elements = Some code ->
  cache_ok (cache st) ->
  run1 n (block [s_save_pos (posIndex ctx); code]) fr st = Done fr' st' ->
  (matched ctx st fr' st' \/ not_matched ctx st fr' st')
  /\ cache_ok (cache st').
Proof.
  intros Hn Hcode Hc H.
  inv_seq H as m1 fr1 st1 H1. inv_line H1. injection H1 as <- <-.
  inv_seq H as m2 fr2 st2 H2. inv_skip H.
  eapply (elements_contract _ ctx (pos st)) in H2
    as ([[Hr Hp]|[Hr Hp]] & Hc');
    [| |lia|exact Hcode|exact Hc|cbn; apply lookup_insert_eq|lia].
  - split; [by left|done].
  - split; [by right|done].
Qed.

Lemma alternatives_contract ctx : forall l code n fr st fr' st',
  (n <= N)%nat ->
  alternatives_code ctx l = Some code ->
  cache_ok (cache st) ->
  run1 n code fr st = Done fr' st' ->
  (matched ctx st fr' st' \/ not_matched ctx st fr' st')
  /\ cache_ok (cache st').
Proof.
  induction l as [|e l IH]; intros code n fr st fr' st' Hn Hcode Hc H;
    cbn [alternatives_code] in Hcode; [discriminate|].
  destruct l as [|e' l'].
  - destruct (emit e ctx) as [c|] eqn:He; [|discriminate].
    injection Hcode as <-.
    inv_seq H as m1 fr1 st1 H1. inv_seq H as m2 fr2 st2 H2. inv_skip H.
    inv_skip H2.
    destruct (child_contract m1 e _ c _ _ _ _ H1 He ltac:(lia) Hc)
      as (Hres & Hc' & _). done.
  - destruct (alternatives_code ctx (e' :: l')) as [rest|] eqn:Hrest;
      [|discriminate].
    destruct (emit e ctx) as [c|] eqn:He; [|discriminate].
    injection Hcode as <-.
    inv_seq H as m1 fr1 st1 H1. inv_seq H as m2 fr2 st2 H2. inv_skip H.
    inv_if H2 as m3.
    destruct (child_contract m1 e _ c _ _ _ _ H1 He ltac:(lia) Hc)
      as (Hres & Hc' & _).
    cbn [eval_cond] in H2.
    destruct Hres as [[Hr Hp]|[Hr Hp]].
    + assert (is_null (get_result fr1 (resultIndex ctx)) = false) as Hnn
        by (by destruct (get_result fr1 (resultIndex ctx))).
      rewrite Hnn in H2. inv_skip H2. split; [by left|done].
    + rewrite Hr in H2. cbn in H2.
      destruct (IH rest m3 fr1 st1 _ _ ltac:(lia) eq_refl Hc' H2)
        as ([[Hr' Hp']|[Hr' Hp']] & Hc''); (split; [|done]).
      * left. split; [done|lia].
      * right. split; [done|congruence].
Qed.

Lemma find_function_In n fn :
  find_function prog n = Some fn -> In fn prog /\ fn_name fn = n.
Proof.
  unfold find_function. intros H. apply find_some in H as [Hin Hn].
  split; [done|]. by apply bool_decide_eq_true in Hn.
Qed.

(** A rule function keeps the contract on its caller's behalf, and keeps
    the cache in order. *)
Lemma call_contract m n st v st' :
  (m <= N)%nat -> cache_ok (cache st) ->
  call prog user input true m n st = Returned v st' ->
  entry_ok (pos st) (pos st', v) /\ cache_ok (cache st').
Proof.
  intros Hm Hc. unfold call, call_function.
  destruct (find_function prog n) as [fn|] eqn:Hfind; [|discriminate].
  apply find_function_In in Hfind as [Hin _].
  destruct (Hprog fn Hin) as [r Hr]. unfold emit_rule in Hr.
  destruct (emit (expression r) _) as [code|] eqn:He; [|discriminate].
  destruct (cache st !! cache_key (fn_name fn) (pos st)) as [[nextPos result]|]
    eqn:Hlook.
  - intros [= <- <-]. split; [|done]. apply (Hc _ _ _ Hlook).
  - destruct (exec _ _ _ _ m _ empty_frame _) as [frb stb| |] eqn:Hbody;
      try discriminate.
    intros [= <- <-].
    inv_seq Hbody as m1 fr1 st1 H1. inv_seq Hbody as m2 fr2 st2 H2.
    inv_seq Hbody as m3 fr3 st3 H3. inv_seq Hbody as m4 fr4 st4 H4.
    inv_skip Hbody. injection Hr as <-. cbn in H1, H2, H3, H4.
    assert (Hb1 : fr1 = empty_frame /\ pos st1 = pos st /\ cache st1 = cache st).
    { destruct (displayName r); by apply bookkeeping_inv in H1. }
    destruct Hb1 as (-> & Hp1 & Hc1).
    destruct (child_contract m2 (expression r) _ code _ _ _ _ H2 He ltac:(lia)
                ltac:(by rewrite Hc1)) as (Hres & Hc2 & _).
    assert (Hb3 : fr3 = fr2 /\ pos st3 = pos st2 /\ cache st3 = cache st2).
    { destruct (displayName r); by apply bookkeeping_inv in H3. }
    destruct Hb3 as (-> & Hp3 & Hc3).
    assert (Hb4 : fr4 = fr2 /\ pos st4 = pos st3 /\ cache st4 = cache st3).
    { destruct (displayName r); by apply bookkeeping_inv in H4. }
    destruct Hb4 as (-> & Hp4 & Hc4).
    assert (Hentry : entry_ok (pos st) (pos st4, get_result fr2 0)).
    { unfold entry_ok. cbn [fst snd]. rewrite Hp4, Hp3.
      destruct Hres as [[Hr Hp]|[Hr Hp]]; cbn in Hr, Hp; [left|right];
        (split; [done|]); lia. }
    split; [exact Hentry|]. cbn [cache set_cache].
    apply cache_ok_insert; [|exact Hentry]. by rewrite Hc4, Hc3.
Qed.

(** The contract at fuel [N], given the contract below [N]. *)
Lemma contract_step e : forall ctx s n fr st fr' st',
  (n <= N)%nat -> emit e ctx = Some s -> cache_ok (cache st) ->
  run1 n s fr st = Done fr' st' ->
  (matched ctx st fr' st' \/ not_matched ctx st fr' st')
  /\ cache_ok (cache st').
Proof.
  induction e as [l _|l _|lbl e IH|e _|e _|c|c|e _|e _|e _|e c _|r|v| |p i t]
    using expr_nested_ind; intros ctx s n fr st fr' st' Hn He Hc H.
  - rewrite emit_choice in He. by eapply alternatives_contract.
  - rewrite emit_sequence in He.
    destruct (elements_code _ ctx 0 l) as [code|] eqn:Hcode; [|discriminate].
    injection He as <-. by eapply sequence_contract.
  - cbn [emit] in He. by eapply IH.
  - cbn [emit] in He. destruct (emit e _) as [c|] eqn:Hchild; [|discriminate].
    injection He as <-. by eapply simple_and_contract.
  - cbn [emit] in He. destruct (emit e _) as [c|] eqn:Hchild; [|discriminate].
    injection He as <-. by eapply simple_not_contract.
  - injection He as <-. inv_line H. injection H as <- <-. split; [|done].
    destruct (xorb _ _); [left|right]; (split; [|done]);
      by rewrite get_result_set_same.
  - injection He as <-. inv_line H. injection H as <- <-. split; [|done].
    destruct (xorb _ _); [left|right]; (split; [|done]);
      by rewrite get_result_set_same.
  - cbn [emit] in He. destruct (emit e ctx) as [c|] eqn:Hchild; [|discriminate].
    injection He as <-.
    destruct (optional_contract n e ctx c fr st fr' st' Hn Hchild Hc H).
    split; [by left|done].
  - cbn [emit] in He. destruct (emit e _) as [c|] eqn:Hchild; [|discriminate].
    injection He as <-.
    destruct (zero_or_more_contract n e ctx c fr st fr' st' Hn Hchild Hc H)
      as ([items Hitems] & Hp & Hc').
    split; [left|done]. split; [by rewrite Hitems|done].
  - cbn [emit] in He. destruct (emit e _) as [c|] eqn:Hchild; [|discriminate].
    injection He as <-. by eapply one_or_more_contract.
  - cbn [emit] in He. destruct (action_params e _) as [formals actuals].
    destruct (emit e _) as [code|] eqn:Hchild; [|discriminate].
    injection He as <-.
    exact (action_contract n e ctx code formals c actuals fr st fr' st'
             Hn Hchild Hc H).
  - injection He as <-.
    apply exec_call_inv in H as (m & v & Hm & Hcall & ->).
    destruct (call_contract m r st v st' ltac:(lia) Hc Hcall) as [Hentry Hc'].
    split; [|done]. rewrite get_result_set_same || idtac.
    destruct Hentry as [[Hv Hp]|[Hv Hp]]; cbn in Hv, Hp; [left|right];
      (split; [by rewrite get_result_set_same|done]).
  - cbn [emit] in He. destruct (List.length v =? 0)%nat.
    + injection He as <-. inv_line H. injection H as <- <-.
      split; [left|done]. split; [by rewrite get_result_set_same|lia].
    + injection He as <-.
      apply leaf_test_contract in H as [Hres Hcache];
        [|left; by eexists]. by rewrite Hcache.
  - injection He as <-.
    apply leaf_test_contract in H as [Hres Hcache]; [|by right].
    by rewrite Hcache.
  - injection He as <-.
    apply leaf_test_contract in H as [Hres Hcache]; [|by right].
    by rewrite Hcache.
Qed.
End Contract.

(** Every snippet the emitter writes keeps the slot contract, with any
    amount of fuel. *)
Lemma contract_all prog user input :
  emitted_functions prog -> forall N, contract_upto prog user input N.
Proof.
  intros Hprog. induction N as [|N IH]; intros m e ctx s fr st fr' st' Hm;
    [lia|].
  apply (contract_step prog user input Hprog N IH e). lia.
Qed.

Lemma emit_rules_emitted rs fns :
  emit_rules rs = Some fns -> emitted_functions fns.
Proof.
  revert fns. induction rs as [|[k r] rs IH]; cbn; intros fns.
  - intros [= <-] fn [].
  - destruct (emit_rule r) as [fn|] eqn:Hr; [|discriminate].
    destruct (emit_rules rs) as [fns'|]; [|discriminate].
    intros [= <-] fn' [<-|Hin]; [by exists r|by apply (IH fns')].
Qed.

Lemma functions_of_emitted ast : emitted_functions (functions_of ast).
Proof.
  unfold functions_of. destruct (emit_rules (rules ast)) as [fns|] eqn:H.
  - by apply (emit_rules_emitted (rules ast)).
  - intros fn [].
Qed.

Lemma cache_ok_empty : cache_ok ∅.
Proof. intros n p entry H. by rewrite lookup_empty in H. Qed.

(** C1: the emitted code breaks the contract that the comment of the
    emitter states for it (temporaries are [resultVar(context.resultIndex
    + i)] and [posVar(context.posIndex + i)] with [i >= 1], and no other
    variables).  The handlers of [sequence], [simple_and], [simple_not] and
    [action] save [pos] in [posVar(context.posIndex)] itself; so the
    contract with [i >= 1] fails, on [sequence [any]] for one; and the
    function of the rule [start = . .], for which [stackDepths] counts two
    position variables, declares [pos0] and [pos1] and names [pos0]
    only. *)
Lemma sequence_saves_pos_at_posIndex :
  ~ slot_contract 1 [] no_user_code []
  /\ (forall e ctx s,
        emit e ctx = Some s ->
        match e with
        | sequence _ | simple_and _ | simple_not _ | action _ _ =>
            exists rest, s = s_seq (s_save_pos (posIndex ctx)) rest
        | _ => True
        end)
  /\ (exists fn,
        emit_rule (snd (rule_entry "start" (sequence [any; any]))) = Some fn
        /\ fn_posVars fn = [0%nat; 1%nat]
        /\ slots_from 0 0 (function_body fn) = true
        /\ slots_from 0 1 (function_body fn) = false
        /\ slots_below 3 1 (function_body fn) = true).
Proof.
  split; [|split].
  - intros H.
    destruct (H (sequence [any]) {| resultIndex := 0; posIndex := 0 |} _ eq_refl)
      as [Hslots _].
    vm_compute in Hslots. discriminate Hslots.
  - intros e ctx s He. destruct e; try exact I.
    + rewrite emit_sequence in He.
      destruct (elements_code _ ctx 0 elements) as [code|]; [|discriminate].
      injection He as <-. by eexists.
    + cbn [emit] in He. destruct (emit e _) as [code|]; [|discriminate].
      injection He as <-. by eexists.
    + cbn [emit] in He. destruct (emit e _) as [code|]; [|discriminate].
      injection He as <-. by eexists.
    + cbn [emit] in He. destruct (action_params e _) as [formals actuals].
      destruct (emit e _) as [body|]; [|discriminate].
      injection He as <-. by eexists.
  - eexists. split; [reflexivity|]. by vm_compute.
Qed.

(** The slot contract as the code keeps it: every snippet the emitter
    writes names no result variable below [resultIndex] and no position
    variable below [posIndex] (the saved position of [sequence],
    [simple_and], [simple_not] and [action] is [pos<posIndex>]); run from a
    state whose cache is in order, it ends either with a result that is not
    [null] and [pos] not before its entry value, or with [null] and [pos]
    at its entry value; and it leaves the variables below its slots as they
    were.  Predicates and actions are functions of their arguments here. *)
Theorem emitted_snippets_keep_slot_contract prog user input :
  emitted_functions prog -> slot_contract 0 prog user input.
Proof.
  intros Hprog e ctx s He. split.
  - rewrite Nat.add_0_r. by apply (emit_slots e).
  - intros fuel fr st fr' st' Hc Hrun.
    destruct (contract_all prog user input Hprog (S fuel) fuel e ctx s fr st
                fr' st' ltac:(lia) He Hc Hrun) as [Hres Hc'].
    split; [done|]. split; [|done].
    by apply (child_kept prog user input e ctx s fuel fr st fr' st').
Qed.

Lemma emitted_snippets_keep_slot_contract_witness :
  exists fr' st',
    exec (functions_of foo_bar_grammar) no_user_code (js "foobar") true 40
      (code_of (sequence [rule_ref (js "a"); zero_or_more any]) ctx0)
      empty_frame initial_pstate = Done fr' st'
    /\ matched ctx0 initial_pstate fr' st'
    /\ pos st' = 6%nat.
Proof.
  set (e := sequence [rule_ref (js "a"); zero_or_more any]).
  assert (He : emit e ctx0 = Some (code_of e ctx0)) by reflexivity.
  destruct (emitted_snippets_keep_slot_contract
              (functions_of foo_bar_grammar) no_user_code (js "foobar")
              (functions_of_emitted foo_bar_grammar) e ctx0 _ He)
    as [_ Hrun].
  destruct (exec (functions_of foo_bar_grammar) no_user_code (js "foobar") true
              40 (code_of e ctx0) empty_frame initial_pstate)
    as [fr' st'| |] eqn:Hexec.
  - destruct (Hrun 40%nat empty_frame initial_pstate fr' st' cache_ok_empty Hexec)
      as ([Hm|[Hnull Hpos]] & _ & _).
    + exists fr', st'. split; [reflexivity|].
      split; [exact Hm|]. vm_compute in Hexec. by injection Hexec as <- <-.
    + vm_compute in Hexec. injection Hexec as <- <-. discriminate Hpos.
  - vm_compute in Hexec. discriminate Hexec.
  - vm_compute in Hexec. discriminate Hexec.
Defined.

(** ** [optional] and [zero_or_more] *)

Lemma empty_star_body user input f fr st items :
  get_result fr 0 = VArr items ->
  exec [] user input true f (block [s_push 0 1; s_set_string 1 []]) fr st
  = OutOfFuel
  \/ exec [] user input true f (block [s_push 0 1; s_set_string 1 []]) fr st
     = Done (set_result 1 (VStr [])
               (set_result 0 (VArr (items ++ [get_result fr 1])) fr)) st.
Proof.
  intros H0. destruct f as [|[|[|f]]]; cbn [exec block fold_right];
    rewrite ?H0; auto.
Qed.

(** The loop of [zero_or_more] around an expression that matches without
    consuming input, here the empty literal, never ends. *)
Lemma empty_star_loop_runs_forever user input : forall fuel fr st,
  get_result fr 1 = VStr [] ->
  (exists items, get_result fr 0 = VArr items) ->
  exec [] user input true fuel
    (s_while (result_not_null 1) (block [s_push 0 1; s_set_string 1 []]))
    fr st = OutOfFuel.
Proof.
  induction fuel as [|fuel IH]; intros fr st H1 [items H0]; [reflexivity|].
  cbn [exec eval_cond]. rewrite H1. cbn [is_null negb].
  destruct (empty_star_body user input fuel fr st items H0) as [-> | ->];
    [reflexivity|].
  apply IH.
  - by rewrite get_result_set_same.
  - eexists. rewrite get_result_set_other by done. apply get_result_set_same.
Qed.

(** C10, as worded, fails: the snippet of [""*] does not terminate. *)
Lemma empty_star_does_not_terminate :
  ~ always_ends_not_null no_user_code.
Proof.
  intros H.
  destruct (H (literal []) (zero_or_more (literal [])) ctx0 _ [] empty_frame
              initial_pstate (or_intror eq_refl) eq_refl)
    as (fuel & fr' & st' & Hrun & _).
  cbn [block fold_right ctx0 resultIndex posIndex Nat.add] in Hrun.
  inv_seq Hrun as m1 fr1 st1 H1. inv_line H1. injection H1 as <- <-.
  inv_seq Hrun as m2 fr2 st2 H2. inv_line H2. injection H2 as <- <-.
  inv_seq Hrun as m3 fr3 st3 H3. inv_skip Hrun.
  rewrite empty_star_loop_runs_forever in H3; [discriminate H3| |].
  - by rewrite get_result_set_same.
  - eexists. rewrite get_result_set_other by done. apply get_result_set_same.
Qed.

Lemma first_alternative_wins prog user input ctx e l s code fuel fr st fr' st' :
  emit e ctx = Some s ->
  alternatives_code ctx (e :: l) = Some code ->
  (forall m fr1 st1,
     exec prog user input true m s fr st = Done fr1 st1 ->
     get_result fr1 (resultIndex ctx) <> VNull) ->
  exec prog user input true fuel code fr st = Done fr' st' ->
  exists m, exec prog user input true m s fr st = Done fr' st'.
Proof.
  intros He Hcode Hnn H. cbn [alternatives_code] in Hcode. rewrite He in Hcode.
  destruct l as [|e' l'].
  - injection Hcode as <-.
    inv_seq H as m1 fr1 st1 H1. inv_seq H as m2 fr2 st2 H2. inv_skip H.
    inv_skip H2. by exists m1.
  - destruct (alternatives_code ctx (e' :: l')) as [rest|]; [|discriminate].
    injection Hcode as <-.
    inv_seq H as m1 fr1 st1 H1. inv_seq H as m2 fr2 st2 H2. inv_skip H.
    inv_if H2 as m3. cbn [eval_cond] in H2.
    pose proof (Hnn _ _ _ H1) as Hr.
    assert (is_null (get_result fr1 (resultIndex ctx)) = false) as Hnull
      by (by destruct (get_result fr1 (resultIndex ctx))).
    rewrite Hnull in H2. inv_skip H2. by exists m1.
Qed.

(** C10 (amended): whenever the snippet of an [optional] or a
    [zero_or_more] terminates, its result is not [null] ([zero_or_more]
    leaves an array) and [pos] is not before its entry value; the snippet of
    an [optional] terminates whenever that of its child does, replacing a
    [null] by the empty string; and a [choice] whose first alternative is
    such an expression ends as that alternative does, the later
    alternatives not being run.  (The snippet of a [zero_or_more] need not
    terminate.) *)
Theorem optional_and_star_never_fail prog user input e0 e ctx s :
  emitted_functions prog ->
  e = optional e0 \/ e = zero_or_more e0 ->
  emit e ctx = Some s ->
  (forall fuel fr st fr' st',
     cache_ok (cache st) ->
     exec prog user input true fuel s fr st = Done fr' st' ->
     get_result fr' (resultIndex ctx) <> VNull
     /\ (pos st <= pos st')%nat
     /\ (e = zero_or_more e0 ->
         exists items, get_result fr' (resultIndex ctx) = VArr items))
  /\ (forall fuel fr st fr1 st1 c,
        e = optional e0 -> emit e0 ctx = Some c ->
        exec prog user input true fuel c fr st = Done fr1 st1 ->
        exec prog user input true (S (S (S fuel))) s fr st
        = Done (set_result (resultIndex ctx)
                  (if is_null (get_result fr1 (resultIndex ctx)) then VStr []
                   else get_result fr1 (resultIndex ctx)) fr1) st1)
  /\ (forall l code fuel fr st fr' st',
        cache_ok (cache st) ->
        alternatives_code ctx (e :: l) = Some code ->
        exec prog user input true fuel code fr st = Done fr' st' ->
        exists m, exec prog user input true m s fr st = Done fr' st').
Proof.
  intros Hprog He Hs.
  assert (Hmain : forall fuel fr st fr' st',
     cache_ok (cache st) ->
     exec prog user input true fuel s fr st = Done fr' st' ->
     get_result fr' (resultIndex ctx) <> VNull
     /\ (pos st <= pos st')%nat
     /\ (e = zero_or_more e0 ->
         exists items, get_result fr' (resultIndex ctx) = VArr items)).
  { intros fuel fr st fr' st' Hc Hrun.
    pose proof (contract_all prog user input Hprog fuel) as HN.
    destruct He as [->| ->]; cbn [emit] in Hs.
    - destruct (emit e0 ctx) as [c|] eqn:Hchild; [|discriminate].
      injection Hs as <-.
      destruct (optional_contract prog user input fuel HN fuel e0 ctx c fr st
                  fr' st' ltac:(lia) Hchild Hc Hrun) as [[Hr Hp] _].
      split; [done|]. split; [done|]. discriminate.
    - destruct (emit e0 _) as [c|] eqn:Hchild; [|discriminate].
      injection Hs as <-.
      destruct (zero_or_more_contract prog user input fuel HN fuel e0 ctx c
                  fr st fr' st' ltac:(lia) Hchild Hc Hrun)
        as ([items Hitems] & Hp & _).
      split; [by rewrite Hitems|]. split; [done|]. intros _. by exists items. }
  split; [exact Hmain|]. split.
  - intros fuel fr st fr1 st1 c -> Hc Hrun. cbn [emit] in Hs.
    rewrite Hc in Hs. injection Hs as <-.
    unfold block. cbn [fold_right].
    change (exec prog user input true (S (S (S fuel))) (s_seq c ?b) fr st)
      with (match exec prog user input true (S (S fuel)) c fr st with
            | Done fr2 st2 => exec prog user input true (S (S fuel)) b fr2 st2
            | o => o
            end).
    rewrite (exec_fuel_mono _ _ _ _ _ _ _ _ _ _ Hrun (S (S fuel)) ltac:(lia)).
    reflexivity.
  - intros l code fuel fr st fr' st' Hc Hcode Hrun.
    apply (first_alternative_wins prog user input ctx e l s code fuel fr st
             fr' st' Hs Hcode); [|exact Hrun].
    intros m fr1 st1 H1. by destruct (Hmain m fr st fr1 st1 Hc H1).
Qed.

Lemma optional_and_star_never_fail_witness :
  exists fr' st',
    exec (functions_of star_grammar) no_user_code (js "aab") true 40
      (code_of (zero_or_more (literal (js "a"))) ctx0)
      empty_frame initial_pstate = Done fr' st'
    /\ get_result fr' 0 <> VNull
    /\ pos st' = 2%nat.
Proof.
  set (e := zero_or_more (literal (js "a"))).
  assert (He : emit e ctx0 = Some (code_of e ctx0)) by reflexivity.
  destruct (optional_and_star_never_fail
              (functions_of star_grammar) no_user_code (js "aab")
              (literal (js "a")) e ctx0 _
              (functions_of_emitted star_grammar) (or_intror eq_refl) He)
    as [Hrun _].
  destruct (exec (functions_of star_grammar) no_user_code (js "aab") true
              40 (code_of e ctx0) empty_frame initial_pstate)
    as [fr' st'| |] eqn:Hexec.
  - destruct (Hrun 40%nat empty_frame initial_pstate fr' st' cache_ok_empty Hexec)
      as (Hnn & _ & _).
    exists fr', st'. split; [reflexivity|]. split; [exact Hnn|].
    vm_compute in Hexec. by injection Hexec as <- <-.
  - vm_compute in Hexec. discriminate Hexec.
  - vm_compute in Hexec. discriminate Hexec.
Defined.

(** ** [formatCode] *)

Lemma span_word_app (w : jsstring) c y :
  Forall (fun x => is_word_char x = true) w -> is_word_char c = false ->
  span_word (w ++ c :: y) = (w, c :: y).
Proof.
  intros Hw Hc. induction Hw as [|x w Hx _ IH]; cbn [app span_word].
  - by rewrite Hc.
  - by rewrite Hx, IH.
Qed.

Lemma span_word_break s c y :
  is_word_char c = false ->
  span_word (s ++ c :: y) = (fst (span_word s), snd (span_word s) ++ c :: y).
Proof.
  intros Hc. induction s as [|x s IH]; cbn [app span_word].
  - by rewrite Hc.
  - destruct (is_word_char x); [|done].
    rewrite IH. by destruct (span_word s).
Qed.

Lemma span_word_length s :
  (List.length (fst (span_word s)) + List.length (snd (span_word s))
   = List.length s)%nat.
Proof.
  induction s as [|x s IH]; cbn [span_word]; [done|].
  destruct (is_word_char x); [|done].
  destruct (span_word s). cbn in *. lia.
Qed.

Lemma match_identifier_break s c y :
  is_word_char c = false -> is_identifier_start c = false ->
  match_identifier (s ++ c :: y)
  = match match_identifier s with
    | Some (w, r) => Some (w, r ++ c :: y)
    | None => None
    end.
Proof.
  intros Hc Hi. destruct s as [|x s]; cbn [app match_identifier].
  - by rewrite Hi.
  - destruct (is_identifier_start x); [|done].
    change (x :: s ++ c :: y) with ((x :: s) ++ c :: y).
    rewrite span_word_break by done. by destruct (span_word (x :: s)).
Qed.

Lemma match_identifier_length s w r :
  match_identifier s = Some (w, r) ->
  (List.length w + List.length r = List.length s)%nat.
Proof.
  destruct s as [|x s]; cbn [match_identifier]; [done|].
  destruct (is_identifier_start x); [|done].
  intros Heq. assert (Hs : span_word (x :: s) = (w, r)) by congruence.
  pose proof (span_word_length (x :: s)) as H.
  rewrite Hs in H. exact H.
Qed.

Lemma match_identifier_exact w c y :
  is_identifier w -> is_word_char c = false ->
  match_identifier (w ++ c :: y) = Some (w, c :: y).
Proof.
  destruct w as [|x w]; [done|]. intros [Hx Hw] Hc.
  cbn [app match_identifier]. rewrite Hx.
  change (x :: w ++ c :: y) with ((x :: w) ++ c :: y).
  rewrite span_word_app; [done| |done].
  constructor; [|done].
  unfold is_identifier_start, is_word_char in *.
  destruct (is_letter x); [done|]. cbn in *. by rewrite Hx, orb_true_r.
Qed.

(** A match found in a text is found in the same text followed by a dollar
    sign, and conversely; it ends within the text. *)
Lemma match_token_break s y :
  s <> [] -> match_token (s ++ 36 :: y) = match_token s.
Proof.
  intros Hs. destruct s as [|c1 [|c2 rest]]; [done| |].
  - cbn. by rewrite andb_false_r.
  - cbn [app match_token].
    destruct ((c1 =? 36) && (c2 =? 123)); [|done].
    rewrite match_identifier_break by done.
    destruct (match_identifier rest) as [[name r1]|]; [|done].
    destruct r1 as [|c3 r2]; cbn [app]; [done|].
    destruct (c3 =? 125); [done|]. destruct (c3 =? 124); [|done].
    rewrite match_identifier_break by done.
    destruct (match_identifier r2) as [[filter r3]|]; [|done].
    by destruct r3.
Qed.

Lemma match_token_length s name filter len :
  match_token s = Some (name, filter, len) -> (0 < len <= List.length s)%nat.
Proof.
  destruct s as [|c1 [|c2 rest]]; cbn [match_token]; try done.
  destruct ((c1 =? 36) && (c2 =? 123)); [|done].
  destruct (match_identifier rest) as [[w r1]|] eqn:Hw; [|done].
  apply match_identifier_length in Hw.
  destruct r1 as [|c3 r2]; [done|].
  destruct (c3 =? 125).
  { intros [= <- <- <-]. cbn in *. lia. }
  destruct (c3 =? 124); [|done].
  destruct (match_identifier r2) as [[f r3]|] eqn:Hf; [|done].
  apply match_identifier_length in Hf.
  destruct r3 as [|c4 r4]; [done|].
  destruct (c4 =? 125); [|done].
  intros [= <- <- <-]. cbn in *. lia.
Qed.

Lemma prepend_nil r : prepend [] r = r.
Proof. by destruct r. Qed.

Lemma prepend_app a b r : prepend (a ++ b) r = prepend a (prepend b r).
Proof. destruct r; cbn; [|done]. by rewrite app_assoc. Qed.

(** The rest of a text after a dollar sign is scanned afresh: no match
    that begins before the dollar sign reaches it. *)
Lemma interpolate_from_break host vars : forall s skip y,
  (skip <= List.length s)%nat ->
  interpolate_from host vars skip (s ++ 36 :: y)
  = match interpolate_from host vars skip s with
    | Formatted a => prepend a (interpolate_from host vars 0 (36 :: y))
    | Throws m => Throws m
    end.
Proof.
  induction s as [s IH] using (induction_ltof1 _ (@List.length N)).
  unfold ltof in IH. intros skip y Hskip. destruct s as [|c s].
  - assert (skip = 0%nat) as -> by (cbn in Hskip; lia).
    cbn [app]. change (interpolate_from host vars 0 []) with (Formatted []).
    cbv iota. by rewrite prepend_nil.
  - change ((c :: s) ++ 36 :: y) with (c :: (s ++ 36 :: y)).
    destruct skip as [|k].
    + cbn [interpolate_from].
      change (c :: s ++ 36 :: y) with ((c :: s) ++ 36 :: y).
      rewrite match_token_break by done.
      destruct (match_token (c :: s)) as [[[name filter] len]|] eqn:Hm.
      * apply match_token_length in Hm.
        destruct (substitute host vars name filter) as [text|m]; [|done].
        rewrite IH by (cbn in *; lia).
        remember (interpolate_from host vars 0 (36 :: y)) as X.
        destruct (interpolate_from host vars (len - 1) s); cbn [prepend]; [|done].
        rewrite prepend_app. by subst X.
      * rewrite IH by (cbn; lia).
        remember (interpolate_from host vars 0 (36 :: y)) as X.
        destruct (interpolate_from host vars 0 s); cbn [prepend]; [|done].
        rewrite (prepend_app [c]). by subst X.
    + cbn [interpolate_from]. apply IH; cbn in *; lia.
Qed.

Lemma interpolate_from_skip host vars x : forall post,
  interpolate_from host vars (List.length x) (x ++ post)
  = interpolate_from host vars 0 post.
Proof. induction x as [|c x IH]; intros post; [done|]. cbn. apply IH. Qed.

Lemma token_length name filter :
  List.length (token name filter)
  = match filter with
    | Some f => (4 + List.length name + List.length f)%nat
    | None => (3 + List.length name)%nat
    end.
Proof.
  unfold token. destruct filter; rewrite !length_app; cbn; lia.
Qed.

Lemma match_token_token name filter post :
  is_identifier name ->
  match filter with Some f => is_identifier f | None => True end ->
  match_token (token name filter ++ post)
  = Some (name, filter, List.length (token name filter)).
Proof.
  intros Hn Hf. rewrite token_length. unfold token.
  change (js "${") with [36; 123]. cbn [app match_token].
  change ((36 =? 36) && (123 =? 123)) with true. cbv iota.
  destruct filter as [f|].
  - change (js "|") with [124]. change (js "}") with [125].
    rewrite <- !app_assoc. cbn [app].
    rewrite match_identifier_exact by done.
    change (124 =? 125) with false. change (124 =? 124) with true. cbv iota.
    rewrite match_identifier_exact by done.
    change (125 =? 125) with true. reflexivity.
  - change (js "}") with [125]. rewrite <- !app_assoc. cbn [app].
    rewrite match_identifier_exact by done.
    change (125 =? 125) with true. reflexivity.
Qed.

(** Interpolation at a token: the text before it, the value, the text
    after it. *)
Lemma interpolate_token host vars pre name filter post :
  is_identifier name ->
  match filter with Some f => is_identifier f | None => True end ->
  interpolate host vars (pre ++ token name filter ++ post)
  = match interpolate host vars pre with
    | Formatted a =>
        match substitute host vars name filter with
        | Formatted text => prepend (a ++ text) (interpolate host vars post)
        | Throws m => Throws m
        end
    | Throws m => Throws m
    end.
Proof.
  intros Hn Hf. unfold interpolate.
  assert (Htok : exists tl, token name filter = 36 :: tl) by (by eexists).
  destruct Htok as [tl Htl].
  rewrite Htl. cbn [app]. rewrite interpolate_from_break by lia.
  destruct (interpolate_from host vars 0 pre) as [a|m]; [|done].
  change (36 :: tl ++ post) with ((36 :: tl) ++ post). rewrite <- Htl.
  destruct (token name filter ++ post) as [|c rest] eqn:Hs.
  { rewrite Htl in Hs. discriminate Hs. }
  cbn [interpolate_from]. rewrite <- Hs.
  rewrite match_token_token by done.
  destruct (substitute host vars name filter) as [text|m]; [|done].
  assert (Hrest : rest = tl ++ post).
  { rewrite Htl in Hs. by injection Hs as _ <-. }
  assert (Hlen : (List.length (token name filter) - 1 = List.length tl)%nat).
  { rewrite Htl. cbn. lia. }
  rewrite Hlen, Hrest, interpolate_from_skip. by rewrite prepend_app.
Qed.

(** A text without a dollar sign is left as it is. *)
Lemma interpolate_plain host vars s : ~ In 36 s -> interpolate host vars s = Formatted s.
Proof.
  unfold interpolate. induction s as [|c s IH]; [done|]. intros Hin.
  cbn [interpolate_from].
  assert (match_token (c :: s) = None) as ->.
  { destruct s as [|c2 s']; [done|]. cbn [match_token].
    destruct (N.eqb_spec c 36) as [->|?]; [|done].
    exfalso. apply Hin. by left. }
  rewrite IH; [done|]. intros H. apply Hin. by right.
Qed.

Lemma split_on_line sep (l : jsstring) rest :
  ~ In sep l ->
  split_on sep (l ++ sep :: rest) = l :: split_on sep rest.
Proof.
  induction l as [|c l IH]; intros Hin; cbn [app split_on].
  - by rewrite N.eqb_refl.
  - destruct (N.eqb_spec c sep) as [->|Hne].
    { exfalso. apply Hin. by left. }
    rewrite IH; [done|]. intros H. apply Hin. by right.
Qed.

Lemma split_on_last sep (l : jsstring) : ~ In sep l -> split_on sep l = [l].
Proof.
  induction l as [|c l IH]; intros Hin; cbn [split_on]; [done|].
  destruct (N.eqb_spec c sep) as [->|Hne].
  { exfalso. apply Hin. by left. }
  rewrite IH; [done|]. intros H. apply Hin. by right.
Qed.

Lemma join_lines l0 l1 (ls : list jsstring) :
  join nl (l0 :: l1 :: ls) = l0 ++ ch_lf :: join nl (l1 :: ls).
Proof. reflexivity. Qed.

Lemma split_on_join (ls : list jsstring) : forall l0,
  Forall (fun l => ~ In ch_lf l) (l0 :: ls) ->
  split_on ch_lf (join nl (l0 :: ls)) = l0 :: ls.
Proof.
  induction ls as [|l1 ls IH]; intros l0 Hall.
  - cbn [join]. apply split_on_last. by inversion Hall.
  - inversion Hall as [|? ? H0 Hrest]; subst.
    rewrite join_lines, split_on_line by done. by rewrite IH.
Qed.

Lemma leading_whitespace_line l rest :
  leading_whitespace (l ++ ch_lf :: rest) = leading_whitespace l.
Proof.
  induction l as [|c l IH]; cbn [app leading_whitespace]; [done|].
  destruct ((c =? 32) || (c =? ch_tab)); [|done]. by rewrite IH.
Qed.

(** Every line after the first gets the leading whitespace of the first. *)
Lemma indent_part_lines l0 ls :
  Forall (fun l => ~ In ch_lf l) (l0 :: ls) ->
  indent_part (join nl (l0 :: ls))
  = join nl (l0 :: map (app (leading_whitespace l0)) ls).
Proof.
  intros Hall. unfold indent_part. destruct ls as [|l1 ls].
  - cbn [join map]. rewrite bool_decide_eq_false_2; [done|].
    inversion Hall; subst. by rewrite list_elem_of_In.
  - rewrite bool_decide_eq_true_2.
    + rewrite split_on_join by done.
      by rewrite join_lines, leading_whitespace_line.
    + rewrite join_lines.
      apply list_elem_of_In, in_or_app. right. by left.
Qed.

Lemma interpolateVariablesInParts_spec host vars parts ts :
  interpolateVariablesInParts host vars parts = inr ts
  <-> Forall2 (fun p t => interpolate host vars p = Formatted t) parts ts.
Proof.
  revert ts. induction parts as [|p ps IH]; intros ts; cbn.
  - split; [intros [= <-]; constructor|by inversion 1].
  - destruct (interpolate host vars p) as [t|m] eqn:Hp.
    + destruct (interpolateVariablesInParts host vars ps) as [m|ts'].
      * split; [done|]. inversion 1 as [|? ? ? ? _ Hrest]; subst.
        by apply IH in Hrest.
      * split.
        -- intros [= <-]. constructor; [done|]. by apply IH.
        -- inversion 1 as [|? ? ? ? Ht Hrest]; subst.
           apply IH in Hrest. congruence.
    + split; [done|]. inversion 1 as [|? ? ? ? Ht _]; subst. congruence.
Qed.

Lemma interpolateVariablesInParts_throws host vars parts p :
  In p parts -> throws (interpolate host vars p) ->
  exists m, interpolateVariablesInParts host vars parts = inl m.
Proof.
  induction parts as [|q ps IH]; [done|]. intros [->|Hin] Hp; cbn.
  - destruct (interpolate host vars p) as [t|m]; [done|]. by exists m.
  - destruct (interpolate host vars q) as [t|m]; [|by exists m].
    destruct (IH Hin Hp) as [m ->]. by exists m.
Qed.

Lemma substitute_throws host vars name filter :
  lookup_variable host vars name = None
  \/ (exists f, filter = Some f /\ is_identifier f /\ f <> js "string") ->
  throws (substitute host vars name filter).
Proof.
  unfold substitute. intros [->|(f & -> & Hf & Hne)]; [done|].
  destruct (lookup_variable host vars name); [|done].
  rewrite bool_decide_eq_false_2 by (by destruct f).
  by rewrite bool_decide_eq_false_2.
Qed.

(** The match of [^[ \t]*]: the blanks and tabs before the first character
    that is neither. *)
Lemma leading_whitespace_prefix w rest :
  Forall (fun c => c = 32 \/ c = ch_tab) w ->
  match rest with
  | c :: _ => c <> 32 /\ c <> ch_tab
  | [] => True
  end ->
  leading_whitespace (w ++ rest) = w.
Proof.
  intros Hw Hrest. induction Hw as [|c w Hc _ IH]; cbn [app leading_whitespace].
  - destruct rest as [|c rest]; [done|]. destruct Hrest as [H1 H2].
    cbn [leading_whitespace].
    destruct (N.eqb_spec c 32); [done|]. by destruct (N.eqb_spec c ch_tab).
  - rewrite IH. by destruct Hc as [-> | ->].
Qed.

(** What [formatCode] does.  It interpolates each part, re-indents each
    part and joins the parts with newlines.  A token is replaced by the
    value of its variable, quoted under the filter [string]; a name the
    mapping does not hold is looked up in what the mapping inherits, and a
    token with such a name is replaced by the text of the inherited value.
    Each line after the first of a part gets the blanks and tabs that
    stand before the first other character of its first line.  A token whose name is
    neither held nor inherited, or whose filter is not [string], makes
    [formatCode] throw. *)
Theorem formatCode_correct (host : host_object) :
  (forall parts vars r,
     formatCode host parts vars = Formatted r
     <-> exists ts,
           Forall2
             (fun p t => interpolate host (default ∅ vars) p = Formatted t)
             parts ts
           /\ r = join nl (map indent_part ts))
  /\ (forall vars pre name post a b value,
        is_identifier name ->
        interpolate host vars pre = Formatted a ->
        interpolate host vars post = Formatted b ->
        vars !! name = Some value ->
        interpolate host vars (pre ++ token name None ++ post)
        = Formatted (a ++ value ++ b)
        /\ interpolate host vars
             (pre ++ token name (Some (js "string")) ++ post)
           = Formatted (a ++ quote value ++ b))
  /\ (forall vars pre name post a b v,
        is_identifier name ->
        interpolate host vars pre = Formatted a ->
        interpolate host vars post = Formatted b ->
        vars !! name = None -> host name = Some v ->
        interpolate host vars (pre ++ token name None ++ post)
        = Formatted (a ++ text_of v ++ b))
  /\ (forall vars s, ~ In 36 s -> interpolate host vars s = Formatted s)
  /\ (forall w l0 ls,
        Forall (fun c => c = 32 \/ c = ch_tab) w ->
        match l0 with
        | c :: _ => c <> 32 /\ c <> ch_tab
        | [] => True
        end ->
        Forall (fun l => ~ In ch_lf l) (l0 :: ls) ->
        indent_part (join nl ((w ++ l0) :: ls))
        = join nl ((w ++ l0) :: map (app w) ls))
  /\ formatCode host [js "  ${x}"] (Some {[ js "x" := js "a" ++ nl ++ js "b" ]})
     = Formatted (js "  a" ++ nl ++ js "  b")
  /\ formatCode host [js "a"; js "${b|string}"] (Some {[ js "b" := js "x" ]})
     = Formatted (js "a" ++ nl ++ [ch_dquote] ++ js "x" ++ [ch_dquote])
  /\ (forall parts vars pre name filter post,
        is_identifier name ->
        match filter with Some f => is_identifier f | None => True end ->
        In (pre ++ token name filter ++ post) parts ->
        (default ∅ vars !! name = None /\ host name = None)
        \/ (exists f, filter = Some f /\ f <> js "string") ->
        throws (formatCode host parts vars)).
Proof.
  split; [|split; [|split; [|split; [|split; [|split; [|split]]]]]].
  - intros parts vars r. unfold formatCode, indentMultilineParts.
    destruct (interpolateVariablesInParts _ _ parts) as [m|ts] eqn:H.
    + split; [done|]. intros (ts & Hts & _).
      apply interpolateVariablesInParts_spec in Hts. congruence.
    + apply interpolateVariablesInParts_spec in H. split.
      * intros [= <-]. by exists ts.
      * intros (ts' & Hts' & ->).
        apply interpolateVariablesInParts_spec in H, Hts'.
        assert (ts' = ts) by congruence. by subst.
  - intros vars pre name post a b value Hn Ha Hb Hv. split.
    + rewrite interpolate_token by done.
      rewrite Ha, Hb. unfold substitute, lookup_variable. rewrite Hv. cbn.
      by rewrite <- app_assoc.
    + rewrite interpolate_token by (done || (cbn; repeat constructor)).
      rewrite Ha, Hb. unfold substitute, lookup_variable. rewrite Hv.
      rewrite bool_decide_eq_false_2 by done.
      rewrite bool_decide_eq_true_2 by done. cbn.
      by rewrite <- app_assoc.
  - intros vars pre name post a b v Hn Ha Hb Hv Hh.
    rewrite interpolate_token by done.
    rewrite Ha, Hb. unfold substitute, lookup_variable. rewrite Hv, Hh. cbn.
    by rewrite <- app_assoc.
  - apply interpolate_plain.
  - intros w l0 ls Hw Hl0 Hall.
    rewrite indent_part_lines.
    + by rewrite leading_whitespace_prefix.
    + inversion Hall as [|? ? H0 Hls]; subst. constructor; [|done].
      intros Hin. apply in_app_or in Hin as [Hin|Hin]; [|done].
      rewrite Forall_forall in Hw. apply list_elem_of_In in Hin.
      destruct (Hw _ Hin) as [H|H]; discriminate H.
  - vm_compute. reflexivity.
  - vm_compute. reflexivity.
  - intros parts vars pre name filter post Hn Hf Hin Hbad.
    assert (Hth : throws (interpolate host (default ∅ vars)
                            (pre ++ token name filter ++ post))).
    { rewrite interpolate_token by done.
      destruct (interpolate host (default ∅ vars) pre); [|done].
      assert (Hs : throws (substitute host (default ∅ vars) name filter)).
      { apply substitute_throws.
        destruct Hbad as [[Hv Hh]|(f & -> & Hne)].
        - left. unfold lookup_variable. by rewrite Hv.
        - right. by exists f. }
      by destruct (substitute host (default ∅ vars) name filter). }
    destruct (interpolateVariablesInParts_throws _ _ _ _ Hin Hth) as [m Hm].
    unfold formatCode. by rewrite Hm.
Qed.

(** A part that is one token without filter. *)
Lemma interpolate_one_token host vars name v :
  is_identifier name -> lookup_variable host vars name = Some v ->
  interpolate host vars (token name None) = Formatted (text_of v).
Proof.
  intros Hn Hv.
  pose proof (interpolate_token host vars [] name None [] Hn I) as H.
  rewrite app_nil_r in H. cbn [app] in H. rewrite H.
  unfold substitute. rewrite Hv.
  change (interpolate host vars []) with (Formatted []).
  cbn [prepend app]. by rewrite app_nil_r.
Qed.

(** C7: an undefined variable does not always make [formatCode] throw.
    The mapping is read by [vars[name]], which finds what the mapping
    object inherits; so in a host whose plain objects inherit
    [constructor] and [toString], [formatCode("${constructor}", {})] and
    [formatCode("foo", "${toString}")] return the text of the inherited
    value (re-indented like any part), where [formatCode("foo", "${bar}")]
    throws. *)
Theorem formatCode_finds_inherited_names (source : jsstring -> jsstring) :
  formatCode (object_prototype source) [js "${constructor}"] (Some ∅)
  = Formatted (indent_part (source (js "constructor")))
  /\ formatCode (object_prototype source) [js "${constructor}"] None
     = Formatted (indent_part (source (js "constructor")))
  /\ formatCode (object_prototype source) [js "foo"; js "${toString}"] None
     = Formatted (js "foo" ++ nl ++ indent_part (source (js "toString")))
  /\ formatCode (object_prototype source) [js "foo"; js "${bar}"] None
     = Throws (Error (js "Undefined variable: " ++ [ch_dquote] ++ js "bar"
                      ++ [ch_dquote] ++ js "."))
  /\ formatCode (object_prototype source) [js "${toString|string}"] None
     = Throws TypeError.
Proof.
  assert (Hc : interpolate (object_prototype source) ∅ (js "${constructor}")
               = Formatted (source (js "constructor"))).
  { change (js "${constructor}") with (token (js "constructor") None).
    apply (interpolate_one_token _ _ _
             (inherited_object (source (js "constructor"))
                (method_returns false)));
      [cbn; repeat constructor|reflexivity]. }
  assert (Ht : interpolate (object_prototype source) ∅ (js "${toString}")
               = Formatted (source (js "toString"))).
  { change (js "${toString}") with (token (js "toString") None).
    apply (interpolate_one_token _ _ _
             (inherited_object (source (js "toString"))
                (method_returns false)));
      [cbn; repeat constructor|reflexivity]. }
  assert (Hfoo : interpolate (object_prototype source) ∅ (js "foo")
                 = Formatted (js "foo")) by reflexivity.
  unfold formatCode. cbn [default from_option id interpolateVariablesInParts].
  rewrite Hc, Ht, Hfoo. cbn [indentMultilineParts map join].
  split; [done|]. split; [done|]. split; [done|].
  split; vm_compute; reflexivity.
Qed.

(** ** Memoization *)

Lemma alternatives_code_guarded ctx l code :
  Forall (fun e => forall ctx s, emit e ctx = Some s -> well_guarded s = true) l ->
  alternatives_code ctx l = Some code -> well_guarded code = true.
Proof.
  revert code. induction l as [|e l IH]; intros code Hall; [discriminate|].
  inversion Hall as [|? ? He Hl]; subst. cbn [alternatives_code].
  destruct l as [|e' l'].
  - destruct (emit e ctx) as [current|] eqn:Hc; [|discriminate].
    intros [= <-]. cbn. by rewrite (He _ _ Hc).
  - destruct (alternatives_code ctx (e' :: l')) as [rest|] eqn:Hrest;
      [|discriminate].
    destruct (emit e ctx) as [current|] eqn:Hc; [|discriminate].
    intros [= <-]. cbn. by rewrite (He _ _ Hc), (IH _ Hl eq_refl).
Qed.

Lemma elements_code_guarded total ctx l : forall i code,
  Forall (fun e => forall ctx s, emit e ctx = Some s -> well_guarded s = true) l ->
  elements_code total ctx i l = Some code -> well_guarded code = true.
Proof.
  induction l as [|e l IH]; intros i code Hall; cbn [elements_code].
  - by intros [= <-].
  - inversion Hall as [|? ? He Hl]; subst.
    destruct (elements_code total ctx (S i) l) as [rest|] eqn:Hrest;
      [|discriminate].
    destruct (emit e _) as [c|] eqn:Hc; [|discriminate].
    intros [= <-]. cbn. by rewrite (He _ _ Hc), (IH _ _ Hl Hrest).
Qed.

Lemma emit_guarded e : forall ctx s, emit e ctx = Some s -> well_guarded s = true.
Proof.
  induction e as [l IH|l IH|lbl e IH|e IH|e IH|c|c|e IH|e IH|e IH|e c IH|n|v| |p i t]
    using expr_nested_ind; intros ctx s.
  - rewrite emit_choice. by apply alternatives_code_guarded.
  - rewrite emit_sequence.
    destruct (elements_code _ ctx 0 l) as [code|] eqn:Hcode; [|discriminate].
    intros [= <-]. cbn. by rewrite (elements_code_guarded _ _ _ _ _ IH Hcode).
  - cbn [emit]. apply IH.
  - cbn [emit]. destruct (emit e _) as [c|] eqn:Hc; [|discriminate].
    intros [= <-]. cbn. by rewrite (IH _ _ Hc).
  - cbn [emit]. destruct (emit e _) as [c|] eqn:Hc; [|discriminate].
    intros [= <-]. cbn. by rewrite (IH _ _ Hc).
  - by intros [= <-].
  - by intros [= <-].
  - cbn [emit]. destruct (emit e ctx) as [c|] eqn:Hc; [|discriminate].
    intros [= <-]. cbn. by rewrite (IH _ _ Hc).
  - cbn [emit]. destruct (emit e _) as [c|] eqn:Hc; [|discriminate].
    intros [= <-]. cbn. by rewrite (IH _ _ Hc).
  - cbn [emit]. destruct (emit e _) as [c|] eqn:Hc; [|discriminate].
    intros [= <-]. cbn. by rewrite (IH _ _ Hc).
  - cbn [emit]. destruct (action_params e _) as [formals actuals].
    destruct (emit e _) as [code|] eqn:Hc; [|discriminate].
    intros [= <-]. cbn. by rewrite (IH _ _ Hc).
  - by intros [= <-].
  - cbn [emit]. destruct (List.length v =? 0)%nat; by intros [= <-].
  - by intros [= <-].
  - by intros [= <-].
Qed.

Lemma emitted_functions_guarded prog :
  emitted_functions prog -> functions_guarded prog.
Proof.
  intros Hprog fn Hin. destruct (Hprog fn Hin) as [r Hr].
  unfold emit_rule in Hr.
  destruct (emit (expression r) _) as [code|] eqn:He; [|discriminate].
  injection Hr as <-. unfold function_body. cbn.
  rewrite (emit_guarded _ _ _ He). by destruct (displayName r).
Qed.

Lemma exec_done_unique prog user input memo n m s fr st fr1 st1 fr2 st2 :
  exec prog user input memo n s fr st = Done fr1 st1 ->
  exec prog user input memo m s fr st = Done fr2 st2 ->
  fr1 = fr2 /\ st1 = st2.
Proof.
  intros H1 H2.
  apply (exec_fuel_mono _ _ _ _ _ _ _ _ _ _) with (m := Nat.max n m) in H1;
    [|lia].
  apply (exec_fuel_mono _ _ _ _ _ _ _ _ _ _) with (m := Nat.max n m) in H2;
    [|lia].
  rewrite H1 in H2. by injection H2 as -> ->.
Qed.

Section Uncached.
Variable prog : list function_def.
Variable user : user_code.
Variable input : jsstring.
Hypothesis Hguard : functions_guarded prog.

Abbreviation run0 := (exec prog user input false).

Lemma eval_cond_same_pos c fr st st2 :
  is_report_cond c = false -> pos st = pos st2 ->
  eval_cond input c fr st = eval_cond input c fr st2.
Proof. intros Hc Hp. destruct c; try done; cbn; by rewrite Hp. Qed.

(** Without the cache, a run depends on the state of the parser through
    [pos] only. *)
Lemma uncached_same_pos : forall n s fr st st2 fr' st',
  well_guarded s = true -> pos st = pos st2 ->
  run0 n s fr st = Done fr' st' ->
  exists st2', run0 n s fr st2 = Done fr' st2' /\ pos st' = pos st2'.
Proof.
  induction n as [|n IH]; [discriminate|].
  intros s fr st st2 fr' st' Hs Hp H.
  destruct s; cbn [exec well_guarded] in H, Hs |- *;
    try (injection H as <- <-; rewrite <- ?Hp; eexists; split; [reflexivity|];
         cbn; first [done | by rewrite Hp | by rewrite !matchFailed_pos]).
  - apply andb_true_iff in Hs as [Ha Hb].
    destruct (run0 n s1 fr st) as [fr1 st1| |] eqn:H1; try discriminate.
    destruct (IH _ _ _ _ _ _ Ha Hp H1) as (st1' & -> & Hp1).
    by apply (IH _ _ _ st1' _ _ Hb Hp1).
  - destruct (is_report_cond c) eqn:Hc.
    + destruct s1; try discriminate. destruct s2; try discriminate.
      assert (exists k, n = S k) as [k ->].
      { destruct n; [|by eexists]. by destruct (eval_cond input c fr st). }
      assert (Hout : fr' = fr /\ pos st' = pos st).
      { destruct (eval_cond input c fr st); cbn in H; injection H as <- <-;
          by rewrite ?matchFailed_pos. }
      destruct Hout as [-> Hp'].
      destruct (eval_cond input c fr st2); cbn; eexists; (split; [reflexivity|]);
        rewrite ?matchFailed_pos; congruence.
    + apply andb_true_iff in Hs as [Ha Hb].
      rewrite <- (eval_cond_same_pos c fr st st2 Hc Hp).
      destruct (eval_cond input c fr st); eauto.
  - apply andb_true_iff in Hs as [Hc%negb_true_iff Hb].
    rewrite <- (eval_cond_same_pos c fr st st2 Hc Hp).
    destruct (eval_cond input c fr st).
    + destruct (run0 n s fr st) as [fr1 st1| |] eqn:H1; try discriminate.
      destruct (IH _ _ _ _ _ _ Hb Hp H1) as (st1' & -> & Hp1).
      assert (Hw : well_guarded (s_while c s) = true).
      { cbn [well_guarded]. by rewrite Hc, Hb. }
      apply (IH _ _ _ st1' _ _ Hw Hp1 H).
    + injection H as <- <-. by eexists.
  - unfold call_function in *.
    destruct (find_function prog _) as [fn|] eqn:Hfind;
      [|discriminate].
    destruct (run0 n (function_body fn) empty_frame _) as [frb stb| |] eqn:Hb;
      try discriminate.
    injection H as <- <-.
    assert (Hin : In fn prog).
    { unfold find_function in Hfind. by apply find_some in Hfind as [? _]. }
    destruct (IH (function_body fn) empty_frame
                (log_evaluation (fn_name fn, pos st) st)
                (log_evaluation (fn_name fn, pos st2) st2) frb stb
                (Hguard fn Hin) Hp Hb) as (stb' & Hb' & Hpb).
    rewrite Hb'. by eexists.
  - destruct (get_result fr i); try discriminate.
    injection H as <- <-. by eexists.
  - destruct (positions fr !! k); try discriminate.
    injection H as <- <-. by eexists.
Qed.

Lemma uncached_call_same_pos n r st st2 v st' :
  pos st = pos st2 ->
  call prog user input false n r st = Returned v st' ->
  exists st2', call prog user input false n r st2 = Returned v st2'
    /\ pos st' = pos st2'.
Proof.
  intros Hp. unfold call, call_function.
  destruct (find_function prog r) as [fn|] eqn:Hfind; [|discriminate].
  destruct (run0 n (function_body fn) empty_frame _) as [frb stb| |] eqn:Hb;
    try discriminate.
  intros [= <- <-].
  assert (Hin : In fn prog).
  { unfold find_function in Hfind. by apply find_some in Hfind as [? _]. }
  destruct (uncached_same_pos n (function_body fn) empty_frame
              (log_evaluation (fn_name fn, pos st) st)
              (log_evaluation (fn_name fn, pos st2) st2) frb stb
              (Hguard fn Hin) Hp Hb) as (stb' & Hb' & Hpb).
  rewrite Hb'. by eexists.
Qed.
End Uncached.

Section Memo.
Variable prog : list function_def.
Variable user : user_code.
Variable input : jsstring.
Hypothesis Hguard : functions_guarded prog.

Abbreviation runc := (exec prog user input true).
Abbreviation runu := (exec prog user input false).
Abbreviation coherent := (cache_coherent prog user input).
Abbreviation mrun := (memo_run prog user input).

(** A statement that evaluates no rule body. *)
Lemma memo_run_plain s fr st fr' st' :
  (forall st0, pos st0 = pos st ->
     exists M st0', runu M s fr st0 = Done fr' st0' /\ pos st0' = pos st') ->
  cache st' = cache st -> evaluated st' = evaluated st ->
  coherent (cache st) ->
  mrun s fr st fr' st'.
Proof.
  intros Hsame Hc He Hcoh. split.
  - exact Hsame.
  - by rewrite Hc.
  - intros k x. by rewrite Hc.
  - exists []. split; [by rewrite He|]. split; [constructor|].
    split; [by intros np []|]. split; [|by intros ? ? ? ? ? ? np []].
    intros k Hk [x Hx]. rewrite Hc in Hx. congruence.
Qed.

Lemma memo_run_seq a b fr st fr1 st1 fr' st' :
  mrun a fr st fr1 st1 -> mrun b fr1 st1 fr' st' ->
  mrun (s_seq a b) fr st fr' st'.
Proof.
  intros [Ha_same Ha_coh Ha_kept (new_a & Ha_ev & Ha_nd & Ha_in & Ha_only & Ha_depth)]
         [Hb_same Hb_coh Hb_kept (new_b & Hb_ev & Hb_nd & Hb_in & Hb_only & Hb_depth)].
  split.
  - intros st0 Hp.
    destruct (Ha_same st0 Hp) as (Ma & st0a & Hra & Hpa).
    destruct (Hb_same st0a Hpa) as (Mb & st0b & Hrb & Hpb).
    exists (S (Nat.max Ma Mb)), st0b. split; [|done]. cbn [exec].
    rewrite (exec_fuel_mono _ _ _ _ _ _ _ _ _ _ Hra (Nat.max Ma Mb) ltac:(lia)).
    apply (exec_fuel_mono _ _ _ _ _ _ _ _ _ _ Hrb). lia.
  - exact Hb_coh.
  - intros k x Hk. by apply Hb_kept, Ha_kept.
  - exists (new_b ++ new_a). split; [by rewrite Hb_ev, Ha_ev, app_assoc|].
    split; [|split; [|split]].
    + apply NoDup_app. split; [done|]. split; [|done].
      intros np Hb%list_elem_of_In Ha%list_elem_of_In.
      destruct (Hb_in np Hb) as [Hnone _]. destruct (Ha_in np Ha) as [_ [x Hx]].
      congruence.
    + intros np [Hin|Hin]%in_app_or.
      * destruct (Hb_in np Hin) as [Hnone Hsome]. split; [|done].
        destruct (cache st !! cache_key (fst np) (snd np)) as [x|] eqn:Hx;
          [|done].
        apply Ha_kept in Hx. congruence.
      * destruct (Ha_in np Hin) as [Hnone [x Hx]]. split; [done|].
        exists x. by apply Hb_kept.
    + intros k Hk Hsome.
      destruct (cache st1 !! k) as [x|] eqn:Hx.
      * destruct (Ha_only k Hk ltac:(by exists x)) as (np & Hin & ->).
        exists np. split; [|done]. apply in_or_app. by right.
      * destruct (Hb_only k Hx Hsome) as (np & Hin & ->).
        exists np. split; [|done]. apply in_or_app. by left.
    + intros M st0 fr0' st0' Hp Hrun np Hin.
      apply exec_seq_inv in Hrun as (M1 & fr1x & st1x & HM1 & Hra & Hrb).
      destruct (Ha_same st0 Hp) as (Ma & st0a & Hra' & Hpa).
      destruct (exec_done_unique _ _ _ _ _ _ _ _ _ _ _ _ _ Hra Hra') as [-> ->].
      apply in_app_or in Hin as [Hin|Hin].
      * destruct (Hb_depth M1 st0a _ _ Hpa Hrb np Hin) as (M' & HM' & Hterm).
        exists M'. split; [lia|done].
      * destruct (Ha_depth M1 st0 _ _ Hp Hra np Hin) as (M' & HM' & Hterm).
        exists M'. split; [lia|done].
Qed.

Lemma memo_run_if c a b fr st fr' st' :
  is_report_cond c = false ->
  mrun (if eval_cond input c fr st then a else b) fr st fr' st' ->
  mrun (s_if c a b) fr st fr' st'.
Proof.
  intros Hc [Hsame Hcoh Hkept (new & Hev & Hnd & Hin & Honly & Hdepth)].
  split; [|done|done|].
  - intros st0 Hp. destruct (Hsame st0 Hp) as (M & st0' & Hrun & Hp').
    exists (S M), st0'. split; [|done]. cbn [exec].
    rewrite <- (eval_cond_same_pos input c fr st st0 Hc (eq_sym Hp)).
    by destruct (eval_cond input c fr st).
  - exists new. repeat (split; [done|]).
    intros M st0 fr0' st0' Hp Hrun np Hnp.
    apply exec_if_inv in Hrun as (M1 & HM1 & Hrun).
    rewrite <- (eval_cond_same_pos input c fr st st0 Hc (eq_sym Hp)) in Hrun.
    destruct (Hdepth M1 st0 _ _ Hp Hrun np Hnp) as (M' & HM' & Hterm).
    exists M'. split; [lia|done].
Qed.

Lemma memo_run_while_step c body fr st fr1 st1 fr' st' :
  is_report_cond c = false ->
  eval_cond input c fr st = true ->
  mrun body fr st fr1 st1 -> mrun (s_while c body) fr1 st1 fr' st' ->
  mrun (s_while c body) fr st fr' st'.
Proof.
  intros Hc Hcond Hbody Hloop.
  destruct (memo_run_seq _ _ _ _ _ _ _ _ Hbody Hloop)
    as [Hsame Hcoh Hkept (new & Hev & Hnd & Hin & Honly & Hdepth)].
  split; [|done|done|].
  - intros st0 Hp. destruct (Hsame st0 Hp) as (M & st0' & Hrun & Hp').
    apply exec_seq_inv in Hrun as (M1 & fr1x & st1x & HM1 & Hra & Hrb).
    exists (S M1), st0'. split; [|done]. cbn [exec].
    rewrite <- (eval_cond_same_pos input c fr st st0 Hc (eq_sym Hp)), Hcond.
    by rewrite Hra.
  - exists new. repeat (split; [done|]).
    intros M st0 fr0' st0' Hp Hrun np Hnp.
    apply exec_while_inv in Hrun as (M1 & HM1 & Hrun).
    rewrite <- (eval_cond_same_pos input c fr st st0 Hc (eq_sym Hp)), Hcond
      in Hrun.
    destruct Hrun as (fr1x & st1x & Hra & Hrb).
    assert (Hseq : runu (S M1) (s_seq body (s_while c body)) fr st0
                   = Done fr0' st0').
    { cbn [exec]. by rewrite Hra. }
    destruct (Hdepth (S M1) st0 _ _ Hp Hseq np Hnp) as (M' & HM' & Hterm).
    exists M'. split; [lia|done].
Qed.

(** One line, which is no call. *)
Lemma memo_run_line N s fr st fr' st' :
  match s with
  | s_seq _ _ | s_if _ _ _ | s_while _ _ | s_set_call _ _ => False
  | _ => True
  end ->
  coherent (cache st) ->
  runc N s fr st = Done fr' st' ->
  mrun s fr st fr' st'.
Proof.
  intros Hs Hcoh H. destruct N as [|N]; [discriminate|].
  destruct s; try destruct Hs; cbn [exec] in H.
  all: try (injection H as <- <-; apply memo_run_plain;
            [ intros st0 Hp; exists 1%nat; eexists; cbn [exec];
              (split; [reflexivity|]); cbn;
              rewrite ?matchFailed_pos; congruence
            | first [done | by rewrite matchFailed_cache]
            | first [done | by rewrite matchFailed_evaluated]
            | done ]).
  - injection H as <- <-. apply memo_run_plain; try done.
    intros st0 Hp. exists 1%nat, st0. cbn [exec]. by rewrite Hp.
  - injection H as <- <-. apply memo_run_plain; try done.
    intros st0 Hp. exists 1%nat, st0. cbn [exec]. by rewrite Hp.
  - destruct (get_result fr i) eqn:Hi; try discriminate.
    injection H as <- <-. apply memo_run_plain; try done.
    intros st0 Hp. exists 1%nat, st0. cbn [exec]. by rewrite Hi.
  - injection H as <- <-. apply memo_run_plain; try done.
    intros st0 Hp. exists 1%nat, st0. cbn [exec]. by rewrite Hp.
  - destruct (positions fr !! k) eqn:Hk; try discriminate.
    injection H as <- <-. apply memo_run_plain; try done.
    intros st0 Hp. exists 1%nat. eexists. cbn [exec]. rewrite Hk.
    split; [reflexivity|done].
Qed.

(** A test of [reportFailures] around [matchFailed]. *)
Lemma memo_run_report N c failure fr st fr' st' :
  coherent (cache st) ->
  runc N (s_if c (s_matchFailed failure) s_skip) fr st = Done fr' st' ->
  mrun (s_if c (s_matchFailed failure) s_skip) fr st fr' st'.
Proof.
  intros Hcoh H. apply exec_if_inv in H as (m & Hm & H).
  assert (Hout : fr' = fr /\ pos st' = pos st /\ cache st' = cache st
                 /\ evaluated st' = evaluated st).
  { destruct (eval_cond input c fr st).
    - apply exec_line_inv in H; [|exact I]. cbn in H. injection H as <- <-.
      by rewrite matchFailed_pos, matchFailed_cache, matchFailed_evaluated.
    - by apply exec_skip_inv in H as [-> ->]. }
  destruct Hout as (-> & Hp' & Hc' & He').
  apply memo_run_plain; try done.
  intros st0 Hp. exists 2%nat. cbn [exec].
  destruct (eval_cond input c fr st0); eexists; (split; [reflexivity|]);
    rewrite ?matchFailed_pos; congruence.
Qed.

(** A call of a rule function, the body of which does what [memo_run]
    says. *)
Lemma memo_run_call n i r fr st fr' st' :
  (forall fn frb stb,
     find_function prog r = Some fn ->
     runc n (function_body fn) empty_frame
       (log_evaluation (fn_name fn, pos st) st) = Done frb stb ->
     mrun (function_body fn) empty_frame
       (log_evaluation (fn_name fn, pos st) st) frb stb) ->
  coherent (cache st) ->
  runc (S n) (s_set_call i r) fr st = Done fr' st' ->
  mrun (s_set_call i r) fr st fr' st'.
Proof.
  intros Hbody Hcoh H. cbn [exec] in H. unfold call_function in H.
  destruct (find_function prog r) as [fn|] eqn:Hfind; [|discriminate].
  assert (Hname : fn_name fn = r).
  { unfold find_function in Hfind. apply find_some in Hfind as [_ Hn].
    by apply bool_decide_eq_true in Hn. }
  assert (Hin_prog : In fn prog).
  { unfold find_function in Hfind. by apply find_some in Hfind as [? _]. }
  rewrite Hname in H.
  destruct (cache st !! cache_key r (pos st)) as [[np v]|] eqn:Hlook.
  - (* the cache has the outcome *)
    injection H as <- <-.
    apply memo_run_plain; try done.
    intros st0 Hp.
    destruct (Hcoh _ _ _ Hlook) as (m & stx & Hcall & Hpx). cbn in Hcall, Hpx.
    destruct (uncached_call_same_pos prog user input Hguard m r (at_pos (pos st))
                st0 v stx ltac:(cbn; congruence) Hcall) as (stx0 & Hcall0 & Hpx0).
    exists (S m), stx0. cbn [exec]. unfold call in Hcall0. rewrite Hcall0.
    split; [done|]. cbn. congruence.
  - (* the body is evaluated *)
    destruct (runc n (function_body fn) empty_frame _) as [frb stb| |] eqn:Hrun;
      try discriminate.
    injection H as <- <-.
    specialize (Hbody fn frb stb eq_refl).
    rewrite Hname in Hbody. specialize (Hbody Hrun).
    destruct Hbody as [Hb_same Hb_coh Hb_kept
      (newB & Hb_ev & Hb_nd & Hb_in & Hb_only & Hb_depth)].
    cbn [cache pos evaluated log_evaluation] in *.
    set (p := pos st) in *.
    set (v := get_result frb 0).
    (* the body did not evaluate itself again *)
    assert (Hself : ~ In (r, p) newB).
    { intros Hin.
      assert (Hnever : forall M frx stx,
                runu M (function_body fn) empty_frame (at_pos p)
                <> Done frx stx).
      { induction M as [M IHM] using lt_wf_ind. intros frx stx HM.
        destruct (Hb_depth M (at_pos p) frx stx eq_refl HM (r, p) Hin)
          as (M' & HM' & fn' & frx' & stx' & Hfind' & Hrun').
        cbn in Hfind', Hrun'. rewrite Hfind in Hfind'. injection Hfind' as <-.
        by apply (IHM M' HM' frx' stx'). }
      destruct (Hb_same (at_pos p) eq_refl) as (M & stx & HM & _).
      by apply (Hnever M frb stx). }
    assert (Hfresh : cache stb !! cache_key r p = None).
    { destruct (cache stb !! cache_key r p) as [x|] eqn:Hx; [|done].
      destruct (Hb_only _ Hlook ltac:(by exists x)) as ([r' p'] & Hin & Heq).
      cbn in Heq. apply cache_key_inj in Heq as [<- <-]. by destruct Hself. }
    split.
    + intros st0 Hp.
      destruct (Hb_same (log_evaluation (fn_name fn, pos st0) st0) Hp)
        as (M & stb0 & HM & HpM).
      exists (S M), stb0. cbn [exec]. unfold call_function.
      rewrite Hfind, HM. split; [done|]. cbn. exact HpM.
    + cbn [cache set_cache]. intros n' p' entry.
      destruct (decide (cache_key r p = cache_key n' p')) as [Heq|Hne].
      * rewrite <- Heq, lookup_insert_eq. intros [= <-].
        apply cache_key_inj in Heq as [<- <-].
        destruct (Hb_same (log_evaluation (fn_name fn, pos (at_pos p)) (at_pos p))
                    eq_refl) as (M & stb0 & HM & HpM).
        exists M, stb0. split; [|exact HpM].
        unfold call, call_function. by rewrite Hfind, HM.
      * rewrite lookup_insert_ne by done. apply Hb_coh.
    + cbn [cache set_cache]. intros k x Hk.
      rewrite lookup_insert_ne by congruence. by apply Hb_kept.
    + exists (newB ++ [(r, p)]). cbn [evaluated set_cache cache].
      split; [by rewrite Hb_ev, <- app_assoc|].
      split; [|split; [|split]].
      * apply NoDup_app. split; [done|]. split; [|apply NoDup_singleton].
        intros np Hnp%list_elem_of_In [Heq|[]]%list_elem_of_In.
        by rewrite <- Heq in Hnp.
      * intros np [Hnp|[<-|[]]]%in_app_or; cbn [fst snd].
        -- destruct (Hb_in np Hnp) as [Hnone [x Hx]]. split; [done|].
           destruct (decide (cache_key r p = cache_key (fst np) (snd np)))
             as [Heq|Hne].
           ++ rewrite <- Heq, lookup_insert_eq. by eexists.
           ++ rewrite lookup_insert_ne by done. by exists x.
        -- split; [done|]. rewrite lookup_insert_eq. by eexists.
      * intros k Hk Hsome.
        destruct (decide (cache_key r p = k)) as [<-|Hne].
        -- exists (r, p). split; [|done]. apply in_or_app. right. by left.
        -- rewrite lookup_insert_ne in Hsome by done.
           destruct (Hb_only k Hk Hsome) as (np & Hnp & ->).
           exists np. split; [|done]. apply in_or_app. by left.
      * intros M st0 fr0' st0' Hp Hrun0 np Hnp.
        apply exec_call_inv in Hrun0 as (M1 & v' & HM1 & Hcall & _).
        unfold call, call_function in Hcall. rewrite Hfind in Hcall.
        destruct (runu M1 (function_body fn) empty_frame _) as [frx stx| |]
          eqn:Hx; try discriminate.
        apply in_app_or in Hnp as [Hnp|[<-|[]]].
        -- destruct (Hb_depth M1 (log_evaluation (fn_name fn, pos st0) st0)
                       frx stx Hp Hx np Hnp) as (M' & HM' & Hterm).
           exists M'. split; [lia|done].
        -- exists M1. split; [done|]. exists fn.
           destruct (uncached_same_pos prog user input Hguard M1
                       (function_body fn) empty_frame
                       (log_evaluation (fn_name fn, pos st0) st0) (at_pos p)
                       frx stx (Hguard fn Hin_prog) Hp Hx) as (stx' & Hx' & _).
           by exists frx, stx'.
Qed.

(** Every terminating run with the cache is a [memo_run]. *)
Lemma memo_run_all : forall N s fr st fr' st',
  well_guarded s = true -> coherent (cache st) ->
  runc N s fr st = Done fr' st' ->
  mrun s fr st fr' st'.
Proof.
  induction N as [N IH] using lt_wf_ind.
  intros s fr st fr' st' Hs Hcoh H.
  destruct s; try (by apply (memo_run_line N); [exact I|done|done]).
  - (* s_seq *)
    cbn [well_guarded] in Hs. apply andb_true_iff in Hs as [Ha Hb].
    apply exec_seq_inv in H as (m & fr1 & st1 & Hm & H1 & H2).
    pose proof (IH m Hm _ _ _ _ _ Ha Hcoh H1) as Hra.
    pose proof (IH m Hm _ _ _ _ _ Hb (mr_coherent _ _ _ _ _ _ _ _ Hra) H2) as Hrb.
    by eapply memo_run_seq.
  - (* s_if *)
    cbn [well_guarded] in Hs. destruct (is_report_cond c) eqn:Hc.
    + destruct s1; try discriminate. destruct s2; try discriminate.
      by apply (memo_run_report N).
    + apply andb_true_iff in Hs as [Ha Hb].
      apply exec_if_inv in H as (m & Hm & H).
      apply memo_run_if; [done|]. apply (IH m Hm); [|done|done].
      by destruct (eval_cond input c fr st).
  - (* s_while *)
    cbn [well_guarded] in Hs.
    apply andb_true_iff in Hs as [Hc%negb_true_iff Hb].
    apply exec_while_inv in H as (m & Hm & H).
    destruct (eval_cond input c fr st) eqn:Hcond.
    + destruct H as (fr1 & st1 & H1 & H2).
      pose proof (IH m Hm _ _ _ _ _ Hb Hcoh H1) as Hra.
      assert (Hw : well_guarded (s_while c s) = true).
      { cbn [well_guarded]. by rewrite Hc, Hb. }
      pose proof (IH m Hm _ _ _ _ _ Hw (mr_coherent _ _ _ _ _ _ _ _ Hra) H2)
        as Hrb.
      by eapply memo_run_while_step.
    + destruct H as [-> ->]. apply memo_run_plain; try done.
      intros st0 Hp. exists 1%nat, st0. cbn [exec].
      rewrite <- (eval_cond_same_pos input c fr st st0 Hc (eq_sym Hp)), Hcond.
      done.
  - (* s_set_call *)
    destruct N as [|n]; [discriminate|].
    apply (memo_run_call n); [|done|done].
    intros fn frb stb Hfind Hrun.
    apply (IH n ltac:(lia)); [|done|done].
    apply Hguard. unfold find_function in Hfind.
    by apply find_some in Hfind as [? _].
Qed.
End Memo.

Lemma cache_coherent_empty prog user input : cache_coherent prog user input ∅.
Proof. intros n p entry H. by rewrite lookup_empty in H. Qed.

(** What a call of a rule function that returns has evaluated. *)
Lemma call_evaluates_new_pairs prog user input fuel n st r st' :
  functions_guarded prog ->
  cache_coherent prog user input (cache st) ->
  call prog user input true fuel n st = Returned r st' ->
  exists new,
    evaluated st' = new ++ evaluated st /\ NoDup new
    /\ (forall np, In np new -> cache st !! cache_key (fst np) (snd np) = None)
    /\ (cache st !! cache_key n (pos st) = None -> In (n, pos st) new).
Proof.
  intros Hguard Hcoh Hcall.
  assert (Hrun : exec prog user input true (S fuel) (s_set_call 0 n)
                   empty_frame st = Done (set_result 0 r empty_frame) st').
  { cbn [exec]. unfold call in Hcall. by rewrite Hcall. }
  destruct (memo_run_all prog user input Hguard (S fuel) (s_set_call 0 n)
              empty_frame st _ st' eq_refl Hcoh Hrun)
    as [_ _ _ (new & Hev & Hnd & Hin & Honly & _)].
  exists new. split; [done|]. split; [done|]. split.
  - intros np Hnp. by destruct (Hin np Hnp).
  - intros Hnone.
    assert (Hsome : is_Some (cache st' !! cache_key n (pos st))).
    { unfold call, call_function in Hcall.
      destruct (find_function prog n) as [fn|] eqn:Hfind; [|discriminate].
      assert (Hname : fn_name fn = n).
      { unfold find_function in Hfind. apply find_some in Hfind as [_ Hn].
        by apply bool_decide_eq_true in Hn. }
      rewrite Hname, Hnone in Hcall.
      destruct (exec _ _ _ _ _ _ _ _) as [frb stb| |]; try discriminate.
      injection Hcall as <- <-. cbn. rewrite lookup_insert_eq. by eexists. }
    destruct (Honly _ Hnone Hsome) as ([n' p'] & Hnp & Heq).
    cbn in Heq. by apply cache_key_inj in Heq as [-> ->].
Qed.

(** C2 (amended): a rule function [parse_<name>] looks the cache up under
    [<name>@<pos>].  If there is an entry, it sets [pos] to the entry's
    [nextPos] and returns the entry's result, whatever it is, and no rule
    body is evaluated.  If there is none and the function returns, its body
    has been run from the entry state, the result is the body's [result0],
    and the cache of the final state holds the final [pos] and the result
    under the key.  A call that returns, from a state whose cache holds
    outcomes of the rules only, evaluates no pair of a rule and a position
    twice and no pair that the cache had; so a [parse] that returns has
    evaluated every pair at most once.  Predicates and actions are functions
    of their arguments here. *)
Theorem rule_function_memoizes prog user input :
  emitted_functions prog ->
  (forall fuel n fn st nextPos result,
     find_function prog n = Some fn ->
     cache st !! cache_key n (pos st) = Some (nextPos, result) ->
     call prog user input true fuel n st = Returned result (set_pos nextPos st)
     /\ evaluated (set_pos nextPos st) = evaluated st)
  /\ (forall fuel n st result st',
        cache st !! cache_key n (pos st) = None ->
        call prog user input true fuel n st = Returned result st' ->
        exists fn fr stb,
          find_function prog n = Some fn
          /\ exec prog user input true fuel (function_body fn) empty_frame
               (log_evaluation (n, pos st) st) = Done fr stb
          /\ result = get_result fr 0
          /\ pos st' = pos stb
          /\ cache st'
             = <[cache_key n (pos st) := (pos stb, result)]> (cache stb))
  /\ (forall fuel n st result st',
        cache_coherent prog user input (cache st) ->
        call prog user input true fuel n st = Returned result st' ->
        exists new,
          evaluated st' = new ++ evaluated st /\ NoDup new
          /\ (forall np, In np new ->
                cache st !! cache_key (fst np) (snd np) = None)
          /\ (cache st !! cache_key n (pos st) = None -> In (n, pos st) new))
  /\ (forall fuel n result st',
        call prog user input true fuel n initial_pstate = Returned result st' ->
        NoDup (evaluated st')).
Proof.
  intros Hprog. pose proof (emitted_functions_guarded prog Hprog) as Hguard.
  split; [|split; [|split]].
  - intros fuel n fn st nextPos result Hfind Hlook. split; [|done].
    unfold call, call_function. rewrite Hfind.
    assert (Hname : fn_name fn = n).
    { unfold find_function in Hfind. apply find_some in Hfind as [_ Hn].
      by apply bool_decide_eq_true in Hn. }
    by rewrite Hname, Hlook.
  - intros fuel n st result st' Hnone Hcall.
    unfold call, call_function in Hcall.
    destruct (find_function prog n) as [fn|] eqn:Hfind; [|discriminate].
    assert (Hname : fn_name fn = n).
    { unfold find_function in Hfind. apply find_some in Hfind as [_ Hn].
      by apply bool_decide_eq_true in Hn. }
    rewrite Hname, Hnone in Hcall.
    destruct (exec _ _ _ _ _ _ _ _) as [frb stb| |] eqn:Hbody;
      try discriminate.
    injection Hcall as <- <-. by exists fn, frb, stb.
  - intros fuel n st result st' Hcoh Hcall.
    by apply (call_evaluates_new_pairs prog user input fuel n st result st').
  - intros fuel n result st' Hcall.
    destruct (call_evaluates_new_pairs prog user input fuel n initial_pstate
                result st' Hguard (cache_coherent_empty prog user input) Hcall)
      as (new & Hev & Hnd & _).
    cbn in Hev. rewrite app_nil_r in Hev. by rewrite Hev.
Qed.

Lemma rule_function_memoizes_witness :
  exists result st',
    call (functions_of backtracking_grammar) no_user_code (js "ay") true 40
      (js "start") initial_pstate = Returned result st'
    /\ evaluated st' = [(js "a", 0%nat); (js "start", 0%nat)]
    /\ NoDup (evaluated st').
Proof.
  destruct (rule_function_memoizes (functions_of backtracking_grammar)
              no_user_code (js "ay") (functions_of_emitted backtracking_grammar))
    as (_ & _ & _ & Honce).
  destruct (call (functions_of backtracking_grammar) no_user_code (js "ay") true
              40 (js "start") initial_pstate) as [result st'| |] eqn:Hcall.
  - exists result, st'. split; [reflexivity|].
    split; [|exact (Honce 40%nat (js "start") result st' Hcall)].
    vm_compute in Hcall. by injection Hcall as <- <-.
  - vm_compute in Hcall. discriminate Hcall.
  - vm_compute in Hcall. discriminate Hcall.
Defined.

(** ** A rule that asks for itself *)

(** In [a = "x"? a] on the empty input the function [parse_a], entered at
    position 0 without an entry for [a@0], calls itself at position 0
    before it has stored one: no call returns. *)
Lemma left_recursive_call_never_returns : forall fuel st result st',
  pos st = 0%nat ->
  cache st !! cache_key (js "a") 0 = None ->
  call (functions_of left_recursive_grammar) no_user_code [] true fuel
    (js "a") st <> Returned result st'.
Proof.
  induction fuel as [fuel IH] using lt_wf_ind.
  intros st result st' Hpos Hmiss. unfold call, call_function.
  destruct (find_function _ (js "a")) as [fn|] eqn:Hfn; [|done].
  vm_compute in Hfn. injection Hfn as <-.
  cbn [fn_name]. rewrite Hpos.
  change (cache_key [97%N] 0) with (cache_key (js "a") 0). rewrite Hmiss.
  destruct (exec _ _ _ _ fuel _ _ _) as [fr stb| |] eqn:Hbody; [|done..].
  exfalso. unfold function_body in Hbody.
  cbn [fn_setReportFailuresCode fn_code fn_restoreReportFailuresCode
       fn_reportFailureCode block fold_right] in Hbody.
  inv_seq Hbody as m1 f1 s1 H1. inv_skip H1.
  inv_seq Hbody as m2 f2 s2 H2.
  inv_seq H2 as m3 f3 s3 H3. inv_line H3. injection H3 as <- <-.
  inv_seq H2 as m4 f4 s4 H4.
  inv_seq H4 as m5 f5 s5 H5.
  inv_seq H5 as m6 f6 s6 H6.
  inv_if H6 as m7. cbn [eval_cond] in H6. rewrite drop_nil in H6.
  rewrite bool_decide_eq_false_2 in H6 by done.
  inv_seq H6 as m8 f8 s8 H8. inv_line H8. injection H8 as <- <-.
  inv_seq H6 as m9 f9 s9 H9. inv_skip H6.
  inv_if H9 as m10.
  assert (Hf : f9 = set_result 0 VNull (set_position 0 (pos st) empty_frame)
               /\ pos s9 = 0%nat /\ cache s9 = cache st).
  { destruct (eval_cond _ _ _ _).
    - inv_line H9. injection H9 as <- <-.
      by rewrite matchFailed_pos, matchFailed_cache.
    - by inv_skip H9. }
  destruct Hf as (-> & Hp9 & Hc9).
  inv_seq H5 as m11 f11 s11 H11. inv_line H11. injection H11 as <- <-.
  inv_skip H5.
  inv_seq H4 as m12 f12 s12 H12. inv_if H12 as m13.
  cbn [eval_cond] in H12. rewrite !get_result_set_same in H12.
  cbn [is_null negb] in H12.
  inv_seq H12 as m14 f14 s14 H14.
  apply exec_call_inv in H14 as (m & v & Hltm & Hcall & _).
  apply (IH m ltac:(lia) s9 v s14 Hp9); [|exact Hcall].
  by rewrite Hc9.
Qed.

Lemma left_recursive_grammar_wf : wf_grammar left_recursive_grammar.
Proof.
  split.
  - apply (bool_decide_unpack _). vm_compute. exact I.
  - intros k r Hin. cbn in Hin.
    repeat (destruct Hin as [[= <- <-]|Hin]; [reflexivity|]). destruct Hin.
Qed.

(** C2, as worded, fails: [parse_a] of the grammar [a = "x"? a], whose
    references all name the rule [a], does not evaluate its body once and
    store the outcome: on the empty input the body of [a] at position 0 is
    entered again from inside itself, without end, and nothing is stored
    under [a@0]. *)
Lemma left_recursion_is_evaluated_without_end :
  ~ evaluates_each_pair_once no_user_code.
Proof.
  intros H.
  destruct (H left_recursive_grammar [] left_recursive_grammar_wf)
    as (fuel & result & st' & Hcall & _).
  - split.
    + vm_compute. tauto.
    + intros k r n Hin Hn. cbn in Hin.
      repeat (destruct Hin as [[= <- <-]|Hin];
              [vm_compute in Hn |- *; tauto|]).
      destruct Hin.
  - discriminate.
  - by apply (left_recursive_call_never_returns fuel initial_pstate result st').
Qed.

(* ===================================================================== *)
(** * Part III. Further properties of the passes and the emitter          *)
(* ===================================================================== *)

(** ** [stackDepths] and the variables a rule function declares *)

Lemma Math_max_cons y l : Math_max (y :: l) = js_max y (Math_max l).
Proof. reflexivity. Qed.

Lemma Math_max_NegInfinity l x :
  Math_max l = NegInfinity -> In x l -> x = NegInfinity.
Proof.
  induction l as [|y l IH]; intros Hmax Hin; [destruct Hin|].
  rewrite Math_max_cons in Hmax.
  destruct y as [|y], (Math_max l) as [|m]; cbn in Hmax; try discriminate.
  destruct Hin as [<-|Hin]; [done|]. by apply IH.
Qed.

Lemma Math_max_bound l d x z :
  Math_max l = Int d -> In x l -> x = Int z -> (z <= d)%Z.
Proof.
  revert d. induction l as [|y l IH]; intros d Hmax Hin Hx; [destruct Hin|].
  rewrite Math_max_cons in Hmax.
  destruct (Math_max l) as [|m] eqn:Hm.
  - destruct Hin as [Hy|Hin].
    + subst. cbn in Hmax. by injection Hmax as <-.
    + pose proof (Math_max_NegInfinity l x Hm Hin). congruence.
  - destruct y as [|y]; cbn in Hmax; injection Hmax as <-.
    + destruct Hin as [Hy|Hin]; [congruence|]. by eapply IH.
    + destruct Hin as [Hy|Hin].
      * assert (y = z) by congruence. lia.
      * specialize (IH m eq_refl Hin Hx). lia.
Qed.

Lemma js_add_Int_r x k d :
  js_add x (Int k) = Int d -> exists z, x = Int z /\ d = (z + k)%Z.
Proof. destruct x as [|z]; cbn; [discriminate|]. intros [= <-]. by exists z. Qed.

Lemma js_add_Int_l x k d :
  js_add (Int k) x = Int d -> exists z, x = Int z /\ d = (k + z)%Z.
Proof. destruct x as [|z]; cbn; [discriminate|]. intros [= <-]. by exists z. Qed.

Lemma cond_slots_below_mono rn rn' c :
  (rn <= rn')%nat -> cond_slots_below rn c = true -> cond_slots_below rn' c = true.
Proof.
  intros Hle. destruct c; cbn; try done;
    intros H%Nat.ltb_lt; apply Nat.ltb_lt; lia.
Qed.

Lemma slots_below_mono rn pn rn' pn' s :
  (rn <= rn')%nat -> (pn <= pn')%nat ->
  slots_below rn pn s = true -> slots_below rn' pn' s = true.
Proof.
  intros Hr Hp.
  assert (Hltb : forall a b c, (b <= c)%nat -> (a <? b)%nat = true -> (a <? c)%nat = true).
  { intros a b c Hbc H%Nat.ltb_lt. apply Nat.ltb_lt. lia. }
  induction s; cbn [slots_below]; try done;
    rewrite ?andb_true_iff;
    try (intros H; by eapply Hltb).
  - intros [? ?]. auto.
  - intros [[? ?] ?]. repeat split; eauto using cond_slots_below_mono.
  - intros [? ?]. split; eauto using cond_slots_below_mono.
  - intros [H1 H2]. split; [by eapply Hltb|].
    rewrite forallb_forall in H2 |- *. intros x Hx. eapply Hltb; eauto.
  - intros [H1 H2]. split; [by eapply Hltb|].
    rewrite forallb_forall in H2 |- *. intros [x|x k] Hx;
      specialize (H2 _ Hx); cbn in *; eapply Hltb; eauto.
  - intros [? ?]. split; by eapply Hltb.
Qed.

Ltac below :=
  cbn [slots_below cond_slots_below actual_slots_below block fold_right];
  rewrite ?andb_true_iff, ?Nat.ltb_lt.

Lemma alternatives_code_slots_below ctx R P l code :
  (resultIndex ctx < R)%nat ->
  Forall (fun e => forall s, emit e ctx = Some s -> slots_below R P s = true) l ->
  alternatives_code ctx l = Some code -> slots_below R P code = true.
Proof.
  intros HR. revert code. induction l as [|e l IH]; intros code Hall;
    [discriminate|].
  inversion Hall as [|? ? He Hl]; subst. cbn [alternatives_code].
  destruct l as [|e' l'].
  - destruct (emit e ctx) as [current|] eqn:Hc; [|discriminate].
    intros [= <-]. below. by rewrite (He _ eq_refl).
  - destruct (alternatives_code ctx (e' :: l')) as [rest|] eqn:Hrest;
      [|discriminate].
    destruct (emit e ctx) as [current|] eqn:Hc; [|discriminate].
    intros [= <-]. below. rewrite (He _ eq_refl), (IH _ Hl eq_refl). done.
Qed.

Lemma elements_code_slots_below total ctx R P l : forall i code,
  (resultIndex ctx + total <= R)%nat -> (resultIndex ctx < R)%nat ->
  (posIndex ctx < P)%nat ->
  (forall j e s, l !! j = Some e ->
     emit e {| resultIndex := resultIndex ctx + (i + j);
               posIndex := posIndex ctx + 1 |} = Some s ->
     slots_below R P s = true /\ (resultIndex ctx + (i + j) < R)%nat) ->
  elements_code total ctx i l = Some code -> slots_below R P code = true.
Proof.
  induction l as [|e l IH]; intros i code Htotal HR HP Hl;
    cbn [elements_code].
  - intros [= <-]. below. split; [done|].
    apply forallb_forall. intros x Hx%in_seq. apply Nat.ltb_lt. lia.
  - destruct (elements_code total ctx (S i) l) as [rest|] eqn:Hrest;
      [|discriminate].
    destruct (emit e _) as [c|] eqn:Hc; [|discriminate].
    intros [= <-].
    destruct (Hl 0%nat e c eq_refl) as [Hc' Hi].
    { by rewrite Nat.add_0_r. }
    rewrite Nat.add_0_r in Hi.
    assert (Hrest' : slots_below R P rest = true).
    { apply (IH (S i)); try done.
      intros j e' s Hj He'.
      replace (S i + j)%nat with (i + S j)%nat in * by lia.
      by apply (Hl (S j) e' s Hj). }
    below. by rewrite Hc', Hrest'.
Qed.

Lemma indexed_result_depths_lookup l : forall i j e,
  l !! j = Some e ->
  In (js_add (Int (i + Z.of_nat j)) (resultStackDepth e))
     (indexed_result_depths i l).
Proof.
  induction l as [|x l IH]; intros i j e Hj; [done|].
  cbn [indexed_result_depths]. destruct j as [|j].
  - injection Hj as ->. left. f_equal. f_equal. lia.
  - right. replace (i + Z.of_nat (S j))%Z with ((i + 1) + Z.of_nat j)%Z by lia.
    by apply IH.
Qed.

Lemma sequence_params_slots_below rn ri elements : forall i,
  (ri < rn)%nat ->
  forallb (actual_slots_below rn) (snd (sequence_params i ri elements)) = true.
Proof.
  induction elements as [|e l IH]; intros i Hri; [reflexivity|].
  cbn [sequence_params]. specialize (IH (S i) Hri).
  destruct (sequence_params (S i) ri l) as [formals actuals].
  apply Nat.ltb_lt in Hri.
  destruct e; cbn [snd] in *; try done.
  cbn [forallb actual_slots_below]. by rewrite IH, Hri.
Qed.

Lemma action_params_slots_below rn e ri :
  (ri < rn)%nat ->
  forallb (actual_slots_below rn) (snd (action_params e ri)) = true.
Proof.
  intros Hri. destruct e; try reflexivity.
  - by apply sequence_params_slots_below.
  - cbn [action_params snd forallb actual_slots_below].
    apply Nat.ltb_lt in Hri. by rewrite Hri.
Qed.

(** The text of a node at a context names result variables up to
    [resultIndex + resultStackDepth] and position variables below
    [posIndex + posStackDepth]. *)
Lemma emit_slots_below e : depths_cover e.
Proof.
  induction e as [l IH|l IH|lbl e IH|e IH|e IH|c|c|e IH|e IH|e IH|e c IH|n|v| |p i t]
    using expr_nested_ind; intros ctx s d q Hne; cbn [nonempty_lists] in Hne.
  2: rewrite resultStackDepth_sequence; cbn [posStackDepth].
  all: cbn [resultStackDepth posStackDepth].
  - (* choice *)
    rewrite emit_choice. intros Hcode Hd Hq.
    apply andb_true_iff in Hne as [_ Hall]. rewrite forallb_forall in Hall.
    apply (alternatives_code_slots_below ctx _ _ l); [lia| |done].
    rewrite List.Forall_forall in IH. apply List.Forall_forall.
    intros e He s' Hs'.
    destruct (stackDepths_nonnegative e (Hall e He))
      as [(de & Hde & Hde0) (qe & Hqe & Hqe0)].
    pose proof (Math_max_bound _ _ _ de Hd (in_map resultStackDepth _ _ He) Hde).
    pose proof (Math_max_bound _ _ _ qe Hq (in_map posStackDepth _ _ He) Hqe).
    eapply slots_below_mono; [| |exact (IH e He ctx s' de qe (Hall e He) Hs' Hde Hqe)];
      lia.
  - (* sequence *)
    rewrite emit_sequence.
    destruct (elements_code _ ctx 0 l) as [code|] eqn:Hcode; [|discriminate].
    intros [= <-] Hd Hq.
    apply js_add_Int_l in Hd as (d' & Hd' & ->).
    apply js_add_Int_l in Hq as (q' & Hq' & ->).
    apply andb_true_iff in Hne as [Hnil Hall]. rewrite forallb_forall in Hall.
    apply negb_true_iff, bool_decide_eq_false in Hnil.
    rewrite List.Forall_forall in IH.
    assert (Helem : forall j e, l !! j = Some e ->
              exists de qe, resultStackDepth e = Int de /\ posStackDepth e = Int qe
                /\ (0 <= de)%Z /\ (0 <= qe)%Z
                /\ (Z.of_nat j + de <= d')%Z /\ (qe <= q')%Z).
    { intros j e Hj.
      assert (He : In e l) by (apply list_elem_of_In; by eapply list_elem_of_lookup_2).
      destruct (stackDepths_nonnegative e (Hall e He))
        as [(de & Hde & Hde0) (qe & Hqe & Hqe0)].
      exists de, qe. repeat split; try done.
      - pose proof (indexed_result_depths_lookup l 0 j e Hj) as Hin.
        rewrite Hde in Hin. cbn [js_add] in Hin.
        pose proof (Math_max_bound _ _ _ _ Hd' Hin eq_refl). lia.
      - exact (Math_max_bound _ _ _ qe Hq' (in_map posStackDepth _ _ He) Hqe). }
    assert (Hlen : (Z.of_nat (List.length l) <= 1 + d')%Z /\ (0 <= q')%Z).
    { destruct (l !! (List.length l - 1)%nat) as [e|] eqn:Hlast.
      - destruct (Helem _ e Hlast) as (de & qe & _ & _ & ? & ? & ? & ?).
        split; lia.
      - apply lookup_ge_None in Hlast. destruct l; [done|]. cbn in Hlast. lia. }
    below. split; [lia|]. split; [|done].
    apply (elements_code_slots_below (List.length l) ctx _ _ l 0%nat);
      [lia|lia|lia| |done].
    intros j e s Hj Hs.
    assert (He : In e l) by (apply list_elem_of_In; by eapply list_elem_of_lookup_2).
    destruct (Helem j e Hj) as (de & qe & Hde & Hqe & ? & ? & ? & ?).
    split; [|cbn; lia].
    eapply slots_below_mono;
      [| |exact (IH e He _ s de qe (Hall e He) Hs Hde Hqe)]; cbn; lia.
  - (* labeled *)
    cbn [emit]. intros Hs (d' & Hd' & ->)%js_add_Int_r (q' & Hq' & ->)%js_add_Int_r.
    rewrite !Z.add_0_r. by apply IH.
  - (* simple_and *)
    cbn [emit]. destruct (emit e _) as [c|] eqn:Hc; [|discriminate].
    intros [= <-] (d' & Hd' & ->)%js_add_Int_r (q' & Hq' & ->)%js_add_Int_r.
    destruct (stackDepths_nonnegative e Hne) as [(de & Hde & Hde0) (qe & Hqe & Hqe0)].
    assert (de = d') by congruence. assert (qe = q') by congruence. subst.
    pose proof (IH _ c d' q' Hne Hc Hd' Hq') as Hchild. cbn in Hchild.
    below. repeat split; try lia.
    eapply slots_below_mono; [| |exact Hchild]; lia.
  - (* simple_not *)
    cbn [emit]. destruct (emit e _) as [c|] eqn:Hc; [|discriminate].
    intros [= <-] (d' & Hd' & ->)%js_add_Int_r (q' & Hq' & ->)%js_add_Int_r.
    destruct (stackDepths_nonnegative e Hne) as [(de & Hde & Hde0) (qe & Hqe & Hqe0)].
    assert (de = d') by congruence. assert (qe = q') by congruence. subst.
    pose proof (IH _ c d' q' Hne Hc Hd' Hq') as Hchild. cbn in Hchild.
    below. repeat split; try lia.
    eapply slots_below_mono; [| |exact Hchild]; lia.
  - intros [= <-] [= <-] [= <-]. below. lia.
  - intros [= <-] [= <-] [= <-]. below. lia.
  - (* optional *)
    cbn [emit]. destruct (emit e ctx) as [c|] eqn:Hc; [|discriminate].
    intros [= <-] (d' & Hd' & ->)%js_add_Int_r (q' & Hq' & ->)%js_add_Int_r.
    rewrite !Z.add_0_r.
    pose proof (IH _ c d' q' Hne Hc Hd' Hq') as Hchild.
    below. repeat split; try done; lia.
  - (* zero_or_more *)
    cbn [emit]. destruct (emit e _) as [c|] eqn:Hc; [|discriminate].
    intros [= <-] (d' & Hd' & ->)%js_add_Int_r (q' & Hq' & ->)%js_add_Int_r.
    destruct (stackDepths_nonnegative e Hne) as [(de & Hde & Hde0) (qe & Hqe & Hqe0)].
    assert (de = d') by congruence. assert (qe = q') by congruence. subst.
    pose proof (IH _ c d' q' Hne Hc Hd' Hq') as Hchild. cbn in Hchild.
    assert (Hchild' : slots_below (resultIndex ctx + Z.to_nat (d' + 1) + 1)
                        (posIndex ctx + Z.to_nat (q' + 0)) c = true)
      by (eapply slots_below_mono; [| |exact Hchild]; lia).
    below. rewrite Hchild'. cbn [forallb]. repeat split; try done; lia.
  - (* one_or_more *)
    cbn [emit]. destruct (emit e _) as [c|] eqn:Hc; [|discriminate].
    intros [= <-] (d' & Hd' & ->)%js_add_Int_r (q' & Hq' & ->)%js_add_Int_r.
    destruct (stackDepths_nonnegative e Hne) as [(de & Hde & Hde0) (qe & Hqe & Hqe0)].
    assert (de = d') by congruence. assert (qe = q') by congruence. subst.
    pose proof (IH _ c d' q' Hne Hc Hd' Hq') as Hchild. cbn in Hchild.
    assert (Hchild' : slots_below (resultIndex ctx + Z.to_nat (d' + 1) + 1)
                        (posIndex ctx + Z.to_nat (q' + 0)) c = true)
      by (eapply slots_below_mono; [| |exact Hchild]; lia).
    below. rewrite Hchild'. cbn [forallb]. repeat split; try done; lia.
  - (* action *)
    cbn [emit].
    destruct (action_params e (resultIndex ctx)) as [formals actuals] eqn:Hparams.
    destruct (emit e _) as [code|] eqn:Hc; [|discriminate].
    intros [= <-] (d' & Hd' & ->)%js_add_Int_r (q' & Hq' & ->)%js_add_Int_r.
    destruct (stackDepths_nonnegative e Hne) as [(de & Hde & Hde0) (qe & Hqe & Hqe0)].
    assert (de = d') by congruence. assert (qe = q') by congruence. subst.
    pose proof (IH _ code d' q' Hne Hc Hd' Hq') as Hchild. cbn in Hchild.
    assert (Hchild' : slots_below (resultIndex ctx + Z.to_nat (d' + 0) + 1)
                        (posIndex ctx + Z.to_nat (q' + 1)) code = true)
      by (eapply slots_below_mono; [| |exact Hchild]; lia).
    pose proof (action_params_slots_below
                  (resultIndex ctx + Z.to_nat (d' + 0) + 1) e (resultIndex ctx)
                  ltac:(lia)) as Hact.
    rewrite Hparams in Hact. cbn [snd] in Hact.
    below. rewrite Hchild', Hact. repeat split; try done; lia.
  - intros [= <-] [= <-] [= <-]. below. lia.
  - cbn [emit]. destruct (List.length v =? 0)%nat;
      intros [= <-] [= <-] [= <-]; below; repeat split; try done; lia.
  - intros [= <-] [= <-] [= <-]. below. repeat split; try done; lia.
  - intros [= <-] [= <-] [= <-]. below. repeat split; try done; lia.
Qed.

(** On a tree in which every [choice] and every [sequence] has a child,
    [stackDepths] gives every node two non-negative integers, and a rule
    two positive ones. *)
Theorem stackDepths_counts (r : rule) :
  nonempty_lists (expression r) = true ->
  exists d q,
    resultStackDepth (expression r) = Int d /\ posStackDepth (expression r) = Int q
    /\ (0 <= d)%Z /\ (0 <= q)%Z
    /\ rule_resultStackDepth r = Int (d + 1)
    /\ rule_posStackDepth r = Int (q + 1).
Proof.
  intros Hne.
  destruct (stackDepths_nonnegative _ Hne) as [(d & Hd & Hd0) (q & Hq & Hq0)].
  exists d, q. unfold rule_resultStackDepth, rule_posStackDepth.
  by rewrite Hd, Hq.
Qed.

Lemma stackDepths_counts_witness :
  exists d q,
    resultStackDepth (sequence [rule_ref (js "a"); zero_or_more any]) = Int d
    /\ posStackDepth (sequence [rule_ref (js "a"); zero_or_more any]) = Int q
    /\ (0 <= d)%Z /\ (0 <= q)%Z.
Proof.
  destruct (stackDepths_counts
              {| name := js "start"; displayName := None;
                 expression := sequence [rule_ref (js "a"); zero_or_more any] |}
              eq_refl) as (d & q & Hd & Hq & Hd0 & Hq0 & _).
  by exists d, q.
Defined.

(** The variables a rule function declares are those [stackDepths] counts,
    and they are all the function uses: every [resultN] and [posK] named
    between the cache look-up and the cache store is declared. *)
Theorem rule_function_declares_its_variables (r : rule) (fn : function_def) :
  nonempty_lists (expression r) = true ->
  emit_rule r = Some fn ->
  exists rn pn,
    rule_resultStackDepth r = Int (Z.of_nat rn)
    /\ rule_posStackDepth r = Int (Z.of_nat pn)
    /\ fn_resultVars fn = seq 0 rn /\ fn_posVars fn = seq 0 pn
    /\ (1 <= rn)%nat /\ (1 <= pn)%nat
    /\ slots_below rn pn (function_body fn) = true.
Proof.
  intros Hne. unfold emit_rule.
  destruct (emit (expression r) _) as [code|] eqn:Hcode; [|discriminate].
  intros [= <-].
  destruct (stackDepths_nonnegative _ Hne) as [(d & Hd & Hd0) (q & Hq & Hq0)].
  pose proof (emit_slots_below _ _ code d q Hne Hcode Hd Hq) as Hbelow.
  cbn [resultIndex posIndex] in Hbelow.
  exists (Z.to_nat (d + 1)), (Z.to_nat (q + 1)).
  unfold rule_resultStackDepth, rule_posStackDepth. rewrite Hd, Hq.
  cbn [js_add range fn_resultVars fn_posVars].
  split; [f_equal; lia|]. split; [f_equal; lia|].
  split; [done|]. split; [done|]. split; [lia|]. split; [lia|].
  assert (Hcode' : slots_below (Z.to_nat (d + 1)) (Z.to_nat (q + 1)) code = true)
    by (eapply slots_below_mono; [| |exact Hbelow]; lia).
  unfold function_body.
  cbn [fn_setReportFailuresCode fn_code fn_restoreReportFailuresCode
       fn_reportFailureCode].
  destruct (displayName r); below; rewrite Hcode'; repeat split; try done; lia.
Qed.

Lemma rule_function_declares_its_variables_witness :
  exists fn rn pn,
    emit_rule (snd (rule_entry "start"
                      (sequence [rule_ref (js "a"); zero_or_more any])))
    = Some fn
    /\ fn_resultVars fn = seq 0 rn /\ fn_posVars fn = seq 0 pn
    /\ slots_below rn pn (function_body fn) = true.
Proof.
  set (r := snd (rule_entry "start"
                   (sequence [rule_ref (js "a"); zero_or_more any]))).
  destruct (emit_rule r) as [fn|] eqn:Hfn.
  - destruct (rule_function_declares_its_variables r fn eq_refl Hfn)
      as (rn & pn & _ & _ & Hr & Hp & _ & _ & Hbody).
    by exists fn, rn, pn.
  - vm_compute in Hfn. discriminate Hfn.
Defined.

(** ** [replaceRuleRefs] and [proxyRules]: references *)

Lemma refs_rename f e : refs (rename f e) = map f (refs e).
Proof.
  induction e as [l IH|l IH| | | | | | | | | | | | |] using expr_nested_ind;
    cbn [rename refs]; try done.
  - induction IH as [|x l Hx Hl IHl]; cbn; [done|].
    by rewrite Hx, IHl, map_app.
  - induction IH as [|x l Hx Hl IHl]; cbn; [done|].
    by rewrite Hx, IHl, map_app.
Qed.

Lemma rename_without f e :
  (forall n, In n (refs e) -> f n = n) -> rename f e = e.
Proof.
  induction e as [l IH|l IH| | | | | | | | | | | | |] using expr_nested_ind;
    cbn [rename refs]; intros Hf; try done;
    try (by rewrite IHe).
  - f_equal. induction IH as [|x l Hx Hl IHl]; cbn; [done|].
    cbn in Hf. rewrite Hx, IHl; [done| |];
      intros n Hn; apply Hf, in_or_app; auto.
  - f_equal. induction IH as [|x l Hx Hl IHl]; cbn; [done|].
    cbn in Hf. rewrite Hx, IHl; [done| |];
      intros n Hn; apply Hf, in_or_app; auto.
  - rewrite Hf; [done|]. by left.
Qed.

Lemma replace_as_rename from to e :
  replace from to e
  = rename (fun n => if bool_decide (n = from) then to else n) e.
Proof.
  rewrite <- (rename_id e) at 1. rewrite replace_rename.
  apply rename_ext. intros n. reflexivity.
Qed.

(** [replaceRuleRefs(ast, from, to)] keeps the keys, the start rule and the
    names of the rules; it turns the references to [from] into references
    to [to] and leaves the other references alone.  So no reference to
    [from] is left when [to] is another name, and nothing changes when
    there was none. *)
Theorem replaceRuleRefs_references (ast : grammar) (from to : jsstring) :
  keys (rules (replaceRuleRefs ast from to)) = keys (rules ast)
  /\ startRule (replaceRuleRefs ast from to) = startRule ast
  /\ Forall2 (fun kr kr0 =>
        fst kr = fst kr0 /\ name (snd kr) = name (snd kr0)
        /\ displayName (snd kr) = displayName (snd kr0)
        /\ refs (expression (snd kr))
           = map (fun n => if bool_decide (n = from) then to else n)
               (refs (expression (snd kr0))))
       (rules (replaceRuleRefs ast from to)) (rules ast)
  /\ (from <> to ->
      forall k r, In (k, r) (rules (replaceRuleRefs ast from to)) ->
        ~ In from (refs (expression r)))
  /\ ((forall k r, In (k, r) (rules ast) -> ~ In from (refs (expression r))) ->
      replaceRuleRefs ast from to = ast).
Proof.
  unfold replaceRuleRefs. cbn [rules startRule].
  split; [|split; [done|split; [|split]]].
  - unfold keys. rewrite map_map. done.
  - induction (rules ast) as [|[k r] rs IH]; cbn [map]; constructor; [|done].
    cbn. repeat split. by rewrite replace_as_rename, refs_rename.
  - intros Hne k r ([k0 r0] & [= <- <-] & Hin)%in_map_iff. cbn.
    rewrite replace_as_rename, refs_rename.
    intros (n & Hn & _)%in_map_iff. by case_bool_decide.
  - intros Hnone. destruct ast as [ini start rs]. cbn in *. f_equal.
    induction rs as [|[k r] rs IH]; cbn [map]; [done|].
    rewrite IH by (intros; eapply Hnone; by right). f_equal. cbn. f_equal.
    destruct r as [n dn e]. unfold replace_in_rule. cbn. f_equal.
    rewrite replace_as_rename. apply rename_without.
    intros x Hx. case_bool_decide as Hxf; [|done]. subst x.
    by destruct (Hnone k _ ltac:(by left)).
Qed.

Lemma proxyRules_loop_without_proxies ks ast :
  (forall k r, In (k, r) (rules ast) -> isProxyRule r = false) ->
  fold_left proxyRules_step ks ast = ast.
Proof.
  intros Hplain. induction ks as [|k ks IH]; cbn [fold_left]; [done|].
  assert (Hstep : proxyRules_step ast k = ast).
  { unfold proxyRules_step.
    destruct (lookup_rule k (rules ast)) as [r|] eqn:Hl; [|done].
    apply lookup_rule_In in Hl. apply Hplain in Hl.
    apply isProxyRule_no_target in Hl. by rewrite Hl. }
  by rewrite Hstep.
Qed.

Lemma proxyRules_leaves_no_proxy ast k r :
  wf_grammar ast -> In (k, r) (rules (proxyRules ast)) -> isProxyRule r = false.
Proof.
  intros Hwf. destruct (proxyRules_shape ast Hwf) as (f & Hr & _).
  rewrite Hr. unfold keep_renamed.
  intros ([k' r'] & [= <- <-] & Hin)%in_map_iff.
  apply filter_In in Hin as [_ Hp]. cbn in Hp.
  rewrite isProxyRule_rename. by apply negb_true_iff in Hp.
Qed.

(** [proxyRules] returns a grammar without proxy rules as it is, and so a
    second run of the pass changes nothing. *)
Theorem proxyRules_idempotent (ast : grammar) :
  wf_grammar ast ->
  proxyRules (proxyRules ast) = proxyRules ast
  /\ ((forall k r, In (k, r) (rules ast) -> isProxyRule r = false) ->
      proxyRules ast = ast).
Proof.
  intros Hwf. split.
  - apply proxyRules_loop_without_proxies.
    intros k r. by apply proxyRules_leaves_no_proxy.
  - apply proxyRules_loop_without_proxies.
Qed.

Lemma proxyRules_idempotent_witness :
  proxyRules (proxyRules proxy_grammar) = proxyRules proxy_grammar.
Proof. apply (proxyRules_idempotent proxy_grammar proxy_grammar_wf). Defined.

(** Without chains the loop renames by [resolve_proxy]. *)
Lemma proxyRules_chain_free_shape ast :
  wf_grammar ast -> chain_free ast ->
  rules (proxyRules ast)
  = keep_renamed (resolve_proxy (rules ast)) (fun _ => true) (rules ast)
  /\ startRule (proxyRules ast) = resolve_proxy (rules ast) (startRule ast).
Proof.
  intros Hwf Hchain.
  destruct (proxyRules_run ast
    (fun done f => forall n,
       f n = if visited done n then resolve_proxy (rules ast) n else n) Hwf)
    as (g & Hgr & Hgs & Hg).
  - intros done0 f0 k r Hf0 Hin Hk. by apply redirect_resolve.
  - intros n. unfold visited.
    by rewrite bool_decide_eq_false_2 by (by intros ?%elem_of_nil).
  - assert (Hres : forall n, g n = resolve_proxy (rules ast) n).
    { intros n. rewrite Hg. destruct (visited _ n) eqn:Hv; [done|].
      symmetry. apply resolve_proxy_plain. intros r Hl.
      apply lookup_rule_In in Hl. apply (in_map fst) in Hl. cbn in Hl.
      unfold visited in Hv. apply bool_decide_eq_false in Hv.
      exfalso. apply Hv. apply list_elem_of_In. by apply -> in_rev. }
    split.
    + rewrite Hgr. unfold keep_renamed. apply map_ext.
      intros [k r]. cbn. by rewrite (rename_rule_ext g _ r Hres).
    + by rewrite Hgs.
Qed.

(** Where no proxy delegates to a proxy, [proxyRules] leaves no reference
    dangling: if the start rule and every reference named a rule before
    the pass, they name a rule after it. *)
Theorem proxyRules_keeps_references_closed (ast : grammar) :
  wf_grammar ast -> chain_free ast -> closed_grammar ast ->
  closed_grammar (proxyRules ast).
Proof.
  intros Hwf Hchain [Hstart Hrefs].
  destruct (proxyRules_chain_free_shape ast Hwf Hchain) as [Hr Hs].
  pose proof Hwf as [Hnd Hname].
  assert (Hkept : forall k r, In (k, r) (rules ast) -> isProxyRule r = false ->
            In k (keys (rules (proxyRules ast)))).
  { intros k r Hin Hp. rewrite Hr. unfold keep_renamed, keys.
    rewrite map_map. cbn [fst]. apply in_map_iff. exists (k, r).
    split; [done|]. apply filter_In. split; [done|]. cbn. by rewrite Hp. }
  assert (Hres : forall n, In n (keys (rules ast)) ->
            In (resolve_proxy (rules ast) n) (keys (rules (proxyRules ast)))).
  { intros n ([k r] & Hk & Hin)%in_map_iff. cbn in Hk. subst k.
    pose proof (In_lookup_rule _ _ _ Hnd Hin) as Hl.
    unfold resolve_proxy. rewrite Hl.
    destruct (proxy_target r) as [t|] eqn:Ht.
    - assert (Ht' : In t (keys (rules ast))).
      { apply (Hrefs n r t Hin). unfold proxy_target in Ht.
        destruct (expression r); try discriminate. injection Ht as ->.
        by left. }
      apply in_map_iff in Ht' as ([k' r'] & Hk' & Hin'). cbn in Hk'. subst k'.
      apply (Hkept t r' Hin').
      eapply Hchain; [exact Hin|exact Ht|]. by apply In_lookup_rule.
    - apply (Hkept n r Hin). by apply isProxyRule_no_target. }
  split.
  - rewrite Hs. by apply Hres.
  - intros k r n. rewrite Hr at 1. unfold keep_renamed.
    intros ([k0 r0] & [= <- <-] & Hin)%in_map_iff.
    apply filter_In in Hin as [Hin _].
    cbn [rename_rule expression]. rewrite refs_rename.
    intros (n0 & <- & Hn0)%in_map_iff.
    apply Hres. by apply (Hrefs k0 r0).
Qed.

Lemma proxy_grammar_closed : closed_grammar proxy_grammar.
Proof.
  split.
  - vm_compute. tauto.
  - intros k r n Hin Hn. cbn in Hin.
    repeat (destruct Hin as [[= <- <-]|Hin];
            [vm_compute in Hn |- *; tauto|]).
    destruct Hin.
Defined.

Lemma proxyRules_keeps_references_closed_witness :
  closed_grammar (proxyRules proxy_grammar).
Proof.
  apply (proxyRules_keeps_references_closed proxy_grammar
           proxy_grammar_wf proxy_grammar_chain_free proxy_grammar_closed).
Defined.

(** ** The names the emitter gives to variables and functions *)

Lemma pretty_N_go_length x : forall s,
  (String.length s <= String.length (pretty_N_go x s))%nat.
Proof.
  induction (N.lt_wf_0 x) as [x _ IH]. intros s.
  destruct (decide (x = 0)) as [->|Hx].
  - by rewrite pretty_N_go_0.
  - rewrite pretty_N_go_step by lia.
    etransitivity; [|apply IH; apply N.div_lt; lia]. cbn. lia.
Qed.

Lemma string_of_nat_not_empty p : string_of_nat p <> [].
Proof.
  unfold string_of_nat, pretty, pretty_nat, pretty, pretty_N.
  case_decide as Hp.
  - discriminate.
  - rewrite pretty_N_go_step by lia.
    pose proof (pretty_N_go_length (N.of_nat p `div` 10)
                  (String (pretty_N_char (N.of_nat p `mod` 10)) EmptyString)) as H.
    destruct (pretty_N_go _ _); [cbn in H; lia|discriminate].
Qed.

(** Variables with different indices have different names; no result
    variable is a position variable; neither kind, and no rule function,
    has the name of a variable or of a helper function of the parser; and
    different rules get different functions. *)
Theorem emitted_names_do_not_clash :
  (forall i j, resultVar i = resultVar j -> i = j)
  /\ (forall i j, posVar i = posVar j -> i = j)
  /\ (forall i j, resultVar i <> posVar j)
  /\ (forall i, ~ In (resultVar i) (parser_variables ++ parser_functions))
  /\ (forall i, ~ In (posVar i) (parser_variables ++ parser_functions))
  /\ (forall n m, ruleMethod n = ruleMethod m -> n = m)
  /\ (forall n i, ruleMethod n <> resultVar i /\ ruleMethod n <> posVar i)
  /\ (forall n, ~ In (ruleMethod n) (parser_variables ++ parser_functions)).
Proof.
  repeat split.
  - intros i j H. unfold resultVar in H. apply app_inv_head in H.
    by apply string_of_nat_inj.
  - intros i j H. unfold posVar in H. apply app_inv_head in H.
    by apply string_of_nat_inj.
  - intros i j H. discriminate H.
  - intros i Hin. pose proof (string_of_nat_not_empty i) as Hne.
    unfold resultVar in Hin. cbn in Hin.
    repeat (destruct Hin as [Hin|Hin]; [try discriminate Hin|]);
      try (by destruct Hin).
    injection Hin as Hin. by symmetry in Hin.
  - intros i Hin. pose proof (string_of_nat_not_empty i) as Hne.
    pose proof (string_of_nat_digits i) as Hd.
    unfold posVar in Hin. cbn in Hin.
    repeat (destruct Hin as [Hin|Hin]; [try discriminate Hin|]);
      try (by destruct Hin).
    injection Hin as Hin. by symmetry in Hin.
  - intros n m H. unfold ruleMethod in H. by apply app_inv_head in H.
  - discriminate.
  - discriminate.
  - intros n Hin. unfold ruleMethod in Hin. cbn in Hin.
    repeat (destruct Hin as [Hin|Hin]; [try discriminate Hin|]);
      by destruct Hin.
Qed.

(** ** When the emitter throws *)

Lemma alternatives_code_None ctx l :
  Forall (fun e => forall ctx, emit e ctx = None <-> has_empty_choice e = true) l ->
  alternatives_code ctx l = None
  <-> l = [] \/ existsb has_empty_choice l = true.
Proof.
  induction l as [|e l IH]; intros Hall; [by split; [left|]|].
  inversion Hall as [|? ? He Hl]; subst. specialize (IH Hl).
  cbn [alternatives_code existsb]. rewrite orb_true_iff, <- (He ctx).
  destruct l as [|e' l'].
  - destruct (emit e ctx); split; try done; try tauto.
    intros [|[|]]; done.
  - destruct (alternatives_code ctx (e' :: l')) as [rest|] eqn:Hrest.
    + destruct (emit e ctx); split; try done; try tauto.
      intros [|[|H]]; try done.
      assert (Some rest = None) by (apply IH; by right). done.
    + assert (existsb has_empty_choice (e' :: l') = true) as Hex.
      { destruct (proj1 IH eq_refl); [done|done]. }
      split; [by right; right|done].
Qed.

Lemma elements_code_None total ctx l : forall i,
  Forall (fun e => forall ctx, emit e ctx = None <-> has_empty_choice e = true) l ->
  elements_code total ctx i l = None <-> existsb has_empty_choice l = true.
Proof.
  induction l as [|e l IH]; intros i Hall; [done|].
  inversion Hall as [|? ? He Hl]; subst. specialize (IH (S i) Hl).
  cbn [elements_code existsb].
  rewrite orb_true_iff,
    <- (He {| resultIndex := resultIndex ctx + i; posIndex := posIndex ctx + 1 |}),
    <- IH.
  destruct (elements_code total ctx (S i) l), (emit e _); split; try done;
    try tauto; intros [|]; done.
Qed.

Lemma emit_None e : forall ctx,
  emit e ctx = None <-> has_empty_choice e = true.
Proof.
  induction e as [l IH|l IH|lbl e IH|e IH|e IH|c|c|e IH|e IH|e IH|e c IH|n|v| |p i t]
    using expr_nested_ind; intros ctx; cbn [has_empty_choice];
    try (cbn [emit];
         match goal with
         | |- context [emit e ?c] => rewrite <- (IH c); by destruct (emit e c)
         end);
    try done.
  - rewrite emit_choice, (alternatives_code_None ctx l IH), orb_true_iff.
    by rewrite bool_decide_eq_true.
  - rewrite emit_sequence, <- (elements_code_None (List.length l) ctx l 0 IH).
    by destruct (elements_code _ _ _ _).
  - cbn [emit]. destruct (action_params e (resultIndex ctx)).
    match goal with
    | |- context [emit e ?c] => rewrite <- (IH c); by destruct (emit e c)
    end.
  - cbn [emit]. by destruct (List.length v =? 0)%nat.
Qed.

Lemma emit_rules_None rs :
  emit_rules rs = None
  <-> exists k r, In (k, r) rs /\ has_empty_choice (expression r) = true.
Proof.
  induction rs as [|[k r] rs IH]; cbn [emit_rules].
  - split; [done|]. by intros (? & ? & [] & _).
  - unfold emit_rule at 1.
    destruct (emit (expression r) _) as [code|] eqn:Hcode.
    + destruct (emit_rules rs) as [fns|].
      * split; [done|]. intros (k' & r' & [[= <- <-]|Hin] & He).
        -- apply emit_None with (ctx := {| resultIndex := 0; posIndex := 0 |}) in He.
           congruence.
        -- assert (Some fns = None) by (apply IH; eauto). done.
      * split; [|done]. intros _.
        destruct (proj1 IH eq_refl) as (k' & r' & Hin & He).
        exists k', r'. split; [by right|done].
    + split; [|done]. intros _. exists k, r. split; [by left|].
      by apply (emit_None _ {| resultIndex := 0; posIndex := 0 |}).
Qed.

(** The emitter has no code for a [choice] without alternatives: [emit]
    yields [undefined] for it, and every template given that [undefined]
    throws.  So a node has code exactly when no such [choice] is in its
    tree, and the [grammar] handler fails on the rules exactly when one of
    them holds such a [choice]. *)
Theorem emitter_throws_on_choice_without_alternatives :
  (forall e ctx, emit e ctx = None <-> has_empty_choice e = true)
  /\ (forall r, emit_rule r = None <-> has_empty_choice (expression r) = true)
  /\ (forall ast opts,
        emit_grammar ast opts = TemplateError
        <-> exposed_rules ast opts <> []
            /\ exists k r, In (k, r) (rules ast)
                 /\ has_empty_choice (expression r) = true).
Proof.
  split; [exact emit_None|split].
  - intros r. unfold emit_rule.
    rewrite <- (emit_None _ {| resultIndex := 0; posIndex := 0 |}).
    by destruct (emit (expression r) _).
  - intros ast opts. unfold emit_grammar. rewrite <- emit_rules_None.
    destruct (exposed_rules ast opts) as [|k ks]; cbn [List.length Nat.eqb].
    + split; [done|]. by intros [? _].
    + destruct (emit_rules (rules ast)); split; try done; by intros [_ ?].
Qed.

Lemma emit_rules_names rs fns :
  emit_rules rs = Some fns -> map fn_name fns = map (fun kr => name (snd kr)) rs.
Proof.
  revert fns. induction rs as [|[k r] rs IH]; intros fns; cbn [emit_rules].
  - by intros [= <-].
  - destruct (emit_rule r) as [fn|] eqn:Hfn; [|discriminate].
    destruct (emit_rules rs) as [fns'|]; [|discriminate].
    intros [= <-]. cbn. rewrite (IH fns' eq_refl). f_equal.
    unfold emit_rule in Hfn. destruct (emit _ _); [|discriminate].
    by injection Hfn as <-.
Qed.

(** The [grammar] handler throws [No start rule found] exactly when no rule
    is exposed: the grammar has no rule, or [startRules] is not empty and
    names none of the rules.  It does so before any rule is emitted.
    Otherwise, if it emits a parser, that parser has one function per
    rule, named after the rule, in the order of the rules, and the table
    of start rules holds the exposed names, a sublist of the keys. *)
Theorem grammar_handler_outcomes (ast : grammar) (opts : options) :
  ((exists message, emit_grammar ast opts = NoStartRuleFound message)
   <-> forall k, In k (keys (rules ast)) ->
         startRules opts <> [] /\ ~ In k (startRules opts))
  /\ (forall message, emit_grammar ast opts = NoStartRuleFound message ->
        message = js "No start rule found: " ++ [ch_dquote]
                  ++ join (js ", ") (startRules opts) ++ [ch_dquote] ++ js ".")
  /\ (startRules opts = [] -> exposed_rules ast opts = keys (rules ast))
  /\ (forall p, emit_grammar ast opts = Emitted p ->
        map fn_name (pt_functions p) = map (fun kr => name (snd kr)) (rules ast)
        /\ pt_initializerCode p = default [] (initializer ast)
        /\ (forall table s, pt_start p = table_start table s ->
              table = exposed_rules ast opts /\ s = startRule ast
              /\ (2 <= List.length table)%nat)).
Proof.
  assert (Hexp : exposed_rules ast opts = []
                 <-> forall k, In k (keys (rules ast)) ->
                       startRules opts <> [] /\ ~ In k (startRules opts)).
  { unfold exposed_rules. generalize (keys (rules ast)) as ks.
    induction ks as [|k ks IH]; cbn [List.filter]; [by split|].
    destruct (startRules opts) as [|s ss] eqn:Hs; cbn [List.length Nat.eqb orb].
    - split; [done|]. intros H. by destruct (H k ltac:(by left)) as [? _].
    - case_bool_decide as Hk.
      + split; [done|]. intros H. destruct (H k ltac:(by left)) as [_ Hn].
        destruct Hn. by apply list_elem_of_In.
      + rewrite IH. split.
        * intros H k' [<-|Hin]; [|by apply H].
          split; [done|]. by rewrite <- list_elem_of_In.
        * intros H k' Hin. apply H. by right. }
  split; [|split; [|split]].
  - rewrite <- Hexp. unfold emit_grammar.
    destruct (exposed_rules ast opts) as [|k ks]; cbn [List.length Nat.eqb].
    + split; [done|]. intros _. by eexists.
    + split; [|done]. intros [m Hm].
      destruct (emit_rules (rules ast)); discriminate Hm.
  - intros message. unfold emit_grammar.
    destruct (List.length (exposed_rules ast opts) =? 0)%nat.
    + by intros [= <-].
    + destruct (emit_rules (rules ast)); discriminate.
  - intros Hs. unfold exposed_rules. rewrite Hs. cbn [List.length Nat.eqb orb].
    clear Hexp. generalize (keys (rules ast)) as ks.
    induction ks as [|k ks IH]; cbn [List.filter]; [done|]. by rewrite IH.
  - intros p. unfold emit_grammar.
    destruct (List.length (exposed_rules ast opts) =? 0)%nat eqn:H0;
      [discriminate|].
    destruct (emit_rules (rules ast)) as [fns|] eqn:Hfns; [|discriminate].
    intros [= <-]. cbn [pt_functions pt_initializerCode pt_start].
    split; [by apply emit_rules_names|]. split; [done|].
    intros table s.
    destruct (List.length (exposed_rules ast opts) =? 1)%nat eqn:H1;
      [discriminate|].
    intros [= <- <-]. split; [done|]. split; [done|].
    apply Nat.eqb_neq in H0, H1. lia.
Qed.

(** ** The helpers [padLeft], [quote] and [computeErrorPosition] *)

Lemma iter_prepend n padding (input : jsstring) :
  Nat.iter n (fun result => padding ++ result) input
  = concat (replicate n padding) ++ input.
Proof.
  induction n as [|n IH]; [done|].
  cbn [Nat.iter nat_rect replicate concat]. unfold Nat.iter in IH.
  by rewrite IH, app_assoc.
Qed.

(** [padLeft] puts [length - input.length] copies of the padding before
    the input, none when the input is long enough; with a padding of one
    character the result has the greater of the two lengths. *)
Theorem padLeft_closed_form (input padding : jsstring) (length : nat) :
  padLeft input padding length
  = concat (replicate (length - List.length input) padding) ++ input
  /\ ((length <= List.length input)%nat -> padLeft input padding length = input)
  /\ (forall c, padding = [c] ->
        List.length (padLeft input padding length)
        = Nat.max length (List.length input)
        /\ padLeft input padding length
           = replicate (length - List.length input) c ++ input).
Proof.
  assert (H : padLeft input padding length
              = concat (replicate (length - List.length input) padding) ++ input)
    by apply iter_prepend.
  split; [exact H|split].
  - intros Hle. rewrite H.
    by replace (length - List.length input)%nat with 0%nat by lia.
  - intros c ->. rewrite H.
    assert (Hc : forall n, concat (replicate n [c]) = replicate n c).
    { induction n as [|n IH]; [done|]. cbn. by rewrite IH. }
    rewrite Hc. split; [|done].
    rewrite length_app, length_replicate. lia.
Qed.

Lemma read_quote s :
  wf_string s -> read_string_literal (quote s) = Some s.
Proof.
  intros Hwf. rewrite quote_unfold, quote_body_flat_map by exact Hwf.
  cbn [app read_string_literal].
  change (ch_dquote =? ch_dquote) with true. cbv iota.
  rewrite read_flat_map_quote_char by exact Hwf.
  cbn. by rewrite app_nil_r.
Qed.

Lemma quote_char_length c : (1 <= List.length (quote_char c) <= 6)%nat.
Proof.
  unfold quote_char.
  repeat match goal with
         | |- context [if ?b then _ else _] => destruct b
         end; cbn; lia.
Qed.

Lemma flat_map_quote_char_length s :
  (List.length s <= List.length (flat_map quote_char s) <= 6 * List.length s)%nat.
Proof.
  induction s as [|c s IH]; cbn [flat_map]; [cbn; lia|].
  rewrite length_app. pose proof (quote_char_length c). cbn [List.length]. lia.
Qed.

(** [quote] is one to one on strings of code units; the text between the
    quotes of a concatenation is the concatenation of the texts; a
    printable ASCII character other than the backslash and the double
    quote is written as it is; and each character takes one to six
    characters. *)
Theorem quote_is_injective (s t : jsstring) :
  wf_string s -> wf_string t ->
  (quote s = quote t -> s = t)
  /\ quote (s ++ t)
     = [ch_dquote] ++ quote_body s ++ quote_body t ++ [ch_dquote]
  /\ ((forall c, In c s ->
         32 <= c <= 127 /\ c <> ch_bslash /\ c <> ch_dquote) ->
      quote s = [ch_dquote] ++ s ++ [ch_dquote])
  /\ (List.length s + 2 <= List.length (quote s) <= 6 * List.length s + 2)%nat.
Proof.
  intros Hs Ht. split; [|split; [|split]].
  - intros H. pose proof (read_quote s Hs) as H1.
    rewrite H, (read_quote t Ht) in H1. by injection H1.
  - by rewrite quote_unfold, quote_body_app, <- app_assoc.
  - intros Hplain. rewrite quote_unfold, quote_body_flat_map by exact Hs.
    f_equal. f_equal. clear Hs.
    induction s as [|c s IH]; [done|]. cbn [flat_map].
    rewrite IH by (intros; apply Hplain; by right).
    destruct (Hplain c ltac:(by left)) as (Hc & Hb & Hq).
    unfold quote_char, ch_bslash, ch_dquote, ch_cr, ch_lf, ch_tab, ch_ff in *.
    repeat match goal with
           | |- context [c =? ?k] => destruct (N.eqb_spec c k); [lia|]
           end.
    destruct (N.leb_spec 32 c), (N.leb_spec c 127); try lia. done.
  - rewrite quote_unfold, quote_body_flat_map by exact Hs.
    cbn [app List.length]. rewrite length_app. cbn [List.length].
    pose proof (flat_map_quote_char_length s). lia.
Qed.

Lemma quote_is_injective_witness :
  quote (js "a" ++ js "b")
  = [ch_dquote] ++ quote_body (js "a") ++ quote_body (js "b") ++ [ch_dquote].
Proof.
  apply (quote_is_injective (js "a") (js "b")); repeat constructor.
Defined.

Lemma errpos_step_bounds s ch :
  (1 <= column s)%nat ->
  (line s <= line (errpos_step s ch))%nat
  /\ (1 <= column (errpos_step s ch))%nat
  /\ (line (errpos_step s ch) + column (errpos_step s ch)
      <= line s + column s + 1)%nat.
Proof.
  intros Hcol. unfold errpos_step. destruct ch as [c|]; [|cbn; lia].
  destruct (c =? ch_lf); [destruct (seenCR s); cbn; lia|].
  destruct ((c =? ch_cr) || (c =? ch_ls) || (c =? ch_ps)); cbn; lia.
Qed.

Lemma errpos_loop_bounds (input : jsstring) (l : list nat) : forall s,
  (1 <= column s)%nat ->
  let final := fold_left (fun s i => errpos_step s (input !! i)) l s in
  (line s <= line final)%nat /\ (1 <= column final)%nat
  /\ (line final + column final <= line s + column s + List.length l)%nat.
Proof.
  induction l as [|i l IH]; intros s Hc; cbn [fold_left List.length]; [lia|].
  pose proof (errpos_step_bounds s (input !! i) Hc) as (H1 & H2 & H3).
  destruct (IH (errpos_step s (input !! i)) H2) as (H4 & H5 & H6).
  cbn zeta in *. lia.
Qed.

Lemma errpos_loop_local (input input' : jsstring) (l : list nat) : forall s,
  (forall i, In i l -> input !! i = input' !! i) ->
  fold_left (fun s i => errpos_step s (input !! i)) l s
  = fold_left (fun s i => errpos_step s (input' !! i)) l s.
Proof.
  induction l as [|i l IH]; intros s H; cbn [fold_left]; [done|].
  rewrite (H i) by (by left). apply IH. intros. apply H. by right.
Qed.

Lemma errpos_loop_one_line (input : jsstring) (l : list nat) : forall s,
  (forall i, In i l -> ends_line (input !! i) = false) ->
  let final := fold_left (fun s i => errpos_step s (input !! i)) l s in
  line final = line s /\ column final = (column s + List.length l)%nat.
Proof.
  induction l as [|i l IH]; intros s H; cbn [fold_left List.length]; [cbn; lia|].
  assert (Hstep : line (errpos_step s (input !! i)) = line s
                  /\ column (errpos_step s (input !! i)) = S (column s)).
  { specialize (H i ltac:(by left)). unfold errpos_step, ends_line in *.
    destruct (input !! i) as [c|]; [|done].
    destruct (c =? ch_lf); [done|]. cbn [orb] in H. rewrite H. done. }
  destruct (IH (errpos_step s (input !! i))) as [H1 H2].
  { intros. apply H. by right. }
  cbn zeta in *. destruct Hstep as [-> ->] in H1, H2. lia.
Qed.

(** [computeErrorPosition] counts lines and columns from 1; each character
    before the position adds at most one to the line or to the column, so
    [line + column <= position + 2]; the result depends on the characters
    before the position only; and when none of them ends a line the
    position is on line 1 at column [position + 1]. *)
Theorem computeErrorPosition_bounds (input : jsstring) (p : nat) :
  let lc := computeErrorPosition input p in
  (1 <= fst lc)%nat /\ (1 <= snd lc)%nat /\ (fst lc + snd lc <= p + 2)%nat
  /\ (forall input', take p input' = take p input ->
        computeErrorPosition input' p = lc)
  /\ ((forall i, (i < p)%nat -> ends_line (input !! i) = false) ->
      lc = (1%nat, (p + 1)%nat)).
Proof.
  unfold computeErrorPosition. cbn zeta. cbn [fst snd].
  pose proof (errpos_loop_bounds input (seq 0 p)
                {| line := 1; column := 1; seenCR := false |} ltac:(cbn; lia))
    as (H1 & H2 & H3).
  cbn zeta in *. cbn [line column] in *. rewrite length_seq in H3.
  split; [lia|]. split; [lia|]. split; [lia|]. split.
  - intros input' Htake.
    rewrite (errpos_loop_local input' input); [done|].
    intros i Hi%in_seq.
    rewrite <- (lookup_take_lt input' p i), <- (lookup_take_lt input p i) by lia.
    by rewrite Htake.
  - intros Hline.
    destruct (errpos_loop_one_line input (seq 0 p)
                {| line := 1; column := 1; seenCR := false |}) as [Hl Hc].
    { intros i Hi%in_seq. apply Hline. lia. }
    cbn zeta in *. cbn [line column] in *. rewrite length_seq in Hc.
    rewrite Hl, Hc. f_equal. lia.
Qed.

(** ** Failure tracking over a run *)

Lemma failures_extend_fields st st' st2 st2' :
  rightmostFailuresPos st2 = rightmostFailuresPos st ->
  rightmostFailuresExpected st2 = rightmostFailuresExpected st ->
  rightmostFailuresPos st2' = rightmostFailuresPos st' ->
  rightmostFailuresExpected st2' = rightmostFailuresExpected st' ->
  failures_extend st st' -> failures_extend st2 st2'.
Proof. unfold failures_extend. by intros -> -> -> ->. Qed.

Lemma failures_extend_refl st : failures_extend st st.
Proof. right. split; [done|]. exists []. by rewrite app_nil_r. Qed.

Lemma failures_extend_trans st1 st2 st3 :
  failures_extend st1 st2 -> failures_extend st2 st3 -> failures_extend st1 st3.
Proof.
  intros [[H1 H1']|[H1 (m1 & H1')]] [[H2 H2']|[H2 (m2 & H2')]].
  - left. split; [lia|done].
  - left. split; [lia|]. rewrite H2'. by destruct (rightmostFailuresExpected st2).
  - left. split; [lia|done].
  - right. split; [lia|]. exists (m1 ++ m2). by rewrite H2', H1', app_assoc.
Qed.

Lemma matchFailed_extends failure st : failures_extend st (matchFailed failure st).
Proof.
  unfold matchFailed.
  destruct (Nat.ltb_spec (pos st) (rightmostFailuresPos st)) as [Hlt|Hge].
  - apply failures_extend_refl.
  - destruct (Nat.ltb_spec (rightmostFailuresPos st) (pos st)) as [Hgt|Hle].
    + left. cbn. split; [done|discriminate].
    + right. cbn. split; [done|]. by eexists.
Qed.

Lemma exec_failures_extend prog user input memo : forall fuel s fr st fr' st',
  exec prog user input memo fuel s fr st = Done fr' st' ->
  failures_extend st st'.
Proof.
  induction fuel as [|fuel IH]; [discriminate|].
  intros s fr st fr' st' H.
  destruct s; cbn [exec] in H;
    try (injection H as <- <-;
         by apply (failures_extend_fields st st), failures_extend_refl).
  - destruct (exec _ _ _ _ fuel s1 fr st) as [fr1 st1| |] eqn:H1;
      try discriminate.
    eapply failures_extend_trans; eauto.
  - destruct (eval_cond input c fr st); eauto.
  - destruct (eval_cond input c fr st).
    + destruct (exec _ _ _ _ fuel s fr st) as [fr1 st1| |] eqn:H1;
        try discriminate.
      eapply failures_extend_trans; eauto.
    + injection H as <- <-.
    by apply (failures_extend_fields st st), failures_extend_refl.
  - unfold call_function in H.
    destruct (find_function prog rule_name) as [fn|]; [|discriminate].
    destruct (if memo then _ else _) as [[nextPos result]|].
    + injection H as <- <-.
      by apply (failures_extend_fields st st), failures_extend_refl.
    + destruct (exec _ _ _ _ fuel _ _ _) as [frb stb| |] eqn:Hb;
        try discriminate.
      injection H as <- <-. apply IH in Hb.
      destruct memo; revert Hb; by apply failures_extend_fields.
  - destruct (get_result fr i); try discriminate.
    injection H as <- <-.
    by apply (failures_extend_fields st st), failures_extend_refl.
  - destruct (positions fr !! k); try discriminate.
    injection H as <- <-.
    by apply (failures_extend_fields st st), failures_extend_refl.
  - injection H as <- <-. apply matchFailed_extends.
Qed.

(** Whatever code runs, the record of failures only moves forward: when it
    ends, [rightmostFailuresPos] is where it was, with the expected list
    grown at its end, or further right, with some failure expected there.
    So after a call from the initial state, either no failure was recorded
    at all or the expected list is not empty. *)
Theorem failure_record_only_extends prog user input :
  (forall memo fuel s fr st fr' st',
     exec prog user input memo fuel s fr st = Done fr' st' ->
     failures_extend st st')
  /\ (forall fuel n st result st',
        call prog user input true fuel n st = Returned result st' ->
        failures_extend st st')
  /\ (forall fuel n result st',
        call prog user input true fuel n initial_pstate = Returned result st' ->
        (rightmostFailuresPos st' = 0%nat /\ rightmostFailuresExpected st' = [])
        \/ rightmostFailuresExpected st' <> []).
Proof.
  assert (Hcall : forall fuel n st result st',
            call prog user input true fuel n st = Returned result st' ->
            failures_extend st st').
  { intros fuel n st result st' H.
    apply (exec_failures_extend prog user input true (S fuel)
             (s_set_call 0 n) empty_frame st (set_result 0 result empty_frame)).
    cbn [exec]. unfold call in H. by rewrite H. }
  split; [apply exec_failures_extend|]. split; [exact Hcall|].
  intros fuel n result st' H.
  destruct (Hcall _ _ _ _ _ H) as [[_ Hne]|[Hp (more & Hm)]].
  - by right.
  - cbn in Hp, Hm. destruct more as [|x more].
    + left. by rewrite Hm.
    + right. by rewrite Hm.
Qed.

(** ** The counter [reportFailures] *)

Lemma matchFailed_reportFailures failure st :
  reportFailures (matchFailed failure st) = reportFailures st.
Proof.
  unfold matchFailed.
  destruct (pos st <? rightmostFailuresPos st)%nat; [done|].
  by destruct (rightmostFailuresPos st <? pos st)%nat.
Qed.

Lemma alternatives_code_level ctx l code :
  Forall (fun e => forall ctx s n, emit e ctx = Some s ->
            report_level s n = Some n) l ->
  alternatives_code ctx l = Some code ->
  forall n, report_level code n = Some n.
Proof.
  revert code. induction l as [|e l IH]; intros code Hall; [discriminate|].
  inversion Hall as [|? ? He Hl]; subst. cbn [alternatives_code].
  destruct l as [|e' l'].
  - destruct (emit e ctx) as [current|] eqn:Hc; [|discriminate].
    intros [= <-] n. cbn. by rewrite (He _ _ n Hc).
  - destruct (alternatives_code ctx (e' :: l')) as [rest|] eqn:Hrest;
      [|discriminate].
    destruct (emit e ctx) as [current|] eqn:Hc; [|discriminate].
    intros [= <-] n. cbn. rewrite (He _ _ n Hc), (IH _ Hl eq_refl n).
    by rewrite Nat.eqb_refl.
Qed.

Lemma elements_code_level total ctx l : forall i code,
  Forall (fun e => forall ctx s n, emit e ctx = Some s ->
            report_level s n = Some n) l ->
  elements_code total ctx i l = Some code ->
  forall n, report_level code n = Some n.
Proof.
  induction l as [|e l IH]; intros i code Hall; cbn [elements_code].
  - by intros [= <-] n.
  - inversion Hall as [|? ? He Hl]; subst.
    destruct (elements_code total ctx (S i) l) as [rest|] eqn:Hrest;
      [|discriminate].
    destruct (emit e _) as [c|] eqn:Hc; [|discriminate].
    intros [= <-] n. cbn. rewrite (He _ _ n Hc), (IH _ _ Hl Hrest n).
    by rewrite Nat.eqb_refl.
Qed.

(** In the text of a node every increment of the counter is paired with a
    decrement after it, and [matchFailed] is called under a test of the
    counter only. *)
Lemma emit_level e : forall ctx s n,
  emit e ctx = Some s -> report_level s n = Some n.
Proof.
  induction e as [l IH|l IH|lbl e IH|e IH|e IH|c|c|e IH|e IH|e IH|e c IH|r|v| |p i t]
    using expr_nested_ind; intros ctx s n.
  - rewrite emit_choice. intros H. by eapply alternatives_code_level.
  - rewrite emit_sequence.
    destruct (elements_code _ ctx 0 l) as [code|] eqn:Hcode; [|discriminate].
    intros [= <-]. cbn. by rewrite (elements_code_level _ _ _ _ _ IH Hcode n).
  - cbn [emit]. apply IH.
  - cbn [emit]. destruct (emit e _) as [c|] eqn:Hc; [|discriminate].
    intros [= <-]. cbn. rewrite (IH _ _ (S n) Hc). by rewrite Nat.eqb_refl.
  - cbn [emit]. destruct (emit e _) as [c|] eqn:Hc; [|discriminate].
    intros [= <-]. cbn. rewrite (IH _ _ (S n) Hc). by rewrite Nat.eqb_refl.
  - by intros [= <-].
  - by intros [= <-].
  - cbn [emit]. destruct (emit e ctx) as [c|] eqn:Hc; [|discriminate].
    intros [= <-]. cbn. by rewrite (IH _ _ n Hc).
  - cbn [emit]. destruct (emit e _) as [c|] eqn:Hc; [|discriminate].
    intros [= <-]. cbn. rewrite (IH _ _ n Hc). cbn. rewrite (IH _ _ n Hc).
    by rewrite Nat.eqb_refl.
  - cbn [emit]. destruct (emit e _) as [c|] eqn:Hc; [|discriminate].
    intros [= <-]. cbn. rewrite (IH _ _ n Hc). cbn. rewrite (IH _ _ n Hc).
    by rewrite !Nat.eqb_refl.
  - cbn [emit]. destruct (action_params e _) as [formals actuals].
    destruct (emit e _) as [code|] eqn:Hc; [|discriminate].
    intros [= <-]. cbn. rewrite (IH _ _ n Hc). cbn. by rewrite !Nat.eqb_refl.
  - by intros [= <-].
  - cbn [emit]. destruct (List.length v =? 0)%nat; intros [= <-]; [done|].
    cbn. by rewrite Nat.eqb_refl.
  - intros [= <-]. cbn. by rewrite Nat.eqb_refl.
  - intros [= <-]. cbn. by rewrite Nat.eqb_refl.
Qed.

Lemma emitted_functions_balanced prog :
  emitted_functions prog -> functions_balanced prog.
Proof.
  intros Hprog fn n Hin. destruct (Hprog fn Hin) as [r Hr].
  unfold emit_rule in Hr.
  destruct (emit (expression r) _) as [code|] eqn:He; [|discriminate].
  injection Hr as <-. unfold function_body. cbn.
  destruct (displayName r); cbn; rewrite (emit_level _ _ _ _ He); done.
Qed.

Lemma same_failures_refl st : same_failures st st.
Proof. by split. Qed.

Lemma same_failures_trans st1 st2 st3 :
  same_failures st1 st2 -> same_failures st2 st3 -> same_failures st1 st3.
Proof. intros [? ?] [? ?]. split; congruence. Qed.

(** What a text with a level does to the counter, and that it records
    nothing while the counter is positive. *)
Lemma level_run prog user input memo :
  functions_balanced prog ->
  forall fuel s n m fr st fr' st',
    report_level s n = Some m ->
    exec prog user input memo fuel s fr st = Done fr' st' ->
    reportFailures st' = (reportFailures st + Z.of_nat m - Z.of_nat n)%Z
    /\ ((Z.of_nat n < reportFailures st)%Z -> same_failures st st').
Proof.
  intros Hbal. induction fuel as [|fuel IH]; [discriminate|].
  intros s n m fr st fr' st' Hl H.
  destruct s; cbn [exec report_level] in H, Hl;
    try (injection Hl as <-; injection H as <- <-; split; [cbn; lia|done]).
  - (* s_seq *)
    destruct (report_level s1 n) as [k|] eqn:Hk; [|discriminate].
    destruct (exec _ _ _ _ fuel s1 fr st) as [fr1 st1| |] eqn:H1;
      try discriminate.
    destruct (IH _ _ _ _ _ _ _ Hk H1) as [Hr1 Hs1].
    destruct (IH _ _ _ _ _ _ _ Hl H) as [Hr2 Hs2].
    split; [lia|]. intros Hn.
    eapply same_failures_trans; [by apply Hs1|]. apply Hs2. lia.
  - (* s_if *)
    destruct (is_report_cond c) eqn:Hc.
    + destruct s1; try discriminate. destruct s2; try discriminate.
      injection Hl as <-.
      assert (Hzero : eval_cond input c fr st = true -> reportFailures st = 0%Z).
      { destruct c; try discriminate; cbn.
        - by intros ?%Z.eqb_eq.
        - by intros [?%Z.eqb_eq _]%andb_true_iff. }
      destruct (eval_cond input c fr st).
      * destruct fuel; [discriminate|]. cbn in H. injection H as <- <-.
        rewrite matchFailed_reportFailures. split; [lia|].
        rewrite Hzero by done. lia.
      * destruct fuel; [discriminate|]. cbn in H. injection H as <- <-.
        split; [lia|done].
    + destruct (report_level s1 n) as [x|] eqn:Hx; [|discriminate].
      destruct (report_level s2 n) as [y|] eqn:Hy; [|discriminate].
      destruct (Nat.eqb_spec x y) as [->|]; [|discriminate].
      injection Hl as <-.
      destruct (eval_cond input c fr st); eauto.
  - (* s_while *)
    destruct (is_report_cond c) eqn:Hc; [discriminate|].
    destruct (report_level s n) as [k|] eqn:Hk; [|discriminate].
    destruct (Nat.eqb_spec k n) as [->|]; [|discriminate].
    injection Hl as <-.
    destruct (eval_cond input c fr st).
    + destruct (exec _ _ _ _ fuel s fr st) as [fr1 st1| |] eqn:H1;
        try discriminate.
      destruct (IH _ _ _ _ _ _ _ Hk H1) as [Hr1 Hs1].
      assert (Hw : report_level (s_while c s) n = Some n).
      { cbn. by rewrite Hc, Hk, Nat.eqb_refl. }
      destruct (IH _ _ _ _ _ _ _ Hw H) as [Hr2 Hs2].
      split; [lia|]. intros Hn.
      eapply same_failures_trans; [by apply Hs1|]. apply Hs2. lia.
    + injection H as <- <-. split; [lia|done].
  - (* s_set_call *)
    injection Hl as <-. unfold call_function in H.
    destruct (find_function prog rule_name) as [fn|] eqn:Hfind; [|discriminate].
    assert (Hin : In fn prog).
    { unfold find_function in Hfind. by apply find_some in Hfind as [? _]. }
    destruct (if memo then _ else _) as [[nextPos result]|].
    + injection H as <- <-. split; [cbn; lia|done].
    + destruct (exec _ _ _ _ fuel _ _ _) as [frb stb| |] eqn:Hb;
        try discriminate.
      injection H as <- <-.
      destruct (IH _ 0%nat 0%nat _ _ _ _ (Hbal fn 0%nat Hin) Hb) as [Hr Hs].
      cbn in Hr, Hs.
      split; [destruct memo; cbn; lia|].
      intros Hn. destruct memo; apply Hs; lia.
  - (* s_push *)
    injection Hl as <-. destruct (get_result fr i); try discriminate.
    injection H as <- <-. split; [lia|done].
  - (* s_restore_pos *)
    injection Hl as <-. destruct (positions fr !! k); try discriminate.
    injection H as <- <-. split; [cbn; lia|done].
  - (* dec *)
    destruct n as [|k]; [discriminate|]. injection Hl as <-.
    injection H as <- <-. split; [cbn; lia|done].
  - discriminate.
Qed.

(** Every text the emitter writes for a node, and every rule function,
    leaves [reportFailures] at the value it found; and while that value
    is positive, it records no failure. *)
Theorem reportFailures_is_restored prog user input :
  emitted_functions prog ->
  (forall e ctx s fuel fr st fr' st',
     emit e ctx = Some s ->
     exec prog user input true fuel s fr st = Done fr' st' ->
     reportFailures st' = reportFailures st
     /\ ((0 < reportFailures st)%Z -> same_failures st st'))
  /\ (forall fuel n st result st',
        call prog user input true fuel n st = Returned result st' ->
        reportFailures st' = reportFailures st
        /\ ((0 < reportFailures st)%Z -> same_failures st st')).
Proof.
  intros Hprog. pose proof (emitted_functions_balanced prog Hprog) as Hbal.
  split.
  - intros e ctx s fuel fr st fr' st' He H.
    destruct (level_run prog user input true Hbal fuel s 0 0 fr st fr' st'
                (emit_level e ctx s 0 He) H) as [Hr Hs].
    split; [lia|exact Hs].
  - intros fuel n st result st' H.
    destruct (level_run prog user input true Hbal (S fuel) (s_set_call 0 n)
                0 0 empty_frame st (set_result 0 result empty_frame) st'
                eq_refl) as [Hr Hs].
    { cbn [exec]. unfold call in H. by rewrite H. }
    split; [lia|exact Hs].
Qed.

Lemma reportFailures_is_restored_witness :
  exists result st',
    call (functions_of named_grammar) no_user_code (js "c") true 40
      (js "start") initial_pstate = Returned result st'
    /\ reportFailures st' = 0%Z.
Proof.
  destruct (reportFailures_is_restored (functions_of named_grammar)
              no_user_code (js "c") (functions_of_emitted named_grammar))
    as [_ Hcall].
  destruct (call (functions_of named_grammar) no_user_code (js "c") true 40
              (js "start") initial_pstate) as [result st'| |] eqn:H.
  - exists result, st'. split; [reflexivity|].
    by destruct (Hcall _ _ _ _ _ H) as [-> _].
  - vm_compute in H. discriminate H.
  - vm_compute in H. discriminate H.
Defined.

Lemma matchFailed_same_record failure st st2 :
  pos st2 = pos st -> same_failures st st2 ->
  same_failures (matchFailed failure st) (matchFailed failure st2).
Proof.
  intros Hp [Hf He]. unfold matchFailed. rewrite Hp, Hf.
  destruct (pos st <? rightmostFailuresPos st)%nat; [by split|].
  destruct (rightmostFailuresPos st <? pos st)%nat; cbn; split; cbn;
    congruence.
Qed.

(** A rule with a display name reports that name and nothing else: when
    its function, entered with [reportFailures] at zero and no cache entry,
    returns [null], the record of failures is what [matchFailed] of the
    display name makes of the record at entry; when it returns a match,
    the record is as it was. *)
Theorem named_rule_reports_its_name prog user input r fn d :
  emitted_functions prog ->
  emit_rule r = Some fn -> displayName r = Some d ->
  find_function prog (name r) = Some fn ->
  forall fuel st result st',
    cache_ok (cache st) -> reportFailures st = 0%Z ->
    cache st !! cache_key (name r) (pos st) = None ->
    call prog user input true fuel (name r) st = Returned result st' ->
    (result = VNull -> same_failures (matchFailed d st) st')
    /\ (result <> VNull -> same_failures st st')
    /\ reportFailures st' = 0%Z.
Proof.
  intros Hprog Hr Hd Hfind fuel st result st' Hc Hzero Hmiss.
  pose proof (emitted_functions_balanced prog Hprog) as Hbal.
  unfold call, call_function. rewrite Hfind.
  unfold emit_rule in Hr.
  destruct (emit (expression r) _) as [code|] eqn:He; [|discriminate].
  injection Hr as <-. cbn [fn_name]. rewrite Hmiss.
  destruct (exec _ _ _ _ fuel _ empty_frame _) as [frb stb| |] eqn:Hbody;
    try discriminate.
  intros [= <- <-].
  unfold function_body in Hbody. rewrite Hd in Hbody.
  cbn [fn_setReportFailuresCode fn_code fn_restoreReportFailuresCode
       fn_reportFailureCode resultIndex] in Hbody.
  inv_seq Hbody as m1 fr1 st1 H1. inv_seq H1 as k1 fr1' st1' H1'.
  inv_line H1'. injection H1' as <- <-. inv_skip H1.
  inv_seq Hbody as m2 fr2 st2 H2.
  inv_seq Hbody as m3 fr3 st3 H3. inv_seq H3 as k3 fr3' st3' H3'.
  inv_line H3'. injection H3' as <- <-. inv_skip H3.
  inv_seq Hbody as m4 fr4 st4 H4. inv_skip Hbody.
  inv_seq H4 as k4 fr4' st4' H4'. inv_skip H4.
  destruct (level_run prog user input true Hbal m2 code 0 0 _ _ _ _
              (emit_level _ _ _ 0 He) H2) as [Hrf Hsame].
  cbn in Hrf. rewrite Hzero in Hrf.
  destruct (Hsame ltac:(cbn; lia)) as [Hsp Hse]. cbn in Hsp, Hse.
  destruct (contract_all prog user input Hprog (S m2) m2 (expression r) _ code
              empty_frame
              (set_reportFailures (reportFailures st + 1)
                 (log_evaluation (name r, pos st) st))
              fr2 st2 ltac:(lia) He Hc H2) as [Hres _].
  inv_if H4' as k5. cbn [eval_cond reportFailures set_reportFailures] in H4'.
  replace (reportFailures st2 - 1 =? 0)%Z with true in H4'
    by (symmetry; apply Z.eqb_eq; lia).
  cbn [andb] in H4'.
  destruct (is_null (get_result fr2 0)) eqn:Hnull.
  - inv_line H4'. injection H4' as <- <-.
    assert (Hv : get_result fr2 0 = VNull) by (by destruct (get_result fr2 0)).
    unfold matched, not_matched in Hres. cbn [resultIndex] in Hres.
    destruct Hres as [[Hnn _]|[_ Hp]]; [by rewrite Hv in Hnn|]. cbn in Hp.
    split; [|split].
    + intros _. cbn [set_cache].
      eapply same_failures_trans; [apply (matchFailed_same_record d st
        (set_reportFailures (reportFailures st2 - 1) st2)); [done|by split]|].
      by split.
    + intros Hne. by rewrite Hv in Hne.
    + cbn. rewrite matchFailed_reportFailures. cbn. lia.
  - inv_skip H4'.
    split; [|split].
    + intros Hv. by rewrite Hv in Hnull.
    + intros _. by split.
    + cbn. lia.
Qed.

Lemma named_rule_reports_its_name_witness :
  exists result st',
    call (functions_of named_grammar) no_user_code (js "c") true 40
      (js "letter") initial_pstate = Returned result st'
    /\ result = VNull
    /\ rightmostFailuresExpected st' = [js "a letter"].
Proof.
  destruct (call (functions_of named_grammar) no_user_code (js "c") true 40
              (js "letter") initial_pstate) as [result st'| |] eqn:H.
  - destruct (named_rule_reports_its_name (functions_of named_grammar)
                no_user_code (js "c") letter_rule (function_of letter_rule)
                (js "a letter") (functions_of_emitted named_grammar)
                eq_refl eq_refl eq_refl 40%nat initial_pstate result st'
                cache_ok_empty eq_refl eq_refl H) as (Hnull & _ & _).
    assert (Hres : result = VNull).
    { vm_compute in H. by injection H as <- _. }
    exists result, st'. split; [reflexivity|]. split; [exact Hres|].
    by destruct (Hnull Hres) as [_ ->].
  - vm_compute in H. discriminate H.
  - vm_compute in H. discriminate H.
Defined.

(** ** What the snippets of the leaves do *)

Lemma substr_occurs_at (input : jsstring) p v :
  v <> [] ->
  take (List.length v) (drop p input) = v <-> occurs_at input p v.
Proof.
  intros Hv. split.
  - intros H. exists (take p input), (drop (List.length v) (drop p input)).
    assert (Hp : (p < List.length input)%nat).
    { destruct (Nat.lt_ge_cases p (List.length input)) as [|Hge]; [done|].
      rewrite drop_ge in H by done. rewrite take_nil in H. by subst v. }
    split.
    + rewrite <- H at 1. by rewrite take_drop, take_drop.
    + rewrite length_take. lia.
  - intros (pre & post & -> & <-).
    rewrite drop_app_length. by rewrite take_app_length.
Qed.

(** The text of a literal that is not empty matches exactly when the
    literal stands in the input at [pos]; it then stores the literal and
    moves [pos] past it.  Otherwise it stores [null], leaves [pos], and
    reports the quoted literal if [reportFailures] is zero.  The text of
    the empty literal stores the empty string, whatever the position. *)
Theorem literal_snippet prog user input memo (v : jsstring) ctx fr st :
  exists s, emit (literal v) ctx = Some s
    /\ forall fuel, (5 <= fuel)%nat ->
       (v = [] ->
        exec prog user input memo fuel s fr st
        = Done (set_result (resultIndex ctx) (VStr []) fr) st)
       /\ (v <> [] -> occurs_at input (pos st) v ->
           exec prog user input memo fuel s fr st
           = Done (set_result (resultIndex ctx) (VStr v) fr)
                  (set_pos (pos st + List.length v) st))
       /\ (v <> [] -> ~ occurs_at input (pos st) v ->
           exec prog user input memo fuel s fr st
           = Done (set_result (resultIndex ctx) VNull fr)
                  (if (reportFailures st =? 0)%Z
                   then matchFailed (quote v) st else st)).
Proof.
  cbn [emit]. destruct v as [|c v].
  - eexists. split; [reflexivity|]. intros fuel Hf.
    do 1 (destruct fuel as [|fuel]; [lia|]).
    split; [done|]. split; intros H; by destruct H.
  - eexists. split; [reflexivity|]. intros fuel Hf.
    do 5 (destruct fuel as [|fuel]; [lia|]).
    split; [done|]. split; intros _ Hocc.
    + apply substr_occurs_at in Hocc; [|done].
      cbn [exec eval_cond block fold_right].
      by rewrite bool_decide_eq_true_2 by exact Hocc.
    + rewrite <- substr_occurs_at in Hocc by done.
      cbn [exec eval_cond block fold_right report_failure].
      rewrite bool_decide_eq_false_2 by exact Hocc.
      by destruct (reportFailures st =? 0)%Z.
Qed.

Lemma literal_snippet_witness :
  exec [] no_user_code (js "xab") true 5
    (code_of (literal (js "ab")) ctx0) empty_frame (at_pos 1)
  = Done (set_result 0 (VStr (js "ab")) empty_frame) (set_pos 3 (at_pos 1)).
Proof.
  destruct (literal_snippet [] no_user_code (js "xab") true (js "ab") ctx0
              empty_frame (at_pos 1)) as (s & Hs & Hrun).
  injection Hs as <-.
  destruct (Hrun 5%nat ltac:(lia)) as (_ & Hmatch & _).
  apply Hmatch; [discriminate|].
  exists (js "x"), []. split; reflexivity.
Defined.

(** The text of [any] matches one character when [pos] is inside the
    input: it stores that character and moves [pos] by one.  At or past
    the end it stores [null], leaves [pos], and reports [any character] if
    [reportFailures] is zero. *)
Theorem any_snippet prog user input memo ctx fr st :
  exists s, emit any ctx = Some s
    /\ forall fuel, (5 <= fuel)%nat ->
       exec prog user input memo fuel s fr st
       = match input !! pos st with
         | Some c =>
             Done (set_result (resultIndex ctx) (VStr [c]) fr)
                  (set_pos (pos st + 1) st)
         | None =>
             Done (set_result (resultIndex ctx) VNull fr)
                  (if (reportFailures st =? 0)%Z
                   then matchFailed (js "any character") st else st)
         end.
Proof.
  eexists. split; [reflexivity|]. intros fuel Hf.
  do 5 (destruct fuel as [|fuel]; [lia|]).
  cbn [exec eval_cond block fold_right report_failure]. unfold charAt.
  destruct (input !! pos st) as [c|] eqn:Hc.
  - apply lookup_lt_Some in Hc. apply Nat.ltb_lt in Hc. by rewrite Hc.
  - apply lookup_ge_None in Hc.
    replace (pos st <? List.length input)%nat with false
      by (symmetry; apply Nat.ltb_ge; lia).
    by destruct (reportFailures st =? 0)%Z.
Qed.

(** ** How the snippets of [choice] and [optional] compose *)

(** An ordered choice runs its first alternative; if that leaves [null]
    it goes on, from the state the first alternative left, as the choice
    of the remaining alternatives; if not, it is done.  A choice of one
    alternative runs as that alternative. *)
Theorem ordered_choice prog user input memo e l ctx s :
  emit e ctx = Some s ->
  (forall fr st fr' st',
     (exists fuel, exec prog user input memo fuel
                     (code_of (choice [e]) ctx) fr st = Done fr' st')
     <-> (exists fuel, exec prog user input memo fuel s fr st = Done fr' st'))
  /\ (forall srest, l <> [] -> emit (choice l) ctx = Some srest ->
      emit (choice (e :: l)) ctx <> None
      /\ forall fr st fr' st',
        (exists fuel, exec prog user input memo fuel
                        (code_of (choice (e :: l)) ctx) fr st = Done fr' st')
        <-> (exists fuel fr1 st1,
               exec prog user input memo fuel s fr st = Done fr1 st1
               /\ if is_null (get_result fr1 (resultIndex ctx))
                  then exec prog user input memo fuel srest fr1 st1
                       = Done fr' st'
                  else fr' = fr1 /\ st' = st1)).
Proof.
  intros He. split.
  - intros fr st fr' st'. unfold code_of. rewrite emit_choice.
    cbn [alternatives_code]. rewrite He. cbn [default from_option id block fold_right].
    split.
    + intros [fuel H]. inv_seq H as m1 fr1 st1 H1.
      inv_seq H as m2 fr2 st2 H2. inv_skip H. inv_skip H2. by exists m1.
    + intros [fuel H]. remember (S (S fuel)) as k eqn:Hk. exists (S k).
      cbn [exec].
      rewrite (exec_fuel_mono _ _ _ _ _ _ _ _ _ _ H k) by lia.
      by subst k.
  - intros srest Hl. rewrite !emit_choice. intros Hrest.
    unfold code_of. rewrite emit_choice.
    destruct l as [|e' l']; [done|].
    cbn [alternatives_code] in Hrest |- *.
    cbn [alternatives_code]. rewrite He.
    change (match l' with
            | [] => match emit e' ctx with
                    | Some current => Some (block [current; s_skip])
                    | None => None
                    end
            | _ :: _ =>
                match alternatives_code ctx l', emit e' ctx with
                | Some code, Some current =>
                    Some (block [current;
                                 s_if (result_is_null (resultIndex ctx)) code
                                   s_skip])
                | _, _ => None
                end
            end) with (alternatives_code ctx (e' :: l')).
    change (match l' with
            | [] => match emit e' ctx with
                    | Some current => Some (block [current; s_skip])
                    | None => None
                    end
            | _ :: _ =>
                match alternatives_code ctx l', emit e' ctx with
                | Some code, Some current =>
                    Some (block [current;
                                 s_if (result_is_null (resultIndex ctx)) code
                                   s_skip])
                | _, _ => None
                end
            end) with (alternatives_code ctx (e' :: l')) in Hrest.
    rewrite Hrest. split; [done|].
    intros fr st fr' st'. cbn [default from_option id block fold_right]. split.
    + intros [fuel H]. inv_seq H as m1 fr1 st1 H1.
      inv_seq H as m2 fr2 st2 H2. inv_skip H. inv_if H2 as m3.
      cbn [eval_cond] in H2.
      exists m1, fr1, st1. split; [done|].
      destruct (is_null (get_result fr1 (resultIndex ctx))).
      * apply (exec_fuel_mono _ _ _ _ _ _ _ _ _ _ H2). lia.
      * by inv_skip H2.
    + intros (fuel & fr1 & st1 & H1 & H2).
      remember (S (S fuel)) as k eqn:Hk. exists (S k). cbn [exec].
      rewrite (exec_fuel_mono _ _ _ _ _ _ _ _ _ _ H1 k) by lia.
      subst k. cbn [exec eval_cond].
      destruct (is_null (get_result fr1 (resultIndex ctx))).
      * by rewrite (exec_fuel_mono _ _ _ _ _ _ _ _ _ _ H2 fuel) by lia.
      * destruct H2 as [-> ->]. destruct fuel; [discriminate H1|done].
Qed.

Lemma ordered_choice_witness :
  exists fr' st' fuel fr1 st1,
    exec [] no_user_code (js "b") true fuel
      (code_of (literal (js "a")) ctx0) empty_frame initial_pstate
    = Done fr1 st1
    /\ (if is_null (get_result fr1 (resultIndex ctx0))
        then exec [] no_user_code (js "b") true fuel
               (code_of (choice [literal (js "b")]) ctx0) fr1 st1
             = Done fr' st'
        else fr' = fr1 /\ st' = st1)
    /\ pos st' = 1%nat.
Proof.
  destruct (ordered_choice [] no_user_code (js "b") true (literal (js "a"))
              [literal (js "b")] ctx0 (code_of (literal (js "a")) ctx0) eq_refl)
    as [_ Hmore].
  destruct (Hmore (code_of (choice [literal (js "b")]) ctx0)
              ltac:(discriminate) eq_refl) as [_ Hiff].
  destruct (exec [] no_user_code (js "b") true 20
              (code_of (choice [literal (js "a"); literal (js "b")]) ctx0)
              empty_frame initial_pstate) as [fr' st'| |] eqn:H;
    [|vm_compute in H; discriminate H..].
  destruct (proj1 (Hiff empty_frame initial_pstate fr' st')
              (ex_intro _ 20%nat H)) as (fuel & fr1 & st1 & H1 & H2).
  exists fr', st', fuel, fr1, st1. split; [exact H1|]. split; [exact H2|].
  vm_compute in H. by injection H as _ <-.
Defined.

Lemma same_frame_set_own i fr :
  same_frame fr (set_result i (get_result fr i) fr).
Proof.
  split; [|done]. intros j. destruct (decide (j = i)) as [->|Hne].
  - apply get_result_set_same.
  - by apply get_result_set_other.
Qed.

(** An [optional] runs as the choice between its expression and the empty
    literal: from the same frame and state both texts end in the same
    state with the same values in the variables. *)
Theorem optional_is_choice_with_empty_literal prog user input memo e ctx s :
  emit e ctx = Some s ->
  emit (optional e) ctx <> None /\ emit (choice [e; literal []]) ctx <> None
  /\ forall fr st st',
    (forall fr',
       (exists fuel, exec prog user input memo fuel
                       (code_of (optional e) ctx) fr st = Done fr' st') ->
       exists fuel fr'',
         exec prog user input memo fuel
           (code_of (choice [e; literal []]) ctx) fr st = Done fr'' st'
         /\ same_frame fr'' fr')
    /\ (forall fr'',
          (exists fuel, exec prog user input memo fuel
                          (code_of (choice [e; literal []]) ctx) fr st
                        = Done fr'' st') ->
          exists fuel fr',
            exec prog user input memo fuel
              (code_of (optional e) ctx) fr st = Done fr' st'
            /\ same_frame fr'' fr').
Proof.
  intros He. unfold code_of. rewrite emit_choice.
  cbn [emit alternatives_code List.length Nat.eqb]. rewrite He.
  split; [done|]. split; [done|].
  cbn [default from_option id block fold_right].
  intros fr st st'. split.
  - intros fr' [fuel H]. inv_seq H as m1 fr1 st1 H1.
    inv_seq H as m2 fr2 st2 H2. inv_skip H. inv_line H2.
    injection H2 as <- <-.
    remember (S (S (S (S (S m1))))) as k eqn:Hk.
    destruct (is_null (get_result fr1 (resultIndex ctx))) eqn:Hnull.
    + exists (S k), (set_result (resultIndex ctx) (VStr []) fr1). cbn [exec].
      rewrite (exec_fuel_mono _ _ _ _ _ _ _ _ _ _ H1 k) by lia.
      subst k. cbn [exec eval_cond]. rewrite Hnull. by split.
    + exists (S k), fr1. cbn [exec].
      rewrite (exec_fuel_mono _ _ _ _ _ _ _ _ _ _ H1 k) by lia.
      subst k. cbn [exec eval_cond]. rewrite Hnull.
      split; [done|]. apply same_frame_set_own.
  - intros fr'' [fuel H]. inv_seq H as m1 fr1 st1 H1.
    inv_seq H as m2 fr2 st2 H2. inv_skip H. inv_if H2 as m3.
    cbn [eval_cond] in H2.
    remember (S (S m1)) as k eqn:Hk.
    exists (S k).
    exists (set_result (resultIndex ctx)
              (if is_null (get_result fr1 (resultIndex ctx)) then VStr []
               else get_result fr1 (resultIndex ctx)) fr1).
    cbn [exec].
    rewrite (exec_fuel_mono _ _ _ _ _ _ _ _ _ _ H1 k) by lia.
    subst k. cbn [exec].
    destruct (is_null (get_result fr1 (resultIndex ctx))) eqn:Hnull.
    + inv_seq H2 as m4 fr4 st4 H4. inv_line H4. injection H4 as <- <-.
      inv_seq H2 as m5 fr5 st5 H5. inv_skip H2. inv_skip H5. by split.
    + inv_skip H2. split; [done|]. apply same_frame_set_own.
Qed.

Lemma optional_is_choice_with_empty_literal_witness :
  emit (optional (literal (js "a"))) ctx0 <> None
  /\ emit (choice [literal (js "a"); literal []]) ctx0 <> None.
Proof.
  destruct (optional_is_choice_with_empty_literal [] no_user_code (js "b") true
              (literal (js "a")) ctx0 (code_of (literal (js "a")) ctx0) eq_refl)
    as (H1 & H2 & _).
  by split.
Defined.

(** ** The syntactic predicates *)

(** What both predicates do around the text [c] of their expression:
    [negated] is [false] for [simple_and] and [true] for [simple_not]. *)
Lemma predicate_run prog user input e ctx c (negated : bool) n fr st fr' st' :
  emitted_functions prog ->
  emit e {| resultIndex := resultIndex ctx; posIndex := posIndex ctx + 1 |}
  = Some c ->
  exec prog user input true n
    (if negated
     then block [s_save_pos (posIndex ctx); s_reportFailures_inc; c;
                 s_reportFailures_dec;
                 s_if (result_is_null (resultIndex ctx))
                   (s_set_string (resultIndex ctx) [])
                   (block [s_set_null (resultIndex ctx);
                           s_restore_pos (posIndex ctx)])]
     else block [s_save_pos (posIndex ctx); s_reportFailures_inc; c;
                 s_reportFailures_dec;
                 s_if (result_not_null (resultIndex ctx))
                   (block [s_set_string (resultIndex ctx) [];
                           s_restore_pos (posIndex ctx)])
                   (s_set_null (resultIndex ctx))])
    fr st = Done fr' st' ->
  exists m fr3 st3,
    exec prog user input true m c
      (set_position (posIndex ctx) (pos st) fr)
      (set_reportFailures (reportFailures st + 1) st) = Done fr3 st3
    /\ st' = (if is_null (get_result fr3 (resultIndex ctx))
              then set_reportFailures (reportFailures st3 - 1) st3
              else set_pos (pos st)
                     (set_reportFailures (reportFailures st3 - 1) st3))
    /\ get_result fr' (resultIndex ctx)
       = (if xorb negated (is_null (get_result fr3 (resultIndex ctx)))
          then VNull else VStr []).
Proof.
  intros Hprog He H.
  assert (Hsaved : forall m fr3 st3,
            exec prog user input true m c
              (set_position (posIndex ctx) (pos st) fr)
              (set_reportFailures (reportFailures st + 1) st) = Done fr3 st3 ->
            positions fr3 !! posIndex ctx = Some (pos st)).
  { intros m fr3 st3 H3.
    pose proof (exec_slots_below_kept prog user input true _ _ m c _ _ _ _
                  (emit_slots e _ c He) H3) as Hkept.
    rewrite (positions_kept _ _ _ _ (posIndex ctx) Hkept) by (cbn; lia).
    cbn. by rewrite lookup_insert_eq. }
  destruct negated.
  - inv_seq H as m1 fr1 st1 H1. inv_line H1. injection H1 as <- <-.
    inv_seq H as m2 fr2 st2 H2. inv_line H2. injection H2 as <- <-.
    inv_seq H as m3 fr3 st3 H3.
    inv_seq H as m4 fr4 st4 H4. inv_line H4. injection H4 as <- <-.
    inv_seq H as m5 fr5 st5 H5. inv_skip H. inv_if H5 as m6.
    exists m3, fr3, st3. split; [exact H3|].
    pose proof (Hsaved _ _ _ H3) as Hpos.
    cbn [eval_cond] in H5.
    destruct (is_null (get_result fr3 (resultIndex ctx))) eqn:Hnull.
    + inv_line H5. injection H5 as <- <-.
      split; [done|]. by rewrite get_result_set_same.
    + inv_seq H5 as m7 fr7 st7 H7. inv_line H7. injection H7 as <- <-.
      inv_seq H5 as m8 fr8 st8 H8. inv_skip H5. inv_line H8.
      cbn in H8. rewrite Hpos in H8. injection H8 as <- <-.
      split; [done|]. by rewrite get_result_set_same.
  - inv_seq H as m1 fr1 st1 H1. inv_line H1. injection H1 as <- <-.
    inv_seq H as m2 fr2 st2 H2. inv_line H2. injection H2 as <- <-.
    inv_seq H as m3 fr3 st3 H3.
    inv_seq H as m4 fr4 st4 H4. inv_line H4. injection H4 as <- <-.
    inv_seq H as m5 fr5 st5 H5. inv_skip H. inv_if H5 as m6.
    exists m3, fr3, st3. split; [exact H3|].
    pose proof (Hsaved _ _ _ H3) as Hpos.
    cbn [eval_cond] in H5.
    destruct (is_null (get_result fr3 (resultIndex ctx))) eqn:Hnull;
      cbn [negb] in H5.
    + inv_line H5. injection H5 as <- <-.
      split; [done|]. by rewrite get_result_set_same.
    + inv_seq H5 as m7 fr7 st7 H7. inv_line H7. injection H7 as <- <-.
      inv_seq H5 as m8 fr8 st8 H8. inv_skip H5. inv_line H8.
      cbn in H8. rewrite Hpos in H8. injection H8 as <- <-.
      split; [done|]. by rewrite get_result_set_same.
Qed.

Lemma predicate_code e ctx (negated : bool) s :
  emit (if negated then simple_not e else simple_and e) ctx = Some s ->
  exists c,
    emit e {| resultIndex := resultIndex ctx; posIndex := posIndex ctx + 1 |}
    = Some c
    /\ s = (if negated
            then block [s_save_pos (posIndex ctx); s_reportFailures_inc; c;
                        s_reportFailures_dec;
                        s_if (result_is_null (resultIndex ctx))
                          (s_set_string (resultIndex ctx) [])
                          (block [s_set_null (resultIndex ctx);
                                  s_restore_pos (posIndex ctx)])]
            else block [s_save_pos (posIndex ctx); s_reportFailures_inc; c;
                        s_reportFailures_dec;
                        s_if (result_not_null (resultIndex ctx))
                          (block [s_set_string (resultIndex ctx) [];
                                  s_restore_pos (posIndex ctx)])
                          (s_set_null (resultIndex ctx))]).
Proof.
  destruct negated; cbn [emit]; destruct (emit e _) as [c|]; try discriminate;
    intros [= <-]; by exists c.
Qed.

(** What one predicate does: [pos] and [reportFailures] end as they began,
    no failure is recorded (the counter being non-negative at entry), and
    the result is the empty string or [null]. *)
Lemma predicate_effect prog user input e ctx (negated : bool) s fuel fr st fr' st' :
  emitted_functions prog ->
  emit (if negated then simple_not e else simple_and e) ctx = Some s ->
  cache_ok (cache st) ->
  exec prog user input true fuel s fr st = Done fr' st' ->
  pos st' = pos st /\ reportFailures st' = reportFailures st
  /\ ((0 <= reportFailures st)%Z -> same_failures st st')
  /\ (get_result fr' (resultIndex ctx) = VStr []
      \/ get_result fr' (resultIndex ctx) = VNull).
Proof.
  intros Hprog Hs Hc H.
  destruct (predicate_code e ctx negated s Hs) as (c & He & ->).
  destruct (predicate_run prog user input e ctx c negated fuel fr st fr' st'
              Hprog He H) as (m & fr3 & st3 & H3 & -> & Hres).
  pose proof (emitted_functions_balanced prog Hprog) as Hbal.
  destruct (level_run prog user input true Hbal m c 0 0 _ _ _ _
              (emit_level _ _ _ 0 He) H3) as [Hrf Hsame].
  cbn in Hrf.
  destruct (contract_all prog user input Hprog (S m) m e _ c
              (set_position (posIndex ctx) (pos st) fr)
              (set_reportFailures (reportFailures st + 1) st)
              fr3 st3 ltac:(lia) He Hc H3) as [Hcontract _].
  unfold matched, not_matched in Hcontract. cbn in Hcontract.
  split; [|split; [|split]].
  - destruct (is_null (get_result fr3 (resultIndex ctx))) eqn:Hnull; [|done].
    destruct Hcontract as [[Hnn _]|[_ Hp]]; [|done].
    by destruct (get_result fr3 (resultIndex ctx)).
  - destruct (is_null _); cbn; lia.
  - intros Hnonneg. destruct (Hsame ltac:(cbn; lia)) as [Hsp Hse].
    destruct (is_null _); split; cbn; done.
  - rewrite Hres. destruct (xorb _ _); auto.
Qed.

(** The two syntactic predicates consume nothing, restore
    [reportFailures], record no failure and yield the empty string or
    [null]; and on the same expression from the same frame and state they
    end in the same state with opposite results. *)
Theorem syntactic_predicates prog user input e ctx sa sn :
  emitted_functions prog ->
  emit (simple_and e) ctx = Some sa -> emit (simple_not e) ctx = Some sn ->
  forall fr st, cache_ok (cache st) ->
    (forall s fuel fr' st',
       s = sa \/ s = sn ->
       exec prog user input true fuel s fr st = Done fr' st' ->
       pos st' = pos st /\ reportFailures st' = reportFailures st
       /\ ((0 <= reportFailures st)%Z -> same_failures st st')
       /\ (get_result fr' (resultIndex ctx) = VStr []
           \/ get_result fr' (resultIndex ctx) = VNull))
    /\ (forall fuel fuel' fra sta frn stn,
          exec prog user input true fuel sa fr st = Done fra sta ->
          exec prog user input true fuel' sn fr st = Done frn stn ->
          sta = stn
          /\ (get_result fra (resultIndex ctx) = VNull
              <-> get_result frn (resultIndex ctx) = VStr [])
          /\ (get_result fra (resultIndex ctx) = VStr []
              <-> get_result frn (resultIndex ctx) = VNull)).
Proof.
  intros Hprog Ha Hn fr st Hc. split.
  - intros s fuel fr' st' [->| ->] H.
    + by apply (predicate_effect prog user input e ctx false sa fuel fr st).
    + by apply (predicate_effect prog user input e ctx true sn fuel fr st).
  - intros fuel fuel' fra sta frn stn Hra Hrn.
    destruct (predicate_code e ctx false sa Ha) as (c & He & ->).
    destruct (predicate_code e ctx true sn Hn) as (c' & He' & ->).
    assert (c' = c) by congruence. subst c'.
    destruct (predicate_run prog user input e ctx c false _ _ _ _ _ Hprog He Hra)
      as (m & fr3 & st3 & H3 & -> & Hresa).
    destruct (predicate_run prog user input e ctx c true _ _ _ _ _ Hprog He Hrn)
      as (m' & fr3' & st3' & H3' & -> & Hresn).
    destruct (exec_done_unique _ _ _ _ _ _ _ _ _ _ _ _ _ H3 H3') as [<- <-].
    split; [done|]. rewrite Hresa, Hresn.
    destruct (is_null (get_result fr3 (resultIndex ctx))); cbn; by split.
Qed.

Lemma syntactic_predicates_witness :
  exists fra sta frn stn,
    exec [] no_user_code (js "ab") true 20
      (code_of (simple_and (literal (js "a"))) ctx0) empty_frame initial_pstate
    = Done fra sta
    /\ exec [] no_user_code (js "ab") true 20
         (code_of (simple_not (literal (js "a"))) ctx0) empty_frame initial_pstate
       = Done frn stn
    /\ sta = stn /\ pos sta = 0%nat
    /\ get_result fra 0 = VStr [] /\ get_result frn 0 = VNull.
Proof.
  assert (Hprog : emitted_functions []) by (by intros fn []).
  destruct (syntactic_predicates [] no_user_code (js "ab") (literal (js "a"))
              ctx0 _ _ Hprog eq_refl eq_refl empty_frame initial_pstate
              cache_ok_empty) as [Heach Hboth].
  destruct (exec [] no_user_code (js "ab") true 20
              (code_of (simple_and (literal (js "a"))) ctx0) empty_frame
              initial_pstate) as [fra sta| |] eqn:Ha;
    [|vm_compute in Ha; discriminate Ha..].
  destruct (exec [] no_user_code (js "ab") true 20
              (code_of (simple_not (literal (js "a"))) ctx0) empty_frame
              initial_pstate) as [frn stn| |] eqn:Hn;
    [|vm_compute in Hn; discriminate Hn..].
  destruct (Hboth _ _ _ _ _ _ Ha Hn) as (Hst & _ & _).
  destruct (Heach _ _ _ _ (or_introl eq_refl) Ha) as (Hp & _).
  exists fra, sta, frn, stn. repeat split; try done.
  - vm_compute in Ha. by injection Ha as <- _.
  - vm_compute in Hn. by injection Hn as <- _.
Defined.

(** ** The cache does not change what the parser computes *)

(** A rule function that returns with the cache returns the result, and
    ends at the position, that it computes without the cache from the same
    state; every entry it leaves in the cache is the outcome of the rule,
    run without the cache, at the position of its key; and it removes or
    overwrites no entry. *)
Theorem memoization_is_transparent prog user input :
  emitted_functions prog ->
  forall fuel n st result st',
    cache_coherent prog user input (cache st) ->
    call prog user input true fuel n st = Returned result st' ->
    (exists fuel0 st0,
       call prog user input false fuel0 n st = Returned result st0
       /\ pos st0 = pos st')
    /\ cache_coherent prog user input (cache st')
    /\ (forall k x, cache st !! k = Some x -> cache st' !! k = Some x).
Proof.
  intros Hprog fuel n st result st' Hcoh H.
  pose proof (emitted_functions_guarded prog Hprog) as Hguard.
  assert (Hrun : exec prog user input true (S fuel) (s_set_call 0 n)
                   empty_frame st = Done (set_result 0 result empty_frame) st').
  { cbn [exec]. unfold call in H. by rewrite H. }
  destruct (memo_run_all prog user input Hguard (S fuel) (s_set_call 0 n)
              empty_frame st _ st' eq_refl Hcoh Hrun)
    as [Hsame Hcoh' Hkept _].
  split; [|by split].
  destruct (Hsame st eq_refl) as (M & st0 & H0 & Hp).
  apply exec_call_inv in H0 as (m & v & _ & Hcall & Hv).
  exists m, st0. split; [|done].
  apply (f_equal (fun fr => get_result fr 0)) in Hv.
  rewrite !get_result_set_same in Hv. by subst v.
Qed.

Lemma memoization_is_transparent_witness :
  exists result st' fuel0 st0,
    call (functions_of backtracking_grammar) no_user_code (js "ay") true 40
      (js "start") initial_pstate = Returned result st'
    /\ call (functions_of backtracking_grammar) no_user_code (js "ay") false
         fuel0 (js "start") initial_pstate = Returned result st0
    /\ pos st0 = pos st'.
Proof.
  destruct (call (functions_of backtracking_grammar) no_user_code (js "ay") true
              40 (js "start") initial_pstate) as [result st'| |] eqn:H;
    [|vm_compute in H; discriminate H..].
  destruct (memoization_is_transparent (functions_of backtracking_grammar)
              no_user_code (js "ay") (functions_of_emitted backtracking_grammar)
              40%nat (js "start") initial_pstate result st'
              (cache_coherent_empty _ _ _) H)
    as ((fuel0 & st0 & H0 & Hp) & _).
  by exists result, st', fuel0, st0.
Defined.

(** ** Positions stay inside the input *)

Lemma alternatives_code_advances ctx l code :
  Forall (fun e => forall ctx s, emit e ctx = Some s ->
            advances_guarded s = true) l ->
  alternatives_code ctx l = Some code -> advances_guarded code = true.
Proof.
  revert code. induction l as [|e l IH]; intros code Hall; [discriminate|].
  inversion Hall as [|? ? He Hl]; subst. cbn [alternatives_code].
  destruct l as [|e' l'].
  - destruct (emit e ctx) as [current|] eqn:Hc; [|discriminate].
    intros [= <-]. cbn. by rewrite (He _ _ Hc).
  - destruct (alternatives_code ctx (e' :: l')) as [rest|] eqn:Hrest;
      [|discriminate].
    destruct (emit e ctx) as [current|] eqn:Hc; [|discriminate].
    intros [= <-]. cbn. rewrite (He _ _ Hc), (IH _ Hl eq_refl).
    by rewrite orb_true_r.
Qed.

Lemma elements_code_advances total ctx l : forall i code,
  Forall (fun e => forall ctx s, emit e ctx = Some s ->
            advances_guarded s = true) l ->
  elements_code total ctx i l = Some code -> advances_guarded code = true.
Proof.
  induction l as [|e l IH]; intros i code Hall; cbn [elements_code].
  - by intros [= <-].
  - inversion Hall as [|? ? He Hl]; subst.
    destruct (elements_code total ctx (S i) l) as [rest|] eqn:Hrest;
      [|discriminate].
    destruct (emit e _) as [c|] eqn:Hc; [|discriminate].
    intros [= <-]. cbn. rewrite (He _ _ Hc), (IH _ _ Hl Hrest).
    by rewrite orb_true_r.
Qed.

Lemma emit_advances e : forall ctx s,
  emit e ctx = Some s -> advances_guarded s = true.
Proof.
  induction e as [l IH|l IH|lbl e IH|e IH|e IH|c|c|e IH|e IH|e IH|e c IH|r|v| |p i t]
    using expr_nested_ind; intros ctx s.
  - rewrite emit_choice. by apply alternatives_code_advances.
  - rewrite emit_sequence.
    destruct (elements_code _ ctx 0 l) as [code|] eqn:Hcode; [|discriminate].
    intros [= <-]. cbn. by rewrite (elements_code_advances _ _ _ _ _ IH Hcode).
  - cbn [emit]. apply IH.
  - cbn [emit]. destruct (emit e _) as [c|] eqn:Hc; [|discriminate].
    intros [= <-]. cbn. by rewrite (IH _ _ Hc).
  - cbn [emit]. destruct (emit e _) as [c|] eqn:Hc; [|discriminate].
    intros [= <-]. cbn. by rewrite (IH _ _ Hc).
  - by intros [= <-].
  - by intros [= <-].
  - cbn [emit]. destruct (emit e ctx) as [c|] eqn:Hc; [|discriminate].
    intros [= <-]. cbn. by rewrite (IH _ _ Hc).
  - cbn [emit]. destruct (emit e _) as [c|] eqn:Hc; [|discriminate].
    intros [= <-]. cbn. by rewrite (IH _ _ Hc).
  - cbn [emit]. destruct (emit e _) as [c|] eqn:Hc; [|discriminate].
    intros [= <-]. cbn. by rewrite (IH _ _ Hc).
  - cbn [emit]. destruct (action_params e _) as [formals actuals].
    destruct (emit e _) as [code|] eqn:Hc; [|discriminate].
    intros [= <-]. cbn. by rewrite (IH _ _ Hc).
  - by intros [= <-].
  - cbn [emit]. destruct (List.length v =? 0)%nat; intros [= <-]; [done|].
    cbn. by rewrite !Nat.eqb_refl.
  - by intros [= <-].
  - by intros [= <-].
Qed.

Lemma emitted_functions_advance_guarded prog :
  emitted_functions prog -> functions_advance_guarded prog.
Proof.
  intros Hprog fn Hin. destruct (Hprog fn Hin) as [r Hr].
  unfold emit_rule in Hr.
  destruct (emit (expression r) _) as [code|] eqn:He; [|discriminate].
  injection Hr as <-. unfold function_body. cbn.
  rewrite (emit_advances _ _ _ He). by destruct (displayName r).
Qed.

Lemma matchFailed_in_bounds L failure fr st :
  in_bounds L fr st -> in_bounds L fr (matchFailed failure st).
Proof.
  intros (Hp & Hf & Hfr & Hc). unfold matchFailed.
  destruct (pos st <? rightmostFailuresPos st)%nat; [done|].
  destruct (rightmostFailuresPos st <? pos st)%nat; by repeat split.
Qed.

(** A store and an advance under their test stay inside the input. *)
Lemma guarded_step_in_bounds prog user input memo c a n fr st fr' st' :
  guarded_step c a = true -> eval_cond input c fr st = true ->
  in_bounds (List.length input) fr st ->
  exec prog user input memo n a fr st = Done fr' st' ->
  in_bounds (List.length input) fr' st'.
Proof.
  intros Hg Hcond (Hp & Hf & Hfr & Hc) H. unfold guarded_step in Hg.
  destruct a as [|store rest| | | | | | | | | | | | | | | | |];
    try discriminate.
  destruct rest as [|adv rest'| | | | | | | | | | | | | | | | |];
    try discriminate.
  destruct adv; try discriminate. destruct rest'; try discriminate.
  inv_seq H as m1 fr1 st1 H1. inv_seq H as m2 fr2 st2 H2. inv_skip H.
  inv_line H2. injection H2 as <- <-.
  assert (Hbound : (pos st + n0 <= List.length input)%nat
                   /\ positions fr1 = positions fr /\ st1 = st).
  { destruct c; try discriminate; destruct store; try discriminate;
      inv_line H1; injection H1 as <- <-; (split; [|done]); cbn in Hcond.
    - apply andb_true_iff in Hg as [->%Nat.eqb_eq Hlen%Nat.eqb_eq].
      apply bool_decide_eq_true in Hcond.
      apply (f_equal (@List.length N)) in Hcond.
      rewrite length_take, length_drop in Hcond. lia.
    - apply Nat.eqb_eq in Hg as ->. apply Nat.ltb_lt in Hcond. lia.
    - apply Nat.eqb_eq in Hg as ->.
      destruct (input !! pos st) eqn:Hl; [|discriminate].
      apply lookup_lt_Some in Hl. lia. }
  destruct Hbound as (Hb & Hpos & ->).
  repeat split; cbn; try done. intros k p. rewrite Hpos. apply Hfr.
Qed.

Lemma exec_in_bounds prog user input memo :
  functions_advance_guarded prog ->
  forall fuel s fr st fr' st',
    advances_guarded s = true ->
    in_bounds (List.length input) fr st ->
    exec prog user input memo fuel s fr st = Done fr' st' ->
    in_bounds (List.length input) fr' st'.
Proof.
  intros Hprog. induction fuel as [|fuel IH]; [discriminate|].
  intros s fr st fr' st' Hg Hin H.
  pose proof Hin as (Hp & Hf & Hfr & Hc).
  destruct s; cbn [exec advances_guarded] in H, Hg;
    try (injection H as <- <-; by repeat split).
  - apply andb_true_iff in Hg as [Ha Hb].
    destruct (exec _ _ _ _ fuel s1 fr st) as [fr1 st1| |] eqn:H1;
      try discriminate.
    eauto.
  - apply andb_true_iff in Hg as [Ha Hb].
    destruct (eval_cond input c fr st) eqn:Hcond; [|eauto].
    apply orb_true_iff in Ha as [Ha|Ha]; [|eauto].
    by eapply guarded_step_in_bounds.
  - destruct (eval_cond input c fr st).
    + destruct (exec _ _ _ _ fuel s fr st) as [fr1 st1| |] eqn:H1;
        try discriminate.
      apply (IH (s_while c s) fr1 st1); [done| |done]. eauto.
    + by injection H as <- <-.
  - unfold call_function in H.
    destruct (find_function prog rule_name) as [fn|] eqn:Hfind; [|discriminate].
    assert (Hfn : In fn prog).
    { unfold find_function in Hfind. by apply find_some in Hfind as [? _]. }
    destruct (if memo then _ else _) as [[nextPos result]|] eqn:Hlook.
    + injection H as <- <-. destruct memo; [|discriminate].
      pose proof (Hc _ _ Hlook) as Hnext. by repeat split.
    + destruct (exec _ _ _ _ fuel _ _ _) as [frb stb| |] eqn:Hb;
        try discriminate.
      injection H as <- <-.
      assert (Hentry : in_bounds (List.length input) empty_frame
                         (log_evaluation (fn_name fn, pos st) st))
        by (by repeat split).
      destruct (IH _ _ _ _ _ (Hprog fn Hfn) Hentry Hb)
        as (Hp' & Hf' & _ & Hc').
      destruct memo; repeat split; cbn; try done.
      intros key entry.
      destruct (decide (cache_key (fn_name fn) (pos st) = key)) as [<-|Hne].
      * rewrite lookup_insert_eq. by intros [= <-].
      * rewrite lookup_insert_ne by done. apply Hc'.
  - destruct (get_result fr i); try discriminate.
    injection H as <- <-. by repeat split.
  - injection H as <- <-. repeat split; cbn; try done.
    intros k0 p. destruct (decide (k = k0)) as [<-|Hne].
    + rewrite lookup_insert_eq. by intros [= <-].
    + rewrite lookup_insert_ne by done. apply Hfr.
  - destruct (positions fr !! k) as [p|] eqn:Hk; try discriminate.
    injection H as <- <-. pose proof (Hfr _ _ Hk) as Hsaved. by repeat split.
  - injection H as <- <-. by apply matchFailed_in_bounds.
Qed.

Lemma in_bounds_initial L : in_bounds L empty_frame initial_pstate.
Proof. repeat split; cbn; try lia; intros ? ?; by rewrite lookup_empty. Qed.

Lemma call_in_bounds prog user input fuel n st result st' :
  emitted_functions prog ->
  in_bounds (List.length input) empty_frame st ->
  call prog user input true fuel n st = Returned result st' ->
  in_bounds (List.length input) empty_frame st'.
Proof.
  intros Hprog Hin H.
  assert (Hrun : exec prog user input true (S fuel) (s_set_call 0 n)
                   empty_frame st = Done (set_result 0 result empty_frame) st').
  { cbn [exec]. unfold call in H. by rewrite H. }
  destruct (exec_in_bounds prog user input true
              (emitted_functions_advance_guarded prog Hprog) (S fuel)
              (s_set_call 0 n) empty_frame st _ st'
              eq_refl Hin Hrun) as (Hp & Hf & _ & Hc).
  by repeat split.
Qed.

(** Run from a frame and a state that hold no position past the end of
    the input, the text of a node and a rule function leave none: [pos],
    the rightmost failure position, the saved positions and the end
    positions in the cache all stay within the length of the input. *)
Theorem positions_stay_inside_the_input prog user input :
  emitted_functions prog ->
  (forall e ctx s fuel fr st fr' st',
     emit e ctx = Some s ->
     in_bounds (List.length input) fr st ->
     exec prog user input true fuel s fr st = Done fr' st' ->
     in_bounds (List.length input) fr' st')
  /\ (forall fuel n st result st',
        in_bounds (List.length input) empty_frame st ->
        call prog user input true fuel n st = Returned result st' ->
        in_bounds (List.length input) empty_frame st').
Proof.
  intros Hprog. split.
  - intros e ctx s fuel fr st fr' st' He Hin H.
    apply (exec_in_bounds prog user input true
             (emitted_functions_advance_guarded prog Hprog) fuel s fr st);
      [|done|done].
    by apply (emit_advances e ctx).
  - intros fuel n st result st'. by apply call_in_bounds.
Qed.

Lemma positions_stay_inside_the_input_witness :
  exists result st',
    call (functions_of star_grammar) no_user_code (js "aab") true 40
      (js "start") initial_pstate = Returned result st'
    /\ (pos st' <= 3)%nat.
Proof.
  destruct (positions_stay_inside_the_input (functions_of star_grammar)
              no_user_code (js "aab") (functions_of_emitted star_grammar))
    as [_ Hcall].
  destruct (call (functions_of star_grammar) no_user_code (js "aab") true 40
              (js "start") initial_pstate) as [result st'| |] eqn:H;
    [|vm_compute in H; discriminate H..].
  exists result, st'. split; [reflexivity|].
  by destruct (Hcall _ _ _ _ _ (in_bounds_initial _) H) as [Hp _].
Defined.

Lemma emit_grammar_emitted ast opts p :
  emit_grammar ast opts = Emitted p -> emitted_functions (pt_functions p).
Proof.
  unfold emit_grammar.
  destruct (List.length (exposed_rules ast opts) =? 0)%nat; [discriminate|].
  destruct (emit_rules (rules ast)) as [fns|] eqn:Hfns; [|discriminate].
  intros [= <-]. by apply (emit_rules_emitted (rules ast)).
Qed.

(** The three states the emitted [parse] can be in after the start rule
    returned (emitter.js 293-316), and what follows for its outcome: the
    value of a rule function is returned only for a match of the whole
    input; where the table only inherits the name it is asked for, no rule
    function runs, and what the inherited value returns is returned only
    on the empty input; a [SyntaxError] is thrown either after no match,
    [pos] being 0, or before the end of the input; and the line and column
    it carries count at most the characters of the input. *)
Theorem parse_outcomes host ast opts p user fuel input startRule :
  emit_grammar ast opts = Emitted p ->
  (forall n result st,
     call (pt_functions p) user input true fuel n initial_pstate
     = Returned result st ->
     (result <> VNull /\ pos st = List.length input)
     \/ (result <> VNull /\ (pos st < List.length input)%nat)
     \/ (result = VNull /\ pos st = 0%nat))
  /\ (forall result,
        parse host p user fuel input startRule = Parsed result ->
        result <> VNull
        /\ exists n st,
             choose_start host (pt_start p) startRule = invoke n
             /\ call (pt_functions p) user input true fuel n initial_pstate
                = Returned result st
             /\ pos st = List.length input)
  /\ (forall a,
        parse host p user fuel input startRule = ReturnsInherited a ->
        input = []
        /\ choose_start host (pt_start p) startRule
           = invoke_inherited a (method_returns false))
  /\ (forall message l c,
        parse host p user fuel input startRule
        = ThrowsSyntaxError message l c ->
        (1 <= l)%nat /\ (1 <= c)%nat /\ (l + c <= List.length input + 2)%nat).
Proof.
  intros Hp. pose proof (emit_grammar_emitted ast opts p Hp) as Hprog.
  assert (Hstates : forall n result st,
            call (pt_functions p) user input true fuel n initial_pstate
            = Returned result st ->
            ((result <> VNull /\ pos st = List.length input)
             \/ (result <> VNull /\ (pos st < List.length input)%nat)
             \/ (result = VNull /\ pos st = 0%nat))
            /\ (rightmostFailuresPos st <= List.length input)%nat).
  { intros n result st H.
    destruct (call_in_bounds _ _ _ _ _ _ _ _ Hprog (in_bounds_initial _) H)
      as (Hpos & Hf & _).
    destruct (call_contract (pt_functions p) user input Hprog (S fuel)
                (contract_all _ _ _ Hprog (S fuel)) fuel n initial_pstate
                result st ltac:(lia) cache_ok_empty H) as [Hentry _].
    split; [|done].
    destruct Hentry as [[Hv Hle]|[Hv Heq]]; cbn in Hv, Hle || cbn in Hv, Heq.
    - destruct (decide (pos st = List.length input)); [by left|].
      right. left. split; [done|lia].
    - right. right. by split. }
  assert (Hbounds : forall q l c,
            (q <= List.length input)%nat ->
            (l, c) = computeErrorPosition input q ->
            (1 <= l)%nat /\ (1 <= c)%nat
            /\ (l + c <= List.length input + 2)%nat).
  { intros q l c Hq. unfold computeErrorPosition. intros [= -> ->].
    pose proof (errpos_loop_bounds input (seq 0 q)
                  {| line := 1; column := 1; seenCR := false |}
                  ltac:(cbn; lia)) as (H1 & H2 & H3).
    cbn zeta in *. cbn [line column] in *. rewrite length_seq in H3. lia. }
  split; [intros n result st H; by destruct (Hstates n result st H)|].
  split; [|split].
  - intros result. unfold parse.
    destruct (choose_start host (pt_start p) startRule) as [n|a [null|]| |];
      try discriminate.
    + destruct (call _ _ _ _ _ n _) as [r st| |] eqn:Hcall; try discriminate.
      destruct (is_null r || negb (pos st =? List.length input)%nat) eqn:Hcond;
        [discriminate|].
      intros [= <-]. apply orb_false_iff in Hcond as [Hnull Hpos].
      apply negb_false_iff, Nat.eqb_eq in Hpos.
      split; [by destruct r|]. by exists n, st.
    + by destruct (null || _).
  - intros a'. unfold parse.
    destruct (choose_start host (pt_start p) startRule) as [n|a [null|]| |];
      try discriminate.
    + destruct (call _ _ _ _ _ n _) as [r st| |]; try discriminate.
      by destruct (is_null r || _).
    + cbn [pos initial_pstate]. destruct null; [discriminate|].
      destruct input as [|ch input']; [|discriminate].
      by intros [= <-].
  - intros message l c H. apply parse_syntax_error in H
      as [(n & result & st & _ & Hcall & _ & _ & Hlc)|(a & null & _ & _ & _ & Hlc)].
    + destruct (Hstates n result st Hcall) as [_ Hf].
      by apply (Hbounds (rightmostFailuresPos st)).
    + apply (Hbounds 0%nat); [lia|done].
Qed.

Lemma parse_outcomes_witness :
  exists message l c,
    parse_with (object_prototype (fun _ => [])) foo_bar_grammar default_options
      40 (js "fox") (Some (js "toString"))
    = Some (ThrowsSyntaxError message l c)
    /\ (l + c <= 5)%nat.
Proof.
  set (host := object_prototype (fun _ => [])).
  unfold parse_with.
  destruct (emit_grammar foo_bar_grammar default_options) as [p| |] eqn:Hp;
    [|vm_compute in Hp; discriminate Hp..].
  destruct (parse_outcomes host foo_bar_grammar default_options p no_user_code
              40 (js "fox") (Some (js "toString")) Hp) as (_ & _ & _ & Herr).
  destruct (parse host p no_user_code 40 (js "fox") (Some (js "toString")))
    as [r|a|message l c|m| |] eqn:Hparse.
  - vm_compute in Hp. injection Hp as <-. vm_compute in Hparse.
    discriminate Hparse.
  - vm_compute in Hp. injection Hp as <-. vm_compute in Hparse.
    discriminate Hparse.
  - exists message, l, c. split; [reflexivity|].
    by destruct (Herr message l c eq_refl) as (_ & _ & Hlc).
  - vm_compute in Hp. injection Hp as <-. vm_compute in Hparse.
    discriminate Hparse.
  - vm_compute in Hp. injection Hp as <-. vm_compute in Hparse.
    discriminate Hparse.
  - vm_compute in Hp. injection Hp as <-. vm_compute in Hparse.
    discriminate Hparse.
Defined.

(** ** The values of matches *)

Lemma child_facts prog user input e ctx c m fr st fr' st' :
  emitted_functions prog ->
  emit e ctx = Some c -> cache_ok (cache st) ->
  exec prog user input true m c fr st = Done fr' st' ->
  (matched ctx st fr' st' \/ not_matched ctx st fr' st')
  /\ cache_ok (cache st')
  /\ slots_below_kept (resultIndex ctx) (posIndex ctx) fr fr'.
Proof.
  intros Hprog He Hc H.
  destruct (contract_all prog user input Hprog (S m) m e ctx c fr st fr' st'
              ltac:(lia) He Hc H) as [Hres Hc'].
  split; [done|]. split; [done|].
  eapply exec_slots_below_kept; [|exact H]. by apply (emit_slots e).
Qed.

Lemma is_null_false v : v <> VNull -> is_null v = false.
Proof. by destruct v. Qed.

Lemma is_null_true v : is_null v = true -> v = VNull.
Proof. by destruct v. Qed.

Lemma choice_shape input p l v :
  match_value_shape input p (choice l) v = some_alternative_shape input p l v.
Proof. induction l as [|a l IH]; [done|]. cbn in *. by rewrite IH. Qed.

(** The loop of [zero_or_more] and [one_or_more] appends values that are
    not [null] to the array, at least one if it is entered. *)
Lemma star_loop_items prog user input e ctx c :
  emitted_functions prog ->
  emit e {| resultIndex := resultIndex ctx + 1; posIndex := posIndex ctx |}
  = Some c ->
  forall n fr st fr' st' acc,
    cache_ok (cache st) ->
    get_result fr (resultIndex ctx) = VArr acc ->
    exec prog user input true n
      (s_while (result_not_null (resultIndex ctx + 1))
         (block [s_push (resultIndex ctx) (resultIndex ctx + 1); c]))
      fr st = Done fr' st' ->
    exists more,
      get_result fr' (resultIndex ctx) = VArr (acc ++ more)
      /\ Forall not_null more
      /\ (get_result fr (resultIndex ctx + 1) <> VNull -> more <> []).
Proof.
  intros Hprog He. induction n as [n IH] using lt_wf_ind.
  intros fr st fr' st' acc Hc Hacc H.
  apply exec_while_inv in H as (m & Hm & H). cbn [eval_cond] in H.
  destruct (is_null (get_result fr (resultIndex ctx + 1))) eqn:Hnull;
    cbn [negb] in H.
  - destruct H as [-> ->]. exists []. rewrite app_nil_r.
    split; [done|]. split; [constructor|].
    intros Hnn. apply is_null_true in Hnull. done.
  - destruct H as (fr3 & st3 & Hbody & Hloop).
    inv_seq Hbody as m1 fr1 st1 H1. inv_line H1. rewrite Hacc in H1.
    injection H1 as <- <-. inv_seq Hbody as m2 fr2 st2 H2. inv_skip Hbody.
    destruct (child_facts prog user input e _ c _ _ _ _ _ Hprog He Hc H2)
      as (_ & Hc' & Hkept).
    assert (Harr : get_result fr2 (resultIndex ctx)
                   = VArr (acc ++ [get_result fr (resultIndex ctx + 1)])).
    { rewrite (get_result_kept _ _ _ _ _ Hkept) by (cbn; lia).
      apply get_result_set_same. }
    destruct (IH m Hm fr2 st2 fr' st' _ Hc' Harr Hloop)
      as (more & Hfinal & Hmore & _).
    exists (get_result fr (resultIndex ctx + 1) :: more).
    split; [by rewrite Hfinal, <- app_assoc|].
    split; [|done]. constructor; [|done].
    intros Hv. by rewrite Hv in Hnull.
Qed.

(** The code of the elements of a [sequence], from element [i] on, given
    that the elements before have matched. *)
Lemma elements_items prog user input total ctx :
  emitted_functions prog ->
  forall l i code n fr st fr' st',
    elements_code total ctx i l = Some code ->
    cache_ok (cache st) ->
    (forall j, (j < i)%nat -> get_result fr (resultIndex ctx + j) <> VNull) ->
    (i + List.length l = total)%nat ->
    exec prog user input true n code fr st = Done fr' st' ->
    get_result fr' (resultIndex ctx) <> VNull ->
    exists items, get_result fr' (resultIndex ctx) = VArr items
      /\ List.length items = total /\ Forall not_null items.
Proof.
  intros Hprog.
  induction l as [|e l IH]; intros i code n fr st fr' st' Hcode Hc Hbefore Hlen H Hnn;
    cbn [elements_code] in Hcode.
  - injection Hcode as <-. inv_line H. injection H as <- <-.
    rewrite get_result_set_same. eexists. split; [reflexivity|].
    cbn in Hlen. split; [by rewrite length_map, length_seq|].
    apply Forall_map, Forall_forall. intros x Hx%elem_of_seq.
    replace x with (resultIndex ctx + (x - resultIndex ctx))%nat by lia.
    apply Hbefore. lia.
  - destruct (elements_code total ctx (S i) l) as [rest|] eqn:Hrest;
      [|discriminate].
    destruct (emit e _) as [c|] eqn:He; [|discriminate].
    injection Hcode as <-.
    inv_seq H as m1 fr1 st1 H1. inv_seq H as m2 fr2 st2 H2. inv_skip H.
    inv_if H2 as m3.
    destruct (child_facts prog user input e _ c _ _ _ _ _ Hprog He Hc H1)
      as (_ & Hc' & Hkept).
    cbn [eval_cond] in H2.
    destruct (is_null (get_result fr1 (resultIndex ctx + i))) eqn:Hnull;
      cbn [negb] in H2.
    + inv_seq H2 as m4 fr4 st4 H4. inv_line H4. injection H4 as <- <-.
      inv_seq H2 as m5 fr5 st5 H5. inv_skip H2. inv_line H5.
      destruct (positions _ !! _); [|discriminate H5].
      injection H5 as <- <-. by rewrite get_result_set_same in Hnn.
    + apply (IH (S i) rest m3 fr1 st1 fr2 st2 Hrest Hc'); [|cbn in Hlen; lia|done|done].
      intros j Hj. destruct (decide (j = i)) as [->|Hne].
      * intros Hv. by rewrite Hv in Hnull.
      * rewrite (get_result_kept _ _ _ _ _ Hkept) by (cbn; lia).
        apply Hbefore. lia.
Qed.

Lemma alternatives_values prog user input ctx :
  emitted_functions prog ->
  forall l,
  Forall (fun e => forall ctx s fuel fr st fr' st',
            emit e ctx = Some s -> cache_ok (cache st) ->
            exec prog user input true fuel s fr st = Done fr' st' ->
            get_result fr' (resultIndex ctx) <> VNull ->
            match_value_shape input (pos st) e
              (get_result fr' (resultIndex ctx))) l ->
  forall code fuel fr st fr' st',
    alternatives_code ctx l = Some code -> cache_ok (cache st) ->
    exec prog user input true fuel code fr st = Done fr' st' ->
    get_result fr' (resultIndex ctx) <> VNull ->
    some_alternative_shape input (pos st) l (get_result fr' (resultIndex ctx)).
Proof.
  intros Hprog. induction l as [|e l IH]; intros Hall code fuel fr st fr' st' Hcode Hc H Hnn;
    [discriminate|].
  inversion Hall as [|? ? He Hl]; subst. cbn [alternatives_code] in Hcode.
  destruct l as [|e' l'].
  - destruct (emit e ctx) as [current|] eqn:Hcur; [|discriminate].
    injection Hcode as <-.
    inv_seq H as m1 fr1 st1 H1. inv_seq H as m2 fr2 st2 H2. inv_skip H.
    inv_skip H2. left. by eapply He.
  - destruct (alternatives_code ctx (e' :: l')) as [rest|] eqn:Hrest;
      [|discriminate].
    destruct (emit e ctx) as [current|] eqn:Hcur; [|discriminate].
    injection Hcode as <-.
    inv_seq H as m1 fr1 st1 H1. inv_seq H as m2 fr2 st2 H2. inv_skip H.
    inv_if H2 as m3. cbn [eval_cond] in H2.
    destruct (child_facts prog user input e ctx current _ _ _ _ _ Hprog Hcur Hc H1)
      as (Hres & Hc' & _).
    destruct (is_null (get_result fr1 (resultIndex ctx))) eqn:Hnull.
    + right. apply is_null_true in Hnull.
      destruct Hres as [[Hv _]|[_ Hp]]; [done|]. rewrite <- Hp.
      by apply (IH Hl rest m3 fr1 st1 fr2 st2).
    + inv_skip H2. left. by eapply He.
Qed.

Lemma match_values_all prog user input e :
  emitted_functions prog ->
  forall ctx s fuel fr st fr' st',
    emit e ctx = Some s -> cache_ok (cache st) ->
    exec prog user input true fuel s fr st = Done fr' st' ->
    get_result fr' (resultIndex ctx) <> VNull ->
    match_value_shape input (pos st) e (get_result fr' (resultIndex ctx)).
Proof.
  intros Hprog.
  induction e as [l IH|l IH|lbl e IH|e IH|e IH|c|c|e IH|e IH|e IH|e c IH|r|v| |p i t]
    using expr_nested_ind; intros ctx s fuel fr st fr' st' He Hc H Hnn.
  - (* choice *)
    rewrite emit_choice in He. rewrite choice_shape.
    by apply (alternatives_values prog user input ctx Hprog l IH s fuel fr st fr' st').
  - (* sequence *)
    rewrite emit_sequence in He.
    destruct (elements_code _ ctx 0 l) as [code|] eqn:Hcode; [|discriminate].
    injection He as <-.
    inv_seq H as m1 fr1 st1 H1. inv_line H1. injection H1 as <- <-.
    inv_seq H as m2 fr2 st2 H2. inv_skip H.
    cbn [match_value_shape].
    apply (elements_items prog user input (List.length l) ctx Hprog l 0 code
             m2 (set_position (posIndex ctx) (pos st) fr) st fr2 st2 Hcode Hc);
      [|done|done|done].
    intros j Hj. lia.
  - (* labeled *)
    cbn [emit] in He. cbn [match_value_shape]. by eapply IH.
  - (* simple_and *)
    destruct (predicate_code e ctx false s He) as (c & Hchild & ->).
    destruct (predicate_run prog user input e ctx c false _ _ _ _ _ Hprog
                Hchild H) as (m & fr3 & st3 & _ & _ & Hres).
    cbn [match_value_shape]. rewrite Hres in Hnn |- *.
    by destruct (xorb _ _).
  - (* simple_not *)
    destruct (predicate_code e ctx true s He) as (c & Hchild & ->).
    destruct (predicate_run prog user input e ctx c true _ _ _ _ _ Hprog
                Hchild H) as (m & fr3 & st3 & _ & _ & Hres).
    cbn [match_value_shape]. rewrite Hres in Hnn |- *.
    by destruct (xorb _ _).
  - (* semantic_and *)
    injection He as <-. inv_line H. injection H as <- <-.
    rewrite get_result_set_same in Hnn |- *. cbn. by destruct (xorb _ _).
  - (* semantic_not *)
    injection He as <-. inv_line H. injection H as <- <-.
    rewrite get_result_set_same in Hnn |- *. cbn. by destruct (xorb _ _).
  - (* optional *)
    cbn [emit] in He. destruct (emit e ctx) as [c|] eqn:Hchild; [|discriminate].
    injection He as <-.
    inv_seq H as m1 fr1 st1 H1. inv_seq H as m2 fr2 st2 H2. inv_skip H.
    inv_line H2. injection H2 as <- <-.
    rewrite get_result_set_same. cbn [match_value_shape].
    destruct (is_null (get_result fr1 (resultIndex ctx))) eqn:Hnull;
      [by left|right].
    eapply IH; [exact Hchild|exact Hc|exact H1|].
    intros Hv. by rewrite Hv in Hnull.
  - (* zero_or_more *)
    cbn [emit] in He. destruct (emit e _) as [c|] eqn:Hchild; [|discriminate].
    injection He as <-.
    inv_seq H as m1 fr1 st1 H1. inv_line H1. injection H1 as <- <-.
    inv_seq H as m2 fr2 st2 H2. inv_seq H as m3 fr3 st3 H3. inv_skip H.
    destruct (child_facts prog user input e _ c _ _ _ _ _ Hprog Hchild Hc H2)
      as (_ & Hc' & Hkept).
    assert (Harr : get_result fr2 (resultIndex ctx) = VArr []).
    { rewrite (get_result_kept _ _ _ _ _ Hkept) by (cbn; lia).
      apply get_result_set_same. }
    destruct (star_loop_items prog user input e ctx c Hprog Hchild m3 fr2 st2
                fr3 st3 [] Hc' Harr H3) as (more & Hfinal & Hmore & _).
    cbn [match_value_shape]. by exists more.
  - (* one_or_more *)
    cbn [emit] in He. destruct (emit e _) as [c|] eqn:Hchild; [|discriminate].
    injection He as <-.
    inv_seq H as m1 fr1 st1 H1. inv_seq H as m2 fr2 st2 H2. inv_skip H.
    inv_if H2 as m3. cbn [eval_cond] in H2.
    destruct (child_facts prog user input e _ c _ _ _ _ _ Hprog Hchild Hc H1)
      as (_ & Hc' & _).
    destruct (is_null (get_result fr1 (resultIndex ctx + 1))) eqn:Hnull;
      cbn [negb] in H2.
    + inv_line H2. injection H2 as <- <-.
      by rewrite get_result_set_same in Hnn.
    + inv_seq H2 as m4 fr4 st4 H4. inv_line H4. injection H4 as <- <-.
      inv_seq H2 as m5 fr5 st5 H5. inv_skip H2.
      destruct (star_loop_items prog user input e ctx c Hprog Hchild m5 _ st1
                  fr5 st5 [] Hc' (get_result_set_same _ _ _) H5)
        as (more & Hfinal & Hmore & Hne).
      cbn [match_value_shape]. exists more. split; [done|]. split; [|done].
      apply Hne. rewrite get_result_set_other by lia.
      intros Hv. by rewrite Hv in Hnull.
  - (* action *) exact I.
  - (* rule_ref *) exact I.
  - (* literal *)
    cbn [emit] in He. cbn [match_value_shape].
    destruct (List.length v =? 0)%nat eqn:Hlen.
    + injection He as <-. inv_line H. injection H as <- <-.
      apply Nat.eqb_eq in Hlen. destruct v; [|done].
      apply get_result_set_same.
    + injection He as <-. inv_if H as m.
      destruct (eval_cond input _ fr st).
      * inv_seq H as m1 fr1 st1 H1. inv_line H1. injection H1 as <- <-.
        inv_seq H as m2 fr2 st2 H2. inv_line H2. injection H2 as <- <-.
        inv_skip H. apply get_result_set_same.
      * inv_seq H as m1 fr1 st1 H1. inv_line H1. injection H1 as <- <-.
        inv_seq H as m2 fr2 st2 H2.
        apply report_failure_inv in H2 as (-> & _). inv_skip H.
        by rewrite get_result_set_same in Hnn.
  - (* any *)
    injection He as <-. inv_if H as m. cbn [match_value_shape eval_cond] in *.
    destruct (pos st <? List.length input)%nat eqn:Hpos.
    + inv_seq H as m1 fr1 st1 H1. inv_line H1. injection H1 as <- <-.
      inv_seq H as m2 fr2 st2 H2. inv_line H2. injection H2 as <- <-.
      inv_skip H. rewrite get_result_set_same. unfold charAt.
      apply Nat.ltb_lt, lookup_lt_is_Some in Hpos. destruct Hpos as [x Hx].
      rewrite Hx. by exists x.
    + inv_seq H as m1 fr1 st1 H1. inv_line H1. injection H1 as <- <-.
      inv_seq H as m2 fr2 st2 H2.
      apply report_failure_inv in H2 as (-> & _). inv_skip H.
      by rewrite get_result_set_same in Hnn.
  - (* class *)
    injection He as <-. inv_if H as m. cbn [match_value_shape eval_cond] in *.
    destruct (input !! pos st) as [x|] eqn:Hx.
    + destruct (class_matches p i x).
      * inv_seq H as m1 fr1 st1 H1. inv_line H1. injection H1 as <- <-.
        inv_seq H as m2 fr2 st2 H2. inv_line H2. injection H2 as <- <-.
        inv_skip H. rewrite get_result_set_same. unfold charAt.
        rewrite Hx. by exists x.
      * inv_seq H as m1 fr1 st1 H1. inv_line H1. injection H1 as <- <-.
        inv_seq H as m2 fr2 st2 H2.
        apply report_failure_inv in H2 as (-> & _). inv_skip H.
        by rewrite get_result_set_same in Hnn.
    + inv_seq H as m1 fr1 st1 H1. inv_line H1. injection H1 as <- <-.
      inv_seq H as m2 fr2 st2 H2.
      apply report_failure_inv in H2 as (-> & _). inv_skip H.
      by rewrite get_result_set_same in Hnn.
Qed.

(** What a match is worth: a [sequence] yields an array with one value per
    element, none of them [null]; [zero_or_more] and [one_or_more] yield
    arrays of values that are not [null], the latter not empty; the
    predicates yield the empty string; a [literal] yields itself; [any]
    and a class yield the character at the entry position; an [optional]
    yields the empty string or what its expression yields, a [choice] what
    one of its alternatives yields, a label what its expression yields. *)
Theorem match_values prog user input e ctx s fuel fr st fr' st' :
  emitted_functions prog ->
  emit e ctx = Some s -> cache_ok (cache st) ->
  exec prog user input true fuel s fr st = Done fr' st' ->
  get_result fr' (resultIndex ctx) <> VNull ->
  match_value_shape input (pos st) e (get_result fr' (resultIndex ctx)).
Proof. intros Hprog. by apply match_values_all. Qed.

Lemma match_values_witness :
  exists fr' st' items,
    exec (functions_of foo_bar_grammar) no_user_code (js "foobar") true 40
      (code_of (sequence [rule_ref (js "a"); zero_or_more any]) ctx0)
      empty_frame initial_pstate = Done fr' st'
    /\ get_result fr' 0 = VArr items /\ List.length items = 2%nat.
Proof.
  set (e := sequence [rule_ref (js "a"); zero_or_more any]).
  destruct (exec (functions_of foo_bar_grammar) no_user_code (js "foobar") true
              40 (code_of e ctx0) empty_frame initial_pstate)
    as [fr' st'| |] eqn:H; [|vm_compute in H; discriminate H..].
  assert (Hnn : get_result fr' (resultIndex ctx0) <> VNull).
  { vm_compute in H. injection H as <- _. vm_compute. discriminate. }
  destruct (match_values (functions_of foo_bar_grammar) no_user_code
              (js "foobar") e ctx0 (code_of e ctx0) 40 empty_frame
              initial_pstate fr' st' (functions_of_emitted foo_bar_grammar)
              eq_refl cache_ok_empty H Hnn) as (items & Hv & Hlen & _).
  by exists fr', st', items.
Defined.

(** ** Actions *)

Lemma sequence_params_labels ri elements : forall i,
  sequence_params i ri elements
  = (map snd (labels_from i elements),
     map (fun il => actual_item ri (fst il)) (labels_from i elements)).
Proof.
  induction elements as [|e l IH]; intros i; [done|].
  cbn [sequence_params labels_from]. rewrite (IH (S i)).
  by destruct e.
Qed.

Lemma action_params_call e ri fr :
  (fst (action_params e ri),
   map (eval_actual fr) (snd (action_params e ri)))
  = action_call e (get_result fr ri).
Proof.
  destruct e; try reflexivity.
  cbn [action_params action_call]. rewrite sequence_params_labels.
  cbn [fst snd]. by rewrite map_map.
Qed.

(** An action runs the text of its expression.  If that matched with the
    value [v], the action is called: on a sequence, with the values of the
    labeled elements, under their labels and in their order; on a labeled
    expression, with [v] under the label; otherwise without arguments.
    What it returns is the result; if that is [null], [pos] goes back to
    its entry value.  If the expression did not match, the action is not
    called and the result is [null]. *)
Theorem action_arguments prog user input e code ctx s fuel fr st fr' st' :
  emitted_functions prog ->
  emit (action e code) ctx = Some s -> cache_ok (cache st) ->
  exec prog user input true fuel s fr st = Done fr' st' ->
  exists c m fr1 st1,
    emit e {| resultIndex := resultIndex ctx; posIndex := posIndex ctx + 1 |}
    = Some c
    /\ exec prog user input true m c
         (set_position (posIndex ctx) (pos st) fr) st = Done fr1 st1
    /\ let v := get_result fr1 (resultIndex ctx) in
       if is_null v
       then get_result fr' (resultIndex ctx) = VNull /\ pos st' = pos st
       else get_result fr' (resultIndex ctx)
            = run_action user code (fst (action_call e v)) (snd (action_call e v))
            /\ (get_result fr' (resultIndex ctx) <> VNull -> st' = st1)
            /\ (get_result fr' (resultIndex ctx) = VNull -> pos st' = pos st).
Proof.
  intros Hprog He Hc H. cbn [emit] in He.
  pose proof (fun fr => action_params_call e (resultIndex ctx) fr) as Hcall.
  destruct (action_params e (resultIndex ctx)) as [formals actuals].
  cbn [fst snd] in Hcall.
  destruct (emit e _) as [c|] eqn:Hchild; [|discriminate].
  injection He as <-.
  inv_seq H as m1 fr1 st1 H1. inv_line H1. injection H1 as <- <-.
  inv_seq H as m2 fr2 st2 H2.
  inv_seq H as m3 fr3 st3 H3. inv_seq H as m4 fr4 st4 H4. inv_skip H.
  exists c, m2, fr2, st2. split; [done|]. split; [exact H2|]. cbn zeta.
  destruct (child_facts prog user input e _ c _ _ _ _ _ Hprog Hchild Hc H2)
    as (Hres & _ & Hkept).
  pose proof (positions_kept _ _ _ _ (posIndex ctx) Hkept ltac:(cbn; lia))
    as Hsaved.
  cbn in Hsaved. rewrite lookup_insert_eq in Hsaved.
  inv_if H3 as m5. inv_if H4 as m6. cbn [eval_cond] in H3, H4.
  destruct (is_null (get_result fr2 (resultIndex ctx))) eqn:Hnull;
    cbn [negb] in H3.
  - inv_skip H3. rewrite Hnull in H4. inv_line H4.
    rewrite Hsaved in H4. injection H4 as <- <-.
    split; [by apply is_null_true|done].
  - inv_line H3. injection H3 as <- <-.
    rewrite get_result_set_same in H4.
    assert (Hval : get_result
                     (set_result (resultIndex ctx)
                        (run_action user code formals
                           (map (eval_actual fr2) actuals)) fr2)
                     (resultIndex ctx)
                   = run_action user code
                       (fst (action_call e (get_result fr2 (resultIndex ctx))))
                       (snd (action_call e (get_result fr2 (resultIndex ctx))))).
    { rewrite get_result_set_same, <- (Hcall fr2). done. }
    destruct (is_null (run_action user code formals
                         (map (eval_actual fr2) actuals))) eqn:Hnull'.
    + inv_line H4. cbn [positions set_result] in H4. rewrite Hsaved in H4.
      injection H4 as <- <-.
      split; [exact Hval|]. split; [|done].
      rewrite get_result_set_same. intros Hnn.
      apply is_null_true in Hnull'. done.
    + inv_skip H4. split; [exact Hval|]. split; [done|].
      rewrite get_result_set_same. intros Hv. by rewrite Hv in Hnull'.
Qed.

Lemma action_arguments_witness :
  exists fr' st',
    exec [] no_user_code (js "ab") true 40
      (code_of (action (sequence [labeled (js "x") (literal (js "a"));
                                  literal (js "b")]) (js "return x")) ctx0)
      empty_frame initial_pstate = Done fr' st'
    /\ get_result fr' 0 = VArr [VStr (js "a")].
Proof.
  set (e := sequence [labeled (js "x") (literal (js "a")); literal (js "b")]).
  destruct (exec [] no_user_code (js "ab") true 40
              (code_of (action e (js "return x")) ctx0) empty_frame
              initial_pstate) as [fr' st'| |] eqn:H;
    [|vm_compute in H; discriminate H..].
  assert (Hprog : emitted_functions []) by (by intros fn []).
  destruct (action_arguments [] no_user_code (js "ab") e (js "return x") ctx0
              (code_of (action e (js "return x")) ctx0) 40 empty_frame
              initial_pstate fr' st' Hprog eq_refl cache_ok_empty H)
    as (c & m & fr1 & st1 & Hc & H1 & Hv).
  exists fr', st'. split; [reflexivity|].
  vm_compute in H. by injection H as <- _.
Defined.

(** ** Run-time errors *)

Ltac fuel :=
  match goal with
  | |- exec _ _ _ _ ?j _ _ _ <> Fault =>
      let j' := fresh "j" in destruct j as [|j']; [done|]
  end.

Section NoFault.
Variable prog : list function_def.
Variable user : user_code.
Variable input : jsstring.
Variable memo : bool.

Abbreviation run := (exec prog user input memo).

Lemma seq_no_fault m a b fr st :
  run m a fr st <> Fault ->
  (forall fr1 st1, run m a fr st = Done fr1 st1 -> run m b fr1 st1 <> Fault) ->
  run (S m) (s_seq a b) fr st <> Fault.
Proof.
  intros Ha Hb. cbn [exec].
  destruct (run m a fr st) as [fr1 st1| |]; [by apply Hb|done..].
Qed.

(** A text that neither pushes, nor restores [pos], nor calls has nothing
    that can go wrong. *)
Lemma plain_text_no_fault : forall m s fr st,
  plain_text s = true -> run m s fr st <> Fault.
Proof.
  induction m as [|m IH]; intros s fr st Hs; [done|].
  destruct s; cbn [plain_text] in Hs; try discriminate; cbn [exec]; try done.
  - apply andb_true_iff in Hs as [Ha Hb].
    destruct (run m s1 fr st) as [fr1 st1| |] eqn:H1;
      [by apply IH | done | by destruct (IH _ _ _ Ha H1)].
  - apply andb_true_iff in Hs as [Ha Hb].
    destruct (eval_cond input c fr st); by apply IH.
  - destruct (eval_cond input c fr st); [|done].
    destruct (run m s fr st) as [fr1 st1| |] eqn:H1;
      [by apply IH | done | by destruct (IH _ _ _ Hs H1)].
Qed.

Lemma child_keeps e ctx s j fr st fr1 st1 :
  emit e ctx = Some s -> run j s fr st = Done fr1 st1 ->
  slots_below_kept (resultIndex ctx) (posIndex ctx) fr fr1.
Proof.
  intros He H.
  exact (exec_slots_below_kept _ _ _ _ _ _ _ _ _ _ _ _ (emit_slots _ _ _ He) H).
Qed.

(** One line at the head of a text, run. *)
Ltac line_step :=
  fuel; apply seq_no_fault; [by apply plain_text_no_fault|];
  let H := fresh "Hline" in
  intros ? ? H; inv_line H; injection H as <- <-.

Variable k : nat.
Hypothesis IHk : forall j, (j < k)%nat -> no_fault_at prog user input memo j.

Lemma child_no_fault e ctx s j fr st :
  (j < k)%nat -> refs_defined prog e -> emit e ctx = Some s ->
  run j s fr st <> Fault.
Proof. intros Hj Hr He. exact (proj1 (IHk j Hj) e ctx s fr st Hr He). Qed.

Lemma alternatives_no_fault ctx l : forall code j fr st,
  (j <= k)%nat -> (forall e, In e l -> refs_defined prog e) ->
  alternatives_code ctx l = Some code -> run j code fr st <> Fault.
Proof.
  induction l as [|e l IH]; intros code j fr st Hj Hl; [discriminate|].
  cbn [alternatives_code]. destruct l as [|e' l'].
  - destruct (emit e ctx) as [current|] eqn:Hc; [|discriminate].
    intros [= <-]. cbn [block fold_right].
    destruct j as [|j]; [done|]. apply seq_no_fault.
    + apply (child_no_fault e ctx); [lia|apply Hl; by left|done].
    + intros fr1 st1 _. by apply plain_text_no_fault.
  - destruct (alternatives_code ctx (e' :: l')) as [rest|] eqn:Hrest;
      [|discriminate].
    destruct (emit e ctx) as [current|] eqn:Hc; [|discriminate].
    intros [= <-]. cbn [block fold_right].
    destruct j as [|j]; [done|]. apply seq_no_fault.
    + apply (child_no_fault e ctx); [lia|apply Hl; by left|done].
    + intros fr1 st1 _. destruct j as [|j]; [done|]. apply seq_no_fault.
      * destruct j as [|j]; [done|]. cbn [exec].
        destruct (eval_cond input _ fr1 st1);
          [|by apply plain_text_no_fault].
        apply IH; [lia| |done]. intros e0 He0. apply Hl. by right.
      * intros fr2 st2 _. by apply plain_text_no_fault.
Qed.

Lemma elements_no_fault total ctx l : forall i code j fr st,
  (j <= k)%nat -> (forall e, In e l -> refs_defined prog e) ->
  elements_code total ctx i l = Some code ->
  is_Some (positions fr !! posIndex ctx) ->
  run j code fr st <> Fault.
Proof.
  induction l as [|e l IH]; intros i code j fr st Hj Hl; cbn [elements_code].
  - intros [= <-] _. by apply plain_text_no_fault.
  - destruct (elements_code total ctx (S i) l) as [rest|] eqn:Hrest;
      [|discriminate].
    destruct (emit e _) as [c|] eqn:Hc; [|discriminate].
    intros [= <-] Hsaved. cbn [block fold_right].
    destruct j as [|j]; [done|]. apply seq_no_fault.
    + eapply child_no_fault; [lia|apply Hl; by left|exact Hc].
    + intros fr1 st1 H1.
      pose proof (positions_kept _ _ _ _ (posIndex ctx)
                    (child_keeps _ _ _ _ _ _ _ _ Hc H1) ltac:(cbn; lia))
        as Hkept.
      destruct j as [|j]; [done|]. apply seq_no_fault.
      * destruct j as [|j]; [done|]. cbn [exec].
        destruct (eval_cond input _ fr1 st1).
        -- apply (IH (S i)); [lia| |done|by rewrite Hkept].
           intros e0 He0. apply Hl. by right.
        -- destruct j as [|j]; [done|]. apply seq_no_fault;
             [by apply plain_text_no_fault|].
           intros fr2 st2 H2. inv_line H2. injection H2 as <- <-.
           destruct j as [|j]; [done|]. apply seq_no_fault;
             [|intros; by apply plain_text_no_fault].
           destruct j as [|j]; [done|]. cbn [exec set_result positions].
           rewrite Hkept. by destruct Hsaved as [p ->].
      * intros fr2 st2 _. by apply plain_text_no_fault.
Qed.

(** The loop of a repetition, entered with an array in [resultN]. *)
Lemma star_loop_no_fault e ctx c :
  refs_defined prog e ->
  emit e {| resultIndex := resultIndex ctx + 1; posIndex := posIndex ctx |}
  = Some c ->
  forall j fr st,
    (j <= k)%nat ->
    (exists items, get_result fr (resultIndex ctx) = VArr items) ->
    run j
      (s_while (result_not_null (resultIndex ctx + 1))
         (block [s_push (resultIndex ctx) (resultIndex ctx + 1); c]))
      fr st <> Fault.
Proof.
  intros Hr Hc. induction j as [|j IH]; intros fr st Hj [items Harr]; [done|].
  cbn [exec]. destruct (eval_cond input _ fr st); [|done].
  destruct (run j _ fr st) as [fr1 st1| |] eqn:Hbody; [|done|].
  - apply IH; [lia|].
    cbn [block fold_right] in Hbody.
    inv_seq Hbody as m1 fr2 st2 H1. inv_line H1. rewrite Harr in H1.
    injection H1 as <- <-.
    inv_seq Hbody as m2 fr3 st3 H2. inv_skip Hbody.
    pose proof (get_result_kept _ _ _ _ (resultIndex ctx)
                  (child_keeps _ _ _ _ _ _ _ _ Hc H2) ltac:(cbn; lia)) as Hkept.
    rewrite Hkept, get_result_set_same. by eexists.
  - exfalso. revert Hbody. cbn [block fold_right].
    destruct j as [|j]; [done|]. apply seq_no_fault.
    + destruct j as [|j]; [done|]. cbn [exec]. by rewrite Harr.
    + intros fr2 st2 _. destruct j as [|j]; [done|]. apply seq_no_fault.
      * eapply child_no_fault; [lia|exact Hr|exact Hc].
      * intros; by apply plain_text_no_fault.
Qed.

Lemma emit_no_fault e : forall ctx s j fr st,
  (j <= k)%nat -> refs_defined prog e -> emit e ctx = Some s ->
  run j s fr st <> Fault.
Proof.
  induction e as [l|l|lbl e IH|e IH|e IH|c|c|e IH|e IH|e IH|e IH c|r|v| |p i t];
    intros ctx s j fr st Hj Hr He.
  - rewrite emit_choice in He.
    apply (alternatives_no_fault ctx l s j fr st Hj); [|exact He].
    intros e He0 n Hn. apply Hr. cbn [refs]. apply in_flat_map. eauto.
  - rewrite emit_sequence in He.
    destruct (elements_code _ ctx 0 l) as [code|] eqn:Hcode; [|discriminate].
    injection He as <-. cbn [block fold_right].
    line_step. fuel. apply seq_no_fault;
      [|intros; by apply plain_text_no_fault].
    eapply elements_no_fault; [lia| |exact Hcode|].
    + intros e He0 n Hn. apply Hr. cbn [refs]. apply in_flat_map. eauto.
    + cbn [positions set_position]. rewrite lookup_insert_eq. by eexists.
  - cbn [emit] in He. by apply (IH ctx).
  - cbn [emit] in He. destruct (emit e _) as [code|] eqn:Hc; [|discriminate].
    injection He as <-. cbn [block fold_right].
    line_step. line_step. fuel. apply seq_no_fault; [eapply IH; [lia|exact Hr|exact Hc]|].
    intros fr1 st1 H1.
    pose proof (positions_kept _ _ _ _ (posIndex ctx)
                  (child_keeps _ _ _ _ _ _ _ _ Hc H1) ltac:(cbn; lia)) as Hkept.
    cbn [positions set_position] in Hkept. rewrite lookup_insert_eq in Hkept.
    line_step. fuel. apply seq_no_fault;
      [|intros; by apply plain_text_no_fault].
    fuel. cbn [exec]. destruct (eval_cond input _ _ _);
      [|by apply plain_text_no_fault].
    line_step. fuel. apply seq_no_fault;
      [|intros; by apply plain_text_no_fault].
    fuel. cbn [exec set_result positions]. by rewrite Hkept.
  - cbn [emit] in He. destruct (emit e _) as [code|] eqn:Hc; [|discriminate].
    injection He as <-. cbn [block fold_right].
    line_step. line_step. fuel. apply seq_no_fault; [eapply IH; [lia|exact Hr|exact Hc]|].
    intros fr1 st1 H1.
    pose proof (positions_kept _ _ _ _ (posIndex ctx)
                  (child_keeps _ _ _ _ _ _ _ _ Hc H1) ltac:(cbn; lia)) as Hkept.
    cbn [positions set_position] in Hkept. rewrite lookup_insert_eq in Hkept.
    line_step. fuel. apply seq_no_fault;
      [|intros; by apply plain_text_no_fault].
    fuel. cbn [exec]. destruct (eval_cond input _ _ _);
      [by apply plain_text_no_fault|].
    line_step. fuel. apply seq_no_fault;
      [|intros; by apply plain_text_no_fault].
    fuel. cbn [exec set_result positions]. by rewrite Hkept.
  - injection He as <-. by apply plain_text_no_fault.
  - injection He as <-. by apply plain_text_no_fault.
  - cbn [emit] in He. destruct (emit e ctx) as [code|] eqn:Hc; [|discriminate].
    injection He as <-. cbn [block fold_right].
    fuel. apply seq_no_fault; [eapply IH; [lia|exact Hr|exact Hc]|].
    intros; by apply plain_text_no_fault.
  - cbn [emit] in He. destruct (emit e _) as [code|] eqn:Hc; [|discriminate].
    injection He as <-. cbn [block fold_right].
    line_step. fuel. apply seq_no_fault; [eapply IH; [lia|exact Hr|exact Hc]|].
    intros fr1 st1 H1.
    pose proof (get_result_kept _ _ _ _ (resultIndex ctx)
                  (child_keeps _ _ _ _ _ _ _ _ Hc H1) ltac:(cbn; lia)) as Hkept.
    rewrite get_result_set_same in Hkept.
    fuel. apply seq_no_fault; [|intros; by apply plain_text_no_fault].
    apply (star_loop_no_fault e ctx code Hr Hc); [lia|by eexists].
  - cbn [emit] in He. destruct (emit e _) as [code|] eqn:Hc; [|discriminate].
    injection He as <-. cbn [block fold_right].
    fuel. apply seq_no_fault; [eapply IH; [lia|exact Hr|exact Hc]|].
    intros fr1 st1 H1.
    fuel. apply seq_no_fault; [|intros; by apply plain_text_no_fault].
    fuel. cbn [exec]. destruct (eval_cond input _ _ _);
      [|by apply plain_text_no_fault].
    line_step. fuel. apply seq_no_fault;
      [|intros; by apply plain_text_no_fault].
    apply (star_loop_no_fault e ctx code Hr Hc); [lia|].
    rewrite get_result_set_same. by eexists.
  - cbn [emit] in He. destruct (action_params e _) as [formals actuals].
    destruct (emit e _) as [code|] eqn:Hc; [|discriminate].
    injection He as <-. cbn [block fold_right].
    line_step. fuel. apply seq_no_fault; [eapply IH; [lia|exact Hr|exact Hc]|].
    intros fr1 st1 H1.
    pose proof (positions_kept _ _ _ _ (posIndex ctx)
                  (child_keeps _ _ _ _ _ _ _ _ Hc H1) ltac:(cbn; lia)) as Hkept.
    cbn [positions set_position] in Hkept. rewrite lookup_insert_eq in Hkept.
    fuel. apply seq_no_fault; [by apply plain_text_no_fault|].
    intros fr2 st2 H2.
    assert (Hsaved : positions fr2 !! posIndex ctx = Some (pos st)).
    { inv_if H2 as m. destruct (eval_cond input _ fr1 st1).
      - inv_line H2. by injection H2 as <- <-.
      - by inv_skip H2. }
    fuel. apply seq_no_fault; [|intros; by apply plain_text_no_fault].
    fuel. cbn [exec]. destruct (eval_cond input _ _ _);
      [|by apply plain_text_no_fault].
    fuel. cbn [exec]. by rewrite Hsaved.
  - injection He as <-. destruct j as [|m]; [done|]. cbn [exec].
    destruct (call_function _ _ _ _ _) as [v st1| |] eqn:Hcall; try done.
    exfalso. apply (proj2 (IHk m ltac:(lia)) r st); [|exact Hcall].
    apply Hr. by left.
  - cbn [emit] in He. destruct (List.length v =? 0)%nat; injection He as <-;
      by apply plain_text_no_fault.
  - injection He as <-. by apply plain_text_no_fault.
  - injection He as <-. by apply plain_text_no_fault.
Qed.

Lemma call_no_fault n st j :
  closed_functions prog -> (j <= k)%nat -> find_function prog n <> None ->
  call prog user input memo j n st <> CallFault.
Proof.
  intros Hprog Hj Hn. unfold call, call_function.
  destruct (find_function prog n) as [fn|] eqn:Hfn; [|done].
  destruct (if memo then _ else None) as [[nextPos result]|]; [done|].
  destruct (run j (function_body fn) _ _) as [fr1 st1| |] eqn:Hbody;
    [done|done|].
  exfalso. revert Hbody.
  apply find_function_In in Hfn as [Hin _].
  destruct (Hprog fn Hin) as (r & Hr & Hrefs).
  unfold emit_rule in Hr.
  destruct (emit (expression r) _) as [code|] eqn:He; [|discriminate].
  injection Hr as <-. unfold function_body.
  cbn [fn_setReportFailuresCode fn_code fn_restoreReportFailuresCode
       fn_reportFailureCode block fold_right].
  destruct j as [|j]; [done|]. apply seq_no_fault;
    [by destruct (displayName r); apply plain_text_no_fault|].
  intros fr2 st2 _. fuel. apply seq_no_fault.
  - eapply emit_no_fault; [lia|exact Hrefs|exact He].
  - intros fr3 st3 _.
    by destruct (displayName r); apply plain_text_no_fault.
Qed.

End NoFault.

Lemma no_fault_all prog user input memo :
  closed_functions prog -> forall k, no_fault_at prog user input memo k.
Proof.
  intros Hprog k. induction k as [k IHk] using lt_wf_ind. split.
  - intros e ctx s fr st Hr He.
    by apply (emit_no_fault prog user input memo k IHk e ctx s k fr st).
  - intros n st Hn.
    by apply (call_no_fault prog user input memo k IHk n st k).
Qed.

Lemma emit_rules_In rs : forall fns fn,
  emit_rules rs = Some fns -> In fn fns ->
  exists k r, In (k, r) rs /\ emit_rule r = Some fn.
Proof.
  induction rs as [|[k r] rs IH]; intros fns fn; cbn [emit_rules].
  - by intros [= <-] [].
  - destruct (emit_rule r) as [fn0|] eqn:Hfn; [|discriminate].
    destruct (emit_rules rs) as [fns'|]; [|discriminate].
    intros [= <-] [<-|Hin].
    + exists k, r. split; [by left|done].
    + destruct (IH fns' fn eq_refl Hin) as (k' & r' & Hin' & Hr').
      exists k', r'. split; [by right|done].
Qed.

Lemma find_function_defined fns n :
  In n (map fn_name fns) <-> find_function fns n <> None.
Proof.
  unfold find_function. split.
  - intros Hin Hnone. apply in_map_iff in Hin as (fn & Hname & Hin).
    pose proof (find_none _ _ Hnone fn Hin) as Hno. cbn in Hno.
    by rewrite bool_decide_eq_false in Hno.
  - destruct (find _ fns) as [fn|] eqn:Hfind; [|done]. intros _.
    apply find_some in Hfind as [Hin Hname].
    apply bool_decide_eq_true in Hname. apply in_map_iff. by exists fn.
Qed.

(** The functions written for a grammar whose references are closed. *)
Lemma emit_grammar_closed ast opts p :
  wf_grammar ast -> closed_grammar ast -> emit_grammar ast opts = Emitted p ->
  (forall n, In n (keys (rules ast)) <-> find_function (pt_functions p) n <> None)
  /\ closed_functions (pt_functions p).
Proof.
  intros [_ Hname] [_ Hclosed]. unfold emit_grammar.
  destruct (List.length (exposed_rules ast opts) =? 0)%nat; [discriminate|].
  destruct (emit_rules (rules ast)) as [fns|] eqn:Hfns; [|discriminate].
  intros [= <-]. cbn [pt_functions].
  assert (Hkeys : map fn_name fns = keys (rules ast)).
  { rewrite (emit_rules_names _ _ Hfns). unfold keys.
    apply map_ext_in. intros [k r] Hin. cbn. by apply Hname. }
  assert (Hdef : forall n, In n (keys (rules ast)) <-> find_function fns n <> None)
    by (intros n; rewrite <- Hkeys; apply find_function_defined).
  split; [exact Hdef|].
  intros fn Hin. destruct (emit_rules_In _ _ _ Hfns Hin) as (k & r & Hr & Hfn).
  exists r. split; [exact Hfn|]. intros n Hn. apply Hdef.
  by apply (Hclosed k r).
Qed.

(** The rule functions of a grammar whose references all name rules raise
    no run-time error: no call of a rule function and no text of an
    expression over the rules of the grammar ends in one, whatever the
    input, the position and the variables; a reference to a rule that does
    not exist does, as soon as it is reached. *)
Theorem rule_functions_raise_no_error ast opts p user input memo :
  wf_grammar ast -> closed_grammar ast ->
  emit_grammar ast opts = Emitted p ->
  (forall fuel n st,
     In n (keys (rules ast)) ->
     call (pt_functions p) user input memo fuel n st <> CallFault)
  /\ (forall e ctx s fuel fr st,
        (forall n, In n (refs e) -> In n (keys (rules ast))) ->
        emit e ctx = Some s ->
        exec (pt_functions p) user input memo fuel s fr st <> Fault)
  /\ (forall n i fuel fr st,
        ~ In n (keys (rules ast)) ->
        call (pt_functions p) user input memo fuel n st = CallFault
        /\ exec (pt_functions p) user input memo (S fuel) (s_set_call i n) fr st
           = Fault).
Proof.
  intros Hwf Hclosed Hp.
  destruct (emit_grammar_closed ast opts p Hwf Hclosed Hp) as [Hdef Hprog].
  split; [|split].
  - intros fuel n st Hn.
    apply (proj2 (no_fault_all _ user input memo Hprog fuel)). by apply Hdef.
  - intros e ctx s fuel fr st Hrefs He.
    apply (proj1 (no_fault_all _ user input memo Hprog fuel) e ctx); [|done].
    intros n Hn. by apply Hdef, Hrefs.
  - intros n i fuel fr st Hn.
    assert (Hnone : find_function (pt_functions p) n = None).
    { destruct (find_function (pt_functions p) n) eqn:Hf; [|done].
      destruct Hn. apply Hdef. by rewrite Hf. }
    cbn [exec]. unfold call, call_function. by rewrite Hnone.
Qed.

Lemma rule_functions_raise_no_error_witness :
  exists result st,
    call (functions_of proxy_grammar) no_user_code (js "xy") true 40
      (js "s") initial_pstate = Returned result st.
Proof.
  destruct (rule_functions_raise_no_error proxy_grammar default_options
              {| pt_functions := functions_of proxy_grammar;
                 pt_start := table_start (keys (rules proxy_grammar)) (js "a");
                 pt_initializerCode := [] |}
              no_user_code (js "xy") true
              proxy_grammar_wf proxy_grammar_closed eq_refl) as [Hcall _].
  destruct (call (functions_of proxy_grammar) no_user_code (js "xy") true 40
              (js "s") initial_pstate) as [result st| |] eqn:H.
  - by exists result, st.
  - vm_compute in H. discriminate H.
  - destruct (Hcall 40%nat (js "s") initial_pstate); [|exact H].
    vm_compute. tauto.
Defined.

(** ** When a repetition ends *)

Section Repetition.
Variable prog : list function_def.
Variable user : user_code.
Variable input : jsstring.
Variable memo : bool.
Hypothesis Hprog : emitted_functions prog.

Abbreviation run := (exec prog user input memo).

Lemma seq_run m n a b fr st fr1 st1 fr2 st2 :
  run m a fr st = Done fr1 st1 -> run n b fr1 st1 = Done fr2 st2 ->
  run (S (m + n)) (s_seq a b) fr st = Done fr2 st2.
Proof.
  intros Ha Hb. cbn [exec].
  rewrite (exec_fuel_mono _ _ _ _ _ _ _ _ _ _ Ha (m + n)%nat ltac:(lia)).
  apply (exec_fuel_mono _ _ _ _ _ _ _ _ _ _ Hb). lia.
Qed.

Lemma while_run m n c body fr st fr1 st1 fr2 st2 :
  eval_cond input c fr st = true ->
  run m body fr st = Done fr1 st1 ->
  run n (s_while c body) fr1 st1 = Done fr2 st2 ->
  run (S (m + n)) (s_while c body) fr st = Done fr2 st2.
Proof.
  intros Hc Ha Hb. cbn [exec]. rewrite Hc.
  rewrite (exec_fuel_mono _ _ _ _ _ _ _ _ _ _ Ha (m + n)%nat ltac:(lia)).
  apply (exec_fuel_mono _ _ _ _ _ _ _ _ _ _ Hb). lia.
Qed.

Lemma in_bounds_set_result L i v fr st :
  in_bounds L fr st -> in_bounds L (set_result i v fr) st.
Proof. intros (Hp & Hr & Hk & Hcache). by repeat split. Qed.

Variable e : expr.
Variable ctx : context.
Variable c : stmt.
Hypothesis Hc :
  emit e {| resultIndex := resultIndex ctx + 1; posIndex := posIndex ctx |}
  = Some c.
(** A property of the parser state that the expression keeps, such as what
    the cache holds. *)
Variable Inv : pstate -> Prop.
(** The expression ends, and a match of it consumes input. *)
Hypothesis Hconsumes : forall fr st,
  Inv st -> in_bounds (List.length input) fr st ->
  exists fuel fr' st',
    run fuel c fr st = Done fr' st'
    /\ Inv st'
    /\ (get_result fr' (resultIndex ctx + 1) <> VNull ->
        (pos st < pos st')%nat).

Lemma star_loop_terminates : forall d fr st items,
  Inv st -> in_bounds (List.length input) fr st ->
  (List.length input - pos st <= d)%nat ->
  get_result fr (resultIndex ctx) = VArr items ->
  exists fuel fr' st' items',
    run fuel
      (s_while (result_not_null (resultIndex ctx + 1))
         (block [s_push (resultIndex ctx) (resultIndex ctx + 1); c]))
      fr st = Done fr' st'
    /\ Inv st'
    /\ get_result fr' (resultIndex ctx) = VArr items'
    /\ (if is_null (get_result fr (resultIndex ctx + 1))
        then List.length items' = List.length items
        else (List.length items + 1 <= List.length items'
              <= List.length items + S d)%nat).
Proof.
  induction d as [d IH] using lt_wf_ind. intros fr st items HI Hin Hd Harr.
  destruct (is_null (get_result fr (resultIndex ctx + 1))) eqn:Hnull.
  { exists 1%nat, fr, st, items. cbn [exec eval_cond]. by rewrite Hnull. }
  set (fr1 := set_result (resultIndex ctx)
                (VArr (items ++ [get_result fr (resultIndex ctx + 1)])) fr).
  destruct (Hconsumes fr1 st HI (in_bounds_set_result _ _ _ _ _ Hin))
    as (fc & fr2 & st2 & Hrun & HI2 & Hpos).
  assert (Hin2 : in_bounds (List.length input) fr2 st2).
  { apply (exec_in_bounds prog user input memo
             (emitted_functions_advance_guarded prog Hprog)
             fc c fr1 st fr2 st2 (emit_advances _ _ _ Hc)
             (in_bounds_set_result _ _ _ _ _ Hin) Hrun). }
  assert (Harr2 : get_result fr2 (resultIndex ctx)
                  = VArr (items ++ [get_result fr (resultIndex ctx + 1)])).
  { rewrite (get_result_kept _ _ _ _ (resultIndex ctx)
               (exec_slots_below_kept _ _ _ _ _ _ _ _ _ _ _ _
                  (emit_slots _ _ _ Hc) Hrun) ltac:(cbn; lia)).
    apply get_result_set_same. }
  assert (Hbody : run (S (1 + S (fc + 1)))
                    (block [s_push (resultIndex ctx) (resultIndex ctx + 1); c])
                    fr st = Done fr2 st2).
  { cbn [block fold_right].
    apply (seq_run 1 (S (fc + 1)) _ _ fr st fr1 st).
    - cbn [exec]. by rewrite Harr.
    - by apply (seq_run fc 1 _ _ fr1 st fr2 st2). }
  assert (Htrue : eval_cond input (result_not_null (resultIndex ctx + 1)) fr st
                  = true) by (cbn [eval_cond]; by rewrite Hnull).
  destruct (is_null (get_result fr2 (resultIndex ctx + 1))) eqn:Hnull2.
  - eexists _, fr2, st2, _. split; [|split; [exact HI2|split; [exact Harr2|]]].
    + apply (while_run _ 1 _ _ fr st fr2 st2 fr2 st2 Htrue Hbody).
      cbn [exec eval_cond]. by rewrite Hnull2.
    + rewrite length_app. cbn. lia.
  - assert (Hlt : (pos st < pos st2)%nat).
    { apply Hpos. intros Hv. by rewrite Hv in Hnull2. }
    destruct Hin2 as (Hp2 & Hrest).
    destruct (IH (List.length input - pos st2)%nat ltac:(lia) fr2 st2 _ HI2
                (conj Hp2 Hrest) ltac:(lia) Harr2)
      as (fw & fr' & st' & items' & Hloop & HI' & Harr' & Hlen).
    rewrite Hnull2, length_app in Hlen. cbn in Hlen.
    eexists _, fr', st', items'.
    split; [|split; [exact HI'|split; [exact Harr'|lia]]].
    apply (while_run _ _ _ _ fr st fr2 st2 fr' st' Htrue Hbody Hloop).
Qed.

End Repetition.

(** A repetition ends when its expression does and a match of the
    expression consumes input, from every state with a property [Inv] that
    the expression keeps (for an expression with rule references: that the
    cache holds no match of the empty string for them): the text of
    [zero_or_more] then ends with an array of at most [input.length - pos]
    values, and the text of [one_or_more] with [null] or with an array of
    at least one and at most [input.length - pos] values; both keep
    [Inv]. *)
Theorem repetition_ends_when_matches_consume prog user input memo e ctx c
  (Inv : pstate -> Prop) :
  emitted_functions prog ->
  emit e {| resultIndex := resultIndex ctx + 1; posIndex := posIndex ctx |}
  = Some c ->
  (forall fr st,
     Inv st -> in_bounds (List.length input) fr st ->
     exists fuel fr' st',
       exec prog user input memo fuel c fr st = Done fr' st'
       /\ Inv st'
       /\ (get_result fr' (resultIndex ctx + 1) <> VNull ->
           (pos st < pos st')%nat)) ->
  forall fr st,
    Inv st -> in_bounds (List.length input) fr st ->
    (exists fuel fr' st' items,
       exec prog user input memo fuel (code_of (zero_or_more e) ctx) fr st
       = Done fr' st'
       /\ Inv st'
       /\ get_result fr' (resultIndex ctx) = VArr items
       /\ (List.length items <= List.length input - pos st)%nat)
    /\ (exists fuel fr' st',
          exec prog user input memo fuel (code_of (one_or_more e) ctx) fr st
          = Done fr' st'
          /\ Inv st'
          /\ (get_result fr' (resultIndex ctx) = VNull
              \/ exists items,
                   get_result fr' (resultIndex ctx) = VArr items
                   /\ (1 <= List.length items
                       <= List.length input - pos st)%nat)).
Proof.
  intros Hprog Hc Hconsumes fr st HI Hin.
  pose proof (star_loop_terminates prog user input memo Hprog e ctx c Hc Inv
                Hconsumes) as Hloop.
  assert (Hbounds : forall fc fr0 st0 fr1 st1,
            in_bounds (List.length input) fr0 st0 ->
            exec prog user input memo fc c fr0 st0 = Done fr1 st1 ->
            in_bounds (List.length input) fr1 st1).
  { intros fc fr0 st0 fr1 st1 H0 Hrun.
    apply (exec_in_bounds prog user input memo
             (emitted_functions_advance_guarded prog Hprog)
             fc c fr0 st0 fr1 st1 (emit_advances _ _ _ Hc) H0 Hrun). }
  assert (Hkept : forall fc fr0 st0 fr1 st1,
            exec prog user input memo fc c fr0 st0 = Done fr1 st1 ->
            get_result fr1 (resultIndex ctx) = get_result fr0 (resultIndex ctx)).
  { intros fc fr0 st0 fr1 st1 Hrun.
    apply (get_result_kept _ _ _ _ (resultIndex ctx)
             (exec_slots_below_kept _ _ _ _ _ _ _ _ _ _ _ _
                (emit_slots _ _ _ Hc) Hrun)). cbn. lia. }
  unfold code_of. cbn [emit]. rewrite Hc.
  cbn [default from_option id block fold_right]. split.
  - set (fr1 := set_result (resultIndex ctx) (VArr []) fr).
    destruct (Hconsumes fr1 st HI (in_bounds_set_result _ _ _ _ _ Hin))
      as (fc & fr2 & st2 & Hrun & HI2 & Hpos).
    pose proof (Hbounds _ _ _ _ _ (in_bounds_set_result _ _ _ _ _ Hin) Hrun)
      as Hin2.
    pose proof (Hkept _ _ _ _ _ Hrun) as Harr.
    unfold fr1 in Harr. rewrite get_result_set_same in Harr.
    destruct (Hloop (List.length input - pos st2)%nat fr2 st2 [] HI2 Hin2
                ltac:(lia) Harr)
      as (fw & fr' & st' & items & Hw & HI' & Harr' & Hlen).
    eexists _, fr', st', items.
    split; [|split; [exact HI'|split; [exact Harr'|]]].
    + eapply (seq_run prog user input memo 1 _ _ _ fr st fr1 st);
        [reflexivity|].
      eapply (seq_run prog user input memo fc _ _ _ fr1 st fr2 st2 _ _ Hrun).
      eapply (seq_run prog user input memo fw 1 _ _ fr2 st2 fr' st' _ _ Hw).
      reflexivity.
    + destruct (is_null (get_result fr2 (resultIndex ctx + 1))) eqn:Hnull.
      * rewrite Hlen. cbn. lia.
      * assert ((pos st < pos st2)%nat)
          by (apply Hpos; intros Hv; by rewrite Hv in Hnull).
        destruct Hin2 as (Hp2 & _). cbn in Hlen. lia.
  - destruct (Hconsumes fr st HI Hin) as (fc & fr1 & st1 & Hrun & HI1 & Hpos).
    pose proof (Hbounds _ _ _ _ _ Hin Hrun) as Hin1.
    destruct (is_null (get_result fr1 (resultIndex ctx + 1))) eqn:Hnull.
    + eexists _, _, st1. split; [|split; [exact HI1|]].
      * eapply (seq_run prog user input memo fc _ _ _ fr st fr1 st1 _ _ Hrun).
        eapply (seq_run prog user input memo 2 1 _ _ fr1 st1
                 (set_result (resultIndex ctx) VNull fr1) st1);
          [|reflexivity].
        cbn [exec eval_cond]. by rewrite Hnull.
      * left. apply get_result_set_same.
    + set (fr2 := set_result (resultIndex ctx) (VArr []) fr1).
      assert (Hnull2 : is_null (get_result fr2 (resultIndex ctx + 1)) = false).
      { unfold fr2. rewrite get_result_set_other; [done|lia]. }
      destruct (Hloop (List.length input - pos st1)%nat fr2 st1 [] HI1
                  (in_bounds_set_result _ _ _ _ _ Hin1) ltac:(lia)
                  (get_result_set_same _ _ _))
        as (fw & fr' & st' & items & Hw & HI' & Harr' & Hlen).
      rewrite Hnull2 in Hlen. cbn in Hlen.
      assert ((pos st < pos st1)%nat)
        by (apply Hpos; intros Hv; by rewrite Hv in Hnull).
      destruct Hin1 as (Hp1 & _).
      eexists _, fr', st'. split; [|split; [exact HI'|]].
      * eapply (seq_run prog user input memo fc _ _ _ fr st fr1 st1 _ _ Hrun).
        eapply (seq_run prog user input memo (S (S (1 + S (fw + 1)))) 1 _ _
                 fr1 st1 fr' st'); [|reflexivity].
        cbn [exec eval_cond]. rewrite Hnull. cbn [negb].
        eapply (seq_run prog user input memo 1 (S (fw + 1)) _ _ fr1 st1 fr2 st1);
          [reflexivity|].
        by eapply (seq_run prog user input memo fw 1 _ _ fr2 st1 fr' st').
      * right. exists items. split; [exact Harr'|lia].
Qed.

Lemma cached_matches_consume_store n st0 st p q v :
  cached_matches_consume n st0 ->
  cache st = <[cache_key n p := (q, v)]> (cache st0) ->
  (v <> VNull -> (p < q)%nat) ->
  cached_matches_consume n st.
Proof.
  intros HI Hc Hv p' entry Hl Hnn. rewrite Hc in Hl.
  destruct (decide (p' = p)) as [->|Hne].
  - rewrite lookup_insert_eq in Hl. injection Hl as <-. by apply Hv.
  - rewrite lookup_insert_ne in Hl; [by apply (HI p' entry)|].
    intros Heq. by apply cache_key_inj in Heq as [_ ->].
Qed.

Lemma cached_matches_consume_initial n :
  cached_matches_consume n initial_pstate.
Proof. intros p entry H. cbn in H. by rewrite lookup_empty in H. Qed.

(** The rule [a = "x"] of [two_rules_grammar], asked for through the
    cache: a match of it consumes, and the cache stays free of matches of
    the empty string. *)
Lemma rule_reference_consumes fr st :
  cached_matches_consume (js "a") st ->
  exists fuel fr' st',
    exec (functions_of two_rules_grammar) no_user_code (js "xxy") true fuel
      (s_set_call 1 (js "a")) fr st = Done fr' st'
    /\ cached_matches_consume (js "a") st'
    /\ (get_result fr' 1 <> VNull -> (pos st < pos st')%nat).
Proof.
  intros HI. remember 9%nat as k eqn:Hk. exists (S k).
  destruct (find_function (functions_of two_rules_grammar) (js "a"))
    as [fn|] eqn:Hfn; [|vm_compute in Hfn; discriminate Hfn].
  cbn [exec]. unfold call_function. rewrite Hfn.
  vm_compute in Hfn. injection Hfn as <-.
  cbn [fn_name]. unfold function_body.
  cbn [fn_setReportFailuresCode fn_code fn_restoreReportFailuresCode
       fn_reportFailureCode block fold_right].
  destruct (cache st !! _) as [[nextPos result]|] eqn:Hlook.
  - eexists _, _. split; [reflexivity|]. split; [exact HI|].
    rewrite get_result_set_same. intros Hnn.
    exact (HI (pos st) (nextPos, result) Hlook Hnn).
  - subst k. cbn [exec eval_cond pos reportFailures log_evaluation].
    destruct (bool_decide _).
    + eexists _, _. split; [reflexivity|]. split.
      * apply (cached_matches_consume_store (js "a") st _ (pos st)
                 (pos st + 1) (VStr [120])); [exact HI|reflexivity|].
        intros _. lia.
      * intros _. cbn. lia.
    + destruct (reportFailures st =? 0)%Z;
        (eexists _, _; split; [reflexivity|]); split.
      * apply (cached_matches_consume_store (js "a") st _ (pos st)
                 (pos st) VNull); [exact HI| |done].
        cbn [cache set_cache]. by rewrite matchFailed_cache, matchFailed_pos.
      * rewrite !get_result_set_same. by intros [].
      * apply (cached_matches_consume_store (js "a") st _ (pos st)
                 (pos st) VNull); [exact HI|reflexivity|done].
      * rewrite !get_result_set_same. by intros [].
Qed.

Lemma repetition_ends_when_matches_consume_witness :
  exists fuel fr' st' items,
    exec (functions_of two_rules_grammar) no_user_code (js "xxy") true fuel
      (code_of (zero_or_more (rule_ref (js "a"))) ctx0)
      empty_frame initial_pstate = Done fr' st'
    /\ get_result fr' 0 = VArr items
    /\ (List.length items <= 3)%nat.
Proof.
  destruct (repetition_ends_when_matches_consume
              (functions_of two_rules_grammar) no_user_code (js "xxy") true
              (rule_ref (js "a")) ctx0 (s_set_call 1 (js "a"))
              (cached_matches_consume (js "a"))
              (functions_of_emitted two_rules_grammar) eq_refl
              (fun fr st HI _ => rule_reference_consumes fr st HI)
              empty_frame initial_pstate
              (cached_matches_consume_initial (js "a"))
              (in_bounds_initial _))
    as [(fuel & fr' & st' & items & Hrun & _ & Harr & Hlen) _].
  by exists fuel, fr', st', items.
Defined.

(** ** The variables a text starts from *)

Section TwoRuns.
Variable prog : list function_def.
Variable user : user_code.
Variable input : jsstring.
Variable memo : bool.

Abbreviation run := (exec prog user input memo).

Ltac rfuel :=
  match goal with
  | |- rel_outcome _ (exec _ _ _ _ ?m _ _ _) _ =>
      let m' := fresh "m" in destruct m as [|m']; [exact I|]
  end.

Lemma rel_seq (R Q : frame -> frame -> Prop) m a b f1 f2 st :
  rel_outcome R (run m a f1 st) (run m a f2 st) ->
  (forall g1 g2 st',
     run m a f1 st = Done g1 st' -> run m a f2 st = Done g2 st' -> R g1 g2 ->
     rel_outcome Q (run m b g1 st') (run m b g2 st')) ->
  rel_outcome Q (run (S m) (s_seq a b) f1 st) (run (S m) (s_seq a b) f2 st).
Proof.
  intros Ha Hb. cbn [exec].
  destruct (run m a f1 st) as [g1 s1| |], (run m a f2 st) as [g2 s2| |];
    cbn in Ha; try done.
  destruct Ha as [<- HR]. by apply Hb.
Qed.

Lemma rel_skip (R : frame -> frame -> Prop) m f1 f2 st :
  R f1 f2 -> rel_outcome R (run m s_skip f1 st) (run m s_skip f2 st).
Proof. intros HR. by destruct m. Qed.

Lemma rel_last (R : frame -> frame -> Prop) m a f1 f2 st :
  rel_outcome R (run m a f1 st) (run m a f2 st) ->
  rel_outcome R (run (S m) (s_seq a s_skip) f1 st)
    (run (S m) (s_seq a s_skip) f2 st).
Proof.
  intros Ha. apply (rel_seq R R); [exact Ha|].
  intros g1 g2 st' _ _ HR. by apply rel_skip.
Qed.

Lemma rel_if (R : frame -> frame -> Prop) m c a b f1 f2 st :
  eval_cond input c f1 st = eval_cond input c f2 st ->
  rel_outcome R (run m a f1 st) (run m a f2 st) ->
  rel_outcome R (run m b f1 st) (run m b f2 st) ->
  rel_outcome R (run (S m) (s_if c a b) f1 st) (run (S m) (s_if c a b) f2 st).
Proof.
  intros Hc Ha Hb. cbn [exec]. rewrite Hc.
  by destruct (eval_cond input c f2 st).
Qed.

Lemma rel_while (Inv : frame -> frame -> Prop) c body :
  (forall f1 f2 st, Inv f1 f2 ->
     eval_cond input c f1 st = eval_cond input c f2 st) ->
  (forall m f1 f2 st, Inv f1 f2 ->
     rel_outcome Inv (run m body f1 st) (run m body f2 st)) ->
  forall m f1 f2 st, Inv f1 f2 ->
    rel_outcome Inv (run m (s_while c body) f1 st)
      (run m (s_while c body) f2 st).
Proof.
  intros Hc Hbody. induction m as [|m IH]; intros f1 f2 st HI; [exact I|].
  cbn [exec]. rewrite (Hc f1 f2 st HI).
  destruct (eval_cond input c f2 st); [|done].
  pose proof (Hbody m f1 f2 st HI) as Hb.
  destruct (run m body f1 st) as [g1 s1| |], (run m body f2 st) as [g2 s2| |];
    cbn in Hb; try done.
  destruct Hb as [<- HI']. by apply IH.
Qed.

Lemma rel_weaken (R Q : frame -> frame -> Prop) o1 o2 :
  (forall f1 f2, R f1 f2 -> Q f1 f2) -> rel_outcome R o1 o2 -> rel_outcome Q o1 o2.
Proof.
  intros HRQ. destruct o1, o2; cbn; try done. intros [-> HR]. auto.
Qed.

(** The failing branch of a leaf. *)
Lemma rel_report i failure m f1 f2 st :
  rel_outcome (same_result i)
    (run m (block [s_set_null i; report_failure failure]) f1 st)
    (run m (block [s_set_null i; report_failure failure]) f2 st).
Proof.
  cbn [block fold_right]. rfuel.
  apply (rel_seq (same_result i)).
  - rfuel. cbn. split; [done|]. unfold same_result.
    by rewrite !get_result_set_same.
  - intros g1 g2 st' _ _ HR. rfuel. apply rel_last. rfuel.
    apply rel_if; [done| |by apply rel_skip]. by rfuel.
Qed.

(** The matching branch of a leaf. *)
Lemma rel_store_advance i store n m f1 f2 st :
  (exists v, store = s_set_string i v) \/ store = s_set_charAt i ->
  rel_outcome (same_result i)
    (run m (block [store; s_advance n]) f1 st)
    (run m (block [store; s_advance n]) f2 st).
Proof.
  intros Hstore. cbn [block fold_right]. rfuel.
  apply (rel_seq (same_result i)).
  - rfuel. destruct Hstore as [[v ->]| ->]; cbn; (split; [done|]);
      unfold same_result; by rewrite !get_result_set_same.
  - intros g1 g2 st' _ _ HR. rfuel. apply rel_last. by rfuel.
Qed.

(** A child, run from two frames: the same value, and both frames keep
    what lies below. *)
Lemma child_same e ctx c :
  frame_free prog user input memo e -> emit e ctx = Some c ->
  forall m g1 g2 st,
    rel_outcome
      (fun h1 h2 =>
         same_result (resultIndex ctx) h1 h2
         /\ slots_below_kept (resultIndex ctx) (posIndex ctx) g1 h1
         /\ slots_below_kept (resultIndex ctx) (posIndex ctx) g2 h2)
      (run m c g1 st) (run m c g2 st).
Proof.
  intros He Hc m g1 g2 st. pose proof (He _ _ Hc m g1 g2 st) as Hrun.
  destruct (run m c g1 st) as [h1 s1| |] eqn:E1,
           (run m c g2 st) as [h2 s2| |] eqn:E2; cbn in Hrun; try done.
  destruct Hrun as [<- HR]. cbn [rel_outcome]. split; [done|].
  split; [exact HR|].
  split; [exact (child_keeps _ _ _ _ _ _ _ _ _ _ _ _ Hc E1)
         |exact (child_keeps _ _ _ _ _ _ _ _ _ _ _ _ Hc E2)].
Qed.

Lemma alternatives_same ctx l : forall code,
  Forall (frame_free prog user input memo) l ->
  alternatives_code ctx l = Some code ->
  forall m f1 f2 st,
    rel_outcome (same_result (resultIndex ctx))
      (run m code f1 st) (run m code f2 st).
Proof.
  induction l as [|e l IH]; intros code Hall; [discriminate|].
  inversion Hall as [|? ? He Hl]; subst. cbn [alternatives_code].
  destruct l as [|e' l'].
  - destruct (emit e ctx) as [current|] eqn:Hc; [|discriminate].
    intros [= <-] m f1 f2 st. cbn [block fold_right]. rfuel.
    apply (rel_seq (same_result (resultIndex ctx))); [apply (He ctx _ Hc)|].
    intros g1 g2 st' _ _ HR. rfuel. by apply rel_last, rel_skip.
  - destruct (alternatives_code ctx (e' :: l')) as [rest|] eqn:Hrest;
      [|discriminate].
    destruct (emit e ctx) as [current|] eqn:Hc; [|discriminate].
    intros [= <-] m f1 f2 st. cbn [block fold_right]. rfuel.
    apply (rel_seq (same_result (resultIndex ctx))); [apply (He ctx _ Hc)|].
    intros g1 g2 st' _ _ HR. rfuel. apply rel_last. rfuel.
    apply rel_if; [|by apply (IH _ Hl)|by apply rel_skip].
    cbn [eval_cond]. unfold same_result in HR. by rewrite HR.
Qed.

Lemma elements_same total ctx l : forall i code,
  Forall (frame_free prog user input memo) l ->
  elements_code total ctx i l = Some code ->
  total = (i + List.length l)%nat ->
  forall m f1 f2 st p,
    same_saved (posIndex ctx) p f1 f2 ->
    (forall j, (j < i)%nat -> same_result (resultIndex ctx + j) f1 f2) ->
    rel_outcome (same_result (resultIndex ctx))
      (run m code f1 st) (run m code f2 st).
Proof.
  induction l as [|e l IH]; intros i code Hall; cbn [elements_code].
  - intros [= <-] Htotal m f1 f2 st p _ Hres. rfuel. cbn [exec rel_outcome].
    split; [done|]. unfold same_result. rewrite !get_result_set_same.
    f_equal. apply map_ext_in. intros j Hj. apply in_seq in Hj.
    replace j with (resultIndex ctx + (j - resultIndex ctx))%nat by lia.
    apply Hres. cbn in Htotal. lia.
  - inversion Hall as [|? ? He Hl]; subst.
    destruct (elements_code total ctx (S i) l) as [rest|] eqn:Hrest;
      [|discriminate].
    destruct (emit e _) as [c|] eqn:Hc; [|discriminate].
    intros [= <-] Htotal m f1 f2 st p [Hs1 Hs2] Hres.
    cbn [block fold_right]. rfuel.
    apply (rel_seq (same_result (resultIndex ctx + i))); [apply (He _ _ Hc)|].
    intros g1 g2 st' H1 H2 HR.
    pose proof (child_keeps _ _ _ _ _ _ _ _ _ _ _ _ Hc H1) as K1.
    pose proof (child_keeps _ _ _ _ _ _ _ _ _ _ _ _ Hc H2) as K2.
    cbn [resultIndex posIndex] in K1, K2.
    assert (Hsaved : same_saved (posIndex ctx) p g1 g2).
    { split.
      - rewrite (positions_kept _ _ _ _ (posIndex ctx) K1); [done|lia].
      - rewrite (positions_kept _ _ _ _ (posIndex ctx) K2); [done|lia]. }
    rfuel. apply rel_last. rfuel. apply rel_if.
    + cbn [eval_cond]. unfold same_result in HR. by rewrite HR.
    + apply (IH (S i) _ Hl Hrest ltac:(cbn in Htotal; lia) _ _ _ _ p Hsaved).
      intros j Hj. destruct (decide (j = i)) as [->|Hne]; [exact HR|].
      unfold same_result.
      rewrite (get_result_kept _ _ _ _ (resultIndex ctx + j) K1),
        (get_result_kept _ _ _ _ (resultIndex ctx + j) K2); [|lia..].
      apply Hres. lia.
    + cbn [block fold_right]. rfuel.
      apply (rel_seq (same_saved (posIndex ctx) p)).
      * rfuel. cbn [exec rel_outcome]. split; [done|]. exact Hsaved.
      * intros h1 h2 st'' Hh1 Hh2 [P1 P2]. rfuel. apply rel_last. rfuel.
        cbn [exec]. rewrite P1, P2. cbn [rel_outcome]. split; [done|].
        inv_line Hh1. inv_line Hh2.
        injection Hh1 as <- _. injection Hh2 as <- _.
        unfold same_result. by rewrite !get_result_set_same.
Qed.

(** The loop of a repetition, from frames that agree on the array and on
    the last value. *)
Lemma star_loop_same e ctx c :
  frame_free prog user input memo e ->
  emit e {| resultIndex := resultIndex ctx + 1; posIndex := posIndex ctx |}
  = Some c ->
  forall m f1 f2 st,
    same_result (resultIndex ctx) f1 f2 ->
    same_result (resultIndex ctx + 1) f1 f2 ->
    rel_outcome (same_result (resultIndex ctx))
      (run m (s_while (result_not_null (resultIndex ctx + 1))
                (block [s_push (resultIndex ctx) (resultIndex ctx + 1); c]))
         f1 st)
      (run m (s_while (result_not_null (resultIndex ctx + 1))
                (block [s_push (resultIndex ctx) (resultIndex ctx + 1); c]))
         f2 st).
Proof.
  intros He Hc m f1 f2 st H0 H1.
  apply (rel_weaken
           (fun g1 g2 => same_result (resultIndex ctx) g1 g2
                         /\ same_result (resultIndex ctx + 1) g1 g2));
    [by intros g1 g2 [? _]|].
  apply rel_while; [| |done].
  - intros g1 g2 st' [_ HR]. cbn [eval_cond]. unfold same_result in HR.
    by rewrite HR.
  - clear m f1 f2 st H0 H1. intros m f1 f2 st [H0 H1].
    unfold same_result in H0, H1. cbn [block fold_right]. rfuel.
    apply (rel_seq (same_result (resultIndex ctx))).
    + rfuel. cbn [exec]. rewrite H0, H1.
      destruct (get_result f2 (resultIndex ctx)); try exact I.
      cbn [rel_outcome]. split; [done|]. unfold same_result.
      by rewrite !get_result_set_same.
    + intros g1 g2 st' _ _ HR. rfuel. apply rel_last.
      eapply rel_weaken; [|exact (child_same e _ c He Hc _ g1 g2 st')].
      cbn [resultIndex posIndex]. intros h1 h2 (HR1 & K1 & K2).
      split; [|exact HR1]. unfold same_result.
      rewrite (get_result_kept _ _ _ _ (resultIndex ctx) K1),
        (get_result_kept _ _ _ _ (resultIndex ctx) K2); [done|lia..].
Qed.

(** A result stored and [pos] restored from the saved position. *)
Lemma rel_store_restore i k p store m f1 f2 st :
  store = s_set_null i \/ (exists v, store = s_set_string i v) ->
  same_saved k p f1 f2 ->
  rel_outcome (same_result i)
    (run m (block [store; s_restore_pos k]) f1 st)
    (run m (block [store; s_restore_pos k]) f2 st).
Proof.
  intros Hstore [P1 P2]. cbn [block fold_right]. rfuel.
  apply (rel_seq (fun g1 g2 => same_result i g1 g2 /\ same_saved k p g1 g2)).
  - rfuel. destruct Hstore as [->|[v ->]]; cbn [exec rel_outcome];
      (split; [done|]); (split; [|done]);
      unfold same_result; by rewrite !get_result_set_same.
  - intros g1 g2 st' _ _ [HR [Q1 Q2]]. rfuel. apply rel_last. rfuel.
    cbn [exec]. by rewrite Q1, Q2.
Qed.

Lemma same_saved_kept ri pi k p f1 f2 g1 g2 :
  same_saved k p f1 f2 -> (k < pi)%nat ->
  slots_below_kept ri pi f1 g1 -> slots_below_kept ri pi f2 g2 ->
  same_saved k p g1 g2.
Proof.
  intros [P1 P2] Hk K1 K2. split.
  - by rewrite (positions_kept _ _ _ _ k K1).
  - by rewrite (positions_kept _ _ _ _ k K2).
Qed.

Lemma rel_save_pos k m f1 f2 st :
  rel_outcome (same_saved k (pos st))
    (run m (s_save_pos k) f1 st) (run m (s_save_pos k) f2 st).
Proof.
  rfuel. cbn [exec rel_outcome]. split; [done|].
  split; cbn [positions set_position]; apply lookup_insert_eq.
Qed.

(** A child between the saving of [pos] and its restoring. *)
Lemma child_same_saved e ctx c p :
  frame_free prog user input memo e ->
  emit e {| resultIndex := resultIndex ctx; posIndex := posIndex ctx + 1 |}
  = Some c ->
  forall m g1 g2 st,
    same_saved (posIndex ctx) p g1 g2 ->
    rel_outcome
      (fun h1 h2 => same_result (resultIndex ctx) h1 h2
                    /\ same_saved (posIndex ctx) p h1 h2)
      (run m c g1 st) (run m c g2 st).
Proof.
  intros He Hc m g1 g2 st Hs.
  eapply rel_weaken; [|exact (child_same e _ c He Hc m g1 g2 st)].
  cbn [resultIndex posIndex]. intros h1 h2 (HR & K1 & K2).
  split; [exact HR|].
  apply (same_saved_kept (resultIndex ctx) (posIndex ctx + 1) _ _
           g1 g2 h1 h2 Hs); [lia|done..].
Qed.

Lemma emit_frame_free e : frame_free prog user input memo e.
Proof.
  induction e as [l IH|l IH|lbl e IH|e IH|e IH|c|c|e IH|e IH|e IH|e c IH|r|v| |p i t]
    using expr_nested_ind; intros ctx s He m f1 f2 st.
  - rewrite emit_choice in He. by apply (alternatives_same ctx l s IH He).
  - rewrite emit_sequence in He.
    destruct (elements_code _ ctx 0 l) as [code|] eqn:Hcode; [|discriminate].
    injection He as <-. cbn [block fold_right]. rfuel.
    apply (rel_seq (same_saved (posIndex ctx) (pos st)));
      [apply rel_save_pos|].
    intros g1 g2 st' _ _ Hs. rfuel. apply rel_last.
    apply (elements_same _ ctx l 0 code IH Hcode eq_refl _ _ _ _ (pos st) Hs).
    intros j Hj. lia.
  - cbn [emit] in He. by apply (IH ctx).
  - cbn [emit] in He. destruct (emit e _) as [code|] eqn:Hc; [|discriminate].
    injection He as <-. cbn [block fold_right]. rfuel.
    apply (rel_seq (same_saved (posIndex ctx) (pos st)));
      [apply rel_save_pos|].
    intros g1 g2 st1 _ _ Hs. rfuel.
    apply (rel_seq (same_saved (posIndex ctx) (pos st))); [by rfuel|].
    intros i1 i2 st2 _ _ Hs'. rfuel.
    eapply rel_seq; [exact (child_same_saved e ctx code _ IH Hc _ i1 i2 st2 Hs')|].
    intros h1 h2 st3 _ _ [HR Hs3]. rfuel.
    apply (rel_seq (fun k1 k2 => same_result (resultIndex ctx) k1 k2
                                 /\ same_saved (posIndex ctx) (pos st) k1 k2));
      [by rfuel|].
    intros k1 k2 st4 _ _ [HR' Hs4]. rfuel. apply rel_last.
    rfuel. apply rel_if.
    + cbn [eval_cond]. unfold same_result in HR'. by rewrite HR'.
    + apply (rel_store_restore _ _ (pos st)); [right; by eexists|done].
    + rfuel. cbn [exec rel_outcome]. split; [done|]. unfold same_result.
      by rewrite !get_result_set_same.
  - cbn [emit] in He. destruct (emit e _) as [code|] eqn:Hc; [|discriminate].
    injection He as <-. cbn [block fold_right]. rfuel.
    apply (rel_seq (same_saved (posIndex ctx) (pos st)));
      [apply rel_save_pos|].
    intros g1 g2 st1 _ _ Hs. rfuel.
    apply (rel_seq (same_saved (posIndex ctx) (pos st))); [by rfuel|].
    intros i1 i2 st2 _ _ Hs'. rfuel.
    eapply rel_seq; [exact (child_same_saved e ctx code _ IH Hc _ i1 i2 st2 Hs')|].
    intros h1 h2 st3 _ _ [HR Hs3]. rfuel.
    apply (rel_seq (fun k1 k2 => same_result (resultIndex ctx) k1 k2
                                 /\ same_saved (posIndex ctx) (pos st) k1 k2));
      [by rfuel|].
    intros k1 k2 st4 _ _ [HR' Hs4]. rfuel. apply rel_last.
    rfuel. apply rel_if.
    + cbn [eval_cond]. unfold same_result in HR'. by rewrite HR'.
    + rfuel. cbn [exec rel_outcome]. split; [done|]. unfold same_result.
      by rewrite !get_result_set_same.
    + apply (rel_store_restore _ _ (pos st)); [by left|done].
  - injection He as <-. rfuel. cbn [exec rel_outcome]. split; [done|].
    unfold same_result. by rewrite !get_result_set_same.
  - injection He as <-. rfuel. cbn [exec rel_outcome]. split; [done|].
    unfold same_result. by rewrite !get_result_set_same.
  - cbn [emit] in He. destruct (emit e ctx) as [code|] eqn:Hc; [|discriminate].
    injection He as <-. cbn [block fold_right]. rfuel.
    apply (rel_seq (same_result (resultIndex ctx))); [apply (IH _ _ Hc)|].
    intros g1 g2 st1 _ _ HR. rfuel. apply rel_last. rfuel.
    cbn [exec rel_outcome]. split; [done|]. unfold same_result in *.
    by rewrite !get_result_set_same, HR.
  - cbn [emit] in He. destruct (emit e _) as [code|] eqn:Hc; [|discriminate].
    injection He as <-. cbn [block fold_right]. rfuel.
    apply (rel_seq (same_result (resultIndex ctx))).
    { rfuel. cbn [exec rel_outcome]. split; [done|]. unfold same_result.
      by rewrite !get_result_set_same. }
    intros g1 g2 st1 _ _ HR. rfuel.
    apply (rel_seq (fun h1 h2 => same_result (resultIndex ctx) h1 h2
                                 /\ same_result (resultIndex ctx + 1) h1 h2)).
    { eapply rel_weaken; [|exact (child_same e _ code IH Hc _ g1 g2 st1)].
      cbn [resultIndex posIndex]. intros h1 h2 (HR1 & K1 & K2).
      split; [|exact HR1]. unfold same_result.
      rewrite (get_result_kept _ _ _ _ (resultIndex ctx) K1),
        (get_result_kept _ _ _ _ (resultIndex ctx) K2); [done|lia..]. }
    intros h1 h2 st2 _ _ [H0 H1]. rfuel. apply rel_last.
    by apply (star_loop_same e ctx code IH Hc).
  - cbn [emit] in He. destruct (emit e _) as [code|] eqn:Hc; [|discriminate].
    injection He as <-. cbn [block fold_right]. rfuel.
    apply (rel_seq (same_result (resultIndex ctx + 1))); [apply (IH _ _ Hc)|].
    intros g1 g2 st1 _ _ HR. rfuel. apply rel_last. rfuel. apply rel_if.
    + cbn [eval_cond]. unfold same_result in HR. by rewrite HR.
    + rfuel.
      apply (rel_seq (fun h1 h2 => same_result (resultIndex ctx) h1 h2
                                   /\ same_result (resultIndex ctx + 1) h1 h2)).
      { rfuel. cbn [exec rel_outcome]. split; [done|]. unfold same_result in *.
        split; [by rewrite !get_result_set_same|].
        rewrite !get_result_set_other by lia. exact HR. }
      intros h1 h2 st2 _ _ [H0 H1]. rfuel. apply rel_last.
      by apply (star_loop_same e ctx code IH Hc).
    + rfuel. cbn [exec rel_outcome]. split; [done|]. unfold same_result.
      by rewrite !get_result_set_same.
  - cbn [emit] in He.
    destruct (action_params e (resultIndex ctx)) as [formals actuals] eqn:Hparams.
    destruct (emit e _) as [code|] eqn:Hc; [|discriminate].
    injection He as <-. cbn [block fold_right]. rfuel.
    apply (rel_seq (same_saved (posIndex ctx) (pos st)));
      [apply rel_save_pos|].
    intros g1 g2 st1 _ _ Hs. rfuel.
    eapply rel_seq; [exact (child_same_saved e ctx code _ IH Hc _ g1 g2 st1 Hs)|].
    intros h1 h2 st2 _ _ [HR Hs2]. rfuel.
    apply (rel_seq (fun k1 k2 => same_result (resultIndex ctx) k1 k2
                                 /\ same_saved (posIndex ctx) (pos st) k1 k2)).
    { rfuel. apply rel_if; [| |by apply rel_skip].
      - cbn [eval_cond]. unfold same_result in HR. by rewrite HR.
      - rfuel. cbn [exec rel_outcome]. split; [done|]. split; [|exact Hs2].
        unfold same_result. rewrite !get_result_set_same.
        pose proof (action_params_call e (resultIndex ctx) h1) as A1.
        pose proof (action_params_call e (resultIndex ctx) h2) as A2.
        rewrite Hparams in A1, A2. cbn [fst snd] in A1, A2.
        unfold same_result in HR. rewrite HR, <- A2 in A1.
        by injection A1 as ->. }
    intros k1 k2 st3 _ _ [HR3 [P1 P2]]. rfuel. apply rel_last. rfuel.
    apply rel_if; [| |by apply rel_skip].
    + cbn [eval_cond]. unfold same_result in HR3. by rewrite HR3.
    + rfuel. cbn [exec]. by rewrite P1, P2.
  - injection He as <-. rfuel. cbn [exec].
    destruct (call_function _ _ _ _ _) as [v st1| |]; cbn [rel_outcome];
      [|done..].
    split; [done|]. unfold same_result. by rewrite !get_result_set_same.
  - cbn [emit] in He. destruct (List.length v =? 0)%nat; injection He as <-.
    + rfuel. cbn [exec rel_outcome]. split; [done|]. unfold same_result.
      by rewrite !get_result_set_same.
    + rfuel. apply rel_if; [done| |apply rel_report].
      apply rel_store_advance. left. by eexists.
  - injection He as <-. rfuel. apply rel_if; [done| |apply rel_report].
    apply rel_store_advance. by right.
  - injection He as <-. rfuel. apply rel_if; [done| |apply rel_report].
    apply rel_store_advance. by right.
Qed.

End TwoRuns.

(** What the text of a node does is settled by the input and the parser
    state: run from two frames, whatever their variables hold, it ends in
    the same way, with the same parser state and the same value in its
    result variable.  The emitted code reads no variable it has not
    written. *)
Theorem snippets_read_no_stale_variable prog user input memo e ctx s fuel
  fr1 fr2 st :
  emit e ctx = Some s ->
  match exec prog user input memo fuel s fr1 st with
  | Done fr1' st' =>
      exists fr2',
        exec prog user input memo fuel s fr2 st = Done fr2' st'
        /\ get_result fr2' (resultIndex ctx) = get_result fr1' (resultIndex ctx)
  | o => exec prog user input memo fuel s fr2 st = o
  end.
Proof.
  intros He.
  pose proof (emit_frame_free prog user input memo e ctx s He fuel fr1 fr2 st)
    as Hrel.
  destruct (exec prog user input memo fuel s fr1 st) as [g1 s1| |],
           (exec prog user input memo fuel s fr2 st) as [g2 s2| |];
    cbn in Hrel; try done.
  destruct Hrel as [<- HR]. by exists g2.
Qed.

Lemma snippets_read_no_stale_variable_witness :
  exists fr2' st',
    exec [] no_user_code (js "ab") true 40
      (code_of (sequence [literal (js "a"); zero_or_more any]) ctx0)
      (set_position 0 7 (set_result 0 (VStr (js "zz")) empty_frame))
      initial_pstate = Done fr2' st'
    /\ get_result fr2' 0 = VArr [VStr (js "a"); VArr [VStr (js "b")]].
Proof.
  pose proof (snippets_read_no_stale_variable [] no_user_code (js "ab") true
                (sequence [literal (js "a"); zero_or_more any]) ctx0
                (code_of (sequence [literal (js "a"); zero_or_more any]) ctx0)
                40 empty_frame
                (set_position 0 7 (set_result 0 (VStr (js "zz")) empty_frame))
                initial_pstate eq_refl) as H.
  destruct (exec [] no_user_code (js "ab") true 40
              (code_of (sequence [literal (js "a"); zero_or_more any]) ctx0)
              empty_frame initial_pstate) as [fr1' st'| |] eqn:E;
    [|vm_compute in E; discriminate E..].
  destruct H as (fr2' & Hrun & Hres).
  exists fr2', st'. split; [exact Hrun|]. etrans; [exact Hres|].
  vm_compute in E. by injection E as <- _.
Defined.

(** ** [one_or_more] and [zero_or_more] *)

Section PlusStar.
Variable prog : list function_def.
Variable user : user_code.
Variable input : jsstring.
Variable memo : bool.
Variable e : expr.
Variable ctx : context.
Variable c : stmt.
Hypothesis Hc :
  emit e {| resultIndex := resultIndex ctx + 1; posIndex := posIndex ctx |}
  = Some c.

Abbreviation run := (exec prog user input memo).
Abbreviation loop :=
  (s_while (result_not_null (resultIndex ctx + 1))
     (block [s_push (resultIndex ctx) (resultIndex ctx + 1); c])).

Lemma star_loop_grows : forall n fr st fr' st' acc,
  get_result fr (resultIndex ctx) = VArr acc ->
  run n loop fr st = Done fr' st' ->
  exists more,
    get_result fr' (resultIndex ctx) = VArr (acc ++ more)
    /\ if is_null (get_result fr (resultIndex ctx + 1))
       then more = [] /\ fr' = fr /\ st' = st
       else more <> [].
Proof.
  induction n as [n IH] using lt_wf_ind. intros fr st fr' st' acc Harr H.
  apply exec_while_inv in H as (m & Hlt & H). cbn [eval_cond] in H.
  destruct (is_null (get_result fr (resultIndex ctx + 1))) eqn:Hnull;
    cbn [negb] in H.
  - destruct H as [-> ->]. exists []. by rewrite app_nil_r.
  - destruct H as (fr1 & st1 & Hbody & Hloop). cbn [block fold_right] in Hbody.
    inv_seq Hbody as m1 fr2 st2 H1. inv_line H1. rewrite Harr in H1.
    injection H1 as <- <-.
    inv_seq Hbody as m2 fr3 st3 H2. inv_skip Hbody.
    assert (Harr3 : get_result fr3 (resultIndex ctx)
                    = VArr (acc ++ [get_result fr (resultIndex ctx + 1)])).
    { rewrite (get_result_kept _ _ _ _ (resultIndex ctx)
                 (child_keeps _ _ _ _ _ _ _ _ _ _ _ _ Hc H2)); [|cbn; lia].
      apply get_result_set_same. }
    destruct (IH m Hlt _ _ _ _ _ Harr3 Hloop) as (more & Harr' & _).
    exists (get_result fr (resultIndex ctx + 1) :: more).
    split; [|done]. by rewrite Harr', <- app_assoc.
Qed.

(** The expression, run after [resultN = []] and run without it. *)
Lemma child_after_array m fr st :
  rel_outcome (same_result (resultIndex ctx + 1))
    (run m c (set_result (resultIndex ctx) (VArr []) fr) st) (run m c fr st).
Proof.
  exact (emit_frame_free prog user input memo e _ c Hc m _ _ st).
Qed.

Lemma loop_same m f1 f2 st :
  same_result (resultIndex ctx) f1 f2 ->
  same_result (resultIndex ctx + 1) f1 f2 ->
  rel_outcome (same_result (resultIndex ctx))
    (run m loop f1 st) (run m loop f2 st).
Proof.
  apply (star_loop_same prog user input memo e ctx c
           (emit_frame_free prog user input memo e) Hc).
Qed.

Lemma star_then_plus n fr st fr' st' :
  run n (code_of (zero_or_more e) ctx) fr st = Done fr' st' ->
  exists n' fr'',
    run n' (code_of (one_or_more e) ctx) fr st = Done fr'' st'
    /\ get_result fr'' (resultIndex ctx)
       = match get_result fr' (resultIndex ctx) with
         | VArr [] => VNull
         | v => v
         end.
Proof.
  unfold code_of. cbn [emit]. rewrite Hc.
  cbn [default from_option id block fold_right]. intros H.
  inv_seq H as m1 a1 s1 H1. inv_line H1. cbn [map] in H1.
  injection H1 as <- <-.
  inv_seq H as m2 h1 st1 H2. inv_seq H as m3 fr3 st3 H3. inv_skip H.
  pose proof (child_after_array m2 fr st) as Hrel. rewrite H2 in Hrel.
  destruct (run m2 c fr st) as [h2 st1'| |] eqn:E2; cbn in Hrel; try done.
  destruct Hrel as [<- HR]. unfold same_result in HR.
  assert (Harr : get_result h1 (resultIndex ctx) = VArr []).
  { rewrite (get_result_kept _ _ _ _ (resultIndex ctx)
               (child_keeps _ _ _ _ _ _ _ _ _ _ _ _ Hc H2)); [|cbn; lia].
    apply get_result_set_same. }
  destruct (star_loop_grows _ _ _ _ _ _ Harr H3) as (more & Harr' & Hmore).
  cbn [app] in Harr'.
  destruct (is_null (get_result h1 (resultIndex ctx + 1))) eqn:Hnull.
  - destruct Hmore as (-> & -> & ->).
    exists (S (m2 + S (2 + 1))), (set_result (resultIndex ctx) VNull h2).
    split.
    + eapply (seq_run _ _ _ _ m2 (S (2 + 1)) _ _ fr st h2 st1 _ _ E2).
      eapply (seq_run _ _ _ _ 2 1 _ _ h2 st1 _ st1); [|reflexivity].
      cbn [exec eval_cond]. by rewrite <- HR, Hnull.
    + by rewrite get_result_set_same, Harr.
  - set (h2' := set_result (resultIndex ctx) (VArr []) h2).
    assert (S0 : same_result (resultIndex ctx) h1 h2')
      by (unfold same_result, h2'; by rewrite Harr, get_result_set_same).
    assert (S1 : same_result (resultIndex ctx + 1) h1 h2')
      by (unfold same_result, h2'; by rewrite get_result_set_other by lia).
    pose proof (loop_same m3 h1 h2' st1 S0 S1) as Hloop.
    cbn [block fold_right] in Hloop. rewrite H3 in Hloop.
    destruct (run m3 _ h2' st1) as [fr'' st3'| |] eqn:E3; cbn in Hloop;
      try done.
    destruct Hloop as [<- HR3].
    exists (S (m2 + S (S (S (1 + S (m3 + 1))) + 1))), fr''. split.
    + eapply (seq_run _ _ _ _ m2 _ _ _ fr st h2 st1 _ _ E2).
      eapply (seq_run _ _ _ _ (S (S (1 + S (m3 + 1)))) 1 _ _ h2 st1 fr'' st3);
        [|reflexivity].
      cbn [exec eval_cond]. rewrite <- HR, Hnull. cbn [negb].
      eapply (seq_run _ _ _ _ 1 (S (m3 + 1)) _ _ h2 st1 _ st1); [reflexivity|].
      by eapply (seq_run _ _ _ _ m3 1 _ _ _ st1 fr'' st3).
    + unfold same_result in HR3. rewrite <- HR3, Harr'.
      by destruct more.
Qed.

Lemma plus_then_star n fr st fr'' st' :
  run n (code_of (one_or_more e) ctx) fr st = Done fr'' st' ->
  exists n' fr',
    run n' (code_of (zero_or_more e) ctx) fr st = Done fr' st'
    /\ get_result fr'' (resultIndex ctx)
       = match get_result fr' (resultIndex ctx) with
         | VArr [] => VNull
         | v => v
         end.
Proof.
  unfold code_of. cbn [emit]. rewrite Hc.
  cbn [default from_option id block fold_right]. intros H.
  inv_seq H as m1 h2 st1 H1. inv_seq H as m2 x sx H2. inv_skip H.
  inv_if H2 as m3. cbn [eval_cond] in H2.
  set (a1 := set_result (resultIndex ctx) (VArr []) fr).
  pose proof (child_after_array m1 fr st) as Hrel. fold a1 in Hrel.
  rewrite H1 in Hrel.
  destruct (run m1 c a1 st) as [h1 st1'| |] eqn:E1; cbn in Hrel; try done.
  destruct Hrel as [-> HR]. unfold same_result in HR.
  assert (Harr : get_result h1 (resultIndex ctx) = VArr []).
  { rewrite (get_result_kept _ _ _ _ (resultIndex ctx)
               (child_keeps _ _ _ _ _ _ _ _ _ _ _ _ Hc E1)); [|cbn; lia].
    apply get_result_set_same. }
  destruct (is_null (get_result h2 (resultIndex ctx + 1))) eqn:Hnull;
    cbn [negb] in H2.
  - inv_line H2. injection H2 as <- <-.
    exists (S (1 + S (m1 + S (1 + 1)))), h1. split.
    + eapply (seq_run _ _ _ _ 1 _ _ _ fr st a1 st); [reflexivity|].
      eapply (seq_run _ _ _ _ m1 _ _ _ a1 st h1 st1 _ _ E1).
      eapply (seq_run _ _ _ _ 1 1 _ _ h1 st1 h1 st1); [|reflexivity].
      cbn [exec eval_cond]. by rewrite HR, Hnull.
    + by rewrite get_result_set_same, Harr.
  - inv_seq H2 as m4 h2' s2 H3. inv_line H3. cbn [map] in H3.
    injection H3 as <- <-.
    inv_seq H2 as m5 fr5 st5 H4. inv_skip H2.
    set (h2' := set_result (resultIndex ctx) (VArr []) h2) in *.
    assert (S0 : same_result (resultIndex ctx) h2' h1)
      by (unfold same_result, h2'; by rewrite Harr, get_result_set_same).
    assert (S1 : same_result (resultIndex ctx + 1) h2' h1)
      by (unfold same_result, h2'; by rewrite get_result_set_other by lia).
    pose proof (loop_same m5 h2' h1 st1 S0 S1) as Hloop.
    cbn [block fold_right] in Hloop. rewrite H4 in Hloop.
    destruct (run m5 _ h1 st1) as [fr' st5'| |] eqn:E5; cbn in Hloop;
      try done.
    destruct Hloop as [<- HR5]. unfold same_result in HR5.
    destruct (star_loop_grows m5 h2' st1 fr5 st5 []
                (get_result_set_same _ _ _) H4) as (more & Harr5 & Hmore).
    unfold h2' in Hmore. rewrite get_result_set_other in Hmore by lia.
    rewrite Hnull in Hmore. cbn [app] in Harr5.
    exists (S (1 + S (m1 + S (m5 + 1)))), fr'. split.
    + eapply (seq_run _ _ _ _ 1 _ _ _ fr st a1 st); [reflexivity|].
      eapply (seq_run _ _ _ _ m1 _ _ _ a1 st h1 st1 _ _ E1).
      by eapply (seq_run _ _ _ _ m5 1 _ _ h1 st1 fr' st5).
    + rewrite <- HR5, Harr5. by destruct more.
Qed.

End PlusStar.

(** [one_or_more] does what [zero_or_more] does, except that it yields
    [null] where [zero_or_more] yields the empty array: from the same
    variables and state both texts end together, in the same parser
    state. *)
Theorem one_or_more_is_zero_or_more_not_empty prog user input memo e ctx c :
  emit e {| resultIndex := resultIndex ctx + 1; posIndex := posIndex ctx |}
  = Some c ->
  forall fr st st',
    (forall fr',
       (exists fuel, exec prog user input memo fuel
                       (code_of (zero_or_more e) ctx) fr st = Done fr' st') ->
       exists fuel fr'',
         exec prog user input memo fuel (code_of (one_or_more e) ctx) fr st
         = Done fr'' st'
         /\ get_result fr'' (resultIndex ctx)
            = match get_result fr' (resultIndex ctx) with
              | VArr [] => VNull
              | v => v
              end)
    /\ (forall fr'',
          (exists fuel, exec prog user input memo fuel
                          (code_of (one_or_more e) ctx) fr st = Done fr'' st') ->
          exists fuel fr',
            exec prog user input memo fuel (code_of (zero_or_more e) ctx) fr st
            = Done fr' st'
            /\ get_result fr'' (resultIndex ctx)
               = match get_result fr' (resultIndex ctx) with
                 | VArr [] => VNull
                 | v => v
                 end).
Proof.
  intros Hc fr st st'. split.
  - intros fr' [fuel H].
    exact (star_then_plus prog user input memo e ctx c Hc fuel fr st fr' st' H).
  - intros fr'' [fuel H].
    exact (plus_then_star prog user input memo e ctx c Hc fuel fr st fr'' st' H).
Qed.

Lemma one_or_more_is_zero_or_more_not_empty_witness :
  exists fuel fr'' st',
    exec [] no_user_code (js "b") true fuel
      (code_of (one_or_more (literal (js "a"))) ctx0) empty_frame initial_pstate
    = Done fr'' st'
    /\ get_result fr'' 0 = VNull.
Proof.
  destruct (exec [] no_user_code (js "b") true 40
              (code_of (zero_or_more (literal (js "a"))) ctx0) empty_frame
              initial_pstate) as [fr' st'| |] eqn:E;
    [|vm_compute in E; discriminate E..].
  destruct (one_or_more_is_zero_or_more_not_empty [] no_user_code (js "b") true
              (literal (js "a")) ctx0
              (code_of (literal (js "a")) {| resultIndex := 1; posIndex := 0 |})
              eq_refl empty_frame initial_pstate st') as [Hstar _].
  destruct (Hstar fr' (ex_intro _ 40%nat E)) as (fuel & fr'' & Hrun & Hres).
  exists fuel, fr'', st'. split; [exact Hrun|]. etrans; [exact Hres|].
  vm_compute in E. by injection E as <- _.
Defined.
